(** * pesadb: the WAL storage engine and the hash-join operator

    A shallow embedding of [src/c/wal_db_upgraded.c], [src/c/hashjoin.c]
    and the older [src/hashjoin.c].

    Files are byte lists with a descriptor offset, exactly as the C code
    sees them through [read], [write] and [lseek]; 32-bit fields are [Z]
    with their wrap-around written out; the process-wide statics of the
    engine form one record that every operation threads through. *)

From Stdlib Require Import String Ascii DecimalString.
From Stdlib Require Import ZArith List Lia Bool Arith PeanoNat.
From Stdlib Require Import Strings.Byte.
Import ListNotations.

Local Open Scope Z_scope.

(** ** Constants of [wal_db_upgraded.c] *)

Definition PAGE_SIZE : nat := 4096.
Definition MAX_TX : Z := 1024.
Definition MAX_READERS : nat := 32.
Definition CACHE_SIZE : nat := 64.
Definition WAL_MAGIC_COMMIT : Z := 0xC0DECAFE.

Definition WAL_PAGE : Z := 1.
Definition WAL_COMMIT : Z := 2.

(** [sizeof(WalCommitRecord)]: three [uint32_t]. *)
Definition COMMIT_REC_SIZE : nat := 12.
(** [sizeof(WalPageRecord)]: three [uint32_t] and the payload. *)
Definition PAGE_REC_SIZE : nat := 12 + PAGE_SIZE.

Definition U32_MOD : Z := 2 ^ 32.
Definition U64_MOD : Z := 2 ^ 64.
Definition ULLONG_MAX : Z := 2 ^ 64 - 1.

(** Conversion of a [uint64_t] to the signed [off_t]. *)
Definition to_off_t (z : Z) : Z :=
  if z <? 2 ^ 63 then z else z - U64_MOD.

(** Conversion of an [int] or a wider value to [uint32_t]. *)
Definition to_u32 (z : Z) : Z := z mod U32_MOD.

(** ** Bytes and 32-bit fields

    The structs go to the file as they sit in memory; the fields are
    little-endian, as on the host of the reference. *)

Definition byte_of_Z (z : Z) : byte :=
  match Byte.of_N (Z.to_N (z mod 256)) with
  | Some b => b
  | None => x00
  end.

Definition Z_of_byte (b : byte) : Z := Z.of_N (Byte.to_N b).

Definition encode_u32 (z : Z) : list byte :=
  [ byte_of_Z z; byte_of_Z (z / 256);
    byte_of_Z (z / 65536); byte_of_Z (z / 16777216) ].

Definition decode_u32 (bs : list byte) : Z :=
  match bs with
  | b0 :: b1 :: b2 :: b3 :: _ =>
      Z_of_byte b0 + 256 * Z_of_byte b1
      + 65536 * Z_of_byte b2 + 16777216 * Z_of_byte b3
  | _ => 0
  end.

Definition zero_page : list byte := repeat x00 PAGE_SIZE.

(** ** Files

    A descriptor is the file's bytes and the current offset. [read]
    returns what is there (fewer bytes at the end of the file, none past
    it) and advances; [write] overwrites at the offset, zero-filling a
    hole when the offset lies past the end, and changes nothing when it
    is given no bytes. *)
Module File.

Record fd : Type := mk { content : list byte; offset : nat }.

Definition size (f : fd) : nat := length (content f).

Definition pread (bytes : list byte) (off n : nat) : list byte :=
  firstn n (skipn off bytes).

Definition pwrite (bytes : list byte) (off : nat) (data : list byte)
  : list byte :=
  match data with
  | [] => bytes
  | _ :: _ =>
    firstn off bytes ++ repeat x00 (off - length bytes)
      ++ data ++ skipn (off + length data) bytes
  end.

Definition read (n : nat) (f : fd) : list byte * fd :=
  let got := pread (content f) (offset f) n in
  (got, mk (content f) (offset f + length got)).

Definition write (data : list byte) (f : fd) : fd :=
  mk (pwrite (content f) (offset f) data) (offset f + length data).

Definition lseek_set (pos : nat) (f : fd) : fd := mk (content f) pos.

(** [lseek(fd, delta, SEEK_CUR)]; a negative target fails with EINVAL
    and leaves the offset where it was. *)
Definition lseek_cur (delta : Z) (f : fd) : fd :=
  let target := Z.of_nat (offset f) + delta in
  if target <? 0 then f else mk (content f) (Z.to_nat target).

(** [lseek(fd, 0, SEEK_END)], with the offset it returns. *)
Definition lseek_end (f : fd) : Z * fd :=
  (Z.of_nat (size f), mk (content f) (size f)).

End File.

(** ** WAL records *)

Record WalPageRecord : Type := mkPageRecord {
  pr_type : Z;
  pr_tx_id : Z;
  pr_page_id : Z;
  pr_data : list byte
}.

Record WalCommitRecord : Type := mkCommitRecord {
  cr_type : Z;
  cr_tx_id : Z;
  cr_magic : Z
}.

Definition encode_page_record (r : WalPageRecord) : list byte :=
  encode_u32 (pr_type r) ++ encode_u32 (pr_tx_id r)
    ++ encode_u32 (pr_page_id r) ++ pr_data r.

Definition encode_commit_record (r : WalCommitRecord) : list byte :=
  encode_u32 (cr_type r) ++ encode_u32 (cr_tx_id r)
    ++ encode_u32 (cr_magic r).

(** The struct as it sits in memory after [read] filled [buf]. *)
Definition decode_page_record (buf : list byte) : WalPageRecord :=
  mkPageRecord (decode_u32 buf) (decode_u32 (skipn 4 buf))
    (decode_u32 (skipn 8 buf)) (firstn PAGE_SIZE (skipn 12 buf)).

Definition decode_commit_record (buf : list byte) : WalCommitRecord :=
  mkCommitRecord (decode_u32 buf) (decode_u32 (skipn 4 buf))
    (decode_u32 (skipn 8 buf)).

(** ** The [committed] array, [bool committed[MAX_TX]] *)

Fixpoint list_set {A : Type} (l : list A) (i : nat) (x : A) : list A :=
  match l, i with
  | [], _ => []
  | _ :: t, O => x :: t
  | h :: t, S j => h :: list_set t j x
  end.

Definition committed_init : list bool := repeat false (Z.to_nat MAX_TX).

Definition committed_get (c : list bool) (tx : Z) : bool :=
  nth (Z.to_nat tx) c false.

Definition committed_set (c : list bool) (tx : Z) : list bool :=
  list_set c (Z.to_nat tx) true.

(** [if (cr.magic == WAL_MAGIC_COMMIT && cr.tx_id < MAX_TX)
       committed[cr.tx_id] = true;] *)
Definition note_commit (c : list bool) (cr : WalCommitRecord) : list bool :=
  if (cr_magic cr =? WAL_MAGIC_COMMIT) && (cr_tx_id cr <? MAX_TX)
  then committed_set c (cr_tx_id cr) else c.

(** [pr.tx_id < MAX_TX && committed[pr.tx_id]] *)
Definition is_committed (c : list bool) (tx : Z) : bool :=
  (tx <? MAX_TX) && committed_get c tx.

(** ** Data file I/O *)

Definition page_offset (page_id : Z) : nat := Z.to_nat page_id * PAGE_SIZE.

(** [read_page_from_db]: a read that returns nothing zeroes [out]; a
    short read leaves the tail of [out] as the caller had it. *)
Definition read_page_from_db (db : list byte) (page_id : Z)
    (out : list byte) : list byte :=
  match File.pread db (page_offset page_id) PAGE_SIZE with
  | [] => zero_page
  | got => got ++ skipn (length got) out
  end.

(** [write_page_to_db]: seek, then write the whole page. *)
Definition write_page_to_db (db : list byte) (page_id : Z)
    (data : list byte) : list byte :=
  File.pwrite db (page_offset page_id) data.

(** ** The WAL scanners

    A struct that [read] fills only in part keeps, behind the part
    read, the bytes it held before: those of the record read into it
    last, or what the stack held when the scan began. [stale n i] is
    byte [i] of the [n]-byte buffer at that moment. Within one scan only
    the last read of a buffer can be short, so one such function
    describes the whole scan; nothing is assumed about it, and two scans
    need not see the same one. *)
Section Scanners.

Variable stale : nat -> nat -> byte.

Definition fill (n : nat) (buf : list byte) : list byte :=
  buf ++ map (stale n) (seq (length buf) (n - length buf)).

(** *** Recovery: [wal_recover] *)

Fixpoint recover_loop (fuel : nat) (committed : list bool)
    (wal : File.fd) (db : list byte) : option (File.fd * list byte) :=
  match fuel with
  | O => None
  | S fuel' =>
    let '(tbuf, wal1) := File.read 4 wal in
    match tbuf with
    | [] => Some (wal1, db)
    | _ :: _ =>
      let type := decode_u32 (fill 4 tbuf) in
      let wal2 := File.lseek_cur (-4) wal1 in
      if type =? WAL_COMMIT then
        let '(buf, wal3) := File.read COMMIT_REC_SIZE wal2 in
        let cr := decode_commit_record (fill COMMIT_REC_SIZE buf) in
        recover_loop fuel' (note_commit committed cr) wal3 db
      else
        let '(buf, wal3) := File.read PAGE_REC_SIZE wal2 in
        let pr := decode_page_record (fill PAGE_REC_SIZE buf) in
        let db' :=
          if is_committed committed (pr_tx_id pr)
          then write_page_to_db db (pr_page_id pr) (pr_data pr)
          else db in
        recover_loop fuel' committed wal3 db'
    end
  end.

(** Every iteration moves the offset forward, so [S (size wal)]
    iterations reach the end of the file (see [recover_loop_total]). *)
Definition wal_recover (wal : File.fd) (db : list byte)
  : File.fd * list byte :=
  match recover_loop (S (File.size wal)) committed_init
          (File.lseek_set 0 wal) db with
  | Some r => r
  | None => (wal, db)
  end.

(** *** Snapshot lookup: [wal_read_page] *)

(** The forward pass; [pos] is the C variable, the descriptor keeps
    its own offset. *)
Fixpoint snapshot_forward (fuel : nat) (pos snapshot : Z)
    (committed : list bool) (wal : File.fd)
  : option (list bool * File.fd) :=
  match fuel with
  | O => None
  | S fuel' =>
    if pos <? to_off_t snapshot then
      let '(tbuf, wal1) := File.read 4 wal in
      match tbuf with
      | [] => Some (committed, wal1)
      | _ :: _ =>
        let type := decode_u32 (fill 4 tbuf) in
        let wal2 := File.lseek_cur (-4) wal1 in
        if type =? WAL_COMMIT then
          let '(buf, wal3) := File.read COMMIT_REC_SIZE wal2 in
          let cr := decode_commit_record (fill COMMIT_REC_SIZE buf) in
          snapshot_forward fuel' (pos + Z.of_nat COMMIT_REC_SIZE) snapshot
            (note_commit committed cr) wal3
        else
          let '(_, wal3) := File.read PAGE_REC_SIZE wal2 in
          snapshot_forward fuel' (pos + Z.of_nat PAGE_REC_SIZE) snapshot
            committed wal3
      end
    else Some (committed, wal)
  end.

(** The reverse pass: steps of [sizeof(WalPageRecord)] down from the
    snapshot. *)
Fixpoint snapshot_reverse (fuel : nat) (pos : Z) (page_id : Z)
    (committed : list bool) (wal : File.fd)
  : option (option WalPageRecord * File.fd) :=
  match fuel with
  | O => None
  | S fuel' =>
    if pos >? Z.of_nat PAGE_REC_SIZE then
      let pos' := pos - Z.of_nat PAGE_REC_SIZE in
      let wal1 := File.lseek_set (Z.to_nat pos') wal in
      let '(buf, wal2) := File.read PAGE_REC_SIZE wal1 in
      match buf with
      | [] => Some (None, wal2)
      | _ :: _ =>
        let pr := decode_page_record (fill PAGE_REC_SIZE buf) in
        if (pr_type pr =? WAL_PAGE) && (pr_page_id pr =? page_id)
           && is_committed committed (pr_tx_id pr)
        then Some (Some pr, wal2)
        else snapshot_reverse fuel' pos' page_id committed wal2
      end
    else Some (None, wal)
  end.

(** The record the lookup settles on, if any. Both passes end within
    the fuel given here (see [snapshot_forward_total] and
    [snapshot_reverse_total]). *)
Definition wal_find_page (page_id snapshot : Z) (wal : File.fd)
  : option WalPageRecord * File.fd :=
  match snapshot_forward (S (File.size wal)) 0 snapshot committed_init
          (File.lseek_set 0 wal) with
  | None => (None, wal)
  | Some (committed, wal1) =>
    match snapshot_reverse (S (File.size wal)) (to_off_t snapshot)
            page_id committed wal1 with
    | None => (None, wal1)
    | Some r => r
    end
  end.

(** [wal_read_page]: the flag it returns and [out] afterwards. *)
Definition wal_read_page (page_id snapshot : Z) (out : list byte)
    (wal : File.fd) : bool * list byte * File.fd :=
  match wal_find_page page_id snapshot wal with
  | (Some pr, wal') => (true, pr_data pr, wal')
  | (None, wal') => (false, out, wal')
  end.

(** *** Checkpoint scan: the loop of [checkpoint_int] *)

Fixpoint checkpoint_loop (fuel : nat) (pos safe : Z) (wal : File.fd)
    (db : list byte) : option (File.fd * list byte) :=
  match fuel with
  | O => None
  | S fuel' =>
    if pos <? to_off_t safe then
      let '(tbuf, wal1) := File.read 4 wal in
      match tbuf with
      | [] => Some (wal1, db)
      | _ :: _ =>
        let type := decode_u32 (fill 4 tbuf) in
        let wal2 := File.lseek_cur (-4) wal1 in
        if type =? WAL_PAGE then
          let '(buf, wal3) := File.read PAGE_REC_SIZE wal2 in
          let pr := decode_page_record (fill PAGE_REC_SIZE buf) in
          checkpoint_loop fuel' (pos + Z.of_nat PAGE_REC_SIZE) safe wal3
            (write_page_to_db db (pr_page_id pr) (pr_data pr))
        else
          let '(_, wal3) := File.read COMMIT_REC_SIZE wal2 in
          checkpoint_loop fuel' (pos + Z.of_nat COMMIT_REC_SIZE) safe
            wal3 db
      end
    else Some (wal, db)
  end.

(** The fuel suffices here as well (see [checkpoint_loop_total]). *)
Definition checkpoint_scan (safe : Z) (wal : File.fd) (db : list byte)
  : File.fd * list byte :=
  match checkpoint_loop (S (File.size wal)) 0 safe
          (File.lseek_set 0 wal) db with
  | Some r => r
  | None => (wal, db)
  end.

End Scanners.

(** The buffers of a process whose stack holds zero bytes only. *)
Definition zeroed : nat -> nat -> byte := fun _ _ => x00.

(** ** Engine state: the statics of [wal_db_upgraded.c]

    [reader_snapshots] and [cache] hold the used prefix of their arrays,
    so [reader_count] and [cache_count] are their lengths. Every access
    to the data file seeks first, so only its bytes are kept. A result
    of [None] is [exit(1)]. *)

Record WriteTxn : Type := mkWriteTxn { tx_id : Z }.
Record ReaderTxn : Type := mkReaderTxn { snapshot : Z }.

Record CachedPage : Type := mkCachedPage {
  page_id : Z;
  owner_tx : Z;
  dirty : bool;
  data : list byte
}.

Record State : Type := mkState {
  db : list byte;
  wal : File.fd;
  next_tx_id : Z;
  reader_snapshots : list Z;
  cache : list CachedPage;
  opened : bool
}.

Definition reader_count (s : State) : nat := length (reader_snapshots s).
Definition cache_count (s : State) : nat := length (cache s).

Definition with_wal (w : File.fd) (s : State) : State :=
  mkState (db s) w (next_tx_id s) (reader_snapshots s) (cache s) (opened s).
Definition with_db (d : list byte) (s : State) : State :=
  mkState d (wal s) (next_tx_id s) (reader_snapshots s) (cache s) (opened s).
Definition with_cache (c : list CachedPage) (s : State) : State :=
  mkState (db s) (wal s) (next_tx_id s) (reader_snapshots s) c (opened s).

(** [memcpy(dst, src, n)] on buffers of at least [n] bytes. *)
Definition memcpy (dst src : list byte) (n : nat) : list byte :=
  firstn n src ++ skipn n dst.

(** *** Transactions *)

Definition begin_write_txn (s : State) : WriteTxn * State :=
  (mkWriteTxn (next_tx_id s),
   mkState (db s) (wal s) (to_u32 (next_tx_id s + 1))
     (reader_snapshots s) (cache s) (opened s)).

Definition begin_read_txn (s : State) : ReaderTxn * State :=
  let '(end_off, w) := File.lseek_end (wal s) in
  let readers :=
    if (reader_count s <? MAX_READERS)%nat
    then reader_snapshots s ++ [end_off]
    else reader_snapshots s in
  (mkReaderTxn end_off,
   mkState (db s) w (next_tx_id s) readers (cache s) (opened s)).

(** *** Page cache *)

(** The index of the slot [find_cached_page] points to. *)
Fixpoint find_cached_page (c : list CachedPage) (pid : Z) : option nat :=
  match c with
  | [] => None
  | cp :: rest =>
    if page_id cp =? pid then Some O
    else option_map S (find_cached_page rest pid)
  end.

Definition get_or_create_cached_page (c : list CachedPage) (pid tx : Z)
  : option (nat * list CachedPage) :=
  match find_cached_page c pid with
  | Some i => Some (i, c)
  | None =>
    if (CACHE_SIZE <=? length c)%nat then None
    else Some (length c, c ++ [mkCachedPage pid tx false zero_page])
  end.

(** *** WAL writer *)

(** [rec.data] is a fresh local that [memcpy] fills whole from a source
    of a page or more. *)
Definition wal_append_page (tx : WriteTxn) (pid : Z) (d : list byte)
    (w : File.fd) : File.fd :=
  File.write
    (encode_page_record
       (mkPageRecord WAL_PAGE (tx_id tx) pid (memcpy zero_page d PAGE_SIZE)))
    w.

(** The [fsync] has no effect on the bytes. *)
Definition wal_commit (tx : WriteTxn) (w : File.fd) : File.fd :=
  File.write
    (encode_commit_record (mkCommitRecord WAL_COMMIT (tx_id tx)
                             WAL_MAGIC_COMMIT))
    w.

(** *** High-level API *)

Definition write_page_int (tx : WriteTxn) (pid : Z) (d : list byte)
    (s : State) : option State :=
  match get_or_create_cached_page (cache s) pid (tx_id tx) with
  | None => None
  | Some (i, c) =>
    let cp := nth i c (mkCachedPage 0 0 false []) in
    let cp' :=
      mkCachedPage (page_id cp) (tx_id tx) true
        (memcpy (data cp) d PAGE_SIZE) in
    Some (with_cache (list_set c i cp') s)
  end.

(** The [for] loop of [commit_tx] over the cache slots. *)
Fixpoint commit_pages (tx : WriteTxn) (c : list CachedPage) (w : File.fd)
  : list CachedPage * File.fd :=
  match c with
  | [] => ([], w)
  | cp :: rest =>
    if dirty cp && (owner_tx cp =? tx_id tx) then
      let w1 := wal_append_page tx (page_id cp) (data cp) w in
      let '(rest', w2) := commit_pages tx rest w1 in
      (mkCachedPage (page_id cp) (owner_tx cp) false (data cp) :: rest', w2)
    else
      let '(rest', w2) := commit_pages tx rest w in
      (cp :: rest', w2)
  end.

Definition commit_tx (tx : WriteTxn) (s : State) : State :=
  let '(c, w) := commit_pages tx (cache s) (wal s) in
  with_wal (wal_commit tx w) (with_cache c s).

(** *** Checkpoint horizon *)

Definition oldest_reader_snapshot (s : State) : Z :=
  match reader_snapshots s with
  | [] => 0
  | _ :: _ =>
    fold_left (fun m x => if x <? m then x else m)
      (reader_snapshots s) ULLONG_MAX
  end.

(** *** Process start and crash

    What survives a process is the two files; a new process starts from
    the initial values of the statics. *)
Record Disk : Type := mkDisk { disk_db : list byte; disk_wal : list byte }.

Definition boot (d : Disk) : State :=
  mkState (disk_db d) (File.mk (disk_wal d) 0) 1 [] [] false.

Definition crash (s : State) : Disk :=
  mkDisk (db s) (File.content (wal s)).

Section Engine.

Variable stale : nat -> nat -> byte.

Definition read_page_int (rx : ReaderTxn) (pid : Z) (out : list byte)
    (s : State) : list byte * State :=
  match find_cached_page (cache s) pid with
  | Some i =>
    let cp := nth i (cache s) (mkCachedPage 0 0 false []) in
    (memcpy out (data cp) PAGE_SIZE, s)
  | None =>
    let '(found, out1, w) :=
      wal_read_page stale pid (snapshot rx) out (wal s) in
    if found then (out1, with_wal w s)
    else (read_page_from_db (db s) pid out1, with_wal w s)
  end.

Definition checkpoint_int (s : State) : State :=
  let safe := oldest_reader_snapshot s in
  let '(w, d) := checkpoint_scan stale safe (wal s) (db s) in
  with_db d (with_wal w s).

(** [waldb_open]: [open_database] gives fresh descriptors, then
    recovery runs; a second call returns at once. *)
Definition waldb_open (s : State) : State :=
  if opened s then s
  else
    let '(w, d) :=
      wal_recover stale (File.mk (File.content (wal s)) 0) (db s) in
    mkState d w (next_tx_id s) (reader_snapshots s) (cache s) true.

Definition waldb_begin_write := begin_write_txn.
Definition waldb_begin_read := begin_read_txn.
Definition waldb_write_page := write_page_int.
Definition waldb_read_page := read_page_int.
Definition waldb_commit := commit_tx.
Definition waldb_checkpoint := checkpoint_int.

(** *** The exported entry points

    A handle is a pointer: [None] is [NULL]. *)

Definition open_db (s : State) : State := waldb_open s.

Definition begin_read (s : State) : option ReaderTxn * State :=
  let '(r, s') := waldb_begin_read s in (Some r, s').

Definition begin_write (s : State) : option WriteTxn * State :=
  let '(t, s') := waldb_begin_write s in (Some t, s').

Definition commit (txn_ptr : option WriteTxn) (s : State) : State :=
  match txn_ptr with
  | None => s
  | Some txn => waldb_commit txn s
  end.

Definition checkpoint (s : State) : State := waldb_checkpoint s.

(** The static [buffer] is zeroed on entry. *)
Definition read_page (txn_ptr : option ReaderTxn) (pid : Z) (s : State)
  : list byte * State :=
  let buffer := zero_page in
  match txn_ptr with
  | None => (buffer, s)
  | Some txn => waldb_read_page txn (to_u32 pid) buffer s
  end.

Definition write_page (txn_ptr : option WriteTxn) (pid : Z)
    (d : option (list byte)) (s : State) : option State :=
  match txn_ptr, d with
  | Some txn, Some bytes => waldb_write_page txn (to_u32 pid) bytes s
  | _, _ => Some s
  end.

End Engine.

(** * The hash-join operator, [src/c/hashjoin.c]

    Rows and keys are C strings. The Python calls the operator makes
    ([PyUnicode_FromString], [json.loads], [str], [json.dumps] and the
    UTF-8 view of their results) are parameters of the model; the
    table, the probing, the output bookkeeping and the handling of a
    failed call are the C code. [malloc] and [realloc] are taken to
    succeed, and reference counts are not modelled.

    The module first gives the run in which no call raises and no [int]
    wraps (the [clean_] functions, over a [loads] that yields a
    dictionary or nothing), then the operator itself, [hash_join], with
    the error indicator of the interpreter and [int] arithmetic. *)
Module HashJoin.

Definition HASH_SIZE : nat := 4096.
Definition INIT_CAP : nat := 4.

(** [count] is the length of [rows]; a slot that was never filled has
    the [NULL] key the [memset] left. *)
Record HashEntry : Type := mkEntry {
  key : option string;
  rows : list string;
  cap : nat
}.

Definition empty_entry : HashEntry := mkEntry None [] 0.

Definition empty_table : list HashEntry := repeat empty_entry HASH_SIZE.

(** *** [hash_str]: djb2 on [unsigned long], with [char] signed *)

Definition wrap64 (z : Z) : Z := z mod U64_MOD.

Definition int_of_char (c : ascii) : Z :=
  let n := Z.of_nat (nat_of_ascii c) in
  if n <? 128 then n else n - 256.

Fixpoint hash_from (h : Z) (s : string) : Z :=
  match s with
  | EmptyString => h
  | String c rest =>
      hash_from (wrap64 (wrap64 (wrap64 (Z.shiftl h 5) + h) + int_of_char c))
        rest
  end.

Definition hash_str (s : string) : Z := hash_from 5381 s.

Definition slot_of (k : string) : nat :=
  Z.to_nat (hash_str k mod Z.of_nat HASH_SIZE).

(** *** Linear probing

    The loop shared by the build and the probe phase:
    [while (table[idx].key != NULL) { if (strcmp(...) == 0) break;
      idx = (idx + 1) % HASH_SIZE; if (idx == start) <full>; }]. *)
Inductive probe_result : Type :=
| Stop (idx : nat)
| Full.

Fixpoint probe_loop (fuel : nat) (table : list HashEntry) (k : string)
    (idx start : nat) : option probe_result :=
  match fuel with
  | O => None
  | S fuel' =>
    match key (nth idx table empty_entry) with
    | None => Some (Stop idx)
    | Some k' =>
      if String.eqb k' k then Some (Stop idx)
      else
        let idx' := ((idx + 1) mod HASH_SIZE)%nat in
        if (idx' =? start)%nat then Some Full
        else probe_loop fuel' table k idx' start
    end
  end.

(** The index comes back to [start] within [HASH_SIZE] steps, so the
    fuel is never used up (see [probe_loop_total]). *)
Definition probe (table : list HashEntry) (k : string) : probe_result :=
  match probe_loop HASH_SIZE table k (slot_of k) (slot_of k) with
  | Some r => r
  | None => Full
  end.

(** The slot the probe for a key starting at [start] looks at in its
    step number [j]. *)
Definition probe_pos (start j : nat) : nat :=
  ((start + j) mod HASH_SIZE)%nat.

(** The probe for [k] walks on at slot [i]: it holds another key. *)
Definition held_by_other (table : list HashEntry) (k : string) (i : nat)
  : Prop :=
  exists k', key (nth i table empty_entry) = Some k' /\ k' <> k.

(** The probe for [k] ends at slot [i]: it is free or holds [k]. *)
Definition ends_probe (table : list HashEntry) (k : string) (i : nat)
  : Prop :=
  key (nth i table empty_entry) = None
  \/ key (nth i table empty_entry) = Some k.

Definition is_occupied (e : HashEntry) : bool :=
  match key e with Some _ => true | None => false end.

(** The table after the rows [ks], given as (key, row) pairs with
    pairwise different keys, went in: every filled slot holds one of
    them, reachable from the key's own slot over filled slots only;
    every pair sits in some slot; no key sits in two. *)
Record table_inv (t : list HashEntry) (ks : list (string * string))
  : Prop := mkTableInv {
  inv_length : length t = HASH_SIZE;
  inv_slot :
    forall i k,
      (i < HASH_SIZE)%nat -> key (nth i t empty_entry) = Some k ->
      (exists row, In (k, row) ks /\ rows (nth i t empty_entry) = [row])
      /\ (forall j,
             (j < HASH_SIZE)%nat -> probe_pos (slot_of k) j = i ->
             forall j', (j' < j)%nat ->
               key (nth (probe_pos (slot_of k) j') t empty_entry) <> None);
  inv_present :
    forall k row,
      In (k, row) ks ->
      exists i, (i < HASH_SIZE)%nat /\ key (nth i t empty_entry) = Some k;
  inv_unique :
    forall i j k,
      (i < HASH_SIZE)%nat -> (j < HASH_SIZE)%nat ->
      key (nth i t empty_entry) = Some k ->
      key (nth j t empty_entry) = Some k -> i = j;
  inv_count : length (filter is_occupied t) = length ks
}.

(** *** Python dictionaries: insertion-ordered, one entry per key *)

Section Dict.

Variable value : Type.

Definition dict : Type := list (string * value).

(** [PyDict_GetItemString] *)
Fixpoint dict_get (d : dict) (k : string) : option value :=
  match d with
  | [] => None
  | (k', v) :: rest => if String.eqb k' k then Some v else dict_get rest k
  end.

(** [d[k] = v] *)
Fixpoint dict_set (d : dict) (k : string) (v : value) : dict :=
  match d with
  | [] => [(k, v)]
  | (k', v') :: rest =>
      if String.eqb k' k then (k', v) :: rest
      else (k', v') :: dict_set rest k v
  end.

(** [PyDict_Update(m, o)] *)
Definition dict_update (m o : dict) : dict :=
  fold_left (fun acc kv => dict_set acc (fst kv) (snd kv)) o m.

(** [PyDict_Copy] then [PyDict_Update]. *)
Definition merge (inner outer : dict) : dict := dict_update inner outer.

End Dict.

Arguments dict_get {value}.
Arguments dict_set {value}.
Arguments dict_update {value}.
Arguments merge {value}.

Section Join.

Variable value : Type.

(** The dictionary a row holds, if it holds one. *)
Variable loads : string -> option (dict value).

(** [PyUnicode_AsUTF8(PyObject_Str(v))] as a C string. *)
Variable key_cstr : value -> option string.

(** [PyUnicode_AsUTF8(json.dumps(d))] as a C string. *)
Variable dumps : dict value -> option string.

(** The key of a row under field [field], when the row has one. *)
Definition row_key (field row : string) : option string :=
  match loads row with
  | None => None
  | Some d =>
    match dict_get d field with
    | None => None
    | Some v => key_cstr v
    end
  end.

(** *** Build phase *)

(** The slot update that stores one more row under [k]. *)
Definition store_row (table : list HashEntry) (idx : nat)
    (k row : string) : list HashEntry :=
  let e := nth idx table empty_entry in
  let e1 :=
    match key e with
    | None => mkEntry (Some k) [] INIT_CAP
    | Some _ => e
    end in
  let e2 :=
    if (length (rows e1) =? cap e1)%nat
    then mkEntry (key e1) (rows e1) (cap e1 * 2)
    else e1 in
  list_set table idx (mkEntry (key e2) (rows e2 ++ [row]) (cap e2)).

(** The build loop when no call raises; [None] is the jump to
    [cleanup] on a full table. *)
Fixpoint clean_build (inner_key : string) (inner_rows : list string)
    (table : list HashEntry) : option (list HashEntry) :=
  match inner_rows with
  | [] => Some table
  | row :: rest =>
    match row_key inner_key row with
    | None => clean_build inner_key rest table
    | Some k =>
      match probe table k with
      | Full => None
      | Stop idx => clean_build inner_key rest (store_row table idx k row)
      end
    end
  end.

(** *** Probe phase *)

(** [out_pos], [result_count] and the rows written so far; each row
    occupies its bytes and a terminating zero in the buffer. *)
Record Output : Type := mkOutput {
  out_pos : Z;
  result_count : Z;
  written : list string
}.

Definition strlen (s : string) : Z := Z.of_nat (String.length s).

(** The body of the loop over the rows stored under the key, when no
    call raises and no [int] wraps. *)
Definition clean_emit (output_buf_size : Z) (outer_dict : dict value)
    (o : Output) (stored : string) : Output :=
  match loads stored with
  | None => o
  | Some inner_dict =>
    match dumps (merge inner_dict outer_dict) with
    | None => o
    | Some out =>
      let len := strlen out + 1 in
      if out_pos o + len <=? output_buf_size
      then mkOutput (out_pos o + len) (result_count o + 1)
             (written o ++ [out])
      else o
    end
  end.

Definition clean_probe_row (outer_key : string) (output_buf_size : Z)
    (table : list HashEntry) (o : Output) (row : string) : Output :=
  match loads row with
  | None => o
  | Some outer_dict =>
    match dict_get outer_dict outer_key with
    | None => o
    | Some v =>
      match key_cstr v with
      | None => o
      | Some k =>
        match probe table k with
        | Full => o
        | Stop idx =>
          let e := nth idx table empty_entry in
          match key e with
          | None => o
          | Some _ =>
              fold_left (clean_emit output_buf_size outer_dict) (rows e) o
          end
        end
      end
    end
  end.

(** The join when no call raises and no [int] wraps: the count and the
    rows written. *)
Definition clean_join (inner_rows outer_rows : list string)
    (inner_key outer_key : string) (output_buf_size : Z)
  : Z * list string :=
  match clean_build inner_key inner_rows empty_table with
  | None => (0, [])
  | Some table =>
    let o :=
      fold_left (clean_probe_row outer_key output_buf_size table) outer_rows
        (mkOutput 0 0 []) in
    (result_count o, written o)
  end.

(** *** What the contract asks for *)

(** The inner row whose key is [k], if any. *)
Definition matching_inner (inner_key : string)
    (inner_rows : list string) (k : string) : option string :=
  find (fun row =>
          match row_key inner_key row with
          | Some k' => String.eqb k' k
          | None => false
          end) inner_rows.

(** The merged row an outer row gives rise to, if it has a key that
    an inner row carries. *)
Definition joined_row (inner_key outer_key : string)
    (inner_rows : list string) (outer : string) : option string :=
  match row_key outer_key outer, loads outer with
  | Some k, Some outer_dict =>
    match matching_inner inner_key inner_rows k with
    | Some inner =>
      match loads inner with
      | Some inner_dict => dumps (merge inner_dict outer_dict)
      | None => None
      end
    | None => None
    end
  | _, _ => None
  end.

Definition expected_rows (inner_key outer_key : string)
    (inner_rows outer_rows : list string) : list string :=
  flat_map (fun outer =>
              match joined_row inner_key outer_key inner_rows outer with
              | Some out => [out]
              | None => []
              end) outer_rows.

(** The keys of the inner rows that have one. *)
Definition inner_keys (inner_key : string) (inner_rows : list string)
  : list string :=
  flat_map (fun row =>
              match row_key inner_key row with
              | Some k => [k]
              | None => []
              end) inner_rows.

(** The rows that have a key, each with its key. *)
Definition keyed_rows (field : string) (rows : list string)
  : list (string * string) :=
  flat_map (fun row =>
              match row_key field row with
              | Some k => [(k, row)]
              | None => []
              end) rows.

(** The outer rows whose key some inner row carries. *)
Definition matching_outer (inner_key outer_key : string)
    (inner_rows outer_rows : list string) : list string :=
  filter (fun outer =>
            match row_key outer_key outer with
            | Some k =>
                existsb (String.eqb k) (inner_keys inner_key inner_rows)
            | None => false
            end) outer_rows.

(** The room the expected rows need in the buffer. *)
Definition bytes_needed (rows : list string) : Z :=
  fold_right (fun r acc => strlen r + 1 + acc) 0 rows.

End Join.

(** *** The operator as the C code runs it *)

Definition INT_MAX : Z := 2 ^ 31 - 1.

(** Conversion to [int], and the result of an [int] addition: the value
    modulo 2^32 in two's complement, which is what the machines of the
    reference compute (the C standard leaves a signed overflow
    undefined). *)
Definition to_int (z : Z) : Z := (z + 2 ^ 31) mod 2 ^ 32 - 2 ^ 31.

(** What [PyUnicode_FromString] and [json.loads] do with a row: the
    row is no valid UTF-8 and there is no text object to parse; or
    [json.loads] raises; or it returns an object, which is a dictionary
    or something else. *)
Inductive loaded (value : Type) : Type :=
| NoText
| Raises
| NoDict
| Dict (d : dict value).

Arguments NoText {value}.
Arguments Raises {value}.
Arguments NoDict {value}.
Arguments Dict {value}.

(** The dictionary a row holds, if [json.loads] returns one. *)
Definition row_dict {value : Type} (loads : string -> loaded value)
    (row : string) : option (dict value) :=
  match loads row with
  | Dict d => Some d
  | NoText | Raises | NoDict => None
  end.

(** *** The error indicator, and the end of the process

    A call that raises returns [NULL] and sets the error indicator of
    the interpreter. The operator tests for [NULL] and goes on to the
    next row, and nowhere clears the indicator. While it is set, a call
    of [loads] returns [NULL] whatever the row ([PyObject_CallOneArg]
    turns a result that comes with an error set into a failure), so
    every later row fails to parse. [PyDict_GetItemString] sets no
    error.

    For a row that is no valid UTF-8, [PyUnicode_FromString] returns
    [NULL]; the operator passes it on to [loads] and to [Py_DECREF]
    without a test, which dereference it: the process is gone, and so
    is whatever the call would have returned. *)
Inductive status : Type :=
| Clear
| ErrorSet
| Crashed.

Definition is_clear (st : status) : bool :=
  match st with Clear => true | ErrorSet | Crashed => false end.

Definition has_crashed (st : status) : bool :=
  match st with Crashed => true | Clear | ErrorSet => false end.

Section Calls.

Variable value : Type.

(** [PyUnicode_FromString] and [json.loads] on a row. *)
Variable loads : string -> loaded value.

(** [PyUnicode_AsUTF8(PyObject_Str(v))] as a C string; [None] when the
    UTF-8 view raises. [PyObject_Str] itself is taken to succeed, as it
    does on the values [json.loads] returns. *)
Variable key_cstr : value -> option string.

(** [PyUnicode_AsUTF8(json.dumps(d))] as a C string; [None] when
    either call raises. *)
Variable dumps : dict value -> option string.

(** The first steps of both loops on a row: the dictionary and the key
    string when there are both, and the status afterwards. *)
Definition read_key (field row : string) (st : status)
  : option (dict value * string) * status :=
  match st with
  | Crashed => (None, Crashed)
  | ErrorSet =>
    match loads row with
    | NoText => (None, Crashed)
    | Raises | NoDict | Dict _ => (None, ErrorSet)
    end
  | Clear =>
    match loads row with
    | NoText => (None, Crashed)
    | Raises => (None, ErrorSet)
    | NoDict => (None, Clear)
    | Dict d =>
      match dict_get d field with
      | None => (None, Clear)
      | Some v =>
        match key_cstr v with
        | None => (None, ErrorSet)
        | Some k => (Some (d, k), Clear)
        end
      end
    end
  end.

(** The build loop; [None] is the jump to [cleanup] on a full table. *)
Fixpoint build (inner_key : string) (inner_rows : list string)
    (st : status) (table : list HashEntry)
  : option (list HashEntry * status) :=
  match inner_rows with
  | [] => Some (table, st)
  | row :: rest =>
    match read_key inner_key row st with
    | (None, st') => build inner_key rest st' table
    | (Some (_, k), st') =>
      match probe table k with
      | Full => None
      | Stop idx => build inner_key rest st' (store_row table idx k row)
      end
    end
  end.

(** The body of the loop over the rows stored under the key. [len],
    [out_pos], [result_count] and [output_buf_size] are [int]s. A stored
    row went through [read_key] before, so it is text and [loads]
    returns a dictionary for it unless the indicator is set. *)
Definition emit (output_buf_size : Z) (outer_dict : dict value)
    (acc : Output * status) (stored : string) : Output * status :=
  let '(o, st) := acc in
  match st with
  | Crashed => (o, Crashed)
  | ErrorSet =>
    match loads stored with
    | NoText => (o, Crashed)
    | Raises | NoDict | Dict _ => (o, ErrorSet)
    end
  | Clear =>
    match loads stored with
    | NoText => (o, Crashed)
    | Raises | NoDict => (o, ErrorSet)
    | Dict inner_dict =>
      match dumps (merge inner_dict outer_dict) with
      | None => (o, ErrorSet)
      | Some out =>
        let len := to_int (strlen out + 1) in
        if to_int (out_pos o + len) <=? output_buf_size
        then (mkOutput (to_int (out_pos o + len))
                (to_int (result_count o + 1)) (written o ++ [out]),
              Clear)
        else (o, Clear)
      end
    end
  end.

(** One iteration of the probe loop. *)
Definition probe_row (outer_key : string) (output_buf_size : Z)
    (table : list HashEntry) (acc : Output * status) (row : string)
  : Output * status :=
  let '(o, st) := acc in
  match read_key outer_key row st with
  | (None, st') => (o, st')
  | (Some (outer_dict, k), st') =>
    match probe table k with
    | Full => (o, st')
    | Stop idx =>
      let e := nth idx table empty_entry in
      match key e with
      | None => (o, st')
      | Some _ =>
          fold_left (emit output_buf_size outer_dict) (rows e) (o, st')
      end
    end
  end.

(** [hash_join] with the [json] module at hand, no error pending on
    entry and every allocation granted: the count it returns and the
    rows it copied to the buffer, in order; [None] when the process
    does not survive the call. *)
Definition hash_join (inner_rows outer_rows : list string)
    (inner_key outer_key : string) (output_buf_size : Z)
  : option (Z * list string) :=
  match build inner_key inner_rows Clear empty_table with
  | None => Some (0, [])
  | Some (table, st) =>
    let '(o, st') :=
      fold_left (probe_row outer_key output_buf_size table) outer_rows
        (mkOutput 0 0 [], st) in
    if has_crashed st' then None else Some (result_count o, written o)
  end.

(** A row on which no call of [read_key] fails. *)
Definition quiet (field row : string) : Prop :=
  snd (read_key field row Clear) = Clear.

(** A row [PyUnicode_FromString] accepts. *)
Definition is_text (row : string) : bool :=
  match loads row with
  | NoText => false
  | Raises | NoDict | Dict _ => true
  end.

(** Every row a slot holds is one of [inner_rows], and one that
    [json.loads] returns a dictionary for. *)
Definition stored_from (inner_rows : list string)
    (table : list HashEntry) : Prop :=
  Forall (fun e =>
            Forall (fun r => In r inner_rows /\ exists d, loads r = Dict d)
              (rows e))
    table.

(** No test of the emit loop leaves the range of [int]: the buffer
    size and the dump of any inner row merged with any outer row, with
    its terminating zero, add up to [INT_MAX] at most. *)
Definition fits_int (output_buf_size : Z)
    (inner_rows outer_rows : list string) : Prop :=
  forall inner outer inner_dict outer_dict out,
    In inner inner_rows -> In outer outer_rows ->
    loads inner = Dict inner_dict -> loads outer = Dict outer_dict ->
    dumps (merge inner_dict outer_dict) = Some out ->
    Z.max 0 output_buf_size + strlen out + 1 <= INT_MAX.

End Calls.

End HashJoin.

(** ** A concrete row codec

    [json.loads], [str] and [json.dumps] on the rows the examples use:
    ASCII text, flat objects whose keys and string values hold no quote
    or backslash and whose numbers are unsigned decimals; on any other
    text [loads] raises here. A number is kept as its digits, which is
    also what [str] returns for it. *)
Module MiniJson.

Import HashJoin.

Inductive value : Type :=
| Num (digits : string)
| Str (s : string).

Definition dq : ascii := "034"%char.

Definition is_digit (c : ascii) : bool :=
  let n := nat_of_ascii c in ((48 <=? n) && (n <=? 57))%nat.

Definition is_space (c : ascii) : bool := Ascii.eqb c " "%char.

Inductive pstate : Type :=
| AtStart
| WantKeyOrEnd
| WantKey
| InKey (acc : string)
| WantColon (k : string)
| WantValue (k : string)
| InStr (k acc : string)
| InNum (k acc : string)
| AfterValue
| Done.

Definition snoc (s : string) (c : ascii) : string :=
  (s ++ String c EmptyString)%string.

Fixpoint parse (st : pstate) (d : dict value) (s : string)
  : option (dict value) :=
  match s with
  | EmptyString => match st with Done => Some d | _ => None end
  | String c rest =>
    match st with
    | AtStart =>
        if is_space c then parse AtStart d rest
        else if Ascii.eqb c "{"%char then parse WantKeyOrEnd d rest
        else None
    | WantKeyOrEnd =>
        if is_space c then parse WantKeyOrEnd d rest
        else if Ascii.eqb c "}"%char then parse Done d rest
        else if Ascii.eqb c dq then parse (InKey EmptyString) d rest
        else None
    | WantKey =>
        if is_space c then parse WantKey d rest
        else if Ascii.eqb c dq then parse (InKey EmptyString) d rest
        else None
    | InKey acc =>
        if Ascii.eqb c dq then parse (WantColon acc) d rest
        else if Ascii.eqb c "\"%char then None
        else parse (InKey (snoc acc c)) d rest
    | WantColon k =>
        if is_space c then parse (WantColon k) d rest
        else if Ascii.eqb c ":"%char then parse (WantValue k) d rest
        else None
    | WantValue k =>
        if is_space c then parse (WantValue k) d rest
        else if Ascii.eqb c dq then parse (InStr k EmptyString) d rest
        else if is_digit c
             then parse (InNum k (String c EmptyString)) d rest
        else None
    | InStr k acc =>
        if Ascii.eqb c dq
        then parse AfterValue (dict_set d k (Str acc)) rest
        else if Ascii.eqb c "\"%char then None
        else parse (InStr k (snoc acc c)) d rest
    | InNum k acc =>
        if is_digit c then parse (InNum k (snoc acc c)) d rest
        else if is_space c
             then parse AfterValue (dict_set d k (Num acc)) rest
        else if Ascii.eqb c ","%char
             then parse WantKey (dict_set d k (Num acc)) rest
        else if Ascii.eqb c "}"%char
             then parse Done (dict_set d k (Num acc)) rest
        else None
    | AfterValue =>
        if is_space c then parse AfterValue d rest
        else if Ascii.eqb c ","%char then parse WantKey d rest
        else if Ascii.eqb c "}"%char then parse Done d rest
        else None
    | Done => if is_space c then parse Done d rest else None
    end
  end.

Definition loads (row : string) : loaded value :=
  match parse AtStart [] row with
  | Some d => Dict d
  | None => Raises
  end.

Definition key_cstr (v : value) : option string :=
  match v with
  | Num digits => Some digits
  | Str s => Some s
  end.

Definition quote (s : string) : string :=
  (String dq s ++ String dq EmptyString)%string.

Definition render (v : value) : string :=
  match v with
  | Num digits => digits
  | Str s => quote s
  end.

Fixpoint render_items (d : dict value) : string :=
  match d with
  | [] => EmptyString
  | [(k, v)] => (quote k ++ ": " ++ render v)%string
  | (k, v) :: rest =>
      (quote k ++ ": " ++ render v ++ ", " ++ render_items rest)%string
  end.

Definition dumps_text (d : dict value) : string :=
  ("{" ++ render_items d ++ "}")%string.

Definition dumps (d : dict value) : option string := Some (dumps_text d).

Definition join : list string -> list string -> string -> string -> Z
                  -> option (Z * list string) :=
  hash_join value loads key_cstr dumps.

(** *** The rows of the examples *)

Definition digits_of (n : nat) : string :=
  NilZero.string_of_uint (Nat.to_uint n).

Definition id_row (n : nat) : string :=
  dumps_text [("id"%string, Num (digits_of n))].

Definition inner_example : list string :=
  [ dumps_text [("id"%string, Num "1"); ("n"%string, Str "A")];
    dumps_text [("id"%string, Num "2"); ("n"%string, Str "B")] ].

Definition outer_example : list string :=
  [ dumps_text [("id"%string, Num "1"); ("v"%string, Num "10")];
    dumps_text [("id"%string, Num "2"); ("v"%string, Num "20")];
    dumps_text [("id"%string, Num "3"); ("v"%string, Num "30")] ].

(** A row [json.loads] raises on, then a row with the key 1; and an
    outer row with the key 1. *)
Definition malformed_inner : list string :=
  [ "{bad"%string;
    dumps_text [("id"%string, Num "1"); ("n"%string, Str "A")] ].

Definition one_outer : list string :=
  [ dumps_text [("id"%string, Num "1"); ("v"%string, Num "10")] ].

(** One inner row more than the table has slots, all keys distinct. *)
Definition many_inner : list string := map id_row (seq 0 (S HASH_SIZE)).

Fixpoint nodup_from (seen l : list string) : bool :=
  match l with
  | [] => true
  | x :: rest =>
      if existsb (String.eqb x) seen then false
      else nodup_from (x :: seen) rest
  end.

Definition nodupb (l : list string) : bool := nodup_from [] l.

End MiniJson.

(** ** Logs as sequences of whole records

    What the WAL writer produces: page records and commit records laid
    end to end. The scanners above work on the bytes; these definitions
    give the shape of a log that holds whole records only. *)

Inductive WalRecord : Type :=
| PageRec (r : WalPageRecord)
| CommitRec (r : WalCommitRecord).

Definition encode_record (r : WalRecord) : list byte :=
  match r with
  | PageRec p => encode_page_record p
  | CommitRec c => encode_commit_record c
  end.

Definition encode_log (rs : list WalRecord) : list byte :=
  flat_map encode_record rs.

Definition is_u32 (z : Z) : Prop := 0 <= z < U32_MOD.

Definition wf_record (r : WalRecord) : Prop :=
  match r with
  | PageRec p =>
      pr_type p = WAL_PAGE /\ is_u32 (pr_tx_id p) /\ is_u32 (pr_page_id p)
      /\ length (pr_data p) = PAGE_SIZE
  | CommitRec c =>
      cr_type c = WAL_COMMIT /\ is_u32 (cr_tx_id c) /\ is_u32 (cr_magic c)
  end.

Definition record_tx (r : WalRecord) : Z :=
  match r with
  | PageRec p => pr_tx_id p
  | CommitRec c => cr_tx_id c
  end.

(** A commit marker the scanners accept for transaction [t]. *)
Definition valid_commit_for (t : Z) (r : WalRecord) : Prop :=
  match r with
  | PageRec _ => False
  | CommitRec c => cr_tx_id c = t /\ cr_magic c = WAL_MAGIC_COMMIT
  end.

Definition no_valid_commit (t : Z) (rs : list WalRecord) : Prop :=
  forall r, In r rs -> ~ valid_commit_for t r.

Definition is_page_of (t : Z) (r : WalRecord) : bool :=
  match r with
  | PageRec p => pr_tx_id p =? t
  | CommitRec _ => false
  end.

(** The pass of [wal_recover] over whole records. *)
Fixpoint replay (rs : list WalRecord) (committed : list bool)
    (d : list byte) : list byte :=
  match rs with
  | [] => d
  | CommitRec c :: rest => replay rest (note_commit committed c) d
  | PageRec p :: rest =>
      replay rest committed
        (if is_committed committed (pr_tx_id p)
         then write_page_to_db d (pr_page_id p) (pr_data p) else d)
  end.

(** A run of page writes against the data file. *)
Definition apply_writes (ws : list (Z * list byte)) (d : list byte)
  : list byte :=
  fold_left (fun acc w => write_page_to_db acc (fst w) (snd w)) ws d.

Definition page_sized (w : Z * list byte) : Prop :=
  length (snd w) = PAGE_SIZE.

(** The [n]-th state of a process that only calls [begin_write]. *)
Definition after_begin_writes (n : N) (s : State) : State :=
  N.iter n (fun st => snd (begin_write_txn st)) s.

(** The transaction id the [k]-th call of [begin_write] returns in a
    fresh process, [k] counted from 1. *)
Definition kth_tx_id (k : N) : Z :=
  tx_id (fst (begin_write_txn
                (after_begin_writes (k - 1) (boot (mkDisk [] []))))).

(** The forward pass of [wal_read_page] over whole records: [pos] is the
    offset of the first record, [snap] the reader's snapshot. *)
Fixpoint forward_commits (rs : list WalRecord) (pos snap : Z)
    (committed : list bool) : list bool :=
  match rs with
  | [] => committed
  | r :: rest =>
    if pos <? to_off_t snap then
      match r with
      | CommitRec c =>
          forward_commits rest (pos + Z.of_nat COMMIT_REC_SIZE) snap
            (note_commit committed c)
      | PageRec _ =>
          forward_commits rest (pos + Z.of_nat PAGE_REC_SIZE) snap committed
      end
    else committed
  end.

(** The loop of [checkpoint_int] over whole records: every page record
    that starts below the horizon goes to the data file. *)
Fixpoint checkpoint_replay (rs : list WalRecord) (pos safe : Z)
    (d : list byte) : list byte :=
  match rs with
  | [] => d
  | r :: rest =>
    if pos <? to_off_t safe then
      match r with
      | PageRec p =>
          checkpoint_replay rest (pos + Z.of_nat PAGE_REC_SIZE) safe
            (write_page_to_db d (pr_page_id p) (pr_data p))
      | CommitRec _ =>
          checkpoint_replay rest (pos + Z.of_nat COMMIT_REC_SIZE) safe d
      end
    else d
  end.

(** What [commit_tx] appends for [tx]: a page record for each dirty slot
    it owns, in slot order, then its commit marker. *)
Definition commit_page_records (tx : WriteTxn) (c : list CachedPage)
  : list WalRecord :=
  map (fun cp => PageRec (mkPageRecord WAL_PAGE (tx_id tx) (page_id cp)
                            (memcpy zero_page (data cp) PAGE_SIZE)))
    (filter (fun cp => dirty cp && (owner_tx cp =? tx_id tx)) c).

Definition commit_marker (tx : WriteTxn) : WalRecord :=
  CommitRec (mkCommitRecord WAL_COMMIT (tx_id tx) WAL_MAGIC_COMMIT).

Definition commit_records (tx : WriteTxn) (c : list CachedPage)
  : list WalRecord :=
  commit_page_records tx c ++ [commit_marker tx].

(** ** Scenarios *)

Definition page_of (b : byte) : list byte := repeat b PAGE_SIZE.

Definition fresh : State := open_db zeroed (boot (mkDisk [] [])).

(** One write transaction that stages [d] for page [pid]. *)
Definition stage_one (pid : Z) (d : list byte) (s : State)
  : option WriteTxn * State :=
  let '(t, s1) := begin_write s in
  match write_page t pid (Some d) s1 with
  | Some s2 => (t, s2)
  | None => (t, s1)
  end.

Definition write_and_commit (pid : Z) (d : list byte) (s : State) : State :=
  let '(t, s1) := stage_one pid d s in commit t s1.

(** The engine after one committed write of page 0, and the process
    that opens the same files afterwards. *)
Definition after_commit : State := write_and_commit 0 (page_of x01) fresh.

Definition reopened : State := open_db zeroed (boot (crash after_commit)).

(** A commit interrupted between its page records and its marker: the
    loop of [commit_tx] has run, [wal_commit] has not. *)
Definition torn_commit : State :=
  let '(t, s1) := stage_one 0 (page_of xaa) fresh in
  match t with
  | Some tx =>
      let '(c, w) := commit_pages tx (cache s1) (wal s1) in
      with_wal w (with_cache c s1)
  | None => s1
  end.

Definition after_torn_commit : State := open_db zeroed (boot (crash torn_commit)).

(** Two readers registered, one before and one after a second commit. *)
Definition two_readers : State :=
  let '(_, s1) := begin_read after_commit in
  snd (begin_read (write_and_commit 1 (page_of x02) s1)).

(** No commit record of [t], valid or not, is in the log. *)
Definition no_commit_record (t : Z) (rs : list WalRecord) : Prop :=
  forall c, In (CommitRec c) rs -> cr_tx_id c <> t.

(** Every commit record of [t] in the log carries a wrong magic. *)
Definition only_bad_magic (t : Z) (rs : list WalRecord) : Prop :=
  forall c, In (CommitRec c) rs -> cr_tx_id c = t ->
            cr_magic c <> WAL_MAGIC_COMMIT.

(** The log a torn commit of transaction 1 leaves behind. *)
Definition torn_log : list WalRecord :=
  [PageRec (mkPageRecord WAL_PAGE 1 0 (page_of xaa))].

(** Pages of transaction 7 closed by a marker with a wrong magic, after
    a sound transaction 3. *)
Definition bad_magic_log : list WalRecord :=
  [PageRec (mkPageRecord WAL_PAGE 3 0 (page_of x03));
   CommitRec (mkCommitRecord WAL_COMMIT 3 WAL_MAGIC_COMMIT);
   PageRec (mkPageRecord WAL_PAGE 7 1 (page_of x07));
   CommitRec (mkCommitRecord WAL_COMMIT 7 0xDEADBEEF)].

(** A second process on the files [after_commit] left. Its first
    transaction gets the id 1 again; it stages page 5 and stops inside
    [commit_tx], after the page records and before [wal_commit]. *)
Definition torn_second_commit : State :=
  let '(t, s1) := stage_one 5 (page_of xaa) reopened in
  match t with
  | Some tx =>
      let '(c, w) := commit_pages tx (cache s1) (wal s1) in
      with_wal w (with_cache c s1)
  | None => s1
  end.

(** The log that crash leaves: the committed transaction of the first
    process, then the page record of the second one, with no marker
    after it. *)
Definition reused_id_torn_log : list WalRecord :=
  [PageRec (mkPageRecord WAL_PAGE 1 0 (page_of x01));
   CommitRec (mkCommitRecord WAL_COMMIT 1 WAL_MAGIC_COMMIT);
   PageRec (mkPageRecord WAL_PAGE 1 5 (page_of xaa))].

(** The same log when the marker of the second transaction reached the
    file with a wrong magic. *)
Definition reused_id_bad_magic_log : list WalRecord :=
  reused_id_torn_log
    ++ [CommitRec (mkCommitRecord WAL_COMMIT 1 0xDEADBEEF)].

(** A WAL that ends inside a page record: a marker of transaction 1,
    then the type and the transaction id of a page record and no more. *)
Definition torn_page_log : list byte :=
  encode_log [CommitRec (mkCommitRecord WAL_COMMIT 1 WAL_MAGIC_COMMIT)]
    ++ encode_u32 WAL_PAGE ++ encode_u32 1.

(** The struct [wal_recover] holds after it read that tail: the eight
    bytes of the file, and behind them what the buffer held before. *)
Definition torn_record (stale : nat -> nat -> byte) : WalPageRecord :=
  decode_page_record
    (fill stale PAGE_REC_SIZE (encode_u32 WAL_PAGE ++ encode_u32 1)).

(** A record buffer that held a page id of 0 and a payload of 0x01
    bytes before the scan. *)
Definition ones_behind_header : nat -> nat -> byte :=
  fun _ i => if (i <? 12)%nat then x00 else x01.

(** ** Inner rows that share a key *)
Module JoinPairs.

Import HashJoin.

(** The rows of [ks] that carry key [k], in order. *)
Definition rows_of (k : string) (ks : list (string * string))
  : list string :=
  map snd (filter (fun kr => String.eqb (fst kr) k) ks).

Definition has_key (k : string) (ks : list (string * string)) : bool :=
  existsb (fun kr => String.eqb (fst kr) k) ks.

(** The first pair of each key, in the order the keys first appear. *)
Definition firsts (ks : list (string * string)) : list (string * string) :=
  fold_left
    (fun acc kr => if has_key (fst kr) acc then acc else acc ++ [kr]) ks [].

(** A slot reduced to its key and the first row stored under it. *)
Definition skel_entry (e : HashEntry) : HashEntry :=
  mkEntry (key e) (firstn 1 (rows e)) 0.

(** The table after the (key, row) pairs [ks] went in, keys repeated
    or not: its keys sit as [table_inv] says for the first pair of each
    key, and a filled slot holds all the rows of its key, in order. *)
Definition multi_inv (t : list HashEntry) (ks : list (string * string))
  : Prop :=
  table_inv (map skel_entry t) (firsts ks)
  /\ forall i k,
       (i < HASH_SIZE)%nat -> key (nth i t empty_entry) = Some k ->
       rows (nth i t empty_entry) = rows_of k ks.

(** A slot whose [rows] array has room for the rows it holds: a free
    slot holds none; a filled one holds at least one and at most [cap],
    and [cap] is [INIT_CAP] doubled some number of times. *)
Definition entry_ok (e : HashEntry) : Prop :=
  match key e with
  | None => rows e = []
  | Some _ =>
      (1 <= length (rows e) <= cap e)%nat
      /\ exists j, cap e = (INIT_CAP * 2 ^ j)%nat
  end.

(** [out_pos] is the number of bytes the written rows take, it lies
    within the buffer, and [result_count] counts the written rows. *)
Definition output_ok (size : Z) (o : Output) : Prop :=
  out_pos o = bytes_needed (written o)
  /\ result_count o = Z.of_nat (length (written o))
  /\ out_pos o <= Z.max 0 size.

(** [l1] is [l2] with some elements left out. *)
Inductive subseq {A : Type} : list A -> list A -> Prop :=
| subseq_nil : subseq [] []
| subseq_skip (x : A) (l1 l2 : list A) : subseq l1 l2 -> subseq l1 (x :: l2)
| subseq_take (x : A) (l1 l2 : list A) :
    subseq l1 l2 -> subseq (x :: l1) (x :: l2).

Section Pairs.

Variable value : Type.
Variable loads : string -> option (dict value).
Variable key_cstr : value -> option string.
Variable dumps : dict value -> option string.

(** The merged rows an outer dictionary gives with the stored rows
    that parse and whose merge serialises. *)
Definition merged_rows (outer_dict : dict value) (stored : list string)
  : list string :=
  flat_map (fun inner =>
              match loads inner with
              | Some inner_dict =>
                match dumps (merge inner_dict outer_dict) with
                | Some out => [out]
                | None => []
                end
              | None => []
              end) stored.

(** All the rows one outer row joins to: one per inner row with the
    outer row's key, in the order of the inner rows. *)
Definition joined_rows (inner_key outer_key : string)
    (inner_rows : list string) (outer : string) : list string :=
  match row_key value loads key_cstr outer_key outer, loads outer with
  | Some k, Some outer_dict =>
      merged_rows outer_dict
        (rows_of k (keyed_rows value loads key_cstr inner_key inner_rows))
  | _, _ => []
  end.

(** The whole join: outer rows in order, and for each the matching
    inner rows in order. *)
Definition full_join (inner_key outer_key : string)
    (inner_rows outer_rows : list string) : list string :=
  flat_map (joined_rows inner_key outer_key inner_rows) outer_rows.

End Pairs.

End JoinPairs.

(** Three inner rows of which the first and the last share the key 1. *)
Definition repeated_inner : list string :=
  [ MiniJson.dumps_text
      [("id"%string, MiniJson.Num "1"); ("n"%string, MiniJson.Str "A")];
    MiniJson.dumps_text
      [("id"%string, MiniJson.Num "2"); ("n"%string, MiniJson.Str "B")];
    MiniJson.dumps_text
      [("id"%string, MiniJson.Num "1"); ("n"%string, MiniJson.Str "C")] ].

(** djb2 in unbounded arithmetic: [h * 33 + c] for each character. *)
Fixpoint djb2 (h : Z) (s : string) : Z :=
  match s with
  | EmptyString => h
  | String c rest => djb2 (h * 33 + HashJoin.int_of_char c) rest
  end.

(** * The hash join on pickled pages, [src/hashjoin.c]

    The older operator: rows are pickled dictionaries, one per page,
    keys are [int64_t], the table has [HASH_TABLE_SIZE] slots and a
    [NULL] row marks a free one. [pickle.loads], [PyLong_Check] with
    the integer's value, and [pickle.dumps] are parameters; the table,
    the probing, the output bookkeeping and the handling of a failed
    call are the C code; reference counts are not modelled. The two
    [while] loops have no bound of their
    own, so the model runs them on fuel and says so when the fuel ends
    first; an access past the end of the table is an outcome of its own.

    As for the other operator, the module first gives the run in which
    no call raises (the [clean_] functions, over a [loads] that yields
    a dictionary or nothing), then the functions of the source with the
    error indicator of the interpreter. *)
Module PickleJoin.

Definition HASH_TABLE_SIZE : nat := 1024.
Definition INT64_MIN : Z := - 2 ^ 63.
Definition INT64_MAX : Z := 2 ^ 63 - 1.

(** How a call ends: it returns; it indexes the table past its end
    (undefined in C); or one of its loops is still running when the
    fuel is used up. *)
Inductive outcome (A : Type) : Type :=
| Returns (a : A)
| OutOfBounds
| Runs.

Arguments Returns {A}.
Arguments OutOfBounds {A}.
Arguments Runs {A}.

Definition bind {A B : Type} (o : outcome A) (f : A -> outcome B)
  : outcome B :=
  match o with
  | Returns a => f a
  | OutOfBounds => OutOfBounds
  | Runs => Runs
  end.

(** [size_t idx = key % HASH_TABLE_SIZE]: the remainder of the signed
    division has the sign of [key], and a negative one converts to a
    [size_t] just below 2^64. *)
Definition start_index (k : Z) : Z :=
  Z.rem k (Z.of_nat HASH_TABLE_SIZE) mod U64_MOD.

Definition indexable (k : Z) : bool :=
  start_index k <? Z.of_nat HASH_TABLE_SIZE.

Section Join.

Variable value : Type.

(** The dictionary the bytes of a page hold, if they hold one. *)
Variable loads : list byte -> option (HashJoin.dict value).

(** The integer a value is, when [PyLong_Check] holds for it. *)
Variable as_long : value -> option Z.

(** [pickle.dumps], when it gives a [bytes] object. *)
Variable dumps : HashJoin.dict value -> option (list byte).

Record HashEntry : Type := mkSlot {
  key : Z;
  row : option (HashJoin.dict value)
}.

Definition free_slot : HashEntry := mkSlot 0 None.

(** [HashEntry table[HASH_TABLE_SIZE] = {{0}};] *)
Definition zeroed_table : list HashEntry := repeat free_slot HASH_TABLE_SIZE.

(** The row of a page; a page whose first byte is zero holds none. *)
Definition clean_unpickle_page (page_data : list byte)
  : option (HashJoin.dict value) :=
  if Byte.eqb (nth 0 page_data x00) x00 then None
  else loads (firstn PAGE_SIZE page_data).

(** The key of a row: -1 for a missing field, for a value that is not
    an integer and for an integer out of the range of [int64_t]. *)
Definition clean_get_dict_int (d : HashJoin.dict value) (k : string) : Z :=
  match HashJoin.dict_get d k with
  | None => -1
  | Some v =>
    match as_long v with
    | None => -1
    | Some z => if (INT64_MIN <=? z) && (z <=? INT64_MAX) then z else -1
    end
  end.

(** [while (table[idx].row && table[idx].key != key)
      idx = (idx + 1) % HASH_TABLE_SIZE;] *)
Fixpoint find_slot (fuel : nat) (table : list HashEntry) (k : Z)
    (idx : nat) : outcome nat :=
  match fuel with
  | O => Runs
  | S fuel' =>
    let e := nth idx table free_slot in
    match row e with
    | None => Returns idx
    | Some _ =>
      if key e =? k then Returns idx
      else find_slot fuel' table k ((idx + 1) mod HASH_TABLE_SIZE)%nat
    end
  end.

(** The index the loop ends on; its first access is where an index
    past the table shows. *)
Definition locate (fuel : nat) (table : list HashEntry) (k : Z)
  : outcome nat :=
  if indexable k
  then find_slot fuel table k (Z.to_nat (start_index k))
  else OutOfBounds.

(** *** Build phase: the first row of a key stays *)

Definition clean_build_page (fuel : nat) (inner_key_name : string)
    (table : list HashEntry) (page : list byte)
  : outcome (list HashEntry) :=
  match clean_unpickle_page page with
  | None => Returns table
  | Some r =>
    let k := clean_get_dict_int r inner_key_name in
    if k =? -1 then Returns table
    else
      bind (locate fuel table k)
        (fun idx =>
           match row (nth idx table free_slot) with
           | None => Returns (list_set table idx (mkSlot k (Some r)))
           | Some _ => Returns table
           end)
  end.

Fixpoint clean_build_pages (fuel : nat) (inner_key_name : string)
    (inner_pages : list (list byte)) (table : list HashEntry)
  : outcome (list HashEntry) :=
  match inner_pages with
  | [] => Returns table
  | page :: rest =>
      bind (clean_build_page fuel inner_key_name table page)
        (clean_build_pages fuel inner_key_name rest)
  end.

(** *** Probe phase *)

(** [out_pos], [result_count] and the pickles written so far, which
    lie end to end in the buffer. *)
Record OutState : Type := mkOutState {
  out_pos : Z;
  result_count : Z;
  written : list (list byte)
}.

Definition clean_probe_page (fuel : nat) (outer_key_name : string)
    (max_output_size : Z) (table : list HashEntry) (o : OutState)
    (page : list byte) : outcome OutState :=
  match clean_unpickle_page page with
  | None => Returns o
  | Some outer_row =>
    let k := clean_get_dict_int outer_row outer_key_name in
    if k =? -1 then Returns o
    else
      bind (locate fuel table k)
        (fun idx =>
           match row (nth idx table free_slot) with
           | None => Returns o
           | Some inner_row =>
             match dumps (HashJoin.merge inner_row outer_row) with
             | None => Returns o
             | Some data =>
               let len := Z.of_nat (length data) in
               if out_pos o + len <=? max_output_size
               then Returns (mkOutState (out_pos o + len) (result_count o + 1)
                               (written o ++ [data]))
               else Returns o
             end
           end)
  end.

Fixpoint clean_probe_pages (fuel : nat) (outer_key_name : string)
    (max_output_size : Z) (table : list HashEntry)
    (outer_pages : list (list byte)) (o : OutState) : outcome OutState :=
  match outer_pages with
  | [] => Returns o
  | page :: rest =>
      bind (clean_probe_page fuel outer_key_name max_output_size table o page)
        (clean_probe_pages fuel outer_key_name max_output_size table rest)
  end.

(** The join when no call raises: the count and the pickles written,
    when each of its loops ends within [fuel] iterations. *)
Definition clean_pickle_join (fuel : nat) (inner_pages outer_pages : list (list byte))
    (inner_key_name outer_key_name : string) (max_output_size : Z)
  : outcome (Z * list (list byte)) :=
  bind (clean_build_pages fuel inner_key_name inner_pages zeroed_table)
    (fun table =>
       bind (clean_probe_pages fuel outer_key_name max_output_size table
               outer_pages (mkOutState 0 0 []))
         (fun o => Returns (result_count o, written o))).

(** *** Rows, keys and the join they should give *)

(** The key and the row of a page that has both. *)
Definition page_key (field : string) (page : list byte)
  : option (Z * HashJoin.dict value) :=
  match clean_unpickle_page page with
  | None => None
  | Some r =>
    let k := clean_get_dict_int r field in
    if k =? -1 then None else Some (k, r)
  end.

Definition keyed (field : string) (pages : list (list byte))
  : list (Z * HashJoin.dict value) :=
  flat_map (fun p => match page_key field p with
                     | Some kr => [kr]
                     | None => []
                     end) pages.

(** The first row of [ks] under key [k]. *)
Definition first_with (k : Z) (ks : list (Z * HashJoin.dict value))
  : option (HashJoin.dict value) :=
  match find (fun kr => fst kr =? k) ks with
  | Some kr => Some (snd kr)
  | None => None
  end.

(** The keys of [ks], each once, in the order they first appear. *)
Definition keys_seen (ks : list (Z * HashJoin.dict value)) : list Z :=
  fold_left
    (fun acc kr => if existsb (Z.eqb (fst kr)) acc then acc
                   else acc ++ [fst kr]) ks [].

(** The pickle an outer page gives rise to: the first inner row of its
    key, updated with the outer row. *)
Definition joined (inner_key_name outer_key_name : string)
    (inner_pages : list (list byte)) (page : list byte)
  : option (list byte) :=
  match page_key outer_key_name page with
  | Some (k, outer_row) =>
    match first_with k (keyed inner_key_name inner_pages) with
    | Some inner_row => dumps (HashJoin.merge inner_row outer_row)
    | None => None
    end
  | None => None
  end.


(** Every key of [pages] selects a slot of the table. *)
Definition keys_indexable (field : string) (pages : list (list byte))
  : bool :=
  forallb (fun kr => indexable (fst kr)) (keyed field pages).

Definition page_has_key (field : string) (page : list byte) : bool :=
  match page_key field page with Some _ => true | None => false end.

(** What one probe adds to the output. *)
Definition after_probe (max_output_size : Z) (o : OutState)
    (data : option (list byte)) : OutState :=
  match data with
  | None => o
  | Some data =>
    let len := Z.of_nat (length data) in
    if out_pos o + len <=? max_output_size
    then mkOutState (out_pos o + len) (result_count o + 1)
           (written o ++ [data])
    else o
  end.

(** The bytes a list of pickles takes in the buffer. *)
Definition total_size (l : list (list byte)) : Z :=
  fold_right (fun d acc => Z.of_nat (length d) + acc) 0 l.

(** [out_pos] is the number of bytes written, it lies within the
    buffer, and [result_count] counts the pickles. *)
Definition within_buffer (size : Z) (o : OutState) : Prop :=
  out_pos o = total_size (written o)
  /\ result_count o = Z.of_nat (length (written o))
  /\ out_pos o <= Z.max 0 size.

(** *** The table between two rows of the build *)

Definition slot_pos (start j : nat) : nat :=
  ((start + j) mod HASH_TABLE_SIZE)%nat.

Definition home (k : Z) : nat := Z.to_nat (start_index k).

Definition is_filled (e : HashEntry) : bool :=
  match row e with Some _ => true | None => false end.

(** The loop for [k] walks on at slot [i]. *)
Definition other_key (table : list HashEntry) (k : Z) (i : nat) : Prop :=
  row (nth i table free_slot) <> None /\ key (nth i table free_slot) <> k.

(** The loop for [k] ends at slot [i]. *)
Definition ends_loop (table : list HashEntry) (k : Z) (i : nat) : Prop :=
  row (nth i table free_slot) = None
  \/ key (nth i table free_slot) = k.

(** The table after the rows [ks] went through the build: a filled
    slot holds the first row of its key, reachable from the key's own
    slot over filled slots only; every key of [ks] has its slot, and
    only one. *)
Record table_ok (t : list HashEntry) (ks : list (Z * HashJoin.dict value))
  : Prop := mkTableOk {
  ok_length : length t = HASH_TABLE_SIZE;
  ok_slot :
    forall i r,
      (i < HASH_TABLE_SIZE)%nat -> row (nth i t free_slot) = Some r ->
      first_with (key (nth i t free_slot)) ks = Some r
      /\ indexable (key (nth i t free_slot)) = true
      /\ forall j,
           (j < HASH_TABLE_SIZE)%nat ->
           slot_pos (home (key (nth i t free_slot))) j = i ->
           forall j', (j' < j)%nat ->
             row (nth (slot_pos (home (key (nth i t free_slot))) j')
                    t free_slot) <> None;
  ok_present :
    forall k r,
      first_with k ks = Some r ->
      exists i, (i < HASH_TABLE_SIZE)%nat
                /\ nth i t free_slot = mkSlot k (Some r);
  ok_unique :
    forall i j,
      (i < HASH_TABLE_SIZE)%nat -> (j < HASH_TABLE_SIZE)%nat ->
      row (nth i t free_slot) <> None -> row (nth j t free_slot) <> None ->
      key (nth i t free_slot) = key (nth j t free_slot) -> i = j;
  ok_count : length (filter is_filled t) = length (keys_seen ks)
}.

End Join.

Arguments mkSlot {value}.
Arguments key {value}.
Arguments row {value}.
Arguments free_slot {value}.
Arguments zeroed_table {value}.
Arguments find_slot {value}.
Arguments locate {value}.
Arguments first_with {value}.
Arguments keys_seen {value}.
Arguments is_filled {value}.
Arguments other_key {value}.
Arguments ends_loop {value}.
Arguments table_ok {value}.

(** What [pickle.loads] does with the bytes of a page: it raises, or
    it returns an object, which is a dictionary or something else. *)
Inductive unpickled (value : Type) : Type :=
| Fails
| Other
| Row (d : HashJoin.dict value).

Arguments Fails {value}.
Arguments Other {value}.
Arguments Row {value}.

(** The dictionary [pickle.loads] returns for a page, if it returns
    one. *)
Definition page_dict {value : Type}
    (loads : list byte -> unpickled value) (page : list byte)
  : option (HashJoin.dict value) :=
  match loads page with
  | Row d => Some d
  | Fails | Other => None
  end.

(** An outcome of the clean run, with the indicator still clear. *)
Definition with_clear {A : Type} (o : outcome A) : outcome (A * bool) :=
  bind o (fun a => Returns (a, false)).

(** *** The operator as the C code runs it

    A call that raises returns [NULL] (or -1) and sets the error
    indicator of the interpreter; the operator goes on to the next page
    and nowhere clears the indicator. While it is set, the import and
    the call in [unpickle_page] fail, so no later page yields a row.
    [err] is the indicator; the join starts with it clear. *)
Section Calls.

Variable value : Type.

(** [pickle.loads] on the bytes of a page. *)
Variable loads : list byte -> unpickled value.

(** The integer a value is, when [PyLong_Check] holds for it. *)
Variable as_long : value -> option Z.

(** [pickle.dumps] as a [bytes] object; [None] when it raises. *)
Variable dumps : HashJoin.dict value -> option (list byte).

(** [unpickle_page]: [None] is [NULL], [Some None] an object that is no
    dictionary. *)
Definition unpickle_page (page_data : list byte) (err : bool)
  : option (option (HashJoin.dict value)) * bool :=
  if Byte.eqb (nth 0 page_data x00) x00 then (None, err)
  else if err then (None, true)
  else
    match loads (firstn PAGE_SIZE page_data) with
    | Fails => (None, true)
    | Other => (Some None, false)
    | Row d => (Some (Some d), false)
    end.

(** [get_dict_int], with whether it set the error indicator:
    [PyLong_AsLongLong] returns -1 and raises [OverflowError] for an
    integer out of the range of [int64_t]; the other ways to -1 raise
    nothing. *)
Definition get_dict_int (dict : option (HashJoin.dict value)) (k : string)
  : Z * bool :=
  match dict with
  | None => (-1, false)
  | Some d =>
    match HashJoin.dict_get d k with
    | None => (-1, false)
    | Some v =>
      match as_long v with
      | None => (-1, false)
      | Some z =>
          if (INT64_MIN <=? z) && (z <=? INT64_MAX) then (z, false)
          else (-1, true)
      end
    end
  end.

(** The first steps of both loops on a page: the key and the row when
    the loop body goes on with them, and the indicator afterwards. *)
Definition read_row (field : string) (page : list byte) (err : bool)
  : option (Z * HashJoin.dict value) * bool :=
  match unpickle_page page err with
  | (None, err1) => (None, err1)
  | (Some r, err1) =>
    let '(k, raised) := get_dict_int r field in
    if k =? -1 then (None, err1 || raised)
    else
      match r with
      | Some d => (Some (k, d), err1 || raised)
      | None => (None, err1 || raised)
      end
  end.

Definition build_page (fuel : nat) (inner_key_name : string)
    (st : list (HashEntry value) * bool) (page : list byte)
  : outcome (list (HashEntry value) * bool) :=
  let '(table, err) := st in
  match read_row inner_key_name page err with
  | (None, err') => Returns (table, err')
  | (Some (k, r), err') =>
      bind (locate fuel table k)
        (fun idx =>
           match row (nth idx table free_slot) with
           | None => Returns (list_set table idx (mkSlot k (Some r)), err')
           | Some _ => Returns (table, err')
           end)
  end.

Fixpoint build_pages (fuel : nat) (inner_key_name : string)
    (inner_pages : list (list byte)) (st : list (HashEntry value) * bool)
  : outcome (list (HashEntry value) * bool) :=
  match inner_pages with
  | [] => Returns st
  | page :: rest =>
      bind (build_page fuel inner_key_name st page)
        (build_pages fuel inner_key_name rest)
  end.

Definition probe_page (fuel : nat) (outer_key_name : string)
    (max_output_size : Z) (table : list (HashEntry value))
    (st : OutState * bool) (page : list byte) : outcome (OutState * bool) :=
  let '(o, err) := st in
  match read_row outer_key_name page err with
  | (None, err') => Returns (o, err')
  | (Some (k, outer_row), err') =>
      bind (locate fuel table k)
        (fun idx =>
           match row (nth idx table free_slot) with
           | None => Returns (o, err')
           | Some inner_row =>
             match dumps (HashJoin.merge inner_row outer_row) with
             | None => Returns (o, true)
             | Some data =>
               let len := Z.of_nat (length data) in
               if out_pos o + len <=? max_output_size
               then Returns (mkOutState (out_pos o + len)
                               (result_count o + 1) (written o ++ [data]),
                             err')
               else Returns (o, err')
             end
           end)
  end.

Fixpoint probe_pages (fuel : nat) (outer_key_name : string)
    (max_output_size : Z) (table : list (HashEntry value))
    (outer_pages : list (list byte)) (st : OutState * bool)
  : outcome (OutState * bool) :=
  match outer_pages with
  | [] => Returns st
  | page :: rest =>
      bind (probe_page fuel outer_key_name max_output_size table st page)
        (probe_pages fuel outer_key_name max_output_size table rest)
  end.

(** [hash_join] with no error pending on entry: the count it returns
    and the pickles it wrote, when each of its loops ends within [fuel]
    iterations. *)
Definition hash_join (fuel : nat) (inner_pages outer_pages : list (list byte))
    (inner_key_name outer_key_name : string) (max_output_size : Z)
  : outcome (Z * list (list byte)) :=
  bind (build_pages fuel inner_key_name inner_pages (zeroed_table, false))
    (fun st =>
       bind (probe_pages fuel outer_key_name max_output_size (fst st)
               outer_pages (mkOutState 0 0 [], snd st))
         (fun st' => Returns (result_count (fst st'), written (fst st')))).

(** No call raises on any of the pages. *)
Definition all_quiet (field : string) (pages : list (list byte)) : bool :=
  forallb (fun p => negb (snd (read_row field p false))) pages.

(** A page both loops pass over without a call that raises. *)
Definition passed_over (field : string) (page : list byte) : bool :=
  match read_row field page false with
  | (None, false) => true
  | _ => false
  end.

End Calls.

End PickleJoin.

(** ** A stand-in codec for the examples

    A page holds the dictionary [{"id": n}], [n] written in its second
    and third byte behind a first byte 0x80, the opcode every pickle of
    protocol 2 and later starts with; on other bytes [loads] raises.
    The pickle of a dictionary is one byte per field. *)
Module ToyPickle.

Definition toy_value : Type := Z.

Definition toy_loads (page : list byte) : PickleJoin.unpickled toy_value :=
  match page with
  | op :: lo :: hi :: _ =>
      if Byte.eqb op x80
      then PickleJoin.Row
             [("id"%string, Z_of_byte lo + 256 * Z_of_byte hi)]
      else PickleJoin.Fails
  | _ => PickleJoin.Fails
  end.

Definition toy_as_long (v : toy_value) : option Z := Some v.

Definition toy_dumps (d : HashJoin.dict toy_value) : option (list byte) :=
  Some (map (fun kv => byte_of_Z (snd kv)) d).

Definition page_of_id (n : nat) : list byte :=
  x80 :: byte_of_Z (Z.of_nat n) :: byte_of_Z (Z.of_nat n / 256)
      :: repeat x00 (PAGE_SIZE - 3).

Definition toy_join : nat -> list (list byte) -> list (list byte) -> string
                  -> string -> Z -> PickleJoin.outcome (Z * list (list byte)) :=
  PickleJoin.hash_join toy_value toy_loads toy_as_long toy_dumps.


Definition toy_outer : list (list byte) :=
  [page_of_id 1; page_of_id 3].

(** A page that is no pickle, on which [loads] raises. *)
Definition toy_bad_page : list byte := xff :: repeat x00 (PAGE_SIZE - 1).

(** One row more than the table has slots, all ids different. *)
Definition toy_many_inner : list (list byte) :=
  map page_of_id (seq 0 (S PickleJoin.HASH_TABLE_SIZE)).

End ToyPickle.

(** ** Further notions about the engine *)

(** The bytes of page [q] of a data file, a byte past the end being
    zero. *)
Definition page_at (d : list byte) (q : nat) : list byte :=
  map (fun i => nth (q * PAGE_SIZE + i) d x00) (seq 0 PAGE_SIZE).

(** What the cache array holds between calls: one slot per page id, no
    more slots than the array has, a whole page in each. *)
Definition cache_ok (c : list CachedPage) : Prop :=
  NoDup (map page_id c)
  /\ (length c <= CACHE_SIZE)%nat
  /\ Forall (fun cp => length (data cp) = PAGE_SIZE) c.

(** A commit marker the scanners accept for transaction [t], as a test. *)
Definition is_valid_commit_for (t : Z) (r : WalRecord) : bool :=
  match r with
  | PageRec _ => false
  | CommitRec c => (cr_tx_id c =? t) && (cr_magic c =? WAL_MAGIC_COMMIT)
  end.

(** Transaction [t] has an id the [committed] array has room for and a
    valid marker among the records [pre]. *)
Definition marked_in (pre : list WalRecord) (t : Z) : bool :=
  (t <? MAX_TX) && existsb (is_valid_commit_for t) pre.

(** The page records of [rs] that come after a valid marker of their
    own transaction id, [pre] being the records before [rs]; each as the
    page write it stands for, in log order. *)
Fixpoint marked_pages (pre rs : list WalRecord) : list (Z * list byte) :=
  match rs with
  | [] => []
  | PageRec p :: rest =>
      (if marked_in pre (pr_tx_id p)
       then [(pr_page_id p, pr_data p)] else [])
      ++ marked_pages (pre ++ [PageRec p]) rest
  | CommitRec c :: rest => marked_pages (pre ++ [CommitRec c]) rest
  end.

(** A log of one transaction with id 2000, validly committed. *)
Definition high_tx_log : list WalRecord :=
  [PageRec (mkPageRecord WAL_PAGE 2000 0 (page_of x05));
   CommitRec (mkCommitRecord WAL_COMMIT 2000 WAL_MAGIC_COMMIT)].

(** A marker of transaction 1 left by an earlier process, then page 3
    written by a later transaction 1 whose own marker never made it. *)
Definition reused_id_log : list WalRecord :=
  [CommitRec (mkCommitRecord WAL_COMMIT 1 WAL_MAGIC_COMMIT);
   PageRec (mkPageRecord WAL_PAGE 1 3 (page_of x09))].

(** The log of [after_commit] and what a second commit adds to it. *)
Definition first_commit_log : list WalRecord :=
  [PageRec (mkPageRecord WAL_PAGE 1 0 (page_of x01));
   commit_marker (mkWriteTxn 1)].

Definition second_commit_log : list WalRecord :=
  [PageRec (mkPageRecord WAL_PAGE 2 0 (page_of x02));
   commit_marker (mkWriteTxn 2)].

(** One page staged by transaction 1 in a fresh engine, not committed. *)
Definition staged : State := snd (stage_one 0 (page_of x01) fresh).

(** What [commit_tx] makes of one cache slot. *)
Definition committed_slot (tx : WriteTxn) (cp : CachedPage) : CachedPage :=
  if dirty cp && (owner_tx cp =? tx_id tx)
  then mkCachedPage (page_id cp) (owner_tx cp) false (data cp)
  else cp.

(** The page writes the page records of [rs] stand for, in order. *)
Definition page_writes (rs : list WalRecord) : list (Z * list byte) :=
  flat_map (fun r => match r with
                     | PageRec p => [(pr_page_id p, pr_data p)]
                     | CommitRec _ => []
                     end) rs.

(** The process that opens the files a torn commit left and registers
    a reader. *)
Definition after_torn_reader : State := snd (begin_read after_torn_commit).

(** * Properties *)

(** ** Bytes and fields *)

Lemma Z_of_byte_of_Z (z : Z) : Z_of_byte (byte_of_Z z) = z mod 256.
Proof.
  unfold Z_of_byte, byte_of_Z.
  assert (Hr : 0 <= z mod 256 < 256) by (apply Z.mod_pos_bound; lia).
  destruct (Byte.of_N (Z.to_N (z mod 256))) as [b|] eqn:E.
  - apply Byte.to_of_N in E. rewrite E. lia.
  - apply Byte.of_N_None_iff in E. lia.
Qed.

Lemma decode_encode_u32 (z : Z) (rest : list byte) :
  is_u32 z -> decode_u32 (encode_u32 z ++ rest) = z.
Proof.
  unfold is_u32, U32_MOD. intros Hz.
  unfold encode_u32, decode_u32. cbn [app].
  rewrite !Z_of_byte_of_Z.
  assert (H1 : z / 16777216 < 256) by (apply Z.div_lt_upper_bound; lia).
  assert (H0 : 0 <= z / 16777216) by (apply Z.div_pos; lia).
  rewrite (Z.mod_small (z / 16777216)) by lia.
  pose proof (Z.div_mod z 256 ltac:(lia)) as E0.
  pose proof (Z.div_mod (z / 256) 256 ltac:(lia)) as E1.
  pose proof (Z.div_mod (z / 256 / 256) 256 ltac:(lia)) as E2.
  replace (z / 65536) with (z / 256 / 256)
    by (rewrite Z.div_div by lia; reflexivity).
  replace (z / 16777216) with (z / 256 / 256 / 256)
    by (rewrite !Z.div_div by lia; reflexivity).
  lia.
Qed.

Lemma length_encode_u32 (z : Z) : length (encode_u32 z) = 4%nat.
Proof. reflexivity. Qed.

Lemma length_encode_page_record (p : WalPageRecord) :
  length (pr_data p) = PAGE_SIZE ->
  length (encode_page_record p) = PAGE_REC_SIZE.
Proof.
  intros H. unfold encode_page_record, PAGE_REC_SIZE.
  rewrite !length_app, !length_encode_u32, H. lia.
Qed.

Lemma length_encode_commit_record (c : WalCommitRecord) :
  length (encode_commit_record c) = COMMIT_REC_SIZE.
Proof. reflexivity. Qed.

Lemma firstn_exact {A : Type} (l r : list A) (n : nat) :
  length l = n -> firstn n (l ++ r) = l.
Proof.
  intros <-. rewrite firstn_app, Nat.sub_diag, firstn_all. cbn.
  apply app_nil_r.
Qed.

Lemma skipn_exact {A : Type} (l r : list A) (n : nat) :
  length l = n -> skipn n (l ++ r) = r.
Proof.
  intros <-. rewrite skipn_app, Nat.sub_diag, skipn_all. reflexivity.
Qed.

Lemma skipn_u32 (z : Z) (n : nat) (l : list byte) :
  skipn (4 + n) (encode_u32 z ++ l) = skipn n l.
Proof. reflexivity. Qed.

Lemma decode_encode_page_record (p : WalPageRecord) (rest : list byte) :
  is_u32 (pr_type p) -> is_u32 (pr_tx_id p) -> is_u32 (pr_page_id p) ->
  length (pr_data p) = PAGE_SIZE ->
  decode_page_record (encode_page_record p ++ rest) = p.
Proof.
  intros Ht Hx Hp Hd. destruct p as [ty tx pid d]; cbn in Ht, Hx, Hp, Hd.
  unfold decode_page_record, encode_page_record;
    cbn [pr_type pr_tx_id pr_page_id pr_data].
  rewrite <- !app_assoc.
  rewrite decode_encode_u32 by assumption.
  rewrite (skipn_u32 ty 0), (skipn_u32 ty 4), (skipn_u32 ty 8).
  rewrite (skipn_u32 tx 0), (skipn_u32 tx 4), (skipn_u32 pid 0).
  cbn [skipn].
  rewrite !decode_encode_u32 by assumption.
  rewrite firstn_exact by assumption. reflexivity.
Qed.

Lemma decode_encode_commit_record (c : WalCommitRecord) (rest : list byte) :
  is_u32 (cr_type c) -> is_u32 (cr_tx_id c) -> is_u32 (cr_magic c) ->
  decode_commit_record (encode_commit_record c ++ rest) = c.
Proof.
  intros Ht Hx Hm. destruct c as [ty tx m]; cbn in Ht, Hx, Hm.
  unfold decode_commit_record, encode_commit_record;
    cbn [cr_type cr_tx_id cr_magic].
  rewrite <- !app_assoc.
  rewrite decode_encode_u32 by assumption.
  rewrite (skipn_u32 ty 0), (skipn_u32 ty 4), (skipn_u32 tx 0).
  cbn [skipn].
  rewrite !decode_encode_u32 by assumption. reflexivity.
Qed.

Lemma map_list_set {A B : Type} (f : A -> B) (l : list A) :
  forall (i : nat) (x d : A),
    f x = f (nth i l d) -> (i < length l)%nat ->
    map f (list_set l i x) = map f l.
Proof.
  induction l as [|h t IH]; intros i x d Hf Hi; [cbn in Hi; lia|].
  destruct i; cbn [list_set map nth length] in *.
  - now rewrite Hf.
  - f_equal. apply (IH i x d); [exact Hf|lia].
Qed.


(** ** Reading whole records from a file *)

Lemma pread_at_end_of (pre l : list byte) (n : nat) :
  File.pread (pre ++ l) (length pre) n = firstn n l.
Proof. unfold File.pread. rewrite (skipn_exact pre) by reflexivity. reflexivity. Qed.

Lemma read_record_at (pre body rest : list byte) (sz : nat) :
  length body = sz ->
  File.read sz (File.mk (pre ++ body ++ rest) (length pre))
  = (body, File.mk (pre ++ body ++ rest) (length pre + sz)).
Proof.
  intros H. unfold File.read. cbn [File.content File.offset].
  rewrite pread_at_end_of, firstn_exact by assumption.
  rewrite H. reflexivity.
Qed.

Lemma read_type_at (pre rest : list byte) (ty : Z) :
  File.read 4 (File.mk (pre ++ encode_u32 ty ++ rest) (length pre))
  = (encode_u32 ty,
     File.mk (pre ++ encode_u32 ty ++ rest) (length pre + 4)).
Proof. apply read_record_at. reflexivity. Qed.

Lemma lseek_back_4 (bytes : list byte) (off : nat) :
  File.lseek_cur (-4) (File.mk bytes (off + 4)) = File.mk bytes off.
Proof.
  unfold File.lseek_cur. cbn [File.content File.offset].
  destruct (Z.ltb_spec (Z.of_nat (off + 4) + -4) 0) as [H|H]; [lia|].
  f_equal. lia.
Qed.

Lemma read_at_eof (pre : list byte) (n : nat) :
  File.read n (File.mk pre (length pre)) = ([], File.mk pre (length pre)).
Proof.
  unfold File.read, File.pread. cbn [File.content File.offset].
  rewrite skipn_all, firstn_nil. cbn. f_equal. f_equal. lia.
Qed.

Lemma fill_full (stale : nat -> nat -> byte) (n : nat) (buf : list byte) :
  length buf = n -> fill stale n buf = buf ++ [].
Proof. intros <-. unfold fill. rewrite Nat.sub_diag. reflexivity. Qed.

Lemma encode_log_cons (r : WalRecord) (rs : list WalRecord) :
  encode_log (r :: rs) = encode_record r ++ encode_log rs.
Proof. reflexivity. Qed.

Lemma encode_log_app (rs1 rs2 : list WalRecord) :
  encode_log (rs1 ++ rs2) = encode_log rs1 ++ encode_log rs2.
Proof. unfold encode_log. apply flat_map_app. Qed.

Lemma page_record_u32_type (p : WalPageRecord) :
  pr_type p = WAL_PAGE -> is_u32 (pr_type p).
Proof. intros ->. unfold is_u32, WAL_PAGE, U32_MOD. lia. Qed.

Lemma commit_record_u32_type (c : WalCommitRecord) :
  cr_type c = WAL_COMMIT -> is_u32 (cr_type c).
Proof. intros ->. unfold is_u32, WAL_COMMIT, U32_MOD. lia. Qed.

(** The three reads one iteration of a forward scan makes on a page
    record, and on a commit record. *)
Lemma scan_page_record (stale : nat -> nat -> byte) (pre rest : list byte)
    (p : WalPageRecord) :
  wf_record (PageRec p) ->
  let bytes := pre ++ encode_page_record p ++ rest in
  File.read 4 (File.mk bytes (length pre))
    = (encode_u32 (pr_type p), File.mk bytes (length pre + 4))
  /\ decode_u32 (fill stale 4 (encode_u32 (pr_type p))) = WAL_PAGE
  /\ File.read PAGE_REC_SIZE (File.mk bytes (length pre))
    = (encode_page_record p, File.mk bytes (length pre + PAGE_REC_SIZE))
  /\ decode_page_record (fill stale PAGE_REC_SIZE (encode_page_record p)) = p.
Proof.
  intros (Hty & Htx & Hpid & Hlen) bytes. subst bytes.
  repeat split.
  - unfold encode_page_record. rewrite <- !app_assoc. apply read_type_at.
  - rewrite fill_full by reflexivity.
    rewrite decode_encode_u32; auto using page_record_u32_type.
  - apply read_record_at. now apply length_encode_page_record.
  - rewrite fill_full by now apply length_encode_page_record.
    apply decode_encode_page_record; auto using page_record_u32_type.
Qed.

Lemma scan_commit_record (stale : nat -> nat -> byte) (pre rest : list byte)
    (c : WalCommitRecord) :
  wf_record (CommitRec c) ->
  let bytes := pre ++ encode_commit_record c ++ rest in
  File.read 4 (File.mk bytes (length pre))
    = (encode_u32 (cr_type c), File.mk bytes (length pre + 4))
  /\ decode_u32 (fill stale 4 (encode_u32 (cr_type c))) = WAL_COMMIT
  /\ File.read COMMIT_REC_SIZE (File.mk bytes (length pre))
    = (encode_commit_record c,
       File.mk bytes (length pre + COMMIT_REC_SIZE))
  /\ decode_commit_record
       (fill stale COMMIT_REC_SIZE (encode_commit_record c)) = c.
Proof.
  intros (Hty & Htx & Hm) bytes. subst bytes.
  repeat split.
  - unfold encode_commit_record. rewrite <- !app_assoc. apply read_type_at.
  - rewrite fill_full by reflexivity.
    rewrite decode_encode_u32; auto using commit_record_u32_type.
  - apply read_record_at. reflexivity.
  - rewrite fill_full by reflexivity.
    apply decode_encode_commit_record; auto using commit_record_u32_type.
Qed.

(** ** Recovery over a log of whole records *)

Lemma recover_loop_step (stale : nat -> nat -> byte) (fuel : nat) (committed : list bool)
    (w : File.fd) (d : list byte) :
  recover_loop stale (S fuel) committed w d =
    let '(tbuf, wal1) := File.read 4 w in
    match tbuf with
    | [] => Some (wal1, d)
    | _ :: _ =>
      let type := decode_u32 (fill stale 4 tbuf) in
      let wal2 := File.lseek_cur (-4) wal1 in
      if type =? WAL_COMMIT then
        let '(buf, wal3) := File.read COMMIT_REC_SIZE wal2 in
        let cr := decode_commit_record (fill stale COMMIT_REC_SIZE buf) in
        recover_loop stale fuel (note_commit committed cr) wal3 d
      else
        let '(buf, wal3) := File.read PAGE_REC_SIZE wal2 in
        let pr := decode_page_record (fill stale PAGE_REC_SIZE buf) in
        recover_loop stale fuel committed wal3
          (if is_committed committed (pr_tx_id pr)
           then write_page_to_db d (pr_page_id pr) (pr_data pr) else d)
    end.
Proof. reflexivity. Qed.

Lemma recover_loop_log (stale : nat -> nat -> byte) (rs : list WalRecord) :
  forall (pre : list byte) (c : list bool) (d : list byte) (fuel : nat),
    Forall wf_record rs -> (length rs < fuel)%nat ->
    recover_loop stale fuel c
      (File.mk (pre ++ encode_log rs) (length pre)) d
    = Some (File.mk (pre ++ encode_log rs)
              (length (pre ++ encode_log rs)),
            replay rs c d).
Proof.
  induction rs as [|r rs IH]; intros pre c d fuel Hwf Hfuel;
    (destruct fuel as [|fuel]; [cbn in Hfuel; lia|]);
    rewrite recover_loop_step.
  - cbn [encode_log flat_map]. rewrite app_nil_r, read_at_eof. reflexivity.
  - inversion Hwf as [|? ? Hr Hrs]; subst.
    cbn [length] in Hfuel. rewrite encode_log_cons.
    destruct r as [p|cr].
    + destruct (scan_page_record stale pre (encode_log rs) p Hr)
        as (E1 & E2 & E3 & E4).
      cbn [encode_record]. rewrite E1.
      assert (Hne : exists b bs, encode_u32 (pr_type p) = b :: bs)
        by (unfold encode_u32; eauto).
      destruct Hne as (b & bs & Hne). rewrite Hne at 1.
      cbv zeta. rewrite E2, lseek_back_4.
      change (WAL_PAGE =? WAL_COMMIT) with false. cbv iota.
      rewrite E3, E4.
      specialize (IH (pre ++ encode_page_record p) c
        (if is_committed c (pr_tx_id p)
         then write_page_to_db d (pr_page_id p) (pr_data p) else d)
        fuel Hrs ltac:(lia)).
      rewrite length_app, <- app_assoc in IH.
      rewrite (length_encode_page_record p) in IH by apply Hr.
      rewrite IH. cbn [replay]. reflexivity.
    + destruct (scan_commit_record stale pre (encode_log rs) cr Hr)
        as (E1 & E2 & E3 & E4).
      cbn [encode_record]. rewrite E1.
      assert (Hne : exists b bs, encode_u32 (cr_type cr) = b :: bs)
        by (unfold encode_u32; eauto).
      destruct Hne as (b & bs & Hne). rewrite Hne at 1.
      cbv zeta. rewrite E2, lseek_back_4.
      change (WAL_COMMIT =? WAL_COMMIT) with true. cbv iota.
      rewrite E3, E4.
      specialize (IH (pre ++ encode_commit_record cr) (note_commit c cr) d
        fuel Hrs ltac:(lia)).
      rewrite length_app, <- app_assoc in IH.
      rewrite length_encode_commit_record in IH.
      rewrite IH. cbn [replay]. reflexivity.
Qed.

(** On a log of whole records [wal_recover] is [replay], and it leaves
    the descriptor at the end of the file. *)
Lemma wal_recover_log (stale : nat -> nat -> byte) (rs : list WalRecord) (off : nat)
    (d : list byte) :
  Forall wf_record rs ->
  wal_recover stale (File.mk (encode_log rs) off) d
  = (File.mk (encode_log rs) (length (encode_log rs)),
     replay rs committed_init d).
Proof.
  intros Hwf. unfold wal_recover, File.lseek_set, File.size.
  cbn [File.content].
  pose proof (recover_loop_log stale rs [] committed_init d
                (S (length (encode_log rs))) Hwf) as H.
  cbn [app length] in H. rewrite H; [reflexivity|].
  clear H. induction Hwf as [|r rs Hr _ IH]; [cbn; lia|].
  rewrite encode_log_cons, length_app. cbn [length].
  assert (1 <= length (encode_record r))%nat; [|lia].
  destruct r; cbn [encode_record].
  - rewrite length_encode_page_record by apply Hr.
    unfold PAGE_REC_SIZE. lia.
  - rewrite length_encode_commit_record. unfold COMMIT_REC_SIZE. lia.
Qed.

(** ** Positional writes *)

Lemma length_pwrite (bytes data : list byte) (off : nat) :
  data <> [] ->
  length (File.pwrite bytes off data)
  = Nat.max (length bytes) (off + length data).
Proof.
  intros Hne. unfold File.pwrite.
  destruct data as [|b data]; [contradiction|].
  rewrite !length_app, length_firstn, repeat_length, length_skipn. lia.
Qed.

Lemma nth_pwrite (bytes data : list byte) (off i : nat) :
  nth i (File.pwrite bytes off data) x00
  = if ((off <=? i) && (i <? off + length data))%nat
    then nth (i - off) data x00
    else nth i bytes x00.
Proof.
  unfold File.pwrite.
  destruct data as [|b0 data0] eqn:Ed.
  { cbn [length]. rewrite Nat.add_0_r.
    destruct (Nat.leb_spec off i), (Nat.ltb_spec i off);
      cbn [andb]; try reflexivity; lia. }
  rewrite <- Ed. clear Ed b0 data0.
  assert (Hhead : length (firstn off bytes ++ repeat x00 (off - length bytes))
                  = off)
    by (rewrite length_app, length_firstn, repeat_length; lia).
  rewrite app_assoc.
  destruct (Nat.leb_spec off i) as [Hle|Hlt]; cbn [andb].
  - rewrite app_nth2 by lia. rewrite Hhead.
    destruct (Nat.ltb_spec i (off + length data)) as [Hin|Hout].
    + rewrite app_nth1 by lia. reflexivity.
    + rewrite app_nth2 by lia. rewrite nth_skipn. f_equal. lia.
  - rewrite app_nth1 by lia.
    destruct (Nat.lt_ge_cases i (length bytes)) as [Hi|Hi].
    + rewrite app_nth1 by (rewrite length_firstn; lia).
      rewrite nth_firstn.
      destruct (Nat.ltb_spec i off); [reflexivity|lia].
    + rewrite app_nth2 by (rewrite length_firstn; lia).
      rewrite (nth_overflow bytes) by lia.
      apply nth_repeat.
Qed.

Lemma bytes_ext (l1 l2 : list byte) :
  length l1 = length l2 ->
  (forall i, nth i l1 x00 = nth i l2 x00) -> l1 = l2.
Proof. intros Hl Hn. apply (nth_ext _ _ x00 x00); auto. Qed.

Lemma pwrite_overwrite (bytes d1 d2 : list byte) (off : nat) :
  length d1 = length d2 ->
  File.pwrite (File.pwrite bytes off d1) off d2 = File.pwrite bytes off d2.
Proof.
  intros Hl.
  destruct d2 as [|b2 d2].
  { destruct d1; [reflexivity|discriminate]. }
  destruct d1 as [|b1 d1]; [discriminate|].
  apply bytes_ext.
  - rewrite !length_pwrite by discriminate. lia.
  - intros i. rewrite !nth_pwrite, Hl.
    destruct ((off <=? i) && (i <? off + length (b2 :: d2)))%nat; reflexivity.
Qed.

Lemma pwrite_commute (bytes d1 d2 : list byte) (o1 o2 : nat) :
  (o1 + length d1 <= o2 \/ o2 + length d2 <= o1)%nat ->
  File.pwrite (File.pwrite bytes o1 d1) o2 d2
  = File.pwrite (File.pwrite bytes o2 d2) o1 d1.
Proof.
  intros Hdis.
  destruct d1 as [|b1 d1]; [reflexivity|].
  destruct d2 as [|b2 d2]; [reflexivity|].
  apply bytes_ext.
  - rewrite !length_pwrite by discriminate. lia.
  - intros i. rewrite !nth_pwrite.
    destruct (Nat.leb_spec o1 i), (Nat.ltb_spec i (o1 + length (b1 :: d1))),
      (Nat.leb_spec o2 i), (Nat.ltb_spec i (o2 + length (b2 :: d2)));
      cbn [andb]; try reflexivity; lia.
Qed.

(** Two writes one after the other are one write of both. *)
Lemma pwrite_then_pwrite (bytes a b : list byte) (off : nat) :
  File.pwrite (File.pwrite bytes off a) (off + length a) b
  = File.pwrite bytes off (a ++ b).
Proof.
  destruct a as [|a0 a].
  { cbn [length app File.pwrite]. now rewrite Nat.add_0_r. }
  destruct b as [|b0 b].
  { rewrite app_nil_r. reflexivity. }
  apply bytes_ext.
  - rewrite !length_pwrite by discriminate. rewrite length_app. lia.
  - intros i. rewrite !nth_pwrite, length_app.
    destruct (Nat.leb_spec (off + length (a0 :: a)) i),
      (Nat.ltb_spec i (off + length (a0 :: a) + length (b0 :: b))),
      (Nat.leb_spec off i),
      (Nat.ltb_spec i (off + length (a0 :: a))),
      (Nat.ltb_spec i (off + (length (a0 :: a) + length (b0 :: b))));
      cbn [andb]; try reflexivity; try lia.
    + rewrite app_nth2 by lia. f_equal. lia.
    + rewrite app_nth1 by lia. reflexivity.
Qed.

Lemma write_then_write (a b : list byte) (w : File.fd) :
  File.write b (File.write a w) = File.write (a ++ b) w.
Proof.
  unfold File.write. cbn [File.content File.offset].
  rewrite pwrite_then_pwrite, length_app. f_equal. lia.
Qed.

Lemma write_nothing (w : File.fd) : File.write [] w = w.
Proof.
  destruct w as [bytes off]. unfold File.write. cbn. f_equal. lia.
Qed.

(** ** Runs of page writes *)

Lemma write_page_same (d : list byte) (p1 p2 : Z) (x1 x2 : list byte) :
  Z.to_nat p1 = Z.to_nat p2 -> length x1 = length x2 ->
  write_page_to_db (write_page_to_db d p1 x1) p2 x2
  = write_page_to_db d p2 x2.
Proof.
  intros Hp Hl. unfold write_page_to_db, page_offset. rewrite Hp.
  now apply pwrite_overwrite.
Qed.

Lemma write_page_other (d : list byte) (p1 p2 : Z) (x1 x2 : list byte) :
  Z.to_nat p1 <> Z.to_nat p2 ->
  length x1 = PAGE_SIZE -> length x2 = PAGE_SIZE ->
  write_page_to_db (write_page_to_db d p1 x1) p2 x2
  = write_page_to_db (write_page_to_db d p2 x2) p1 x1.
Proof.
  intros Hp H1 H2. unfold write_page_to_db, page_offset.
  apply pwrite_commute. rewrite H1, H2. nia.
Qed.

Lemma apply_writes_cons (w : Z * list byte) (ws : list (Z * list byte))
    (d : list byte) :
  apply_writes (w :: ws) d
  = apply_writes ws (write_page_to_db d (fst w) (snd w)).
Proof. reflexivity. Qed.

Lemma apply_writes_app (ws1 ws2 : list (Z * list byte)) (d : list byte) :
  apply_writes (ws1 ++ ws2) d = apply_writes ws2 (apply_writes ws1 d).
Proof. unfold apply_writes. apply fold_left_app. Qed.

(** A write to a page that the run writes again leaves no trace. *)
Lemma apply_writes_absorb (ws : list (Z * list byte)) :
  forall (w : Z * list byte) (d : list byte),
    Forall page_sized ws -> page_sized w ->
    Exists (fun v => Z.to_nat (fst v) = Z.to_nat (fst w)) ws ->
    apply_writes ws (write_page_to_db d (fst w) (snd w))
    = apply_writes ws d.
Proof.
  induction ws as [|v ws IH]; intros w d Hws Hw Hex.
  - inversion Hex.
  - inversion Hws as [|? ? Hv Hws']; subst.
    rewrite !apply_writes_cons.
    destruct (Nat.eq_dec (Z.to_nat (fst w)) (Z.to_nat (fst v))) as [E|N].
    + rewrite write_page_same; auto.
      unfold page_sized in *. congruence.
    + rewrite write_page_other by (unfold page_sized in *; auto).
      apply IH; auto.
      inversion Hex; subst; [congruence|assumption].
Qed.

(** A write to a page that the run leaves alone can move behind it. *)
Lemma apply_writes_swap (ws : list (Z * list byte)) :
  forall (w : Z * list byte) (d : list byte),
    Forall page_sized ws -> page_sized w ->
    ~ Exists (fun v => Z.to_nat (fst v) = Z.to_nat (fst w)) ws ->
    apply_writes ws (write_page_to_db d (fst w) (snd w))
    = write_page_to_db (apply_writes ws d) (fst w) (snd w).
Proof.
  induction ws as [|v ws IH]; intros w d Hws Hw Hnex.
  - reflexivity.
  - inversion Hws as [|? ? Hv Hws']; subst.
    rewrite !apply_writes_cons.
    assert (Hne : Z.to_nat (fst w) <> Z.to_nat (fst v))
      by (intros E; apply Hnex; left; auto).
    rewrite write_page_other by assumption.
    apply IH; try assumption.
    intros Hex. apply Hnex. right. exact Hex.
Qed.

Lemma apply_writes_idempotent (ws : list (Z * list byte)) :
  forall d : list byte,
    Forall page_sized ws ->
    apply_writes ws (apply_writes ws d) = apply_writes ws d.
Proof.
  induction ws as [|w ws IH]; intros d Hws.
  - reflexivity.
  - inversion Hws as [|? ? Hw Hws']; subst.
    rewrite !apply_writes_cons.
    assert (Hdec : {Exists (fun v => Z.to_nat (fst v) = Z.to_nat (fst w)) ws}
                   + {~ Exists (fun v => Z.to_nat (fst v) = Z.to_nat (fst w)) ws})
      by (apply Exists_dec; intros v; apply Nat.eq_dec).
    destruct Hdec as [Hex|Hnex].
    + rewrite (apply_writes_absorb ws w
                 (apply_writes ws (write_page_to_db d (fst w) (snd w))))
        by assumption.
      apply IH; assumption.
    + rewrite (apply_writes_swap ws w d) by assumption.
      rewrite write_page_same by reflexivity.
      rewrite (apply_writes_swap ws w (apply_writes ws d)) by assumption.
      rewrite IH by assumption. reflexivity.
Qed.

(** ** Progress of a forward scan on any file *)

Lemma length_pread (bytes : list byte) (off n : nat) :
  length (File.pread bytes off n) = Nat.min n (length bytes - off).
Proof. unfold File.pread. now rewrite length_firstn, length_skipn. Qed.

(** One iteration that does not stop at the end of the file leaves the
    descriptor strictly further on, whatever the record size it picks. *)
Lemma scan_iteration_progress (w : File.fd) (sz : nat) :
  (4 <= sz)%nat -> (File.offset w <= File.size w)%nat ->
  fst (File.read 4 w) <> [] ->
  let w3 := snd (File.read sz (File.lseek_cur (-4) (snd (File.read 4 w)))) in
  File.content w3 = File.content w
  /\ (File.offset w < File.offset w3 <= File.size w)%nat.
Proof.
  intros Hsz Hoff Hne. destruct w as [bytes off].
  unfold File.size in *. unfold File.read in *.
  cbn [File.content File.offset fst snd] in *.
  assert (Hlen : length (File.pread bytes off 4) <> 0%nat)
    by (destruct (File.pread bytes off 4); cbn; congruence).
  rewrite length_pread in *.
  unfold File.lseek_cur. cbn [File.content File.offset].
  destruct (Z.ltb_spec (Z.of_nat (off + Nat.min 4 (length bytes - off)) + -4) 0)
    as [Hneg|Hpos];
    cbn [File.content File.offset fst snd];
    rewrite length_pread; split; try reflexivity; lia.
Qed.

Lemma read_keeps_content (n : nat) (w : File.fd) :
  File.content (snd (File.read n w)) = File.content w.
Proof. reflexivity. Qed.

Lemma recover_loop_total (stale : nat -> nat -> byte) (fuel : nat) :
  forall (c : list bool) (w : File.fd) (d : list byte),
    (File.offset w <= File.size w)%nat ->
    (File.size w - File.offset w < fuel)%nat ->
    exists w' d',
      recover_loop stale fuel c w d = Some (w', d')
      /\ File.content w' = File.content w.
Proof.
  induction fuel as [|fuel IH]; intros c w d Hoff Hfuel; [lia|].
  rewrite recover_loop_step.
  pose proof (scan_iteration_progress w COMMIT_REC_SIZE) as Pc.
  pose proof (scan_iteration_progress w PAGE_REC_SIZE) as Pp.
  destruct (File.read 4 w) as [tbuf wal1] eqn:E4.
  cbn [fst snd] in Pc, Pp.
  destruct tbuf as [|b tbuf].
  - exists wal1, d. split; [reflexivity|].
    pose proof (read_keeps_content 4 w) as K. rewrite E4 in K. exact K.
  - cbv zeta.
    destruct (decode_u32 (fill stale 4 (b :: tbuf)) =? WAL_COMMIT).
    + destruct Pc as [Hc Ho];
        [unfold COMMIT_REC_SIZE; lia|assumption|discriminate|].
      destruct (File.read COMMIT_REC_SIZE (File.lseek_cur (-4) wal1))
        as [buf wal3]. cbn [snd] in Hc, Ho.
      destruct (IH (note_commit c
                      (decode_commit_record (fill stale COMMIT_REC_SIZE buf)))
                   wal3 d) as (w' & d' & Hr & Hk).
      * unfold File.size. rewrite Hc. apply Ho.
      * unfold File.size in *. rewrite Hc. lia.
      * exists w', d'. split; [exact Hr|congruence].
    + destruct Pp as [Hc Ho];
        [unfold PAGE_REC_SIZE; lia|assumption|discriminate|].
      destruct (File.read PAGE_REC_SIZE (File.lseek_cur (-4) wal1))
        as [buf wal3]. cbn [snd] in Hc, Ho.
      match goal with
      | |- exists _ _, recover_loop _ _ _ _ ?d0 = _ /\ _ =>
          destruct (IH c wal3 d0) as (w' & d' & Hr & Hk)
      end.
      * unfold File.size. rewrite Hc. apply Ho.
      * unfold File.size in *. rewrite Hc. lia.
      * exists w', d'. split; [exact Hr|congruence].
Qed.

(** ** Recovery as a run of page writes *)

Lemma length_fill (stale : nat -> nat -> byte) (n : nat) (buf : list byte) :
  (n <= length (fill stale n buf))%nat.
Proof. unfold fill. rewrite length_app, length_map, length_seq. lia. Qed.

Lemma decoded_page_sized (stale : nat -> nat -> byte) (buf : list byte) :
  length (pr_data (decode_page_record (fill stale PAGE_REC_SIZE buf)))
  = PAGE_SIZE.
Proof.
  unfold decode_page_record. cbn [pr_data].
  rewrite length_firstn, length_skipn.
  pose proof (length_fill stale PAGE_REC_SIZE buf).
  unfold PAGE_REC_SIZE in *. lia.
Qed.

Lemma recover_loop_as_writes (stale : nat -> nat -> byte) (fuel : nat) :
  forall (c : list bool) (w w' : File.fd) (d d' : list byte),
    recover_loop stale fuel c w d = Some (w', d') ->
    exists ws,
      Forall page_sized ws
      /\ forall d0, recover_loop stale fuel c w d0
                    = Some (w', apply_writes ws d0).
Proof.
  induction fuel as [|fuel IH]; intros c w w' d d' H; [discriminate|].
  rewrite recover_loop_step in H.
  destruct (File.read 4 w) as [tbuf wal1] eqn:E4.
  destruct tbuf as [|b tbuf].
  - injection H as <- <-. exists []. split; [constructor|].
    intros d0. rewrite recover_loop_step, E4. reflexivity.
  - cbv zeta in H.
    destruct (decode_u32 (fill stale 4 (b :: tbuf)) =? WAL_COMMIT) eqn:Et.
    + destruct (File.read COMMIT_REC_SIZE (File.lseek_cur (-4) wal1))
        as [buf wal3] eqn:Er.
      destruct (IH _ _ _ _ _ H) as (ws & Hws & Hall).
      exists ws. split; [exact Hws|].
      intros d0. rewrite recover_loop_step, E4. cbv zeta.
      rewrite Et, Er. apply Hall.
    + destruct (File.read PAGE_REC_SIZE (File.lseek_cur (-4) wal1))
        as [buf wal3] eqn:Er.
      destruct (IH _ _ _ _ _ H) as (ws & Hws & Hall).
      set (pr := decode_page_record (fill stale PAGE_REC_SIZE buf)) in *.
      destruct (is_committed c (pr_tx_id pr)) eqn:Ec.
      * exists ((pr_page_id pr, pr_data pr) :: ws). split.
        -- constructor; [apply decoded_page_sized|exact Hws].
        -- intros d0. rewrite recover_loop_step, E4. cbv zeta.
           rewrite Et, Er. fold pr. rewrite Ec. apply Hall.
      * exists ws. split; [exact Hws|].
        intros d0. rewrite recover_loop_step, E4. cbv zeta.
        rewrite Et, Er. fold pr. rewrite Ec. apply Hall.
Qed.

(** [wal_recover] reads the whole file whatever its bytes are, keeps
    them, and acts on the data file as one run of page writes that the
    WAL alone determines. *)
Lemma wal_recover_as_writes (stale : nat -> nat -> byte) (w : File.fd) :
  exists (w' : File.fd) (ws : list (Z * list byte)),
    File.content w' = File.content w
    /\ Forall page_sized ws
    /\ forall d, wal_recover stale w d = (w', apply_writes ws d).
Proof.
  unfold wal_recover.
  destruct (recover_loop_total stale (S (File.size w)) committed_init
              (File.lseek_set 0 w) [])
    as (w' & d' & Hr & Hk).
  - cbn. lia.
  - unfold File.size. cbn. lia.
  - destruct (recover_loop_as_writes stale _ _ _ _ _ _ Hr)
      as (ws & Hws & Hall).
    exists w', ws. repeat split; try assumption.
    intros d. now rewrite Hall.
Qed.

Lemma wal_recover_same_content (stale : nat -> nat -> byte) (w1 w2 : File.fd)
    (d : list byte) :
  File.content w1 = File.content w2 ->
  wal_recover stale w1 d = wal_recover stale w2 d.
Proof.
  intros H. unfold wal_recover, File.lseek_set, File.size. rewrite H.
  destruct (recover_loop stale _ _ _ _) as [r|] eqn:E; [reflexivity|].
  exfalso.
  destruct (recover_loop_total stale (S (length (File.content w2)))
              committed_init (File.mk (File.content w2) 0) d)
    as (w' & d' & Hr & _).
  - cbn. lia.
  - unfold File.size. cbn. lia.
  - congruence.
Qed.

(** ** The [committed] array *)

Lemma nth_list_set {A : Type} (l : list A) :
  forall (i j : nat) (x d : A),
    nth j (list_set l i x) d
    = if ((i =? j) && (i <? length l))%nat then x else nth j l d.
Proof.
  induction l as [|h t IH]; intros i j x d.
  - cbn. destruct j; rewrite andb_false_r; reflexivity.
  - destruct i, j; cbn [list_set nth length]; try reflexivity.
    rewrite IH. reflexivity.
Qed.

Lemma is_committed_note_other (c : list bool) (cr : WalCommitRecord)
    (t : Z) :
  0 <= t -> 0 <= cr_tx_id cr ->
  ~ (cr_tx_id cr = t /\ cr_magic cr = WAL_MAGIC_COMMIT) ->
  is_committed (note_commit c cr) t = is_committed c t.
Proof.
  intros Ht Hx Hn. unfold note_commit.
  destruct (Z.eqb_spec (cr_magic cr) WAL_MAGIC_COMMIT) as [Hm|Hm];
    cbn [andb]; [|reflexivity].
  destruct (cr_tx_id cr <? MAX_TX); [|reflexivity].
  unfold is_committed, committed_get, committed_set.
  rewrite nth_list_set.
  destruct (Nat.eqb_spec (Z.to_nat (cr_tx_id cr)) (Z.to_nat t)) as [E|E];
    [|reflexivity].
  exfalso. apply Hn. split; [lia|assumption].
Qed.

Lemma is_committed_note_bad_magic (c : list bool) (cr : WalCommitRecord) :
  cr_magic cr <> WAL_MAGIC_COMMIT -> note_commit c cr = c.
Proof.
  intros Hm. unfold note_commit.
  destruct (Z.eqb_spec (cr_magic cr) WAL_MAGIC_COMMIT); [contradiction|].
  reflexivity.
Qed.

Lemma is_committed_init (t : Z) : is_committed committed_init t = false.
Proof.
  unfold is_committed, committed_get, committed_init.
  destruct (t <? MAX_TX); [|reflexivity]. cbn [andb].
  destruct (Nat.lt_ge_cases (Z.to_nat t) (Z.to_nat MAX_TX)) as [H|H].
  - apply nth_repeat_lt. exact H.
  - apply nth_overflow. rewrite repeat_length. exact H.
Qed.

(** ** Replay ignores what is not committed *)

Lemma no_valid_commit_cons (t : Z) (r : WalRecord) (rs : list WalRecord) :
  no_valid_commit t (r :: rs) ->
  ~ valid_commit_for t r /\ no_valid_commit t rs.
Proof.
  intros H. split.
  - apply H. now left.
  - intros r' Hin. apply H. now right.
Qed.

Lemma replay_without_pages_of (t : Z) (rs : list WalRecord) :
  forall (c : list bool) (d : list byte),
    0 <= t -> Forall wf_record rs ->
    is_committed c t = false -> no_valid_commit t rs ->
    replay rs c d
    = replay (filter (fun r => negb (is_page_of t r)) rs) c d.
Proof.
  induction rs as [|r rs IH]; intros c d Ht Hwf Hc Hno; [reflexivity|].
  inversion Hwf as [|? ? Hr Hrs]; subst.
  apply no_valid_commit_cons in Hno. destruct Hno as [Hnr Hno].
  destruct r as [p|cr]; cbn [filter is_page_of negb].
  - destruct (Z.eqb_spec (pr_tx_id p) t) as [E|E]; cbn [negb replay].
    + rewrite E, Hc. apply IH; assumption.
    + apply IH; assumption.
  - cbn [replay]. apply IH; try assumption.
    rewrite is_committed_note_other; try assumption.
    destruct Hr as (_ & Hx & _). unfold is_u32 in Hx. lia.
Qed.

Lemma replay_without_records_of (t : Z) (rs : list WalRecord) :
  forall (c : list bool) (d : list byte),
    0 <= t -> Forall wf_record rs ->
    is_committed c t = false -> no_valid_commit t rs ->
    replay rs c d
    = replay (filter (fun r => negb (record_tx r =? t)) rs) c d.
Proof.
  induction rs as [|r rs IH]; intros c d Ht Hwf Hc Hno; [reflexivity|].
  inversion Hwf as [|? ? Hr Hrs]; subst.
  apply no_valid_commit_cons in Hno. destruct Hno as [Hnr Hno].
  assert (Hstep : forall cr, r = CommitRec cr ->
            is_committed (note_commit c cr) t = false).
  { intros cr ->. rewrite is_committed_note_other; try assumption.
    destruct Hr as (_ & Hx & _). unfold is_u32 in Hx. lia. }
  destruct r as [p|cr]; cbn [filter record_tx].
  - destruct (Z.eqb_spec (pr_tx_id p) t) as [E|E]; cbn [negb replay].
    + rewrite E, Hc. apply IH; assumption.
    + apply IH; assumption.
  - destruct (Z.eqb_spec (cr_tx_id cr) t) as [E|E]; cbn [negb replay].
    + rewrite is_committed_note_bad_magic.
      * apply IH; assumption.
      * intros Hm. apply Hnr. split; assumption.
    + apply IH; auto.
Qed.

(** ** The snapshot scan *)

Lemma forward_commits_keeps_uncommitted (t : Z) (rs : list WalRecord) :
  forall (pos snap : Z) (c : list bool),
    0 <= t -> Forall wf_record rs ->
    is_committed c t = false -> no_valid_commit t rs ->
    is_committed (forward_commits rs pos snap c) t = false.
Proof.
  induction rs as [|r rs IH]; intros pos snap c Ht Hwf Hc Hno; [exact Hc|].
  inversion Hwf as [|? ? Hr Hrs]; subst.
  apply no_valid_commit_cons in Hno. destruct Hno as [Hnr Hno].
  cbn [forward_commits].
  destruct (pos <? to_off_t snap); [|exact Hc].
  destruct r as [p|cr].
  - apply IH; assumption.
  - apply IH; try assumption.
    rewrite is_committed_note_other; try assumption.
    destruct Hr as (_ & Hx & _). unfold is_u32 in Hx. lia.
Qed.

Lemma snapshot_forward_step (stale : nat -> nat -> byte) (fuel : nat) (pos snap : Z)
    (committed : list bool) (w : File.fd) :
  snapshot_forward stale (S fuel) pos snap committed w =
    if pos <? to_off_t snap then
      let '(tbuf, wal1) := File.read 4 w in
      match tbuf with
      | [] => Some (committed, wal1)
      | _ :: _ =>
        let type := decode_u32 (fill stale 4 tbuf) in
        let wal2 := File.lseek_cur (-4) wal1 in
        if type =? WAL_COMMIT then
          let '(buf, wal3) := File.read COMMIT_REC_SIZE wal2 in
          let cr := decode_commit_record (fill stale COMMIT_REC_SIZE buf) in
          snapshot_forward stale fuel (pos + Z.of_nat COMMIT_REC_SIZE) snap
            (note_commit committed cr) wal3
        else
          let '(_, wal3) := File.read PAGE_REC_SIZE wal2 in
          snapshot_forward stale fuel (pos + Z.of_nat PAGE_REC_SIZE) snap
            committed wal3
      end
    else Some (committed, w).
Proof. reflexivity. Qed.

Lemma snapshot_forward_log (stale : nat -> nat -> byte) (rs : list WalRecord) :
  forall (pre : list byte) (pos snap : Z) (c : list bool) (fuel : nat),
    Forall wf_record rs -> (length rs < fuel)%nat ->
    exists off,
      snapshot_forward stale fuel pos snap c
        (File.mk (pre ++ encode_log rs) (length pre))
      = Some (forward_commits rs pos snap c,
              File.mk (pre ++ encode_log rs) off).
Proof.
  induction rs as [|r rs IH]; intros pre pos snap c fuel Hwf Hfuel;
    (destruct fuel as [|fuel]; [cbn in Hfuel; lia|]);
    rewrite snapshot_forward_step.
  - cbn [encode_log flat_map forward_commits]. rewrite app_nil_r, read_at_eof.
    destruct (pos <? to_off_t snap); eauto.
  - inversion Hwf as [|? ? Hr Hrs]; subst.
    cbn [length] in Hfuel. rewrite encode_log_cons.
    cbn [forward_commits].
    destruct (pos <? to_off_t snap); [|eauto].
    destruct r as [p|cr].
    + destruct (scan_page_record stale pre (encode_log rs) p Hr)
        as (E1 & E2 & E3 & E4).
      cbn [encode_record]. rewrite E1.
      unfold encode_u32 at 1. cbv iota zeta. rewrite E2, lseek_back_4.
      change (WAL_PAGE =? WAL_COMMIT) with false. cbv iota.
      rewrite E3.
      destruct (IH (pre ++ encode_page_record p)
                  (pos + Z.of_nat PAGE_REC_SIZE) snap c fuel Hrs ltac:(lia))
        as (off & IH').
      rewrite length_app, <- app_assoc in IH'.
      rewrite (length_encode_page_record p) in IH' by apply Hr.
      rewrite IH'. eauto.
    + destruct (scan_commit_record stale pre (encode_log rs) cr Hr)
        as (E1 & E2 & E3 & E4).
      cbn [encode_record]. rewrite E1.
      unfold encode_u32 at 1. cbv iota zeta. rewrite E2, lseek_back_4.
      change (WAL_COMMIT =? WAL_COMMIT) with true. cbv iota.
      rewrite E3, E4.
      destruct (IH (pre ++ encode_commit_record cr)
                  (pos + Z.of_nat COMMIT_REC_SIZE) snap (note_commit c cr)
                  fuel Hrs ltac:(lia))
        as (off & IH').
      rewrite length_app, <- app_assoc in IH'.
      rewrite length_encode_commit_record in IH'.
      rewrite IH'. eauto.
Qed.

Lemma length_encode_log_ge (rs : list WalRecord) :
  Forall wf_record rs -> (length rs <= length (encode_log rs))%nat.
Proof.
  intros Hwf. induction Hwf as [|r rs Hr _ IH]; [cbn; lia|].
  rewrite encode_log_cons, length_app. cbn [length].
  assert (1 <= length (encode_record r))%nat; [|lia].
  destruct r; cbn [encode_record].
  - rewrite length_encode_page_record by apply Hr.
    unfold PAGE_REC_SIZE. lia.
  - rewrite length_encode_commit_record. unfold COMMIT_REC_SIZE. lia.
Qed.

Lemma snapshot_reverse_step (stale : nat -> nat -> byte) (fuel : nat) (pos pid : Z)
    (committed : list bool) (w : File.fd) :
  snapshot_reverse stale (S fuel) pos pid committed w =
    if pos >? Z.of_nat PAGE_REC_SIZE then
      let pos' := pos - Z.of_nat PAGE_REC_SIZE in
      let wal1 := File.lseek_set (Z.to_nat pos') w in
      let '(buf, wal2) := File.read PAGE_REC_SIZE wal1 in
      match buf with
      | [] => Some (None, wal2)
      | _ :: _ =>
        let pr := decode_page_record (fill stale PAGE_REC_SIZE buf) in
        if (pr_type pr =? WAL_PAGE) && (pr_page_id pr =? pid)
           && is_committed committed (pr_tx_id pr)
        then Some (Some pr, wal2)
        else snapshot_reverse stale fuel pos' pid committed wal2
      end
    else Some (None, w).
Proof. reflexivity. Qed.

(** The reverse pass hands back only what passed its three tests. *)
Lemma snapshot_reverse_sound (stale : nat -> nat -> byte) (fuel : nat) :
  forall (pos pid : Z) (c : list bool) (w w' : File.fd)
         (pr : WalPageRecord),
    snapshot_reverse stale fuel pos pid c w = Some (Some pr, w') ->
    pr_type pr = WAL_PAGE /\ pr_page_id pr = pid
    /\ is_committed c (pr_tx_id pr) = true.
Proof.
  induction fuel as [|fuel IH]; intros pos pid c w w' pr H; [discriminate|].
  rewrite snapshot_reverse_step in H.
  destruct (pos >? Z.of_nat PAGE_REC_SIZE); [|discriminate].
  cbv zeta in H.
  destruct (File.read PAGE_REC_SIZE _) as [buf wal2].
  destruct buf as [|b buf]; [discriminate|].
  set (rec := decode_page_record (fill stale PAGE_REC_SIZE (b :: buf))) in *.
  destruct ((pr_type rec =? WAL_PAGE) && (pr_page_id rec =? pid)
            && is_committed c (pr_tx_id rec)) eqn:E.
  - injection H as <- <-.
    apply andb_prop in E. destruct E as [E E3].
    apply andb_prop in E. destruct E as [E1 E2].
    repeat split; [now apply Z.eqb_eq|now apply Z.eqb_eq|exact E3].
  - eapply IH. exact H.
Qed.

Lemma snapshot_reverse_below (stale : nat -> nat -> byte) (fuel : nat) :
  forall (pos pid : Z) (c : list bool) (w : File.fd),
    pos <= Z.of_nat fuel ->
    exists r, snapshot_reverse stale (S fuel) pos pid c w = Some r.
Proof.
  induction fuel as [|fuel IH]; intros pos pid c w Hpos;
    rewrite snapshot_reverse_step.
  - destruct (Z.gtb_spec pos (Z.of_nat PAGE_REC_SIZE)); [lia|eauto].
  - destruct (Z.gtb_spec pos (Z.of_nat PAGE_REC_SIZE)); [|eauto].
    cbv zeta. destruct (File.read PAGE_REC_SIZE _) as [buf wal2].
    destruct buf as [|b buf]; [eauto|].
    destruct (_ && _); [eauto|].
    apply IH. unfold PAGE_REC_SIZE, PAGE_SIZE in *. lia.
Qed.

Lemma snapshot_reverse_total (stale : nat -> nat -> byte) (pos pid : Z) (c : list bool)
    (w : File.fd) :
  exists r,
    snapshot_reverse stale (S (File.size w)) pos pid c w = Some r.
Proof.
  rewrite snapshot_reverse_step.
  destruct (Z.gtb_spec pos (Z.of_nat PAGE_REC_SIZE)) as [Hgt|]; [|eauto].
  cbv zeta.
  destruct (File.read PAGE_REC_SIZE _) as [buf wal2] eqn:Er.
  destruct buf as [|b buf]; [eauto|].
  destruct (_ && _); [eauto|].
  assert (Hlt : (Z.to_nat (pos - Z.of_nat PAGE_REC_SIZE) < File.size w)%nat).
  { unfold File.read, File.lseek_set in Er.
    cbn [File.content File.offset] in Er.
    injection Er as Hb _.
    apply (f_equal (@length byte)) in Hb.
    rewrite length_pread in Hb. cbn [length] in Hb.
    unfold File.size. unfold PAGE_REC_SIZE, PAGE_SIZE in *. lia. }
  destruct (File.size w) as [|n]; [lia|].
  apply snapshot_reverse_below. unfold PAGE_REC_SIZE, PAGE_SIZE in *. lia.
Qed.

(** On a log of whole records the lookup returns only records tagged
    with a transaction that the forward pass marked. *)
Lemma wal_find_page_sound (stale : nat -> nat -> byte) (rs : list WalRecord)
    (off : nat) (pid snap : Z) (pr : WalPageRecord) (w' : File.fd) :
  Forall wf_record rs ->
  wal_find_page stale pid snap (File.mk (encode_log rs) off)
  = (Some pr, w') ->
  pr_type pr = WAL_PAGE /\ pr_page_id pr = pid
  /\ is_committed (forward_commits rs 0 snap committed_init) (pr_tx_id pr)
     = true.
Proof.
  intros Hwf H. unfold wal_find_page, File.lseek_set, File.size in H.
  cbn [File.content] in H.
  destruct (snapshot_forward_log stale rs [] 0 snap committed_init
              (S (length (encode_log rs))) Hwf) as (o & Hf).
  { pose proof (length_encode_log_ge rs Hwf). lia. }
  cbn [app length] in Hf. rewrite Hf in H.
  destruct (snapshot_reverse stale _ _ _ _ _) as [r|] eqn:Er;
    [|discriminate].
  subst r. eapply snapshot_reverse_sound. exact Er.
Qed.

(** ** The bounded scans reach their end too *)

Lemma snapshot_forward_total (stale : nat -> nat -> byte) (fuel : nat) :
  forall (pos snap : Z) (c : list bool) (w : File.fd),
    (File.offset w <= File.size w)%nat ->
    (File.size w - File.offset w < fuel)%nat ->
    exists c' w', snapshot_forward stale fuel pos snap c w = Some (c', w').
Proof.
  induction fuel as [|fuel IH]; intros pos snap c w Hoff Hfuel; [lia|].
  rewrite snapshot_forward_step.
  destruct (pos <? to_off_t snap); [|eauto].
  pose proof (scan_iteration_progress w COMMIT_REC_SIZE) as Pc.
  pose proof (scan_iteration_progress w PAGE_REC_SIZE) as Pp.
  destruct (File.read 4 w) as [tbuf wal1] eqn:E4.
  cbn [fst snd] in Pc, Pp.
  destruct tbuf as [|b tbuf]; [eauto|].
  cbv zeta.
  destruct (decode_u32 (fill stale 4 (b :: tbuf)) =? WAL_COMMIT).
  - destruct Pc as [Hc Ho];
      [unfold COMMIT_REC_SIZE; lia|assumption|discriminate|].
    destruct (File.read COMMIT_REC_SIZE (File.lseek_cur (-4) wal1))
      as [buf wal3]. cbn [snd] in Hc, Ho.
    apply IH; unfold File.size in *; rewrite Hc; lia.
  - destruct Pp as [Hc Ho];
      [unfold PAGE_REC_SIZE; lia|assumption|discriminate|].
    destruct (File.read PAGE_REC_SIZE (File.lseek_cur (-4) wal1))
      as [buf wal3]. cbn [snd] in Hc, Ho.
    apply IH; unfold File.size in *; rewrite Hc; lia.
Qed.

Lemma checkpoint_loop_step (stale : nat -> nat -> byte) (fuel : nat) (pos safe : Z)
    (w : File.fd) (d : list byte) :
  checkpoint_loop stale (S fuel) pos safe w d =
    if pos <? to_off_t safe then
      let '(tbuf, wal1) := File.read 4 w in
      match tbuf with
      | [] => Some (wal1, d)
      | _ :: _ =>
        let type := decode_u32 (fill stale 4 tbuf) in
        let wal2 := File.lseek_cur (-4) wal1 in
        if type =? WAL_PAGE then
          let '(buf, wal3) := File.read PAGE_REC_SIZE wal2 in
          let pr := decode_page_record (fill stale PAGE_REC_SIZE buf) in
          checkpoint_loop stale fuel (pos + Z.of_nat PAGE_REC_SIZE) safe wal3
            (write_page_to_db d (pr_page_id pr) (pr_data pr))
        else
          let '(_, wal3) := File.read COMMIT_REC_SIZE wal2 in
          checkpoint_loop stale fuel (pos + Z.of_nat COMMIT_REC_SIZE) safe
            wal3 d
      end
    else Some (w, d).
Proof. reflexivity. Qed.

Lemma checkpoint_loop_total (stale : nat -> nat -> byte) (fuel : nat) :
  forall (pos safe : Z) (w : File.fd) (d : list byte),
    (File.offset w <= File.size w)%nat ->
    (File.size w - File.offset w < fuel)%nat ->
    exists w' d', checkpoint_loop stale fuel pos safe w d = Some (w', d').
Proof.
  induction fuel as [|fuel IH]; intros pos safe w d Hoff Hfuel; [lia|].
  rewrite checkpoint_loop_step.
  destruct (pos <? to_off_t safe); [|eauto].
  pose proof (scan_iteration_progress w COMMIT_REC_SIZE) as Pc.
  pose proof (scan_iteration_progress w PAGE_REC_SIZE) as Pp.
  destruct (File.read 4 w) as [tbuf wal1] eqn:E4.
  cbn [fst snd] in Pc, Pp.
  destruct tbuf as [|b tbuf]; [eauto|].
  cbv zeta.
  destruct (decode_u32 (fill stale 4 (b :: tbuf)) =? WAL_PAGE).
  - destruct Pp as [Hc Ho];
      [unfold PAGE_REC_SIZE; lia|assumption|discriminate|].
    destruct (File.read PAGE_REC_SIZE (File.lseek_cur (-4) wal1))
      as [buf wal3]. cbn [snd] in Hc, Ho.
    apply IH; unfold File.size in *; rewrite Hc; lia.
  - destruct Pc as [Hc Ho];
      [unfold COMMIT_REC_SIZE; lia|assumption|discriminate|].
    destruct (File.read COMMIT_REC_SIZE (File.lseek_cur (-4) wal1))
      as [buf wal3]. cbn [snd] in Hc, Ho.
    apply IH; unfold File.size in *; rewrite Hc; lia.
Qed.


(** ** The checkpoint scan over a log of whole records *)

Lemma checkpoint_loop_log (rs : list WalRecord) :
  forall (pre : list byte) (pos safe : Z) (d : list byte) (fuel : nat),
    Forall wf_record rs -> (length rs < fuel)%nat ->
    exists off,
      forall stale,
        checkpoint_loop stale fuel pos safe
          (File.mk (pre ++ encode_log rs) (length pre)) d
        = Some (File.mk (pre ++ encode_log rs) off,
                checkpoint_replay rs pos safe d).
Proof.
  induction rs as [|r rs IH]; intros pre pos safe d fuel Hwf Hfuel;
    (destruct fuel as [|fuel]; [cbn in Hfuel; lia|]).
  - cbn [encode_log flat_map checkpoint_replay].
    destruct (pos <? to_off_t safe) eqn:Ep.
    + eexists. intros stale. rewrite checkpoint_loop_step, Ep.
      rewrite app_nil_r, read_at_eof. reflexivity.
    + eexists. intros stale. rewrite checkpoint_loop_step, Ep.
      reflexivity.
  - inversion Hwf as [|? ? Hr Hrs]; subst.
    cbn [length] in Hfuel. rewrite encode_log_cons.
    cbn [checkpoint_replay].
    destruct (pos <? to_off_t safe) eqn:Ep.
    2:{ eexists. intros stale. rewrite checkpoint_loop_step, Ep.
        reflexivity. }
    destruct r as [p|cr].
    + destruct (IH (pre ++ encode_page_record p)
                  (pos + Z.of_nat PAGE_REC_SIZE) safe
                  (write_page_to_db d (pr_page_id p) (pr_data p))
                  fuel Hrs ltac:(lia))
        as (off & IH').
      rewrite length_app, <- app_assoc in IH'.
      rewrite (length_encode_page_record p) in IH' by apply Hr.
      exists off. intros stale. rewrite checkpoint_loop_step, Ep.
      destruct (scan_page_record stale pre (encode_log rs) p Hr)
        as (E1 & E2 & E3 & E4).
      cbn [encode_record]. rewrite E1.
      unfold encode_u32 at 1. cbv iota zeta.
      rewrite E2, lseek_back_4.
      change (WAL_PAGE =? WAL_PAGE) with true. cbv iota.
      rewrite E3, E4. apply IH'.
    + destruct (IH (pre ++ encode_commit_record cr)
                  (pos + Z.of_nat COMMIT_REC_SIZE) safe d fuel Hrs
                  ltac:(lia))
        as (off & IH').
      rewrite length_app, <- app_assoc in IH'.
      rewrite length_encode_commit_record in IH'.
      exists off. intros stale. rewrite checkpoint_loop_step, Ep.
      destruct (scan_commit_record stale pre (encode_log rs) cr Hr)
        as (E1 & E2 & E3 & E4).
      cbn [encode_record]. rewrite E1.
      unfold encode_u32 at 1. cbv iota zeta.
      rewrite E2, lseek_back_4.
      change (WAL_COMMIT =? WAL_PAGE) with false. cbv iota.
      rewrite E3. apply IH'.
Qed.

(** On a log of whole records the scan reads no partial record, so it
    does not depend on what its buffers held before. *)
Lemma checkpoint_scan_whole_records (rs : list WalRecord) (off : nat)
    (safe : Z) (d : list byte) (stale1 stale2 : nat -> nat -> byte) :
  Forall wf_record rs ->
  checkpoint_scan stale1 safe (File.mk (encode_log rs) off) d
  = checkpoint_scan stale2 safe (File.mk (encode_log rs) off) d.
Proof.
  intros Hwf. unfold checkpoint_scan, File.lseek_set, File.size.
  cbn [File.content].
  destruct (checkpoint_loop_log rs [] 0 safe d
              (S (length (encode_log rs))) Hwf) as (o & H).
  { pose proof (length_encode_log_ge rs Hwf). lia. }
  cbn [app length] in H. rewrite !H. reflexivity.
Qed.

(** On a log of whole records the checkpoint scan is
    [checkpoint_replay]: no commit marker decides what it writes. *)
Lemma checkpoint_scan_log (stale : nat -> nat -> byte) (rs : list WalRecord) (off : nat)
    (safe : Z) (d : list byte) :
  Forall wf_record rs ->
  snd (checkpoint_scan stale safe (File.mk (encode_log rs) off) d)
  = checkpoint_replay rs 0 safe d.
Proof.
  intros Hwf. unfold checkpoint_scan, File.lseek_set, File.size.
  cbn [File.content].
  destruct (checkpoint_loop_log rs [] 0 safe d
              (S (length (encode_log rs))) Hwf) as (o & H).
  { pose proof (length_encode_log_ge rs Hwf). lia. }
  cbn [app length] in H. rewrite H. reflexivity.
Qed.

(** ** What [commit_tx] writes *)

Lemma commit_pages_log (tx : WriteTxn) (c : list CachedPage) :
  forall w : File.fd,
    snd (commit_pages tx c w)
    = File.write (encode_log (commit_page_records tx c)) w.
Proof.
  unfold commit_page_records.
  induction c as [|cp rest IH]; intros w.
  - cbn. symmetry. apply write_nothing.
  - cbn [commit_pages filter].
    destruct (dirty cp && (owner_tx cp =? tx_id tx)).
    + specialize (IH (wal_append_page tx (page_id cp) (data cp) w)).
      destruct (commit_pages tx rest _) as [rest' w2]. cbn [snd] in *.
      rewrite IH. cbn [map]. rewrite encode_log_cons.
      unfold wal_append_page. cbn [encode_record].
      apply write_then_write.
    + specialize (IH w).
      destruct (commit_pages tx rest w) as [rest' w2]. cbn [snd] in *.
      exact IH.
Qed.

Lemma commit_tx_log (tx : WriteTxn) (s : State) :
  wal (commit_tx tx s)
  = File.write (encode_log (commit_records tx (cache s))) (wal s)
  /\ db (commit_tx tx s) = db s.
Proof.
  unfold commit_tx, commit_records.
  pose proof (commit_pages_log tx (cache s) (wal s)) as H.
  destruct (commit_pages tx (cache s) (wal s)) as [c w]. cbn [snd] in H.
  cbn [with_wal with_cache wal db]. split; [|reflexivity].
  rewrite H, encode_log_app. unfold wal_commit.
  rewrite write_then_write. cbn [encode_log flat_map commit_marker encode_record].
  now rewrite app_nil_r.
Qed.

Lemma commit_records_wf (tx : WriteTxn) (c : list CachedPage) :
  is_u32 (tx_id tx) ->
  Forall (fun cp => is_u32 (page_id cp) /\ length (data cp) = PAGE_SIZE) c ->
  Forall wf_record (commit_records tx c).
Proof.
  intros Htx Hc. unfold commit_records. apply Forall_app. split.
  - unfold commit_page_records. apply Forall_map.
    induction Hc as [|cp rest Hcp _ IH]; [constructor|].
    cbn [filter]. destruct (dirty cp && _); [|exact IH].
    constructor; [|exact IH].
    unfold wf_record. cbn [pr_type pr_tx_id pr_page_id pr_data].
    repeat split; try assumption; try apply Htx; try apply Hcp.
    unfold memcpy. rewrite length_app, length_firstn, length_skipn.
    unfold zero_page. rewrite repeat_length. destruct Hcp as [_ Hl]. lia.
  - constructor; [|constructor].
    unfold commit_marker, wf_record. cbn [cr_type cr_tx_id cr_magic].
    repeat split; try apply Htx;
      unfold is_u32, U32_MOD, WAL_MAGIC_COMMIT; lia.
Qed.

(** [write_page_int] touches neither file. *)
Lemma write_page_int_files (tx : WriteTxn) (pid : Z) (d : list byte)
    (s s' : State) :
  write_page_int tx pid d s = Some s' ->
  wal s' = wal s /\ db s' = db s /\ crash s' = crash s.
Proof.
  unfold write_page_int.
  destruct (get_or_create_cached_page (cache s) pid (tx_id tx))
    as [[i c]|]; [|discriminate].
  intros H. injection H as <-. repeat split.
Qed.

(** ** Transaction ids *)

Lemma next_tx_id_after (n : N) :
  forall s : State,
    next_tx_id (after_begin_writes n s)
    = (if (n =? 0)%N then next_tx_id s
       else (next_tx_id s + Z.of_N n) mod U32_MOD).
Proof.
  unfold after_begin_writes.
  induction n using N.peano_ind; intros s; [reflexivity|].
  rename IHn into IH.
  rewrite N.iter_succ. cbn [begin_write_txn snd next_tx_id].
  rewrite IH.
  destruct (N.eqb_spec (N.succ n) 0) as [E|_]; [lia|].
  unfold to_u32.
  destruct (N.eqb_spec n 0) as [E0|_].
  - rewrite E0. reflexivity.
  - rewrite Zplus_mod_idemp_l. f_equal. lia.
Qed.

Lemma kth_tx_id_value (k : N) :
  (1 <= k)%N -> kth_tx_id k = Z.of_N k mod U32_MOD.
Proof.
  intros Hk. unfold kth_tx_id. cbn [begin_write_txn fst tx_id].
  rewrite next_tx_id_after. cbn [boot next_tx_id].
  destruct (N.eqb_spec (k - 1) 0) as [E|E].
  - replace k with 1%N by lia. reflexivity.
  - f_equal. lia.
Qed.

(** ** The horizon *)

Lemma fold_min_spec (l : list Z) :
  forall m : Z,
    let r := fold_left (fun m x => if x <? m then x else m) l m in
    r <= m /\ Forall (fun x => r <= x) l /\ (r = m \/ In r l).
Proof.
  induction l as [|x l IH]; intros m; cbn [fold_left].
  - repeat split; [lia|constructor|now left].
  - specialize (IH (if x <? m then x else m)).
    cbv zeta in IH. destruct IH as (H1 & H2 & H3).
    destruct (Z.ltb_spec x m) as [Hlt|Hge]; repeat split.
    + lia.
    + constructor; [lia|exact H2].
    + destruct H3 as [->|H3]; right; [now left|now right].
    + lia.
    + constructor; [lia|exact H2].
    + destruct H3 as [->|H3]; [now left|right; now right].
Qed.

Lemma checkpoint_scan_zero (stale : nat -> nat -> byte) (w : File.fd) (d : list byte) :
  checkpoint_scan stale 0 w d = (File.lseek_set 0 w, d).
Proof. reflexivity. Qed.


(** ** Recovery of a first commit *)

Lemma replay_uncommitted_pages (ps : list WalPageRecord) :
  forall (rest : list WalRecord) (c : list bool) (d : list byte),
    (forall p, In p ps -> is_committed c (pr_tx_id p) = false) ->
    replay (map PageRec ps ++ rest) c d = replay rest c d.
Proof.
  induction ps as [|p ps IH]; intros rest c d H; [reflexivity|].
  cbn [map app replay]. rewrite (H p) by now left.
  apply IH. intros q Hq. apply H. now right.
Qed.

(** What one [commit_tx] appends to an empty log is lost on recovery:
    every page record is met before the marker that would admit it. *)
Lemma replay_commit_records (tx : WriteTxn) (c : list CachedPage)
    (d : list byte) :
  replay (commit_records tx c) committed_init d = d.
Proof.
  unfold commit_records, commit_page_records.
  rewrite <- map_map with (g := PageRec).
  rewrite replay_uncommitted_pages; [reflexivity|].
  intros p _. apply is_committed_init.
Qed.

(** Only [begin_write_txn] moves the counter. *)
Lemma next_tx_id_kept (stale : nat -> nat -> byte) (s : State) :
  next_tx_id (snd (begin_read_txn s)) = next_tx_id s
  /\ (forall tx, next_tx_id (commit_tx tx s) = next_tx_id s)
  /\ (forall tx pid d s',
         write_page_int tx pid d s = Some s' -> next_tx_id s' = next_tx_id s)
  /\ (forall rx pid out,
         next_tx_id (snd (read_page_int stale rx pid out s)) = next_tx_id s)
  /\ next_tx_id (checkpoint_int stale s) = next_tx_id s.
Proof.
  split; [reflexivity|]. split.
  { intros tx. unfold commit_tx.
    destruct (commit_pages tx (cache s) (wal s)). reflexivity. }
  split.
  { intros tx pid d s' H. unfold write_page_int in H.
    destruct (get_or_create_cached_page _ _ _) as [[i c]|]; [|discriminate].
    injection H as <-. reflexivity. }
  split.
  { intros rx pid out. unfold read_page_int.
    destruct (find_cached_page (cache s) pid); [reflexivity|].
    destruct (wal_read_page stale pid (snapshot rx) out (wal s))
      as [[found out1] w].
    destruct found; reflexivity. }
  unfold checkpoint_int.
  destruct (checkpoint_scan stale (oldest_reader_snapshot s) (wal s) (db s)).
  reflexivity.
Qed.

(** ** Linear probing *)

Module ProbeFacts.

Import HashJoin.

Lemma HASH_SIZE_pos : (0 < HASH_SIZE)%nat.
Proof. unfold HASH_SIZE. lia. Qed.

Lemma mod_wrap (a n : nat) :
  (0 < n)%nat -> (a < 2 * n)%nat ->
  (a mod n = if a <? n then a else a - n)%nat.
Proof.
  intros Hn Ha. destruct (Nat.ltb_spec a n) as [Hlt|Hge].
  - now apply Nat.mod_small.
  - symmetry. apply (Nat.mod_unique a n 1); lia.
Qed.

Lemma slot_of_lt (k : string) : (slot_of k < HASH_SIZE)%nat.
Proof.
  unfold slot_of.
  pose proof HASH_SIZE_pos.
  pose proof (Z.mod_pos_bound (hash_str k) (Z.of_nat HASH_SIZE)
                ltac:(lia)).
  lia.
Qed.

Lemma probe_pos_lt (start j : nat) : (probe_pos start j < HASH_SIZE)%nat.
Proof. unfold probe_pos. apply Nat.mod_upper_bound. pose proof HASH_SIZE_pos. lia. Qed.

Lemma probe_pos_0 (start : nat) :
  (start < HASH_SIZE)%nat -> probe_pos start 0 = start.
Proof.
  intros H. unfold probe_pos. rewrite Nat.add_0_r. now apply Nat.mod_small.
Qed.

Lemma probe_pos_succ (start j : nat) :
  ((probe_pos start j + 1) mod HASH_SIZE)%nat = probe_pos start (S j).
Proof.
  unfold probe_pos. pose proof HASH_SIZE_pos.
  rewrite Nat.Div0.add_mod_idemp_l. f_equal. lia.
Qed.

Lemma probe_pos_back_at_start (start j : nat) :
  (start < HASH_SIZE)%nat -> (0 < j <= HASH_SIZE)%nat ->
  probe_pos start j = start <-> j = HASH_SIZE.
Proof.
  intros Hs Hj. unfold probe_pos.
  rewrite mod_wrap by lia.
  destruct (Nat.ltb_spec (start + j) HASH_SIZE); lia.
Qed.

Lemma probe_pos_inj (start j j' : nat) :
  (start < HASH_SIZE)%nat -> (j < HASH_SIZE)%nat -> (j' < HASH_SIZE)%nat ->
  probe_pos start j = probe_pos start j' -> j = j'.
Proof.
  intros Hs Hj Hj'. unfold probe_pos.
  rewrite !mod_wrap by lia.
  destruct (Nat.ltb_spec (start + j) HASH_SIZE),
    (Nat.ltb_spec (start + j') HASH_SIZE); lia.
Qed.

Lemma probe_pos_surj (start i : nat) :
  (start < HASH_SIZE)%nat -> (i < HASH_SIZE)%nat ->
  exists j, (j < HASH_SIZE)%nat /\ probe_pos start j = i.
Proof.
  intros Hs Hi. unfold probe_pos.
  destruct (Nat.le_gt_cases start i) as [Hle|Hgt].
  - exists (i - start)%nat. split; [lia|].
    rewrite mod_wrap by lia.
    destruct (Nat.ltb_spec (start + (i - start)) HASH_SIZE); lia.
  - exists (i + HASH_SIZE - start)%nat. split; [lia|].
    rewrite mod_wrap by lia.
    destruct (Nat.ltb_spec (start + (i + HASH_SIZE - start)) HASH_SIZE); lia.
Qed.

Lemma probe_loop_step (fuel : nat) (table : list HashEntry) (k : string)
    (idx start : nat) :
  probe_loop (S fuel) table k idx start =
    match key (nth idx table empty_entry) with
    | None => Some (Stop idx)
    | Some k' =>
      if String.eqb k' k then Some (Stop idx)
      else
        let idx' := ((idx + 1) mod HASH_SIZE)%nat in
        if (idx' =? start)%nat then Some Full
        else probe_loop fuel table k idx' start
    end.
Proof. reflexivity. Qed.

(** What the loop returns, from step [m] on with the fuel that is left
    for it. *)
Lemma probe_loop_result (table : list HashEntry) (k : string)
    (start : nat) :
  (start < HASH_SIZE)%nat ->
  forall (fuel m : nat),
    (fuel + m = HASH_SIZE)%nat -> (0 < fuel)%nat ->
    exists r,
      probe_loop fuel table k (probe_pos start m) start = Some r
      /\ match r with
         | Stop i =>
             exists n, (m <= n < HASH_SIZE)%nat /\ i = probe_pos start n
               /\ ends_probe table k i
               /\ forall j, (m <= j < n)%nat ->
                            held_by_other table k (probe_pos start j)
         | Full =>
             forall j, (m <= j < HASH_SIZE)%nat ->
                       held_by_other table k (probe_pos start j)
         end.
Proof.
  intros Hs. induction fuel as [|fuel IH]; intros m Hm Hf; [lia|].
  rewrite probe_loop_step.
  destruct (key (nth (probe_pos start m) table empty_entry))
    as [k'|] eqn:Ek.
  - destruct (String.eqb_spec k' k) as [->|Hne].
    + eexists. split; [reflexivity|].
      exists m. split; [lia|]. split; [reflexivity|].
      split; [right; exact Ek|]. intros j Hj. lia.
    + cbv zeta. rewrite probe_pos_succ.
      destruct (Nat.eqb_spec (probe_pos start (S m)) start) as [E|E].
      * apply probe_pos_back_at_start in E; [|assumption|lia].
        eexists. split; [reflexivity|].
        intros j Hj. assert (j = m) by lia. subst j.
        exists k'. split; assumption.
      * assert (Hfuel : (0 < fuel)%nat).
        { destruct fuel; [|lia]. exfalso. apply E.
          apply probe_pos_back_at_start; [assumption|lia|lia]. }
        destruct (IH (S m) ltac:(lia) Hfuel) as (r & Hr & Hspec).
        exists r. split; [exact Hr|].
        destruct r as [i|].
        -- destruct Hspec as (n & Hn & Hi & Hend & Hpre).
           exists n. split; [lia|]. split; [assumption|].
           split; [assumption|].
           intros j Hj.
           destruct (Nat.eq_dec j m) as [->|Hjm].
           ++ exists k'. split; assumption.
           ++ apply Hpre. lia.
        -- intros j Hj.
           destruct (Nat.eq_dec j m) as [->|Hjm].
           ++ exists k'. split; assumption.
           ++ apply Hspec. lia.
  - eexists. split; [reflexivity|].
    exists m. split; [lia|]. split; [reflexivity|].
    split; [left; exact Ek|]. intros j Hj. lia.
Qed.

(** [probe] from the key's own slot. *)
Lemma probe_result (table : list HashEntry) (k : string) :
  match probe table k with
  | Stop i =>
      exists n, (n < HASH_SIZE)%nat /\ i = probe_pos (slot_of k) n
        /\ ends_probe table k i
        /\ forall j, (j < n)%nat ->
                     held_by_other table k (probe_pos (slot_of k) j)
  | Full =>
      forall i, (i < HASH_SIZE)%nat -> held_by_other table k i
  end.
Proof.
  pose proof (slot_of_lt k) as Hs. pose proof HASH_SIZE_pos as Hp.
  destruct (probe_loop_result table k (slot_of k) Hs HASH_SIZE 0
              ltac:(lia) Hp) as (r & Hr & Hspec).
  unfold probe. rewrite probe_pos_0 in Hr by assumption. rewrite Hr.
  destruct r as [i|].
  - destruct Hspec as (n & Hn & Hi & Hend & Hpre).
    exists n. split; [lia|]. split; [assumption|].
    split; [assumption|].
    intros j Hj. apply Hpre. lia.
  - intros i Hi.
    destruct (probe_pos_surj (slot_of k) i Hs Hi) as (j & Hj & <-).
    apply Hspec. lia.
Qed.

End ProbeFacts.

(** ** The table of the build phase *)

Module TableFacts.

Import HashJoin ProbeFacts.

Lemma length_list_set {A : Type} (l : list A) :
  forall (i : nat) (x : A), length (list_set l i x) = length l.
Proof.
  induction l as [|h t IH]; intros i x; [reflexivity|].
  destruct i; cbn [list_set length]; [reflexivity|]. now rewrite IH.
Qed.

Lemma nth_list_set_same (t : list HashEntry) (i : nat) (e : HashEntry) :
  (i < length t)%nat -> nth i (list_set t i e) empty_entry = e.
Proof.
  intros H. rewrite nth_list_set, Nat.eqb_refl.
  destruct (Nat.ltb_spec i (length t)); [reflexivity|lia].
Qed.

Lemma nth_list_set_other (t : list HashEntry) (i j : nat) (e : HashEntry) :
  i <> j -> nth j (list_set t i e) empty_entry = nth j t empty_entry.
Proof.
  intros H. rewrite nth_list_set.
  destruct (Nat.eqb_spec i j); [contradiction|reflexivity].
Qed.

Lemma filter_list_set_fill (t : list HashEntry) :
  forall (i : nat) (e : HashEntry),
    (i < length t)%nat ->
    is_occupied (nth i t empty_entry) = false -> is_occupied e = true ->
    length (filter is_occupied (list_set t i e))
    = S (length (filter is_occupied t)).
Proof.
  induction t as [|h t IH]; intros i e Hi Hfree Hocc; [cbn in Hi; lia|].
  destruct i; cbn [list_set filter nth] in *.
  - rewrite Hfree, Hocc. reflexivity.
  - cbn [length] in Hi.
    assert (IH' := IH i e ltac:(lia) Hfree Hocc).
    destruct (is_occupied h); cbn [length]; rewrite IH'; reflexivity.
Qed.

Lemma filter_all (t : list HashEntry) :
  (forall i, (i < length t)%nat ->
             is_occupied (nth i t empty_entry) = true) ->
  length (filter is_occupied t) = length t.
Proof.
  induction t as [|h t IH]; intros H; [reflexivity|].
  pose proof (H 0%nat ltac:(cbn; lia)) as H0. cbn [nth] in H0.
  cbn [filter]. rewrite H0. cbn [length].
  f_equal. apply IH. intros i Hi. apply (H (S i)). cbn. lia.
Qed.

Lemma length_filter_le (t : list HashEntry) :
  (length (filter is_occupied t) <= length t)%nat.
Proof.
  induction t as [|h t IH]; [reflexivity|].
  cbn [filter]. destruct (is_occupied h); cbn [length]; lia.
Qed.

Lemma nth_repeat_empty (n i : nat) :
  nth i (repeat empty_entry n) empty_entry = empty_entry.
Proof.
  revert i. induction n as [|n IH]; intros [|i]; cbn; auto.
Qed.

Lemma filter_repeat_empty (n : nat) :
  filter is_occupied (repeat empty_entry n) = [].
Proof. induction n as [|n IH]; [reflexivity|]. cbn. exact IH. Qed.

Lemma empty_table_inv : table_inv empty_table [].
Proof.
  unfold empty_table. constructor.
  - apply repeat_length.
  - intros i k _ H. rewrite nth_repeat_empty in H. discriminate.
  - intros k row [].
  - intros i j k _ _ H. rewrite nth_repeat_empty in H. discriminate.
  - rewrite filter_repeat_empty. reflexivity.
Qed.

Lemma inv_size_bound (t : list HashEntry) (ks : list (string * string)) :
  table_inv t ks -> (length ks <= HASH_SIZE)%nat.
Proof.
  intros I. rewrite <- (inv_count t ks I), <- (inv_length t ks I).
  apply length_filter_le.
Qed.

Lemma absent_key_free (t : list HashEntry) (ks : list (string * string))
    (k : string) (i : nat) :
  table_inv t ks -> ~ In k (map fst ks) -> (i < HASH_SIZE)%nat ->
  key (nth i t empty_entry) <> Some k.
Proof.
  intros I Hno Hi E.
  destruct (inv_slot t ks I i k Hi E) as [(row & Hin & _) _].
  apply Hno. apply in_map_iff. exists (k, row). auto.
Qed.

(** A key that is not in the table: the probe ends on a free slot
    when there is one, and reports a full table otherwise. *)
Lemma probe_absent (t : list HashEntry) (ks : list (string * string))
    (k : string) :
  table_inv t ks -> ~ In k (map fst ks) ->
  match probe t k with
  | Stop i =>
      (length ks < HASH_SIZE)%nat
      /\ key (nth i t empty_entry) = None
      /\ exists n, (n < HASH_SIZE)%nat /\ i = probe_pos (slot_of k) n
           /\ forall j, (j < n)%nat ->
                key (nth (probe_pos (slot_of k) j) t empty_entry) <> None
  | Full => length ks = HASH_SIZE
  end.
Proof.
  intros I Hno. pose proof (probe_result t k) as H.
  destruct (probe t k) as [i|].
  - destruct H as (n & Hn & Hi & Hend & Hpre).
    assert (Hfree : key (nth i t empty_entry) = None).
    { destruct Hend as [E|E]; [exact E|].
      exfalso. apply (absent_key_free t ks k i I Hno); [|exact E].
      subst i. apply probe_pos_lt. }
    split; [|split; [exact Hfree|]].
    + assert (Hlt : (length (filter is_occupied t) < length t)%nat).
      { destruct (Nat.lt_ge_cases (length (filter is_occupied t))
                    (length t)) as [L|G]; [exact L|].
        exfalso.
        assert (Hall : forall e, In e t -> is_occupied e = true).
        { intros e He.
          assert (Hf : filter is_occupied t = t).
          { clear -G. induction t as [|h t IH]; [reflexivity|].
            cbn [filter length] in *.
            pose proof (length_filter_le t).
            destruct (is_occupied h); cbn [length] in *; [|lia].
            f_equal. apply IH. lia. }
          rewrite <- Hf in He. apply filter_In in He. apply He. }
        assert (Hin : In (nth i t empty_entry) t).
        { apply nth_In. rewrite (inv_length t ks I). subst i.
          apply probe_pos_lt. }
        apply Hall in Hin. unfold is_occupied in Hin.
        rewrite Hfree in Hin. discriminate. }
      rewrite (inv_count t ks I), (inv_length t ks I) in Hlt. exact Hlt.
    + exists n. split; [exact Hn|]. split; [exact Hi|].
      intros j Hj. destruct (Hpre j Hj) as (k' & Ek & _).
      rewrite Ek. discriminate.
  - rewrite <- (inv_count t ks I), <- (inv_length t ks I).
    apply filter_all. intros i Hi. rewrite (inv_length t ks I) in Hi.
    destruct (H i Hi) as (k' & Ek & _).
    unfold is_occupied. rewrite Ek. reflexivity.
Qed.

(** A key that is in the table: the probe ends on its slot. *)
Lemma probe_present (t : list HashEntry) (ks : list (string * string))
    (k : string) (i : nat) :
  table_inv t ks -> (i < HASH_SIZE)%nat ->
  key (nth i t empty_entry) = Some k ->
  probe t k = Stop i.
Proof.
  intros I Hi Ek.
  pose proof (slot_of_lt k) as Hs.
  destruct (probe_pos_surj (slot_of k) i Hs Hi) as (n0 & Hn0 & Hpos0).
  destruct (inv_slot t ks I i k Hi Ek) as [_ Hpath].
  specialize (Hpath n0 Hn0 Hpos0).
  pose proof (probe_result t k) as H.
  destruct (probe t k) as [i'|].
  - destruct H as (n & Hn & Hi' & Hend & Hpre).
    f_equal. subst i'.
    destruct (Nat.lt_trichotomy n n0) as [L|[E|G]].
    + exfalso. destruct Hend as [E|E].
      * exact (Hpath n L E).
      * assert (probe_pos (slot_of k) n = i).
        { eapply (inv_unique t ks I); eauto using probe_pos_lt. }
        assert (n = n0)
          by (apply (probe_pos_inj (slot_of k)); auto; congruence).
        lia.
    + subst n. exact Hpos0.
    + exfalso. destruct (Hpre n0 G) as (k' & Ek' & Hne).
      rewrite Hpos0, Ek in Ek'. congruence.
  - exfalso. destruct (H i Hi) as (k' & Ek' & Hne). congruence.
Qed.

Lemma store_row_new (t : list HashEntry) (i : nat) (k row : string) :
  key (nth i t empty_entry) = None ->
  store_row t i k row = list_set t i (mkEntry (Some k) [row] INIT_CAP).
Proof. intros H. unfold store_row. rewrite H. reflexivity. Qed.

(** Storing a row under a new key in the free slot its probe ended
    on keeps the table sound. *)
Lemma store_row_inv (t : list HashEntry) (ks : list (string * string))
    (k row : string) (i n : nat) :
  table_inv t ks -> ~ In k (map fst ks) ->
  (n < HASH_SIZE)%nat -> i = probe_pos (slot_of k) n ->
  key (nth i t empty_entry) = None ->
  (forall j, (j < n)%nat ->
     key (nth (probe_pos (slot_of k) j) t empty_entry) <> None) ->
  table_inv (store_row t i k row) (ks ++ [(k, row)]).
Proof.
  intros I Hno Hn Hi Hfree Hpre.
  rewrite store_row_new by exact Hfree.
  set (e := mkEntry (Some k) [row] INIT_CAP).
  assert (HiN : (i < HASH_SIZE)%nat) by (subst i; apply probe_pos_lt).
  assert (HiL : (i < length t)%nat) by (rewrite (inv_length t ks I); exact HiN).
  assert (Hmono : forall j, key (nth j t empty_entry) <> None ->
                            key (nth j (list_set t i e) empty_entry) <> None).
  { intros j Hj. destruct (Nat.eq_dec i j) as [<-|Hij].
    - rewrite nth_list_set_same by exact HiL. discriminate.
    - rewrite nth_list_set_other by exact Hij. exact Hj. }
  constructor.
  - rewrite length_list_set. apply (inv_length t ks I).
  - intros i' k' Hi' Ek'.
    destruct (Nat.eq_dec i i') as [<-|Hii].
    + rewrite nth_list_set_same in Ek' by exact HiL.
      rewrite nth_list_set_same by exact HiL.
      cbn in Ek'. injection Ek' as <-. split.
      * exists row. split; [apply in_or_app; right; now left|reflexivity].
      * intros j Hj Hpos j' Hj'.
        assert (j = n)
          by (apply (probe_pos_inj (slot_of k));
              auto using slot_of_lt; congruence).
        subst j. apply Hmono. apply Hpre. exact Hj'.
    + rewrite nth_list_set_other in Ek' by exact Hii.
      rewrite nth_list_set_other by exact Hii.
      destruct (inv_slot t ks I i' k' Hi' Ek') as [(r & Hin & Hr) Hpath].
      split.
      * exists r. split; [apply in_or_app; now left|exact Hr].
      * intros j Hj Hpos j' Hj'. apply Hmono. eapply Hpath; eauto.
  - intros k' row' Hin. apply in_app_or in Hin. destruct Hin as [Hin|Hin].
    + destruct (inv_present t ks I k' row' Hin) as (i' & Hi' & Ek').
      exists i'. split; [exact Hi'|].
      destruct (Nat.eq_dec i i') as [<-|Hii]; [congruence|].
      rewrite nth_list_set_other by exact Hii. exact Ek'.
    + destruct Hin as [Hin|[]]. injection Hin as <- <-.
      exists i. split; [exact HiN|].
      rewrite nth_list_set_same by exact HiL. reflexivity.
  - intros a b k' Ha Hb Eka Ekb.
    destruct (Nat.eq_dec i a) as [Hia|Hia], (Nat.eq_dec i b) as [Hib|Hib];
      try congruence.
    + subst a. rewrite nth_list_set_same in Eka by exact HiL.
      rewrite nth_list_set_other in Ekb by exact Hib.
      cbn in Eka. injection Eka as <-.
      exfalso. exact (absent_key_free t ks k b I Hno Hb Ekb).
    + subst b. rewrite nth_list_set_same in Ekb by exact HiL.
      rewrite nth_list_set_other in Eka by exact Hia.
      cbn in Ekb. injection Ekb as <-.
      exfalso. exact (absent_key_free t ks k a I Hno Ha Eka).
    + rewrite nth_list_set_other in Eka by exact Hia.
      rewrite nth_list_set_other in Ekb by exact Hib.
      eapply (inv_unique t ks I); eauto.
  - rewrite filter_list_set_fill; try exact HiL.
    + rewrite (inv_count t ks I), length_app. cbn. lia.
    + unfold is_occupied. rewrite Hfree. reflexivity.
    + reflexivity.
Qed.

End TableFacts.

(** ** Dictionaries *)

Module DictFacts.

Import HashJoin.

Section WithValue.

Variable value : Type.

Lemma dict_get_set (d : dict value) (k f : string) (v : value) :
  dict_get (dict_set d k v) f
  = if String.eqb k f then Some v else dict_get d f.
Proof.
  induction d as [|[k' v'] rest IH]; cbn [dict_set dict_get].
  - reflexivity.
  - destruct (String.eqb_spec k' k) as [->|Hne]; cbn [dict_get].
    + destruct (String.eqb_spec k f); reflexivity.
    + rewrite IH.
      destruct (String.eqb_spec k' f) as [->|Hf]; [|reflexivity].
      destruct (String.eqb_spec k f); [congruence|reflexivity].
Qed.

Lemma dict_get_absent (d : dict value) (f : string) :
  ~ In f (map fst d) -> dict_get d f = None.
Proof.
  induction d as [|[k v] rest IH]; intros H; [reflexivity|].
  cbn [dict_get]. destruct (String.eqb_spec k f) as [->|Hne].
  - exfalso. apply H. now left.
  - apply IH. intros Hin. apply H. now right.
Qed.

(** On common fields the outer value wins; the other fields keep
    the inner value. *)
Lemma dict_get_merge (outer : dict value) :
  forall (inner : dict value) (f : string),
    NoDup (map fst outer) ->
    dict_get (merge inner outer) f
    = match dict_get outer f with
      | Some v => Some v
      | None => dict_get inner f
      end.
Proof.
  unfold merge, dict_update.
  induction outer as [|[k v] rest IH]; intros inner f Hnd;
    [reflexivity|].
  cbn [map fst] in Hnd. inversion Hnd as [|? ? Hk Hrest]; subst.
  cbn [fold_left fst snd dict_get].
  rewrite IH by exact Hrest. rewrite dict_get_set.
  destruct (String.eqb_spec k f) as [->|Hne]; [|reflexivity].
  rewrite dict_get_absent by exact Hk. reflexivity.
Qed.

End WithValue.

End DictFacts.

(** ** The two phases of the join *)

Module JoinFacts.

Import HashJoin ProbeFacts TableFacts.

Section WithPython.

Variable value : Type.
Variable loads : string -> option (dict value).
Variable key_cstr : value -> option string.
Variable dumps : dict value -> option string.


Lemma inner_keys_keyed (field : string) (rs : list string) :
  (HashJoin.inner_keys value loads key_cstr) field rs = map fst ((HashJoin.keyed_rows value loads key_cstr) field rs).
Proof.
  unfold HashJoin.inner_keys, HashJoin.keyed_rows.
  induction rs as [|r rs IH]; [reflexivity|].
  cbn [flat_map]. rewrite map_app, IH.
  destruct ((HashJoin.row_key value loads key_cstr) field r); reflexivity.
Qed.

Lemma keyed_rows_key (field : string) (rs : list string)
    (k row : string) :
  In (k, row) ((HashJoin.keyed_rows value loads key_cstr) field rs) -> (HashJoin.row_key value loads key_cstr) field row = Some k.
Proof.
  unfold HashJoin.keyed_rows. intros H. apply in_flat_map in H.
  destruct H as (r & _ & Hr).
  destruct ((HashJoin.row_key value loads key_cstr) field r) as [k'|] eqn:E; [|contradiction].
  destruct Hr as [Hr|[]]. injection Hr as <- <-. exact E.
Qed.

(** *** Build *)

Lemma build_ok (field : string) (rs : list string) :
  forall (t : list HashEntry) (ks : list (string * string)),
    table_inv t ks ->
    NoDup (map fst ks ++ (HashJoin.inner_keys value loads key_cstr) field rs) ->
    (length ks + length ((HashJoin.inner_keys value loads key_cstr) field rs) <= HASH_SIZE)%nat ->
    exists t',
      (HashJoin.clean_build value loads key_cstr) field rs t = Some t'
      /\ table_inv t' (ks ++ (HashJoin.keyed_rows value loads key_cstr) field rs).
Proof.
  induction rs as [|r rs IH]; intros t ks I Hnd Hroom.
  - exists t. split; [reflexivity|].
    unfold HashJoin.keyed_rows. cbn. now rewrite app_nil_r.
  - unfold HashJoin.inner_keys, HashJoin.keyed_rows in *.
    cbn [HashJoin.clean_build flat_map] in *.
    destruct ((HashJoin.row_key value loads key_cstr) field r) as [k|] eqn:Ek.
    + cbn [app length] in *.
      assert (Hk : ~ In k (map fst ks)).
      { intros Hin. apply NoDup_remove_2 in Hnd. apply Hnd.
        apply in_or_app. now left. }
      pose proof (probe_absent t ks k I Hk) as Hp.
      destruct (probe t k) as [i|]; [|lia].
      destruct Hp as (_ & Hfree & n & Hn & Hi & Hpre).
      pose proof (store_row_inv t ks k r i n I Hk Hn Hi Hfree Hpre)
        as I'.
      destruct (IH (store_row t i k r) (ks ++ [(k, r)]) I')
        as (t' & Hb & It').
      * rewrite map_app. cbn [map fst]. rewrite <- app_assoc. exact Hnd.
      * rewrite length_app. cbn [length]. lia.
      * exists t'. split; [exact Hb|].
        rewrite <- app_assoc in It'. exact It'.
    + cbn [app] in *. apply IH; assumption.
Qed.

Lemma build_overflow (field : string) (rs : list string) :
  forall (t : list HashEntry) (ks : list (string * string)),
    table_inv t ks ->
    NoDup (map fst ks ++ (HashJoin.inner_keys value loads key_cstr) field rs) ->
    (HASH_SIZE < length ks + length ((HashJoin.inner_keys value loads key_cstr) field rs))%nat ->
    (HashJoin.clean_build value loads key_cstr) field rs t = None.
Proof.
  induction rs as [|r rs IH]; intros t ks I Hnd Hover.
  - pose proof (inv_size_bound t ks I). cbn in Hover. lia.
  - unfold HashJoin.inner_keys in *.
    cbn [HashJoin.clean_build flat_map] in *.
    destruct ((HashJoin.row_key value loads key_cstr) field r) as [k|] eqn:Ek.
    + cbn [app length] in *.
      assert (Hk : ~ In k (map fst ks)).
      { intros Hin. apply NoDup_remove_2 in Hnd. apply Hnd.
        apply in_or_app. now left. }
      pose proof (probe_absent t ks k I Hk) as Hp.
      destruct (probe t k) as [i|]; [|reflexivity].
      destruct Hp as (_ & Hfree & n & Hn & Hi & Hpre).
      pose proof (store_row_inv t ks k r i n I Hk Hn Hi Hfree Hpre)
        as I'.
      apply (IH (store_row t i k r) (ks ++ [(k, r)]) I').
      * rewrite map_app. cbn [map fst]. rewrite <- app_assoc. exact Hnd.
      * rewrite length_app. cbn [length]. lia.
    + cbn [app] in *. apply (IH t ks); assumption.
Qed.

(** *** Which inner row an outer key meets *)

Lemma matching_inner_present (field : string) (rs : list string)
    (k row : string) :
  NoDup ((HashJoin.inner_keys value loads key_cstr) field rs) -> In (k, row) ((HashJoin.keyed_rows value loads key_cstr) field rs) ->
  (HashJoin.matching_inner value loads key_cstr) field rs k = Some row.
Proof.
  unfold HashJoin.matching_inner, HashJoin.inner_keys,
    HashJoin.keyed_rows.
  induction rs as [|r rs IH]; intros Hnd Hin; [contradiction|].
  cbn [flat_map find] in *.
  destruct ((HashJoin.row_key value loads key_cstr) field r) as [k'|] eqn:Ek.
  - cbn [app] in *. inversion Hnd as [|? ? Hk' Hrest]; subst.
    destruct Hin as [Hin|Hin].
    + injection Hin as -> ->. now rewrite String.eqb_refl.
    + destruct (String.eqb_spec k' k) as [->|Hne].
      * exfalso. apply Hk'.
        fold ((HashJoin.inner_keys value loads key_cstr) field rs). rewrite inner_keys_keyed.
        apply in_map_iff. exists (k, row). auto.
      * apply IH; assumption.
  - cbn [app] in *. apply IH; assumption.
Qed.

Lemma matching_inner_absent (field : string) (rs : list string)
    (k : string) :
  ~ In k ((HashJoin.inner_keys value loads key_cstr) field rs) -> (HashJoin.matching_inner value loads key_cstr) field rs k = None.
Proof.
  unfold HashJoin.matching_inner, HashJoin.inner_keys.
  induction rs as [|r rs IH]; intros Hno; [reflexivity|].
  cbn [flat_map find] in *.
  destruct ((HashJoin.row_key value loads key_cstr) field r) as [k'|] eqn:Ek.
  - cbn [app] in *.
    destruct (String.eqb_spec k' k) as [->|Hne].
    + exfalso. apply Hno. now left.
    + apply IH. intros Hin. apply Hno. now right.
  - apply IH. exact Hno.
Qed.

(** *** Probe *)

(** What one outer row adds to the output, given the table of the
    inner rows. *)
Lemma probe_row_joined (inner_key outer_key : string) (size : Z)
    (inner : list string) (t : list HashEntry) (o : Output)
    (row : string) :
  table_inv t ((HashJoin.keyed_rows value loads key_cstr) inner_key inner) ->
  NoDup ((HashJoin.inner_keys value loads key_cstr) inner_key inner) ->
  (HashJoin.clean_probe_row value loads key_cstr dumps) outer_key size t o row
  = match (HashJoin.joined_row value loads key_cstr dumps) inner_key outer_key inner row with
    | Some out =>
        if out_pos o + (strlen out + 1) <=? size
        then mkOutput (out_pos o + (strlen out + 1))
               (result_count o + 1) (written o ++ [out])
        else o
    | None => o
    end.
Proof.
  intros I Hnd.
  unfold HashJoin.clean_probe_row, HashJoin.joined_row, HashJoin.row_key.
  destruct (loads row) as [outer_dict|]; [|reflexivity].
  destruct (dict_get outer_dict outer_key) as [v|]; [|reflexivity].
  destruct (key_cstr v) as [k|]; [|reflexivity].
  destruct (in_dec string_dec k ((HashJoin.inner_keys value loads key_cstr) inner_key inner))
    as [Hin|Hno].
  - rewrite inner_keys_keyed in Hin. apply in_map_iff in Hin.
    destruct Hin as ([k0 row0] & Hk0 & Hin). cbn in Hk0. subst k0.
    destruct (inv_present _ _ I k row0 Hin) as (i & Hi & Eki).
    rewrite (probe_present _ _ k i I Hi Eki). rewrite Eki.
    destruct (inv_slot _ _ I i k Hi Eki) as [(row1 & Hin1 & Hrows) _].
    rewrite Hrows. cbn [fold_left].
    rewrite (matching_inner_present inner_key inner k row1 Hnd Hin1).
    unfold HashJoin.clean_emit.
    destruct (loads row1) as [inner_dict|]; [|reflexivity].
    destruct (dumps (merge inner_dict outer_dict)); reflexivity.
  - rewrite (matching_inner_absent inner_key inner k Hno).
    rewrite inner_keys_keyed in Hno.
    pose proof (probe_absent _ _ k I Hno) as Hp.
    destruct (probe t k) as [i|]; [|reflexivity].
    destruct Hp as (_ & Hfree & _). rewrite Hfree. reflexivity.
Qed.

Lemma bytes_needed_app (a b : list string) :
  bytes_needed (a ++ b)
  = bytes_needed a + bytes_needed b.
Proof.
  unfold bytes_needed. induction a as [|x a IH]; cbn [app fold_right].
  - lia.
  - rewrite IH. lia.
Qed.

Lemma bytes_needed_nonneg (a : list string) : 0 <= bytes_needed a.
Proof.
  unfold bytes_needed, strlen.
  induction a as [|x a IH]; cbn [fold_right]; lia.
Qed.

Lemma probe_phase (inner_key outer_key : string) (size : Z)
    (inner : list string) (t : list HashEntry) :
  table_inv t ((HashJoin.keyed_rows value loads key_cstr) inner_key inner) ->
  NoDup ((HashJoin.inner_keys value loads key_cstr) inner_key inner) ->
  forall (outer : list string) (o : Output),
    out_pos o = bytes_needed (written o) ->
    result_count o = Z.of_nat (length (written o)) ->
    bytes_needed
      (written o ++ (HashJoin.expected_rows value loads key_cstr dumps) inner_key outer_key inner outer)
    <= size ->
    let o' := fold_left ((HashJoin.clean_probe_row value loads key_cstr dumps) outer_key size t) outer o in
    written o'
    = written o ++ (HashJoin.expected_rows value loads key_cstr dumps) inner_key outer_key inner outer
    /\ result_count o' = Z.of_nat (length (written o'))
    /\ out_pos o' = bytes_needed (written o').
Proof.
  intros I Hnd. unfold HashJoin.expected_rows.
  induction outer as [|r outer IH]; intros o Hpos Hcnt Hroom.
  - cbn. rewrite app_nil_r. auto.
  - cbn [fold_left flat_map] in *.
    rewrite (probe_row_joined inner_key outer_key size inner t o r I Hnd).
    destruct ((HashJoin.joined_row value loads key_cstr dumps) inner_key outer_key inner r) as [out|].
    + cbn [app] in Hroom |- *.
      assert (Hfit : out_pos o + (strlen out + 1) <= size).
      { rewrite Hpos. rewrite bytes_needed_app in Hroom.
        cbn [bytes_needed fold_right] in Hroom.
        change (fold_right (fun r acc => strlen r + 1 + acc) 0 ?l)
          with (bytes_needed l) in Hroom.
        pose proof (bytes_needed_nonneg
                      (flat_map
                         (fun outer0 =>
                            match (HashJoin.joined_row value loads key_cstr dumps) inner_key outer_key inner outer0
                            with Some out0 => [out0] | None => [] end)
                         outer)).
        unfold bytes_needed in *. lia. }
      destruct (Z.leb_spec (out_pos o + (strlen out + 1)) size)
        as [_|Hbad]; [|lia].
      set (o1 := mkOutput _ _ _).
      specialize (IH o1).
      assert (Hw : written o1 = written o ++ [out])
        by reflexivity.
      rewrite Hw, <- app_assoc in IH. cbn [app] in IH.
      apply IH.
      * subst o1. cbn. rewrite bytes_needed_app, Hpos.
        unfold bytes_needed. cbn. lia.
      * subst o1. cbn. rewrite length_app, Hcnt. cbn. lia.
      * exact Hroom.
    + cbn [app] in Hroom |- *. apply IH; assumption.
Qed.

(** *** The count *)

Lemma existsb_eqb_In (k : string) (l : list string) :
  existsb (String.eqb k) l = true <-> In k l.
Proof.
  rewrite existsb_exists. split.
  - intros (x & Hin & E). apply String.eqb_eq in E. now subst.
  - intros Hin. exists k. split; [exact Hin|apply String.eqb_refl].
Qed.

Lemma expected_count (inner_key outer_key : string)
    (inner outer : list string) :
  NoDup ((HashJoin.inner_keys value loads key_cstr) inner_key inner) ->
  (forall d, dumps d <> None) ->
  length ((HashJoin.expected_rows value loads key_cstr dumps) inner_key outer_key inner outer)
  = length ((HashJoin.matching_outer value loads key_cstr) inner_key outer_key inner outer).
Proof.
  intros Hnd Hdumps.
  unfold HashJoin.expected_rows, HashJoin.matching_outer.
  induction outer as [|r outer IH]; [reflexivity|].
  cbn [flat_map filter]. rewrite length_app, IH. clear IH.
  unfold HashJoin.joined_row.
  destruct ((HashJoin.row_key value loads key_cstr) outer_key r) as [k|] eqn:Ek; [|reflexivity].
  assert (Hl : exists d, loads r = Some d).
  { unfold HashJoin.row_key in Ek.
    destruct (loads r) as [d|]; [eauto|discriminate]. }
  destruct Hl as (outer_dict & Hl). rewrite Hl.
  destruct (existsb (String.eqb k) ((HashJoin.inner_keys value loads key_cstr) inner_key inner)) eqn:Ex.
  - apply existsb_eqb_In in Ex. rewrite inner_keys_keyed in Ex.
    apply in_map_iff in Ex. destruct Ex as ([k0 row0] & Hk0 & Hin).
    cbn in Hk0. subst k0.
    rewrite (matching_inner_present inner_key inner k row0 Hnd Hin).
    pose proof (keyed_rows_key inner_key inner k row0 Hin) as Hrk.
    unfold HashJoin.row_key in Hrk.
    destruct (loads row0) as [inner_dict|]; [|discriminate].
    destruct (dumps (merge inner_dict outer_dict)) eqn:Ed;
      [reflexivity|].
    exfalso. exact (Hdumps _ Ed).
  - rewrite matching_inner_absent; [reflexivity|].
    intros Hin. apply existsb_eqb_In in Hin. congruence.
Qed.

End WithPython.

End JoinFacts.

(** * More about the hash join: repeated keys, the buffer, the table *)

Module JoinPairsFacts.

Import HashJoin ProbeFacts TableFacts JoinFacts JoinPairs.

(** ** The key skeleton of a table *)

Lemma nth_map_skel (t : list HashEntry) (i : nat) :
  nth i (map skel_entry t) empty_entry = skel_entry (nth i t empty_entry).
Proof. exact (map_nth skel_entry t empty_entry i). Qed.

Lemma probe_loop_skel (k : string) :
  forall (fuel : nat) (t : list HashEntry) (idx start : nat),
    probe_loop fuel (map skel_entry t) k idx start
    = probe_loop fuel t k idx start.
Proof.
  induction fuel as [|fuel IH]; intros t idx start; [reflexivity|].
  rewrite !probe_loop_step, nth_map_skel. cbn [skel_entry key].
  destruct (key (nth idx t empty_entry)) as [k'|]; [|reflexivity].
  destruct (String.eqb k' k); [reflexivity|]. cbv zeta.
  destruct (_ =? _)%nat; [reflexivity|apply IH].
Qed.

Lemma probe_skel (t : list HashEntry) (k : string) :
  probe (map skel_entry t) k = probe t k.
Proof. unfold probe. now rewrite probe_loop_skel. Qed.

Lemma filter_occupied_skel (t : list HashEntry) :
  length (filter is_occupied (map skel_entry t))
  = length (filter is_occupied t).
Proof.
  induction t as [|e t IH]; [reflexivity|]. cbn [map filter].
  change (is_occupied (skel_entry e)) with (is_occupied e).
  destruct (is_occupied e); cbn [length]; lia.
Qed.

Lemma table_inv_skel (t : list HashEntry) (ks : list (string * string)) :
  table_inv t ks -> table_inv (map skel_entry t) ks.
Proof.
  intros I. constructor.
  - rewrite length_map. apply I.
  - intros i k Hi Hk. rewrite nth_map_skel in Hk |- *.
    cbn [skel_entry key] in Hk.
    destruct (inv_slot _ _ I i k Hi Hk) as [(row & Hin & Hrows) Hchain].
    split.
    + exists row. split; [exact Hin|]. cbn [skel_entry rows].
      now rewrite Hrows.
    + intros j Hj Hp j' Hj'. rewrite nth_map_skel. cbn [skel_entry key].
      now apply (Hchain j Hj Hp j').
  - intros k row Hin.
    destruct (inv_present _ _ I k row Hin) as (i & Hi & Hk).
    exists i. split; [exact Hi|]. rewrite nth_map_skel. exact Hk.
  - intros i j k Hi Hj Hki Hkj. rewrite nth_map_skel in Hki, Hkj.
    exact (inv_unique _ _ I i j k Hi Hj Hki Hkj).
  - rewrite filter_occupied_skel. apply I.
Qed.

Lemma map_list_set_at {A B : Type} (f : A -> B) (l : list A) :
  forall (i : nat) (x : A),
    map f (list_set l i x) = list_set (map f l) i (f x).
Proof.
  induction l as [|h t IH]; intros i x; [reflexivity|].
  destruct i; cbn [list_set map]; [reflexivity|]. now rewrite IH.
Qed.

(** ** Keys and the rows under them *)

Lemma firsts_snoc (ks : list (string * string)) (kr : string * string) :
  firsts (ks ++ [kr])
  = if has_key (fst kr) (firsts ks) then firsts ks else firsts ks ++ [kr].
Proof. unfold firsts. rewrite fold_left_app. reflexivity. Qed.

Lemma has_key_app (k : string) (a b : list (string * string)) :
  has_key k (a ++ b) = has_key k a || has_key k b.
Proof. apply existsb_app. Qed.

Lemma has_key_firsts (k : string) (ks : list (string * string)) :
  has_key k (firsts ks) = has_key k ks.
Proof.
  induction ks as [|x ks IH] using rev_ind; [reflexivity|].
  rewrite firsts_snoc, has_key_app.
  destruct (has_key (fst x) (firsts ks)) eqn:E.
  - rewrite IH. cbn [has_key existsb].
    destruct (String.eqb_spec (fst x) k) as [Ek|Ek]; cbn [orb].
    + rewrite <- IH, <- Ek, E. reflexivity.
    + now rewrite !orb_false_r.
  - rewrite has_key_app, IH. reflexivity.
Qed.

Lemma has_key_In (k : string) (ks : list (string * string)) :
  has_key k ks = true <-> In k (map fst ks).
Proof.
  unfold has_key. rewrite existsb_exists, in_map_iff. split.
  - intros (x & Hin & E). apply String.eqb_eq in E. eauto.
  - intros (x & E & Hin). exists x. split; [exact Hin|].
    now apply String.eqb_eq.
Qed.

Lemma has_key_false (k : string) (ks : list (string * string)) :
  has_key k ks = false <-> ~ In k (map fst ks).
Proof.
  rewrite <- has_key_In. destruct (has_key k ks); split; congruence.
Qed.

Lemma rows_of_app (k : string) (a b : list (string * string)) :
  rows_of k (a ++ b) = rows_of k a ++ rows_of k b.
Proof. unfold rows_of. now rewrite filter_app, map_app. Qed.

Lemma rows_of_one (k k' row : string) :
  rows_of k [(k', row)] = if String.eqb k' k then [row] else [].
Proof. unfold rows_of. cbn. now destruct (String.eqb k' k). Qed.

Lemma rows_of_absent (k : string) (ks : list (string * string)) :
  has_key k ks = false -> rows_of k ks = [].
Proof.
  unfold rows_of, has_key. induction ks as [|x ks IH]; [reflexivity|].
  cbn [existsb filter]. intros H. apply orb_false_iff in H.
  destruct H as [H1 H2]. rewrite H1. now apply IH.
Qed.

Lemma rows_of_present (k : string) (ks : list (string * string)) :
  has_key k ks = true -> rows_of k ks <> [].
Proof.
  unfold rows_of, has_key. induction ks as [|x ks IH]; [discriminate|].
  cbn [existsb filter]. destruct (String.eqb (fst x) k); cbn [orb map].
  - discriminate.
  - exact IH.
Qed.

Lemma firsts_length_mono (a b : list (string * string)) :
  (length (firsts a) <= length (firsts (a ++ b)))%nat.
Proof.
  induction b as [|x b IH] using rev_ind; [now rewrite app_nil_r|].
  rewrite app_assoc, firsts_snoc.
  destruct (has_key _ _); [exact IH|]. rewrite length_app. lia.
Qed.

Lemma firsts_keys_nodup (ks : list (string * string)) :
  NoDup (map fst (firsts ks)).
Proof.
  induction ks as [|x ks IH] using rev_ind; [constructor|].
  rewrite firsts_snoc. destruct (has_key _ _) eqn:E; [exact IH|].
  rewrite map_app. apply NoDup_app; [exact IH|repeat constructor; auto|].
  intros a Ha [Hx|[]]. cbn in Hx. subst a.
  apply has_key_false in E. contradiction.
Qed.

Lemma firsts_count (ks : list (string * string)) :
  length (firsts ks) = length (nodup string_dec (map fst ks)).
Proof.
  rewrite <- (length_map fst (firsts ks)).
  apply Nat.le_antisymm; apply NoDup_incl_length.
  - apply firsts_keys_nodup.
  - intros k Hk. apply nodup_In. apply has_key_In.
    rewrite <- has_key_firsts. now apply has_key_In.
  - apply NoDup_nodup.
  - intros k Hk. apply nodup_In in Hk. apply has_key_In.
    rewrite has_key_firsts. now apply has_key_In.
Qed.

(** ** One more row into the table *)

Lemma multi_inv_empty : multi_inv empty_table [].
Proof.
  split.
  - apply table_inv_skel, empty_table_inv.
  - intros i k _ H. unfold empty_table in H.
    rewrite nth_repeat_empty in H. discriminate.
Qed.

Lemma store_row_existing (t : list HashEntry) (i : nat)
    (k k0 row : string) :
  key (nth i t empty_entry) = Some k0 ->
  store_row t i k row
  = list_set t i
      (mkEntry (Some k0) (rows (nth i t empty_entry) ++ [row])
         (if (length (rows (nth i t empty_entry))
              =? cap (nth i t empty_entry))%nat
          then cap (nth i t empty_entry) * 2
          else cap (nth i t empty_entry))).
Proof.
  intros H. unfold store_row. rewrite H.
  destruct (_ =? _)%nat; cbn [key rows cap]; rewrite H; reflexivity.
Qed.

Lemma key_slot_has_key (t : list HashEntry) (ks : list (string * string))
    (i : nat) (k : string) :
  multi_inv t ks -> (i < HASH_SIZE)%nat ->
  key (nth i t empty_entry) = Some k -> has_key k ks = true.
Proof.
  intros [I _] Hi Hk.
  assert (Hk' : key (nth i (map skel_entry t) empty_entry) = Some k)
    by (rewrite nth_map_skel; exact Hk).
  destruct (inv_slot _ _ I i k Hi Hk') as [(row & Hin & _) _].
  rewrite <- has_key_firsts. apply has_key_In.
  apply in_map_iff. exists (k, row). auto.
Qed.

Lemma store_row_multi (t : list HashEntry) (ks : list (string * string))
    (k row : string) :
  multi_inv t ks ->
  match probe t k with
  | Stop i => multi_inv (store_row t i k row) (ks ++ [(k, row)])
  | Full => has_key k ks = false /\ length (firsts ks) = HASH_SIZE
  end.
Proof.
  intros M. pose proof M as [I R].
  assert (Hlen : length t = HASH_SIZE)
    by (rewrite <- (inv_length _ _ I); now rewrite length_map).
  destruct (has_key k ks) eqn:Hk.
  - (* the key is in the table *)
    assert (Hin : In k (map fst (firsts ks)))
      by (apply has_key_In; now rewrite has_key_firsts).
    apply in_map_iff in Hin. destruct Hin as ([k0 row0] & E0 & Hin).
    cbn in E0. subst k0.
    destruct (inv_present _ _ I k row0 Hin) as (i & Hi & Eki).
    rewrite <- probe_skel, (probe_present _ _ k i I Hi Eki).
    rewrite nth_map_skel in Eki. cbn [skel_entry key] in Eki.
    rewrite (store_row_existing t i k k row Eki).
    pose proof (R i k Hi Eki) as Hrows.
    pose proof (rows_of_present k ks Hk) as Hne.
    split.
    + rewrite firsts_snoc. cbn [fst]. rewrite has_key_firsts, Hk.
      rewrite (map_list_set skel_entry t i _ empty_entry);
        [exact I| |lia].
      unfold skel_entry. cbn [key rows]. rewrite Eki. f_equal.
      destruct (rows (nth i t empty_entry)) as [|r0 rest];
        [rewrite <- Hrows in Hne; contradiction|reflexivity].
    + intros j k' Hj Ej. rewrite nth_list_set in Ej |- *.
      rewrite rows_of_app, rows_of_one.
      destruct (Nat.eqb_spec i j) as [<-|Hij]; cbn [andb] in *.
      * destruct (Nat.ltb_spec i (length t)) as [_|Hbad]; [|lia].
        cbn [key rows] in *. injection Ej as <-.
        rewrite String.eqb_refl, Hrows. reflexivity.
      * destruct (String.eqb_spec k k') as [<-|Hkk].
        -- exfalso. apply Hij.
           apply (inv_unique _ _ I i j k Hi Hj);
             rewrite nth_map_skel; assumption.
        -- rewrite app_nil_r. now apply R.
  - (* a new key *)
    assert (Hno : ~ In k (map fst (firsts ks)))
      by (apply has_key_false; now rewrite has_key_firsts).
    pose proof (probe_absent _ _ k I Hno) as Hp.
    rewrite probe_skel in Hp.
    destruct (probe t k) as [i|]; [|auto].
    destruct Hp as (Hroom & Hfree & n & Hn & Hi & Hpre).
    assert (Hilt : (i < HASH_SIZE)%nat) by (subst i; apply probe_pos_lt).
    pose proof (store_row_inv _ _ k row i n I Hno Hn Hi Hfree Hpre) as I'.
    rewrite (store_row_new _ i k row Hfree) in I'.
    rewrite nth_map_skel in Hfree. cbn [skel_entry key] in Hfree.
    rewrite (store_row_new t i k row Hfree).
    split.
    + rewrite firsts_snoc. cbn [fst]. rewrite has_key_firsts, Hk.
      apply table_inv_skel in I'.
      rewrite map_list_set_at, map_map in I'.
      rewrite map_list_set_at.
      rewrite (map_ext (fun e => skel_entry (skel_entry e)) skel_entry)
        in I'; [exact I'|].
      intros e. unfold skel_entry. cbn [key rows]. f_equal.
      now destruct (rows e) as [|r0 [|r1 rest]].
    + intros j k' Hj Ej. rewrite nth_list_set in Ej |- *.
      rewrite rows_of_app, rows_of_one.
      destruct (Nat.eqb_spec i j) as [<-|Hij]; cbn [andb] in *.
      * destruct (Nat.ltb_spec i (length t)) as [_|Hbad]; [|lia].
        cbn [key rows] in *. injection Ej as <-.
        rewrite String.eqb_refl, (rows_of_absent k ks Hk). reflexivity.
      * destruct (String.eqb_spec k k') as [<-|Hkk].
        -- pose proof (key_slot_has_key t ks j k M Hj Ej). congruence.
        -- rewrite app_nil_r. now apply R.
Qed.

Lemma multi_inv_room (t : list HashEntry) (ks : list (string * string)) :
  multi_inv t ks -> (length (firsts ks) <= HASH_SIZE)%nat.
Proof. intros [I _]. exact (inv_size_bound _ _ I). Qed.

(** ** Rows left out *)

Lemma subseq_refl {A : Type} (l : list A) : subseq l l.
Proof. induction l; constructor; assumption. Qed.

Lemma subseq_nil_l {A : Type} (l : list A) : subseq [] l.
Proof. induction l; constructor; assumption. Qed.

Lemma subseq_app {A : Type} (a a' b b' : list A) :
  subseq a a' -> subseq b b' -> subseq (a ++ b) (a' ++ b').
Proof.
  intros Ha Hb. induction Ha; cbn [app]; try constructor; assumption.
Qed.

(** ** The slots' [rows] arrays *)

Lemma Forall_list_set {A : Type} (P : A -> Prop) (l : list A) :
  forall (i : nat) (x : A),
    Forall P l -> P x -> Forall P (list_set l i x).
Proof.
  induction l as [|h t IH]; intros i x Hl Hx; [constructor|].
  inversion Hl; subst.
  destruct i; cbn [list_set]; constructor; auto.
Qed.

Lemma entry_ok_nth (t : list HashEntry) (i : nat) :
  Forall entry_ok t -> entry_ok (nth i t empty_entry).
Proof.
  intros H. destruct (Nat.lt_ge_cases i (length t)) as [Hlt|Hge].
  - apply (proj1 (Forall_forall entry_ok t) H). now apply nth_In.
  - rewrite nth_overflow by exact Hge. reflexivity.
Qed.

Lemma store_row_entry_ok (t : list HashEntry) (i : nat) (k row : string) :
  Forall entry_ok t -> Forall entry_ok (store_row t i k row).
Proof.
  intros H. pose proof (entry_ok_nth t i H) as He.
  unfold store_row. apply Forall_list_set; [exact H|].
  unfold entry_ok in He |- *.
  destruct (key (nth i t empty_entry)) as [k0|] eqn:Ek.
  - cbn [key rows cap]. destruct He as [[H1 H2] [j Hj]].
    destruct (Nat.eqb_spec (length (rows (nth i t empty_entry)))
                (cap (nth i t empty_entry))) as [E|E];
      cbn [key rows cap]; rewrite Ek, length_app; cbn [length].
    + split; [lia|]. exists (S j). rewrite Hj. cbn [Nat.pow]. lia.
    + split; [lia|]. exists j. exact Hj.
  - cbn [key rows cap length Nat.eqb INIT_CAP app].
    split; [unfold INIT_CAP; lia|]. exists 0%nat. reflexivity.
Qed.

Lemma length_store_row (t : list HashEntry) (i : nat) (k row : string) :
  length (store_row t i k row) = length t.
Proof. unfold store_row. apply length_list_set. Qed.

Section WithPython.

Variable value : Type.
Variable loads : string -> option (dict value).
Variable key_cstr : value -> option string.
Variable dumps : dict value -> option string.

Lemma keyed_rows_cons (field r : string) (rs : list string) :
  HashJoin.keyed_rows value loads key_cstr field (r :: rs)
  = match HashJoin.row_key value loads key_cstr field r with
    | Some k => [(k, r)]
    | None => []
    end ++ HashJoin.keyed_rows value loads key_cstr field rs.
Proof. reflexivity. Qed.

(** *** Build, keys repeated or not *)

Lemma build_multi (field : string) (rs : list string) :
  forall (t : list HashEntry) (ks : list (string * string)),
    multi_inv t ks ->
    match HashJoin.clean_build value loads key_cstr field rs t with
    | Some t' =>
        multi_inv t' (ks ++ HashJoin.keyed_rows value loads key_cstr field rs)
    | None =>
        (HASH_SIZE
         < length (firsts
                     (ks ++ HashJoin.keyed_rows value loads key_cstr
                              field rs)))%nat
    end.
Proof.
  induction rs as [|r rs IH]; intros t ks M.
  - cbn [HashJoin.clean_build]. unfold HashJoin.keyed_rows. cbn [flat_map].
    now rewrite app_nil_r.
  - rewrite keyed_rows_cons. cbn [HashJoin.clean_build].
    destruct (HashJoin.row_key value loads key_cstr field r) as [k|].
    + pose proof (store_row_multi t ks k r M) as Hs.
      destruct (probe t k) as [i|].
      * specialize (IH _ _ Hs). rewrite <- app_assoc in IH. exact IH.
      * destruct Hs as [Hk Hfull].
        pose proof (firsts_length_mono (ks ++ [(k, r)])
                      (HashJoin.keyed_rows value loads key_cstr field rs))
          as Hm.
        rewrite <- app_assoc in Hm. cbn [app] in Hm |- *.
        rewrite firsts_snoc in Hm. cbn [fst] in Hm.
        rewrite has_key_firsts, Hk, length_app in Hm. cbn [length] in Hm.
        lia.
    + cbn [app]. apply IH. exact M.
Qed.

Lemma build_entries_ok (field : string) (rs : list string) :
  forall (t t' : list HashEntry),
    Forall entry_ok t ->
    HashJoin.clean_build value loads key_cstr field rs t = Some t' ->
    Forall entry_ok t' /\ length t' = length t.
Proof.
  induction rs as [|r rs IH]; intros t t' Ht H; cbn [HashJoin.clean_build] in H.
  - injection H as <-. auto.
  - destruct (HashJoin.row_key value loads key_cstr field r) as [k|];
      [|now apply IH].
    destruct (probe t k) as [i|]; [|discriminate].
    apply IH in H; [|now apply store_row_entry_ok].
    now rewrite length_store_row in H.
Qed.

(** *** The output bookkeeping *)

Lemma emit_ok (size : Z) (od : dict value) (o : Output) (stored : string) :
  output_ok size o ->
  output_ok size (HashJoin.clean_emit value loads dumps size od o stored).
Proof.
  intros (Hp & Hc & Hb). unfold HashJoin.clean_emit.
  destruct (loads stored) as [id|]; [|repeat split; assumption].
  destruct (dumps (merge id od)) as [out|]; [|repeat split; assumption].
  destruct (Z.leb_spec (out_pos o + (strlen out + 1)) size) as [Hfit|Hno];
    [|repeat split; assumption].
  repeat split; cbn [out_pos result_count written].
  - rewrite bytes_needed_app, Hp. unfold bytes_needed. cbn. lia.
  - rewrite length_app, Hc. cbn [length]. lia.
  - lia.
Qed.

Lemma emit_rows (size : Z) (od : dict value) (stored : list string) :
  forall o : Output,
    output_ok size o ->
    let o' := fold_left (HashJoin.clean_emit value loads dumps size od) stored o in
    output_ok size o'
    /\ exists l,
         written o' = written o ++ l
         /\ subseq l (merged_rows value loads dumps od stored)
         /\ (out_pos o
             + bytes_needed (merged_rows value loads dumps od stored)
             <= size ->
             l = merged_rows value loads dumps od stored).
Proof.
  induction stored as [|r stored IH]; intros o Hok; cbv zeta.
  - cbn [fold_left]. split; [exact Hok|].
    exists []. rewrite app_nil_r. repeat split. constructor.
  - cbn [fold_left]. unfold merged_rows. cbn [flat_map].
    fold (merged_rows value loads dumps od stored).
    pose proof (emit_ok size od o r Hok) as Hok1.
    destruct (IH _ Hok1) as (Hok' & l & Hw & Hs & Hfull).
    split; [exact Hok'|]. clear IH Hok'.
    unfold HashJoin.clean_emit in Hw, Hfull, Hok1 |- *.
    destruct (loads r) as [id|].
    2:{ exists l. cbn [app]. auto. }
    destruct (dumps (merge id od)) as [out|].
    2:{ exists l. cbn [app]. auto. }
    cbn [app].
    pose proof (bytes_needed_nonneg
                  (merged_rows value loads dumps od stored)) as Hnn.
    destruct (Z.leb_spec (out_pos o + (strlen out + 1)) size) as [Hfit|Hno].
    + cbn [written out_pos] in Hw, Hfull.
      exists (out :: l). rewrite Hw, <- app_assoc. cbn [app].
      split; [reflexivity|]. split; [now constructor|].
      intros Hroom. f_equal. apply Hfull.
      unfold bytes_needed in Hroom |- *. cbn [fold_right] in Hroom. lia.
    + exists l. split; [exact Hw|]. split; [now constructor|].
      intros Hroom. exfalso.
      unfold bytes_needed in Hroom, Hnn. cbn [fold_right] in Hroom. lia.
Qed.

Lemma probe_row_ok (outer_key : string) (size : Z) (t : list HashEntry)
    (o : Output) (row : string) :
  output_ok size o ->
  output_ok size
    (HashJoin.clean_probe_row value loads key_cstr dumps outer_key size t o row).
Proof.
  intros Hok. unfold HashJoin.clean_probe_row.
  destruct (loads row) as [od|]; [|exact Hok].
  destruct (dict_get od outer_key) as [v|]; [|exact Hok].
  destruct (key_cstr v) as [k|]; [|exact Hok].
  destruct (probe t k) as [i|]; [|exact Hok].
  destruct (key (nth i t empty_entry)); [|exact Hok].
  apply (emit_rows size od (rows (nth i t empty_entry)) o Hok).
Qed.

Lemma probe_rows_ok (outer_key : string) (size : Z) (t : list HashEntry)
    (outer : list string) :
  forall o : Output,
    output_ok size o ->
    output_ok size
      (fold_left
         (HashJoin.clean_probe_row value loads key_cstr dumps outer_key size t)
         outer o).
Proof.
  induction outer as [|r outer IH]; intros o Hok; [exact Hok|].
  cbn [fold_left]. apply IH. now apply probe_row_ok.
Qed.

(** *** Probe, keys repeated or not *)

Lemma probe_row_multi (inner_key outer_key : string) (size : Z)
    (inner : list string) (t : list HashEntry) (o : Output) (row : string) :
  multi_inv t (HashJoin.keyed_rows value loads key_cstr inner_key inner) ->
  output_ok size o ->
  let o' :=
    HashJoin.clean_probe_row value loads key_cstr dumps outer_key size t o row in
  let want :=
    joined_rows value loads key_cstr dumps inner_key outer_key inner row in
  exists l,
    written o' = written o ++ l /\ subseq l want
    /\ (out_pos o + bytes_needed want <= size -> l = want).
Proof.
  intros M Hok. cbv zeta.
  unfold HashJoin.clean_probe_row, joined_rows, HashJoin.row_key.
  assert (Hnone : exists l : list string,
             written o = written o ++ l /\ subseq l []
             /\ (out_pos o + bytes_needed [] <= size -> l = [])).
  { exists []. rewrite app_nil_r. repeat split. constructor. }
  destruct (loads row) as [od|]; [|exact Hnone].
  destruct (dict_get od outer_key) as [v|]; [|exact Hnone].
  destruct (key_cstr v) as [k|]; [|exact Hnone].
  set (ks := HashJoin.keyed_rows value loads key_cstr inner_key inner) in *.
  destruct (has_key k ks) eqn:Hk.
  - pose proof M as [I R].
    assert (Hin : In k (map fst (firsts ks)))
      by (apply has_key_In; now rewrite has_key_firsts).
    apply in_map_iff in Hin. destruct Hin as ([k0 row0] & E0 & Hin).
    cbn in E0. subst k0.
    destruct (inv_present _ _ I k row0 Hin) as (i & Hi & Eki).
    rewrite <- probe_skel, (probe_present _ _ k i I Hi Eki).
    rewrite nth_map_skel in Eki. cbn [skel_entry key] in Eki.
    rewrite Eki, (R i k Hi Eki).
    destruct (emit_rows size od (rows_of k ks) o Hok) as (_ & l & H).
    exists l. exact H.
  - rewrite (rows_of_absent k ks Hk). cbn [merged_rows flat_map].
    pose proof M as [I _].
    assert (Hno : ~ In k (map fst (firsts ks)))
      by (apply has_key_false; now rewrite has_key_firsts).
    pose proof (probe_absent _ _ k I Hno) as Hp.
    rewrite probe_skel in Hp.
    destruct (probe t k) as [i|]; [|exact Hnone].
    destruct Hp as (_ & Hfree & _).
    rewrite nth_map_skel in Hfree. cbn [skel_entry key] in Hfree.
    rewrite Hfree. exact Hnone.
Qed.

Lemma probe_rows_multi (inner_key outer_key : string) (size : Z)
    (inner : list string) (t : list HashEntry) :
  multi_inv t (HashJoin.keyed_rows value loads key_cstr inner_key inner) ->
  forall (outer : list string) (o : Output),
    output_ok size o ->
    let o' :=
      fold_left
        (HashJoin.clean_probe_row value loads key_cstr dumps outer_key size t)
        outer o in
    let want :=
      full_join value loads key_cstr dumps inner_key outer_key inner outer in
    exists l,
      written o' = written o ++ l /\ subseq l want
      /\ (out_pos o + bytes_needed want <= size -> l = want).
Proof.
  intros M. induction outer as [|r outer IH]; intros o Hok; cbv zeta.
  - cbn [fold_left full_join flat_map]. exists [].
    rewrite app_nil_r. repeat split. constructor.
  - cbn [fold_left]. unfold full_join. cbn [flat_map].
    fold (full_join value loads key_cstr dumps inner_key outer_key inner
            outer).
    destruct (probe_row_multi inner_key outer_key size inner t o r M Hok)
      as (l1 & Hw1 & Hs1 & Hf1).
    pose proof (probe_row_ok outer_key size t o r Hok) as Hok1.
    destruct (IH _ Hok1) as (l2 & Hw2 & Hs2 & Hf2).
    exists (l1 ++ l2). rewrite Hw2, Hw1, <- app_assoc.
    split; [reflexivity|]. split; [now apply subseq_app|].
    rewrite bytes_needed_app. intros Hroom.
    pose proof (bytes_needed_nonneg
                  (joined_rows value loads key_cstr dumps inner_key
                     outer_key inner r)) as N1.
    pose proof (bytes_needed_nonneg
                  (full_join value loads key_cstr dumps inner_key
                     outer_key inner outer)) as N2.
    assert (E1 : l1 = joined_rows value loads key_cstr dumps inner_key
                        outer_key inner r) by (apply Hf1; lia).
    f_equal; [exact E1|]. apply Hf2.
    destruct Hok1 as (Hp1 & _). rewrite Hp1, Hw1, bytes_needed_app.
    destruct Hok as (Hp & _). rewrite <- Hp, E1. lia.
Qed.

Lemma output_ok_start (size : Z) : output_ok size (mkOutput 0 0 []).
Proof. repeat split; cbn; lia. Qed.

End WithPython.

End JoinPairsFacts.

(** * The hash join with failing calls and [int] arithmetic *)

Module CallFacts.

Import HashJoin ProbeFacts TableFacts JoinFacts JoinPairs JoinPairsFacts.

Lemma to_int_small (z : Z) : - 2 ^ 31 <= z <= INT_MAX -> to_int z = z.
Proof.
  unfold to_int, INT_MAX. intros H.
  rewrite Z.mod_small by lia. lia.
Qed.

Lemma length_le_bytes_needed (l : list string) :
  Z.of_nat (length l) <= bytes_needed l.
Proof.
  unfold bytes_needed, strlen.
  induction l as [|x l IH]; cbn [fold_right length]; lia.
Qed.

Section WithCalls.

Variable value : Type.
Variable loads : string -> loaded value.
Variable key_cstr : value -> option string.
Variable dumps : dict value -> option string.

(** ** Reading a key *)

Lemma read_key_poisoned (field row : string) (st : status) :
  is_clear st = false ->
  fst (read_key value loads key_cstr field row st) = None
  /\ is_clear (snd (read_key value loads key_cstr field row st)) = false.
Proof.
  unfold read_key. destruct st; [discriminate| |]; intros _.
  - destruct (loads row); auto.
  - auto.
Qed.

(** A row read with the indicator clear that leaves it clear has the
    key the clean run sees. *)
Lemma read_key_clear (field row : string)
    (r : option (dict value * string)) :
  read_key value loads key_cstr field row Clear = (r, Clear) ->
  row_key value (row_dict loads) key_cstr field row = option_map snd r
  /\ forall d k, r = Some (d, k) -> loads row = Dict d.
Proof.
  unfold read_key, row_key, row_dict.
  destruct (loads row) as [| | |d]; intros H.
  - discriminate.
  - discriminate.
  - injection H as <-. split; [reflexivity|discriminate].
  - destruct (dict_get d field) as [v|].
    + destruct (key_cstr v) as [k|]; [|discriminate].
      injection H as <-. split; [reflexivity|].
      intros d0 k0 E. now injection E as <- <-.
    + injection H as <-. split; [reflexivity|discriminate].
Qed.

Lemma read_key_dict (field row : string) (st e : status)
    (d : dict value) (k : string) :
  read_key value loads key_cstr field row st = (Some (d, k), e) ->
  st = Clear /\ e = Clear /\ loads row = Dict d.
Proof.
  unfold read_key. destruct st.
  - destruct (loads row) as [| | |d0]; try discriminate.
    destruct (dict_get d0 field) as [v|]; [|discriminate].
    destruct (key_cstr v) as [k0|]; [|discriminate].
    intros H. injection H as <- <- <-. auto.
  - destruct (loads row); discriminate.
  - discriminate.
Qed.

(** A row that is text does not end the process. *)
Lemma read_key_text (field row : string) (st : status) :
  is_text value loads row = true -> has_crashed st = false ->
  has_crashed (snd (read_key value loads key_cstr field row st)) = false.
Proof.
  unfold is_text, read_key. destruct st; [| |discriminate]; intros Ht _.
  - destruct (loads row) as [| | |d]; try discriminate; try reflexivity.
    destruct (dict_get d field) as [v|]; [|reflexivity].
    destruct (key_cstr v); reflexivity.
  - destruct (loads row); try discriminate; reflexivity.
Qed.

(** ** The build loop *)

Lemma build_poisoned (field : string) (rs : list string) :
  forall (st : status) (t : list HashEntry),
    is_clear st = false ->
    exists st',
      build value loads key_cstr field rs st t = Some (t, st')
      /\ is_clear st' = false.
Proof.
  induction rs as [|r rs IH]; intros st t Hst.
  - exists st. auto.
  - cbn [build].
    destruct (read_key_poisoned field r st Hst) as [H1 H2].
    destruct (read_key value loads key_cstr field r st) as [x st1].
    cbn [fst snd] in *. subst x. now apply IH.
Qed.

(** A build that ends with the indicator clear is the clean build. *)
Lemma build_clear (field : string) (rs : list string) :
  forall t t' : list HashEntry,
    build value loads key_cstr field rs Clear t = Some (t', Clear) ->
    clean_build value (row_dict loads) key_cstr field rs t = Some t'.
Proof.
  induction rs as [|r rs IH]; intros t t' H.
  - cbn [build] in H. injection H as <-. reflexivity.
  - cbn [build clean_build] in *.
    destruct (read_key value loads key_cstr field r Clear) as [x e] eqn:E.
    destruct (is_clear e) eqn:Ee.
    2:{ exfalso. destruct x as [[d k]|].
        - destruct (probe t k) as [i|]; [|discriminate].
          destruct (build_poisoned field rs e (store_row t i k r) Ee)
            as (st' & Hb & Hc).
          rewrite Hb in H. injection H as _ Hs. subst st'. discriminate.
        - destruct (build_poisoned field rs e t Ee) as (st' & Hb & Hc).
          rewrite Hb in H. injection H as _ Hs. subst st'. discriminate. }
    destruct e; try discriminate.
    destruct (read_key_clear field r x E) as (Hk & _). rewrite Hk.
    destruct x as [[d k]|]; cbn [option_map snd].
    + destruct (probe t k) as [i|]; [|discriminate]. now apply IH.
    + now apply IH.
Qed.

Lemma build_as_clean (field : string) (rs : list string) :
  forall t : list HashEntry,
    Forall (quiet value loads key_cstr field) rs ->
    build value loads key_cstr field rs Clear t
    = option_map (fun t' => (t', Clear))
        (clean_build value (row_dict loads) key_cstr field rs t).
Proof.
  induction rs as [|r rs IH]; intros t Hq; [reflexivity|].
  inversion Hq as [|? ? Hr Hrs]; subst.
  cbn [build clean_build]. unfold quiet in Hr.
  destruct (read_key value loads key_cstr field r Clear) as [x e] eqn:E.
  cbn [snd] in Hr. subst e.
  destruct (read_key_clear field r x E) as (Hk & _). rewrite Hk.
  destruct x as [[d k]|]; cbn [option_map snd].
  - destruct (probe t k) as [i|]; [|reflexivity]. now apply IH.
  - now apply IH.
Qed.

Lemma build_text (field : string) (rs : list string) :
  forall (st : status) (t t' : list HashEntry) (st' : status),
    forallb (is_text value loads) rs = true ->
    has_crashed st = false ->
    build value loads key_cstr field rs st t = Some (t', st') ->
    has_crashed st' = false.
Proof.
  induction rs as [|r rs IH]; intros st t t' st' Ht Hst H.
  - cbn [build] in H. now injection H as _ <-.
  - cbn [forallb] in Ht. apply andb_prop in Ht. destruct Ht as [Hr Hrs].
    cbn [build] in H.
    pose proof (read_key_text field r st Hr Hst) as H1.
    destruct (read_key value loads key_cstr field r st) as [x st1].
    cbn [snd] in H1.
    destruct x as [[d k]|].
    + destruct (probe t k) as [i|]; [|discriminate].
      exact (IH st1 _ t' st' Hrs H1 H).
    + exact (IH st1 t t' st' Hrs H1 H).
Qed.

Lemma stored_from_store_row (inner : list string) (t : list HashEntry)
    (i : nat) (k row : string) (d : dict value) :
  stored_from value loads inner t -> In row inner -> loads row = Dict d ->
  stored_from value loads inner (store_row t i k row).
Proof.
  intros Ht Hin Hd. unfold stored_from, store_row.
  apply Forall_list_set; [exact Ht|].
  assert (He : Forall (fun r => In r inner /\ exists d0, loads r = Dict d0)
                 (rows (nth i t empty_entry))).
  { destruct (Nat.lt_ge_cases i (length t)) as [Hlt|Hge].
    - apply (proj1 (Forall_forall _ t) Ht). now apply nth_In.
    - rewrite nth_overflow by exact Hge. constructor. }
  cbn [rows].
  assert (Hrows : forall e2 : HashEntry,
             rows e2 = rows (nth i t empty_entry) \/ rows e2 = [] ->
             Forall (fun r => In r inner /\ exists d0, loads r = Dict d0)
               (rows e2 ++ [row])).
  { intros e2 [E|E]; rewrite E; apply Forall_app; split; try exact He;
      repeat constructor; eauto. }
  apply Hrows.
  destruct (key (nth i t empty_entry));
    cbn [rows cap key];
    match goal with
    | |- context [if ?c then _ else _] => destruct c
    end; cbn [rows]; auto.
Qed.

Lemma build_stored_from (inner : list string) (field : string)
    (rs : list string) :
  forall (st : status) (t t' : list HashEntry) (st' : status),
    (forall r, In r rs -> In r inner) ->
    stored_from value loads inner t ->
    build value loads key_cstr field rs st t = Some (t', st') ->
    stored_from value loads inner t'.
Proof.
  induction rs as [|r rs IH]; intros st t t' st' Hsub Ht H.
  - cbn [build] in H. now injection H as <- <-.
  - cbn [build] in H.
    destruct (read_key value loads key_cstr field r st) as [x e] eqn:E.
    assert (Hsub' : forall r0, In r0 rs -> In r0 inner)
      by (intros r0 H0; apply Hsub; now right).
    destruct x as [[d k]|].
    + destruct (read_key_dict field r st e d k E) as (_ & _ & Hd).
      destruct (probe t k) as [i|]; [|discriminate].
      apply (IH e (store_row t i k r) t' st' Hsub'); [|exact H].
      apply (stored_from_store_row inner t i k r d Ht); [|exact Hd].
      apply Hsub. now left.
    + now apply (IH e t t' st' Hsub').
Qed.

Lemma stored_from_empty (inner : list string) :
  stored_from value loads inner empty_table.
Proof.
  apply Forall_forall. intros e He. apply repeat_spec in He. subst e.
  constructor.
Qed.

Lemma stored_from_nth (inner : list string) (t : list HashEntry) (i : nat) :
  stored_from value loads inner t ->
  Forall (fun r => In r inner /\ exists d, loads r = Dict d)
    (rows (nth i t empty_entry)).
Proof.
  intros Ht. destruct (Nat.lt_ge_cases i (length t)) as [Hlt|Hge].
  - apply (proj1 (Forall_forall _ t) Ht). now apply nth_In.
  - rewrite nth_overflow by exact Hge. constructor.
Qed.

Lemma build_entries (field : string) (rs : list string) :
  forall (st : status) (t t' : list HashEntry) (st' : status),
    Forall entry_ok t ->
    build value loads key_cstr field rs st t = Some (t', st') ->
    Forall entry_ok t' /\ length t' = length t.
Proof.
  induction rs as [|r rs IH]; intros st t t' st' Ht H.
  - cbn [build] in H. injection H as <- <-. auto.
  - cbn [build] in H.
    destruct (read_key value loads key_cstr field r st) as [x e].
    destruct x as [[d k]|].
    + destruct (probe t k) as [i|]; [|discriminate].
      destruct (IH e (store_row t i k r) t' st') as [H1 H2];
        [now apply store_row_entry_ok|exact H|].
      split; [exact H1|]. now rewrite H2, length_store_row.
    + now apply (IH e t t' st').
Qed.

(** ** The probe loop once a call has failed *)

Lemma emit_poisoned (size : Z) (od : dict value) (o : Output)
    (st : status) (stored : string) :
  is_clear st = false ->
  exists st',
    emit value loads dumps size od (o, st) stored = (o, st')
    /\ is_clear st' = false.
Proof.
  unfold emit. destruct st; [discriminate| |]; intros _.
  - destruct (loads stored); eauto.
  - eauto.
Qed.

Lemma emit_rows_poisoned (size : Z) (od : dict value)
    (stored : list string) :
  forall (o : Output) (st : status),
    is_clear st = false ->
    exists st',
      fold_left (emit value loads dumps size od) stored (o, st) = (o, st')
      /\ is_clear st' = false.
Proof.
  induction stored as [|r stored IH]; intros o st Hst.
  - exists st. auto.
  - cbn [fold_left].
    destruct (emit_poisoned size od o st r Hst) as (st1 & E & H1).
    rewrite E. now apply IH.
Qed.

Lemma probe_row_poisoned (outer_key : string) (size : Z)
    (t : list HashEntry) (o : Output) (st : status) (row : string) :
  is_clear st = false ->
  exists st',
    probe_row value loads key_cstr dumps outer_key size t (o, st) row
    = (o, st')
    /\ is_clear st' = false.
Proof.
  intros Hst. unfold probe_row.
  destruct (read_key_poisoned outer_key row st Hst) as [H1 H2].
  destruct (read_key value loads key_cstr outer_key row st) as [x st1].
  cbn [fst snd] in *. subst x. eauto.
Qed.

Lemma probe_rows_poisoned (outer_key : string) (size : Z)
    (t : list HashEntry) (outer : list string) :
  forall (o : Output) (st : status),
    is_clear st = false ->
    exists st',
      fold_left (probe_row value loads key_cstr dumps outer_key size t)
        outer (o, st)
      = (o, st')
      /\ is_clear st' = false.
Proof.
  induction outer as [|r outer IH]; intros o st Hst.
  - exists st. auto.
  - cbn [fold_left].
    destruct (probe_row_poisoned outer_key size t o st r Hst)
      as (st1 & E & H1).
    rewrite E. now apply IH.
Qed.

(** ** Rows that are text do not end the process *)

Lemma emit_rows_text (inner : list string) (size : Z) (od : dict value)
    (stored : list string) :
  forall (o : Output) (st : status),
    Forall (fun r => In r inner /\ exists d, loads r = Dict d) stored ->
    has_crashed st = false ->
    has_crashed
      (snd (fold_left (emit value loads dumps size od) stored (o, st)))
    = false.
Proof.
  induction stored as [|r stored IH]; intros o st Hall Hst; [exact Hst|].
  inversion Hall as [|? ? (_ & d & Hd) Hrest]; subst.
  cbn [fold_left].
  assert (H1 : has_crashed
                 (snd (emit value loads dumps size od (o, st) r)) = false).
  { unfold emit. rewrite Hd. destruct st; try discriminate.
    - destruct (dumps (merge d od)); [|reflexivity].
      cbv zeta. destruct (_ <=? _); reflexivity.
    - reflexivity. }
  destruct (emit value loads dumps size od (o, st) r) as [o1 st1].
  now apply IH.
Qed.

Lemma probe_rows_text (inner : list string) (outer_key : string) (size : Z)
    (t : list HashEntry) (rs : list string) :
  forall (o : Output) (st : status),
    stored_from value loads inner t ->
    forallb (is_text value loads) rs = true ->
    has_crashed st = false ->
    has_crashed
      (snd (fold_left
              (probe_row value loads key_cstr dumps outer_key size t) rs
              (o, st)))
    = false.
Proof.
  induction rs as [|r rs IH]; intros o st Ht Hrs Hst; [exact Hst|].
  cbn [forallb] in Hrs. apply andb_prop in Hrs. destruct Hrs as [Hr Hrs].
  cbn [fold_left].
  assert (H1 : has_crashed
                 (snd (probe_row value loads key_cstr dumps outer_key size
                         t (o, st) r)) = false).
  { unfold probe_row.
    pose proof (read_key_text outer_key r st Hr Hst) as Hk.
    destruct (read_key value loads key_cstr outer_key r st) as [x st1].
    cbn [snd] in Hk.
    destruct x as [[od k]|]; [|exact Hk].
    destruct (probe t k) as [i|]; [|exact Hk].
    destruct (key (nth i t empty_entry)); [|exact Hk].
    apply (emit_rows_text inner); [|exact Hk].
    now apply stored_from_nth. }
  destruct (probe_row value loads key_cstr dumps outer_key size t (o, st) r)
    as [o1 st1].
  now apply IH.
Qed.

(** ** The output bookkeeping in [int] arithmetic *)

Lemma emit_output_ok (size : Z) (od : dict value) (o : Output)
    (e : status) (stored : string) :
  (forall id out,
      loads stored = Dict id -> dumps (merge id od) = Some out ->
      Z.max 0 size + strlen out + 1 <= INT_MAX) ->
  output_ok size o ->
  output_ok size (fst (emit value loads dumps size od (o, e) stored)).
Proof.
  intros Hfit Hok. unfold emit.
  destruct e; [| destruct (loads stored); exact Hok | exact Hok].
  destruct (loads stored) as [| | |id]; try exact Hok.
  destruct (dumps (merge id od)) as [out|] eqn:Ed; [|exact Hok].
  specialize (Hfit id out eq_refl Ed).
  destruct Hok as (Hp & Hc & Hb).
  pose proof (bytes_needed_nonneg (written o)) as Hnn.
  pose proof (length_le_bytes_needed (written o)) as Hlen.
  assert (Hs : 0 <= strlen out) by (unfold strlen; lia).
  cbv zeta.
  rewrite (to_int_small (strlen out + 1)) by (unfold INT_MAX in *; lia).
  rewrite (to_int_small (out_pos o + (strlen out + 1)))
    by (unfold INT_MAX in *; lia).
  destruct (Z.leb_spec (out_pos o + (strlen out + 1)) size) as [Hle|Hgt];
    cbn [fst]; [|repeat split; assumption].
  rewrite (to_int_small (result_count o + 1))
    by (unfold INT_MAX in *; lia).
  repeat split; cbn [out_pos result_count written].
  - rewrite bytes_needed_app, Hp. unfold bytes_needed. cbn. lia.
  - rewrite length_app, Hc. cbn [length]. lia.
  - lia.
Qed.

Lemma emit_rows_output_ok (size : Z) (od : dict value)
    (stored : list string) :
  forall (o : Output) (e : status),
    (forall r id out,
        In r stored ->
        loads r = Dict id -> dumps (merge id od) = Some out ->
        Z.max 0 size + strlen out + 1 <= INT_MAX) ->
    output_ok size o ->
    output_ok size
      (fst (fold_left (emit value loads dumps size od) stored (o, e))).
Proof.
  induction stored as [|r stored IH]; intros o e Hfit Hok; [exact Hok|].
  cbn [fold_left].
  pose proof (emit_output_ok size od o e r
                (fun id out => Hfit r id out (or_introl eq_refl)) Hok) as H1.
  destruct (emit value loads dumps size od (o, e) r) as [o1 e1].
  apply IH; [|exact H1].
  intros r0 id out Hin. apply Hfit. now right.
Qed.

Lemma probe_row_output_ok (inner outer : list string) (outer_key : string)
    (size : Z) (t : list HashEntry) (o : Output) (e : status)
    (row : string) :
  fits_int value loads dumps size inner outer ->
  stored_from value loads inner t -> In row outer ->
  output_ok size o ->
  output_ok size
    (fst (probe_row value loads key_cstr dumps outer_key size t (o, e) row)).
Proof.
  intros Hfit Ht Hin Hok. unfold probe_row.
  destruct (read_key value loads key_cstr outer_key row e) as [x e1] eqn:E.
  destruct x as [[od k]|]; [|exact Hok].
  destruct (read_key_dict outer_key row e e1 od k E) as (_ & _ & Hd).
  destruct (probe t k) as [i|]; [|exact Hok].
  destruct (key (nth i t empty_entry)); [|exact Hok].
  apply emit_rows_output_ok; [|exact Hok].
  intros r id out Hr Hid Hout.
  pose proof (stored_from_nth inner t i Ht) as Hs.
  rewrite Forall_forall in Hs. destruct (Hs r Hr) as (Hri & _).
  exact (Hfit r row id od out Hri Hin Hid Hd Hout).
Qed.

Lemma probe_rows_output_ok (inner outer : list string) (outer_key : string)
    (size : Z) (t : list HashEntry) (rs : list string) :
  forall (o : Output) (e : status),
    fits_int value loads dumps size inner outer ->
    stored_from value loads inner t ->
    (forall r, In r rs -> In r outer) ->
    output_ok size o ->
    output_ok size
      (fst (fold_left
              (probe_row value loads key_cstr dumps outer_key size t) rs
              (o, e))).
Proof.
  induction rs as [|r rs IH]; intros o e Hfit Ht Hsub Hok; [exact Hok|].
  cbn [fold_left].
  pose proof (probe_row_output_ok inner outer outer_key size t o e r Hfit Ht
                (Hsub r (or_introl eq_refl)) Hok) as H1.
  destruct (probe_row value loads key_cstr dumps outer_key size t (o, e) r)
    as [o1 e1].
  apply IH; auto. intros r0 H0. apply Hsub. now right.
Qed.

(** ** The run in which no call raises and no [int] wraps *)

Lemma emit_as_clean (size : Z) (od : dict value) (o : Output)
    (stored : string) (id : dict value) (out : string) :
  output_ok size o ->
  loads stored = Dict id -> dumps (merge id od) = Some out ->
  Z.max 0 size + strlen out + 1 <= INT_MAX ->
  emit value loads dumps size od (o, Clear) stored
  = (clean_emit value (row_dict loads) dumps size od o stored, Clear).
Proof.
  intros (Hp & Hc & Hb) Hid Hout Hfit.
  unfold emit, clean_emit, row_dict. rewrite Hid, Hout. cbv zeta.
  pose proof (bytes_needed_nonneg (written o)) as Hnn.
  pose proof (length_le_bytes_needed (written o)) as Hlen.
  assert (Hs : 0 <= strlen out) by (unfold strlen; lia).
  rewrite (to_int_small (strlen out + 1)) by (unfold INT_MAX in *; lia).
  rewrite (to_int_small (out_pos o + (strlen out + 1)))
    by (unfold INT_MAX in *; lia).
  destruct (Z.leb_spec (out_pos o + (strlen out + 1)) size) as [Hle|Hgt];
    [|reflexivity].
  rewrite (to_int_small (result_count o + 1))
    by (unfold INT_MAX in *; lia).
  reflexivity.
Qed.

Lemma emit_rows_as_clean (size : Z) (od : dict value)
    (stored : list string) :
  forall o : Output,
    output_ok size o ->
    (forall d, dumps d <> None) ->
    Forall (fun r => exists id,
                loads r = Dict id
                /\ forall out, dumps (merge id od) = Some out ->
                               Z.max 0 size + strlen out + 1 <= INT_MAX)
      stored ->
    fold_left (emit value loads dumps size od) stored (o, Clear)
    = (fold_left (clean_emit value (row_dict loads) dumps size od) stored o,
       Clear).
Proof.
  induction stored as [|r stored IH]; intros o Hok Hd Hall; [reflexivity|].
  inversion Hall as [|? ? (id & Hid & Hfit) Hrest]; subst.
  cbn [fold_left].
  destruct (dumps (merge id od)) as [out|] eqn:Eo;
    [|now apply Hd in Eo].
  rewrite (emit_as_clean size od o r id out Hok Hid Eo (Hfit out eq_refl)).
  apply IH; [|exact Hd|exact Hrest].
  now apply emit_ok.
Qed.

Lemma probe_row_as_clean (inner outer : list string) (outer_key : string)
    (size : Z) (t : list HashEntry) (o : Output) (row : string) :
  fits_int value loads dumps size inner outer ->
  (forall d, dumps d <> None) ->
  stored_from value loads inner t -> In row outer ->
  quiet value loads key_cstr outer_key row ->
  output_ok size o ->
  probe_row value loads key_cstr dumps outer_key size t (o, Clear) row
  = (clean_probe_row value (row_dict loads) key_cstr dumps outer_key size t
       o row, Clear).
Proof.
  intros Hfit Hd Ht Hin Hq Hok. unfold probe_row, clean_probe_row.
  unfold quiet in Hq.
  destruct (read_key value loads key_cstr outer_key row Clear)
    as [x e] eqn:E.
  cbn [snd] in Hq. subst e.
  unfold read_key in E. unfold row_dict.
  destruct (loads row) as [| | |od] eqn:El; try discriminate.
  { now injection E as <-. }
  destruct (dict_get od outer_key) as [v|]; [|now injection E as <-].
  destruct (key_cstr v) as [k|]; [|discriminate].
  injection E as <-.
  destruct (probe t k) as [i|]; [|reflexivity].
  destruct (key (nth i t empty_entry)); [|reflexivity].
  apply emit_rows_as_clean; [exact Hok|exact Hd|].
  pose proof (stored_from_nth inner t i Ht) as Hs.
  rewrite Forall_forall in Hs |- *. intros r Hr.
  destruct (Hs r Hr) as (Hri & id & Hid).
  exists id. split; [exact Hid|].
  intros out Hout. exact (Hfit r row id od out Hri Hin Hid El Hout).
Qed.

Lemma probe_rows_as_clean (inner outer : list string) (outer_key : string)
    (size : Z) (t : list HashEntry) (rs : list string) :
  forall o : Output,
    fits_int value loads dumps size inner outer ->
    (forall d, dumps d <> None) ->
    stored_from value loads inner t ->
    (forall r, In r rs -> In r outer) ->
    Forall (quiet value loads key_cstr outer_key) rs ->
    output_ok size o ->
    fold_left (probe_row value loads key_cstr dumps outer_key size t) rs
      (o, Clear)
    = (fold_left
         (clean_probe_row value (row_dict loads) key_cstr dumps outer_key
            size t) rs o,
       Clear).
Proof.
  induction rs as [|r rs IH]; intros o Hfit Hd Ht Hsub Hq Hok;
    [reflexivity|].
  inversion Hq as [|? ? Hr Hrs]; subst.
  cbn [fold_left].
  rewrite (probe_row_as_clean inner outer outer_key size t o r Hfit Hd Ht
             (Hsub r (or_introl eq_refl)) Hr Hok).
  apply IH; auto.
  - intros r0 H0. apply Hsub. now right.
  - now apply probe_row_ok.
Qed.

(** When no call fails and the sizes stay within [int], the operator
    returns what the clean run gives. *)
Lemma hash_join_as_clean (inner outer : list string)
    (inner_key outer_key : string) (size : Z) :
  Forall (quiet value loads key_cstr inner_key) inner ->
  Forall (quiet value loads key_cstr outer_key) outer ->
  (forall d, dumps d <> None) ->
  fits_int value loads dumps size inner outer ->
  hash_join value loads key_cstr dumps inner outer inner_key outer_key size
  = Some (clean_join value (row_dict loads) key_cstr dumps inner outer
            inner_key outer_key size).
Proof.
  intros Hqi Hqo Hd Hfit. unfold hash_join, clean_join.
  pose proof (build_stored_from inner inner_key inner Clear empty_table)
    as Hst.
  rewrite (build_as_clean inner_key inner empty_table Hqi) in *.
  destruct (clean_build value (row_dict loads) key_cstr inner_key inner
              empty_table) as [t|]; cbn [option_map]; [|reflexivity].
  specialize (Hst t Clear (fun r H => H) (stored_from_empty inner) eq_refl).
  rewrite (probe_rows_as_clean inner outer outer_key size t outer
             (mkOutput 0 0 []) Hfit Hd Hst (fun r H => H) Hqo
             (output_ok_start size)).
  reflexivity.
Qed.

(** A build that ends with a call failed leaves the join without
    output. *)
Lemma hash_join_after_failure (inner outer : list string)
    (inner_key outer_key : string) (size : Z) (t : list HashEntry)
    (st : status) :
  build value loads key_cstr inner_key inner Clear empty_table
  = Some (t, st) ->
  is_clear st = false ->
  forall r,
    hash_join value loads key_cstr dumps inner outer inner_key outer_key
      size = Some r ->
    r = (0, []).
Proof.
  intros E Hst r. unfold hash_join. rewrite E.
  destruct (probe_rows_poisoned outer_key size t outer (mkOutput 0 0 []) st
              Hst) as (st' & -> & _).
  destruct (has_crashed st'); [discriminate|].
  intros H. now injection H as <-.
Qed.

(** When the clean build finds the table full, the operator returns 0
    and writes nothing, if it returns: either its own build finds the
    table full, or a call has failed by then and no outer row parses. *)
Lemma hash_join_full (inner outer : list string)
    (inner_key outer_key : string) (size : Z) :
  clean_build value (row_dict loads) key_cstr inner_key inner empty_table
  = None ->
  forall r,
    hash_join value loads key_cstr dumps inner outer inner_key outer_key
      size = Some r ->
    r = (0, []).
Proof.
  intros Hfull r.
  destruct (build value loads key_cstr inner_key inner Clear empty_table)
    as [[t e]|] eqn:E.
  - destruct (is_clear e) eqn:Ee.
    + destruct e; try discriminate. apply build_clear in E. congruence.
    + now apply (hash_join_after_failure inner outer inner_key outer_key
                   size t e E Ee).
  - unfold hash_join. rewrite E. intros H. now injection H as <-.
Qed.

(** On rows that are text the operator returns. *)
Lemma hash_join_returns (inner outer : list string)
    (inner_key outer_key : string) (size : Z) :
  forallb (is_text value loads) inner = true ->
  forallb (is_text value loads) outer = true ->
  exists r,
    hash_join value loads key_cstr dumps inner outer inner_key outer_key
      size = Some r.
Proof.
  intros Hi Ho. unfold hash_join.
  destruct (build value loads key_cstr inner_key inner Clear empty_table)
    as [[t e]|] eqn:E; [|eauto].
  pose proof (build_text inner_key inner Clear empty_table t e Hi eq_refl E)
    as He.
  pose proof (build_stored_from inner inner_key inner Clear empty_table t e
                (fun r H => H) (stored_from_empty inner) E) as Hst.
  pose proof (probe_rows_text inner outer_key size t outer (mkOutput 0 0 [])
                e Hst Ho He) as Hp.
  destruct (fold_left _ outer _) as [o st'].
  cbn [snd] in Hp. rewrite Hp. eauto.
Qed.

End WithCalls.

End CallFacts.

(** * The hash join on pickled pages: probing and the table *)

Module PickleFacts.

Import PickleJoin.

(** ** Positions along a probe *)

Lemma table_size_pos : (0 < HASH_TABLE_SIZE)%nat.
Proof. unfold HASH_TABLE_SIZE. lia. Qed.

Lemma slot_pos_lt (start j : nat) : (slot_pos start j < HASH_TABLE_SIZE)%nat.
Proof.
  unfold slot_pos. apply Nat.mod_upper_bound.
  pose proof table_size_pos. lia.
Qed.

Lemma slot_pos_0 (start : nat) :
  (start < HASH_TABLE_SIZE)%nat -> slot_pos start 0 = start.
Proof.
  intros H. unfold slot_pos. rewrite Nat.add_0_r. now apply Nat.mod_small.
Qed.

Lemma slot_pos_succ (start j : nat) :
  ((slot_pos start j + 1) mod HASH_TABLE_SIZE)%nat = slot_pos start (S j).
Proof.
  unfold slot_pos. rewrite Nat.Div0.add_mod_idemp_l. f_equal. lia.
Qed.

Lemma slot_pos_inj (start j j' : nat) :
  (start < HASH_TABLE_SIZE)%nat ->
  (j < HASH_TABLE_SIZE)%nat -> (j' < HASH_TABLE_SIZE)%nat ->
  slot_pos start j = slot_pos start j' -> j = j'.
Proof.
  intros Hs Hj Hj'. unfold slot_pos. pose proof table_size_pos.
  rewrite !ProbeFacts.mod_wrap by lia.
  destruct (Nat.ltb_spec (start + j) HASH_TABLE_SIZE),
    (Nat.ltb_spec (start + j') HASH_TABLE_SIZE); lia.
Qed.

Lemma slot_pos_surj (start i : nat) :
  (start < HASH_TABLE_SIZE)%nat -> (i < HASH_TABLE_SIZE)%nat ->
  exists j, (j < HASH_TABLE_SIZE)%nat /\ slot_pos start j = i.
Proof.
  intros Hs Hi. unfold slot_pos. pose proof table_size_pos.
  destruct (Nat.le_gt_cases start i) as [Hle|Hgt].
  - exists (i - start)%nat. split; [lia|].
    rewrite ProbeFacts.mod_wrap by lia.
    destruct (Nat.ltb_spec (start + (i - start)) HASH_TABLE_SIZE); lia.
  - exists (HASH_TABLE_SIZE + i - start)%nat. split; [lia|].
    rewrite ProbeFacts.mod_wrap by lia.
    destruct (Nat.ltb_spec (start + (HASH_TABLE_SIZE + i - start))
                HASH_TABLE_SIZE); lia.
Qed.

Lemma start_index_nonneg (k : Z) : 0 <= start_index k.
Proof.
  unfold start_index. apply Z.mod_pos_bound. unfold U64_MOD. lia.
Qed.

Lemma home_lt (k : Z) :
  indexable k = true -> (home k < HASH_TABLE_SIZE)%nat.
Proof.
  unfold indexable, home. intros H. apply Z.ltb_lt in H.
  pose proof (start_index_nonneg k). lia.
Qed.

(** A key is indexable when it is not negative or is a multiple of
    the table size; any other key starts just below 2^64. *)
Lemma indexable_spec (k : Z) :
  INT64_MIN <= k <= INT64_MAX ->
  (indexable k = true <-> 0 <= k \/ Z.rem k 1024 = 0)
  /\ (indexable k = false -> U64_MOD - 1024 < start_index k < U64_MOD).
Proof.
  unfold INT64_MIN, INT64_MAX, indexable, start_index, HASH_TABLE_SIZE,
    U64_MOD.
  change (Z.of_nat 1024) with 1024. intros Hk.
  destruct (Z.le_gt_cases 0 k) as [Hpos|Hneg].
  - pose proof (Z.rem_bound_pos k 1024 Hpos ltac:(lia)) as Hr.
    rewrite Z.mod_small by lia. split.
    + split; [auto|]. intros _. apply Z.ltb_lt. lia.
    + intros H. apply Z.ltb_ge in H. lia.
  - pose proof (Z.rem_bound_pos_neg k 1024 ltac:(lia) ltac:(lia)) as Hr.
    destruct (Z.eq_dec (Z.rem k 1024) 0) as [E|E].
    + rewrite E. cbn. split; [|discriminate]. split; auto.
    + assert (Hm : Z.rem k 1024 mod 2 ^ 64 = Z.rem k 1024 + 2 ^ 64).
      { symmetry. apply (Z.mod_unique_pos _ _ (-1)); lia. }
      rewrite Hm. split.
      * split; [|intros [H|H]; [lia|contradiction]].
        intros H. apply Z.ltb_lt in H. lia.
      * intros _. lia.
Qed.

(** ** The loop *)

Lemma find_slot_spec {value : Type} (t : list (HashEntry value)) (k : Z)
    (start : nat) :
  forall (fuel m : nat),
    match find_slot fuel t k (slot_pos start m) with
    | Returns i =>
        exists n, (m <= n < m + fuel)%nat /\ i = slot_pos start n
          /\ ends_loop t k i
          /\ forall j, (m <= j < n)%nat -> other_key t k (slot_pos start j)
    | OutOfBounds => False
    | Runs =>
        forall j, (m <= j < m + fuel)%nat -> other_key t k (slot_pos start j)
    end.
Proof.
  induction fuel as [|fuel IH]; intros m; cbn [find_slot].
  - intros j Hj. lia.
  - destruct (row (nth (slot_pos start m) t free_slot)) as [r|] eqn:Er.
    + destruct (Z.eqb_spec (key (nth (slot_pos start m) t free_slot)) k)
        as [Ek|Ek].
      * exists m. split; [lia|]. split; [reflexivity|].
        split; [right; exact Ek|]. intros j Hj. lia.
      * rewrite slot_pos_succ. specialize (IH (S m)).
        assert (Hm : other_key t k (slot_pos start m)).
        { split; [rewrite Er; discriminate|exact Ek]. }
        destruct (find_slot fuel t k (slot_pos start (S m))) as [i| |].
        -- destruct IH as (n & Hn & Hi & He & Hpre).
           exists n. split; [lia|]. split; [exact Hi|].
           split; [exact He|]. intros j Hj.
           destruct (Nat.eq_dec j m) as [->|Hne]; [exact Hm|].
           apply Hpre. lia.
        -- exact IH.
        -- intros j Hj.
           destruct (Nat.eq_dec j m) as [->|Hne]; [exact Hm|].
           apply IH. lia.
    + exists m. split; [lia|]. split; [reflexivity|].
      split; [left; exact Er|]. intros j Hj. lia.
Qed.

Lemma locate_spec {value : Type} (t : list (HashEntry value)) (k : Z)
    (fuel : nat) :
  indexable k = true ->
  match locate fuel t k with
  | Returns i =>
      exists n, (n < fuel)%nat /\ i = slot_pos (home k) n
        /\ ends_loop t k i
        /\ forall j, (j < n)%nat -> other_key t k (slot_pos (home k) j)
  | OutOfBounds => False
  | Runs => forall j, (j < fuel)%nat -> other_key t k (slot_pos (home k) j)
  end.
Proof.
  intros Hk. unfold locate. rewrite Hk.
  pose proof (find_slot_spec t k (home k) fuel 0) as H.
  rewrite slot_pos_0 in H by now apply home_lt.
  fold (home k).
  destruct (find_slot fuel t k (home k)) as [i| |].
  - destruct H as (n & Hn & Hi & He & Hpre).
    exists n. split; [lia|]. split; [exact Hi|]. split; [exact He|].
    intros j Hj. apply Hpre. lia.
  - exact H.
  - intros j Hj. apply H. lia.
Qed.

(** ** Keys seen so far *)

Section Keys.

Variable value : Type.

Lemma first_with_app (k : Z) (a b : list (Z * HashJoin.dict value)) :
  first_with k (a ++ b)
  = match first_with k a with
    | Some r => Some r
    | None => first_with k b
    end.
Proof.
  unfold first_with. induction a as [|x a IH]; [reflexivity|].
  cbn [app find]. destruct (fst x =? k); [reflexivity|exact IH].
Qed.

Lemma first_with_one (k k' : Z) (r : HashJoin.dict value) :
  first_with k [(k', r)] = if k' =? k then Some r else None.
Proof. unfold first_with. cbn. now destruct (k' =? k). Qed.

Lemma keys_seen_snoc (ks : list (Z * HashJoin.dict value))
    (kr : Z * HashJoin.dict value) :
  keys_seen (ks ++ [kr])
  = if existsb (Z.eqb (fst kr)) (keys_seen ks) then keys_seen ks
    else keys_seen ks ++ [fst kr].
Proof. unfold keys_seen. rewrite fold_left_app. reflexivity. Qed.

Lemma seen_iff_first (k : Z) (ks : list (Z * HashJoin.dict value)) :
  existsb (Z.eqb k) (keys_seen ks)
  = match first_with k ks with Some _ => true | None => false end.
Proof.
  induction ks as [|x ks IH] using rev_ind; [reflexivity|].
  rewrite keys_seen_snoc, first_with_app.
  destruct x as [k' r]. cbn [fst]. rewrite first_with_one.
  destruct (existsb (Z.eqb k') (keys_seen ks)) eqn:E.
  - rewrite IH. destruct (first_with k ks); [reflexivity|].
    destruct (Z.eqb_spec k' k) as [->|Hne]; [|reflexivity].
    rewrite IH in E. exact E.
  - rewrite existsb_app, IH. cbn [existsb].
    rewrite (Z.eqb_sym k k'), orb_false_r.
    destruct (first_with k ks); [reflexivity|].
    now destruct (k' =? k).
Qed.

Lemma keys_seen_nodup (ks : list (Z * HashJoin.dict value)) :
  NoDup (keys_seen ks).
Proof.
  induction ks as [|x ks IH] using rev_ind; [constructor|].
  rewrite keys_seen_snoc.
  destruct (existsb (Z.eqb (fst x)) (keys_seen ks)) eqn:E; [exact IH|].
  apply NoDup_app; [exact IH|repeat constructor; auto|].
  intros a Ha [Hx|[]]. subst a.
  assert (Ht : existsb (Z.eqb (fst x)) (keys_seen ks) = true).
  { apply existsb_exists. exists (fst x). split; [exact Ha|].
    apply Z.eqb_refl. }
  congruence.
Qed.

Lemma seen_In (k : Z) (l : list Z) :
  existsb (Z.eqb k) l = true <-> In k l.
Proof.
  rewrite existsb_exists. split.
  - intros (x & Hin & E). apply Z.eqb_eq in E. now subst.
  - intros Hin. exists k. split; [exact Hin|apply Z.eqb_refl].
Qed.

Lemma first_with_In (k : Z) (ks : list (Z * HashJoin.dict value)) :
  first_with k ks <> None <-> In k (map fst ks).
Proof.
  unfold first_with. induction ks as [|x ks IH]; cbn [find map].
  - split; [congruence|intros []].
  - destruct (Z.eqb_spec (fst x) k) as [E|E].
    + split; [now left|discriminate].
    + rewrite IH. split; [now right|]. intros [H|H]; [contradiction|exact H].
Qed.

Lemma keys_seen_count (ks : list (Z * HashJoin.dict value)) :
  length (keys_seen ks) = length (nodup Z.eq_dec (map fst ks)).
Proof.
  assert (Hiff : forall k, In k (keys_seen ks) <-> In k (map fst ks)).
  { intros k. rewrite <- seen_In, seen_iff_first, <- first_with_In.
    destruct (first_with k ks); split; congruence. }
  apply Nat.le_antisymm; apply NoDup_incl_length.
  - apply keys_seen_nodup.
  - intros k Hk. apply nodup_In. now apply Hiff.
  - apply NoDup_nodup.
  - intros k Hk. apply nodup_In in Hk. now apply Hiff.
Qed.

Lemma keys_seen_mono (a b : list (Z * HashJoin.dict value)) :
  (length (keys_seen a) <= length (keys_seen (a ++ b)))%nat.
Proof.
  induction b as [|x b IH] using rev_ind; [now rewrite app_nil_r|].
  rewrite app_assoc, keys_seen_snoc.
  destruct (existsb _ _); [exact IH|]. rewrite length_app. lia.
Qed.

End Keys.

(** ** Filled slots *)

Section Table.

Variable value : Type.

Lemma nth_empty_table (i : nat) :
  nth i (@zeroed_table value) free_slot = free_slot.
Proof.
  unfold zeroed_table. generalize HASH_TABLE_SIZE. intros n.
  revert i. induction n as [|n IH]; intros [|i]; cbn; auto.
Qed.

Lemma filled_le (t : list (HashEntry value)) :
  (length (filter is_filled t) <= length t)%nat.
Proof.
  induction t as [|h t IH]; [reflexivity|].
  cbn [filter]. destruct (is_filled h); cbn [length]; lia.
Qed.

Lemma filled_after_set (t : list (HashEntry value)) :
  forall (i : nat) (e : HashEntry value),
    (i < length t)%nat ->
    is_filled (nth i t free_slot) = false -> is_filled e = true ->
    length (filter is_filled (list_set t i e))
    = S (length (filter is_filled t)).
Proof.
  induction t as [|h t IH]; intros i e Hi Hfree He; [cbn in Hi; lia|].
  destruct i as [|i]; cbn [list_set filter nth length] in *.
  - rewrite Hfree, He. reflexivity.
  - destruct (is_filled h); cbn [length];
      rewrite (IH i e) by (try lia; assumption); reflexivity.
Qed.

Lemma filled_all (t : list (HashEntry value)) :
  (forall i, (i < length t)%nat -> is_filled (nth i t free_slot) = true) ->
  length (filter is_filled t) = length t.
Proof.
  induction t as [|h t IH]; intros H; [reflexivity|].
  pose proof (H 0%nat ltac:(cbn; lia)) as H0. cbn [nth] in H0.
  cbn [filter]. rewrite H0. cbn [length]. f_equal. apply IH.
  intros i Hi. apply (H (S i)). cbn. lia.
Qed.

Lemma filled_full (t : list (HashEntry value)) :
  length (filter is_filled t) = length t ->
  forall i, (i < length t)%nat -> is_filled (nth i t free_slot) = true.
Proof.
  induction t as [|h t IH]; intros H i Hi; [cbn in Hi; lia|].
  cbn [filter length] in H. pose proof (filled_le t) as Hle.
  destruct (is_filled h) eqn:Eh; cbn [length] in H; [|lia].
  destruct i as [|i]; cbn [nth]; [exact Eh|].
  apply IH; [lia|]. cbn in Hi. lia.
Qed.

Lemma empty_table_ok : table_ok (@zeroed_table value) [].
Proof.
  constructor.
  - apply repeat_length.
  - intros i r _ H. rewrite nth_empty_table in H. discriminate.
  - intros k r H. discriminate.
  - intros i j _ _ H. rewrite nth_empty_table in H. now contradiction H.
  - unfold zeroed_table. generalize HASH_TABLE_SIZE. intros n.
    induction n as [|n IH]; [reflexivity|exact IH].
Qed.

Lemma table_ok_room (t : list (HashEntry value))
    (ks : list (Z * HashJoin.dict value)) :
  table_ok t ks -> (length (keys_seen ks) <= HASH_TABLE_SIZE)%nat.
Proof.
  intros [Il _ _ _ Ic]. rewrite <- Ic, <- Il. apply filled_le.
Qed.

Lemma filled_iff_row (e : HashEntry value) :
  is_filled e = true <-> row e <> None.
Proof.
  unfold is_filled. destruct (row e); split; congruence.
Qed.

(** ** Where the loop ends in a sound table *)

(** A key that is in the table: the loop ends on its slot, given the
    time to get there. *)
Lemma locate_present (t : list (HashEntry value))
    (ks : list (Z * HashJoin.dict value)) (k : Z)
    (r : HashJoin.dict value) (fuel : nat) :
  table_ok t ks -> first_with k ks = Some r ->
  match locate fuel t k with
  | Returns i =>
      (i < HASH_TABLE_SIZE)%nat /\ nth i t free_slot = mkSlot k (Some r)
  | OutOfBounds => False
  | Runs => (fuel < HASH_TABLE_SIZE)%nat
  end.
Proof.
  intros I Hf. pose proof I as [Il Is Ip Iu Ic].
  destruct (Ip k r Hf) as (i0 & Hi0 & E0).
  assert (Er0 : row (nth i0 t free_slot) = Some r) by now rewrite E0.
  assert (Ek0 : key (nth i0 t free_slot) = k) by now rewrite E0.
  destruct (Is i0 r Hi0 Er0) as (_ & Hidx & Hchain).
  rewrite Ek0 in Hidx, Hchain.
  pose proof (home_lt k Hidx) as Hh.
  destruct (slot_pos_surj (home k) i0 Hh Hi0) as (n0 & Hn0 & Hp0).
  pose proof (locate_spec t k fuel Hidx) as Hs.
  destruct (locate fuel t k) as [i| |].
  - destruct Hs as (n & Hn & Hi & He & Hpre).
    assert (En : n = n0).
    { destruct (Nat.lt_trichotomy n n0) as [Hlt|[Heq|Hgt]];
        [|exact Heq|].
      - exfalso. pose proof (Hchain n0 Hn0 Hp0 n Hlt) as Hrow.
        rewrite <- Hi in Hrow.
        destruct He as [He|He]; [contradiction|].
        assert (Eii : i = i0).
        { apply Iu; try assumption.
          - subst i. apply slot_pos_lt.
          - rewrite Er0. discriminate.
          - congruence. }
        rewrite Hi, <- Hp0 in Eii.
        apply slot_pos_inj in Eii; lia.
      - exfalso. destruct (Hpre n0 Hgt) as [_ Hk].
        rewrite Hp0 in Hk. contradiction. }
    subst n. rewrite Hp0 in Hi. subst i. split; assumption.
  - exact Hs.
  - destruct (Nat.lt_ge_cases fuel HASH_TABLE_SIZE) as [Hlt|Hge];
      [exact Hlt|].
    exfalso. destruct (Hs n0 ltac:(lia)) as [_ Hk].
    rewrite Hp0 in Hk. contradiction.
Qed.

(** A key that is not in the table: the loop ends on the first free
    slot on its way, and never ends when there is none. *)
Lemma locate_absent (t : list (HashEntry value))
    (ks : list (Z * HashJoin.dict value)) (k : Z) (fuel : nat) :
  table_ok t ks -> indexable k = true -> first_with k ks = None ->
  match locate fuel t k with
  | Returns i =>
      (i < HASH_TABLE_SIZE)%nat
      /\ row (nth i t free_slot) = None
      /\ (length (keys_seen ks) < HASH_TABLE_SIZE)%nat
      /\ exists n,
           (n < HASH_TABLE_SIZE)%nat /\ i = slot_pos (home k) n
           /\ forall j, (j < n)%nat ->
                row (nth (slot_pos (home k) j) t free_slot) <> None
  | OutOfBounds => False
  | Runs =>
      (fuel < HASH_TABLE_SIZE)%nat
      \/ length (keys_seen ks) = HASH_TABLE_SIZE
  end.
Proof.
  intros I Hidx Hf. pose proof I as [Il Is Ip Iu Ic].
  pose proof (home_lt k Hidx) as Hh.
  pose proof (locate_spec t k fuel Hidx) as Hs.
  destruct (locate fuel t k) as [i| |].
  - destruct Hs as (n & Hn & Hi & He & Hpre).
    assert (Hilt : (i < HASH_TABLE_SIZE)%nat)
      by (subst i; apply slot_pos_lt).
    assert (Hfree : row (nth i t free_slot) = None).
    { destruct (row (nth i t free_slot)) as [r|] eqn:Er; [|reflexivity].
      destruct He as [He|He]; [congruence|].
      destruct (Is i r Hilt Er) as (Hfw & _). rewrite He in Hfw.
      congruence. }
    split; [exact Hilt|]. split; [exact Hfree|]. split.
    + rewrite <- Ic, <- Il.
      destruct (Nat.lt_ge_cases (length (filter is_filled t)) (length t))
        as [L|G]; [exact L|].
      exfalso. pose proof (filled_le t) as Hle.
      pose proof (filled_full t ltac:(lia) i ltac:(lia)) as Hfi.
      apply filled_iff_row in Hfi. contradiction.
    + assert (Hnlt : (n < HASH_TABLE_SIZE)%nat).
      { destruct (Nat.lt_ge_cases n HASH_TABLE_SIZE) as [L|G]; [exact L|].
        exfalso.
        destruct (slot_pos_surj (home k) i Hh Hilt) as (j & Hj & Hp).
        destruct (Hpre j ltac:(lia)) as [Hrow _].
        rewrite Hp in Hrow. contradiction. }
      exists n. split; [exact Hnlt|]. split; [exact Hi|].
      intros j Hj. apply (Hpre j Hj).
  - exact Hs.
  - destruct (Nat.lt_ge_cases fuel HASH_TABLE_SIZE) as [Hlt|Hge];
      [now left|right].
    rewrite <- Ic, <- Il. apply filled_all. intros i Hi.
    rewrite Il in Hi.
    destruct (slot_pos_surj (home k) i Hh Hi) as (j & Hj & Hp).
    destruct (Hs j ltac:(lia)) as [Hrow _]. rewrite Hp in Hrow.
    now apply filled_iff_row.
Qed.

Lemma locate_full (t : list (HashEntry value))
    (ks : list (Z * HashJoin.dict value)) (k : Z) (fuel : nat) :
  table_ok t ks -> indexable k = true -> first_with k ks = None ->
  length (keys_seen ks) = HASH_TABLE_SIZE ->
  locate fuel t k = Runs.
Proof.
  intros I Hidx Hf Hfull.
  pose proof (locate_absent t ks k fuel I Hidx Hf) as H.
  destruct (locate fuel t k) as [i| |]; [|contradiction|reflexivity].
  destruct H as (_ & _ & Hlt & _). lia.
Qed.

(** ** One more row *)

(** A row whose key is in the table already changes nothing. *)
Lemma table_ok_later_row (t : list (HashEntry value))
    (ks : list (Z * HashJoin.dict value)) (k : Z)
    (r0 r : HashJoin.dict value) :
  table_ok t ks -> first_with k ks = Some r0 ->
  table_ok t (ks ++ [(k, r)]).
Proof.
  intros [Il Is Ip Iu Ic] Hf.
  assert (Hsame : forall k' x, first_with k' ks = Some x ->
                    first_with k' (ks ++ [(k, r)]) = Some x).
  { intros k' x H. now rewrite first_with_app, H. }
  constructor.
  - exact Il.
  - intros i r' Hi Hr. destruct (Is i r' Hi Hr) as (H1 & H2 & H3).
    split; [now apply Hsame|]. split; assumption.
  - intros k' r' H. rewrite first_with_app in H.
    destruct (first_with k' ks) as [x|] eqn:E.
    + injection H as <-. now apply Ip.
    + rewrite first_with_one in H.
      destruct (Z.eqb_spec k k') as [<-|]; [congruence|discriminate].
  - exact Iu.
  - rewrite keys_seen_snoc. cbn [fst]. rewrite seen_iff_first, Hf.
    exact Ic.
Qed.

(** The first row of a key goes into the free slot its loop ended
    on. *)
Lemma table_ok_first_row (t : list (HashEntry value))
    (ks : list (Z * HashJoin.dict value)) (k : Z)
    (r : HashJoin.dict value) (i n : nat) :
  table_ok t ks -> indexable k = true -> first_with k ks = None ->
  (n < HASH_TABLE_SIZE)%nat -> i = slot_pos (home k) n ->
  row (nth i t free_slot) = None ->
  (forall j, (j < n)%nat ->
     row (nth (slot_pos (home k) j) t free_slot) <> None) ->
  table_ok (list_set t i (mkSlot k (Some r))) (ks ++ [(k, r)]).
Proof.
  intros [Il Is Ip Iu Ic] Hidx Hf Hn Hi Hfree Hpre.
  pose proof (home_lt k Hidx) as Hh.
  assert (Hilt : (i < HASH_TABLE_SIZE)%nat)
    by (subst i; apply slot_pos_lt).
  assert (Hnew : nth i (list_set t i (mkSlot k (Some r))) free_slot
                 = mkSlot k (Some r)).
  { rewrite nth_list_set, Nat.eqb_refl.
    destruct (Nat.ltb_spec i (length t)); [reflexivity|lia]. }
  assert (Hold : forall j, j <> i ->
             nth j (list_set t i (mkSlot k (Some r))) free_slot
             = nth j t free_slot).
  { intros j Hj. rewrite nth_list_set.
    destruct (Nat.eqb_spec i j); [congruence|reflexivity]. }
  assert (Hrow : forall j,
             row (nth j t free_slot) <> None ->
             row (nth j (list_set t i (mkSlot k (Some r))) free_slot)
             <> None).
  { intros j Hj. destruct (Nat.eq_dec j i) as [->|Hne].
    - rewrite Hnew. discriminate.
    - now rewrite Hold. }
  assert (Hkey : forall j x, (j < HASH_TABLE_SIZE)%nat ->
             row (nth j t free_slot) = Some x ->
             key (nth j t free_slot) <> k).
  { intros j x Hj Hx E. destruct (Is j x Hj Hx) as (Hfw & _).
    rewrite E in Hfw. congruence. }
  constructor.
  - rewrite TableFacts.length_list_set. exact Il.
  - intros j r' Hj Hr. destruct (Nat.eq_dec j i) as [->|Hne].
    + rewrite Hnew in Hr |- *. cbn [row key] in *. injection Hr as <-.
      split.
      * rewrite first_with_app, Hf, first_with_one, Z.eqb_refl.
        reflexivity.
      * split; [exact Hidx|].
        intros j0 Hj0 Hp j' Hj'.
        assert (j0 = n).
        { apply (slot_pos_inj (home k)); try assumption. congruence. }
        subst j0. apply Hrow. now apply Hpre.
    + rewrite (Hold j Hne) in Hr |- *.
      destruct (Is j r' Hj Hr) as (H1 & H2 & H3).
      split; [now rewrite first_with_app, H1|]. split; [exact H2|].
      intros j0 Hj0 Hp j' Hj'. apply Hrow. now apply (H3 j0 Hj0 Hp).
  - intros k' r' H. rewrite first_with_app in H.
    destruct (first_with k' ks) as [x|] eqn:E.
    + injection H as <-. destruct (Ip k' x E) as (j & Hj & Ej).
      exists j. split; [exact Hj|]. rewrite Hold; [exact Ej|].
      intros ->. rewrite Ej in Hfree. discriminate.
    + rewrite first_with_one in H.
      destruct (Z.eqb_spec k k') as [<-|]; [|discriminate].
      injection H as <-. exists i. split; [exact Hilt|exact Hnew].
  - intros a b Ha Hb Hra Hrb Hkk.
    destruct (Nat.eq_dec a i) as [Ea|Ea], (Nat.eq_dec b i) as [Eb|Eb];
      try congruence.
    + exfalso. subst a. rewrite Hnew in Hkk. rewrite (Hold b Eb) in Hkk, Hrb.
      cbn [key] in Hkk.
      destruct (row (nth b t free_slot)) as [x|] eqn:Ex; [|congruence].
      apply (Hkey b x Hb Ex). congruence.
    + exfalso. subst b. rewrite Hnew in Hkk. rewrite (Hold a Ea) in Hkk, Hra.
      cbn [key] in Hkk.
      destruct (row (nth a t free_slot)) as [x|] eqn:Ex; [|congruence].
      apply (Hkey a x Ha Ex). congruence.
    + rewrite (Hold a Ea) in Hra, Hkk. rewrite (Hold b Eb) in Hrb, Hkk.
      now apply Iu.
  - rewrite keys_seen_snoc. cbn [fst]. rewrite seen_iff_first, Hf.
    rewrite length_app. cbn [length].
    rewrite filled_after_set; [lia|lia| |reflexivity].
    unfold is_filled. now rewrite Hfree.
Qed.

End Table.

(** ** The two phases *)

Section WithPickle.

Variable value : Type.
Variable loads : list byte -> option (HashJoin.dict value).
Variable as_long : value -> option Z.
Variable dumps : HashJoin.dict value -> option (list byte).

Lemma keyed_cons (field : string) (p : list byte) (ps : list (list byte)) :
  PickleJoin.keyed value loads as_long field (p :: ps)
  = match PickleJoin.page_key value loads as_long field p with
    | Some kr => [kr]
    | None => []
    end ++ PickleJoin.keyed value loads as_long field ps.
Proof. reflexivity. Qed.

Lemma keys_indexable_cons (field : string) (p : list byte)
    (ps : list (list byte)) :
  PickleJoin.keys_indexable value loads as_long field (p :: ps) = true ->
  (forall k r,
      PickleJoin.page_key value loads as_long field p = Some (k, r) ->
      indexable k = true)
  /\ PickleJoin.keys_indexable value loads as_long field ps = true.
Proof.
  unfold PickleJoin.keys_indexable. rewrite keyed_cons, forallb_app.
  intros H. apply andb_prop in H. destruct H as [H1 H2].
  split; [|exact H2]. intros k r E. rewrite E in H1. cbn in H1.
  now rewrite andb_true_r in H1.
Qed.

(** *** Build *)

Lemma pickle_build_row_ok (fuel : nat) (field : string)
    (t : list (HashEntry value)) (ks : list (Z * HashJoin.dict value))
    (page : list byte) :
  table_ok t ks ->
  (forall k r,
      PickleJoin.page_key value loads as_long field page = Some (k, r) ->
      indexable k = true) ->
  match PickleJoin.clean_build_page value loads as_long fuel field t page with
  | Returns t' =>
      table_ok t' (ks ++ PickleJoin.keyed value loads as_long field [page])
  | OutOfBounds => False
  | Runs =>
      (fuel < HASH_TABLE_SIZE)%nat
      \/ (HASH_TABLE_SIZE
          < length (keys_seen
                      (ks ++ PickleJoin.keyed value loads as_long field
                               [page])))%nat
  end.
Proof.
  intros I Hidx. rewrite keyed_cons. cbn [PickleJoin.keyed flat_map].
  rewrite app_nil_r.
  unfold PickleJoin.clean_build_page, PickleJoin.page_key in *.
  destruct (PickleJoin.clean_unpickle_page value loads page) as [r|];
    [|now rewrite app_nil_r].
  cbv zeta in *.
  destruct (PickleJoin.clean_get_dict_int value as_long r field =? -1);
    [now rewrite app_nil_r|].
  set (k := PickleJoin.clean_get_dict_int value as_long r field) in *.
  specialize (Hidx k r eq_refl).
  destruct (first_with k ks) as [r0|] eqn:Hf.
  - pose proof (locate_present value t ks k r0 fuel I Hf) as H.
    destruct (locate fuel t k) as [i| |]; cbn [bind].
    + destruct H as [_ E]. rewrite E. cbn [row].
      now apply (table_ok_later_row value t ks k r0 r).
    + exact H.
    + now left.
  - pose proof (locate_absent value t ks k fuel I Hidx Hf) as H.
    destruct (locate fuel t k) as [i| |]; cbn [bind].
    + destruct H as (_ & Hfree & _ & n & Hn & Hi & Hpre).
      rewrite Hfree.
      now apply (table_ok_first_row value t ks k r i n).
    + exact H.
    + destruct H as [H|H]; [now left|right].
      rewrite keys_seen_snoc. cbn [fst]. rewrite seen_iff_first, Hf.
      rewrite length_app. cbn [length]. lia.
Qed.

Lemma pickle_build_ok (fuel : nat) (field : string) (pages : list (list byte)) :
  forall (t : list (HashEntry value)) (ks : list (Z * HashJoin.dict value)),
    table_ok t ks ->
    PickleJoin.keys_indexable value loads as_long field pages = true ->
    match PickleJoin.clean_build_pages value loads as_long fuel field pages t with
    | Returns t' =>
        table_ok t' (ks ++ PickleJoin.keyed value loads as_long field pages)
    | OutOfBounds => False
    | Runs =>
        (fuel < HASH_TABLE_SIZE)%nat
        \/ (HASH_TABLE_SIZE
            < length (keys_seen
                        (ks ++ PickleJoin.keyed value loads as_long field
                                 pages)))%nat
    end.
Proof.
  induction pages as [|p pages IH]; intros t ks I Hidx.
  - cbn [PickleJoin.clean_build_pages PickleJoin.keyed flat_map].
    now rewrite app_nil_r.
  - apply keys_indexable_cons in Hidx. destruct Hidx as [Hp Hrest].
    cbn [PickleJoin.clean_build_pages].
    pose proof (pickle_build_row_ok fuel field t ks p I Hp) as H.
    rewrite keyed_cons, app_assoc.
    replace (ks ++ match PickleJoin.page_key value loads as_long field p with
                   | Some kr => [kr]
                   | None => []
                   end)
      with (ks ++ PickleJoin.keyed value loads as_long field [p])
      by (rewrite keyed_cons; cbn [PickleJoin.keyed flat_map];
          now rewrite app_nil_r).
    destruct (PickleJoin.clean_build_page value loads as_long fuel field t p)
      as [t'| |]; cbn [bind].
    + now apply IH.
    + exact H.
    + destruct H as [H|H]; [now left|right].
      eapply Nat.lt_le_trans; [exact H|]. apply keys_seen_mono.
Qed.

(** *** Probe *)

Lemma pickle_probe_row_ok (fuel : nat) (inner_key outer_key : string) (size : Z)
    (inner : list (list byte)) (t : list (HashEntry value)) (o : OutState)
    (page : list byte) :
  table_ok t (PickleJoin.keyed value loads as_long inner_key inner) ->
  (forall k r,
      PickleJoin.page_key value loads as_long outer_key page = Some (k, r) ->
      indexable k = true) ->
  match PickleJoin.clean_probe_page value loads as_long dumps fuel outer_key size
          t o page with
  | Returns o' =>
      o' = PickleJoin.after_probe size o
             (PickleJoin.joined value loads as_long dumps inner_key
                outer_key inner page)
  | OutOfBounds => False
  | Runs =>
      (fuel < HASH_TABLE_SIZE)%nat
      \/ (length (keys_seen
                    (PickleJoin.keyed value loads as_long inner_key inner))
          = HASH_TABLE_SIZE
          /\ exists k r,
               PickleJoin.page_key value loads as_long outer_key page
               = Some (k, r)
               /\ first_with k
                    (PickleJoin.keyed value loads as_long inner_key inner)
                  = None)
  end.
Proof.
  intros I Hidx.
  unfold PickleJoin.clean_probe_page, PickleJoin.joined, PickleJoin.page_key in *.
  destruct (PickleJoin.clean_unpickle_page value loads page) as [r|];
    [|reflexivity].
  cbv zeta in *.
  destruct (PickleJoin.clean_get_dict_int value as_long r outer_key =? -1);
    [reflexivity|].
  set (k := PickleJoin.clean_get_dict_int value as_long r outer_key) in *.
  set (ks := PickleJoin.keyed value loads as_long inner_key inner) in *.
  specialize (Hidx k r eq_refl).
  destruct (first_with k ks) as [r0|] eqn:Hf.
  - pose proof (locate_present value t ks k r0 fuel I Hf) as H.
    destruct (locate fuel t k) as [i| |]; cbn [bind].
    + destruct H as [_ E]. rewrite E. cbn [row].
      unfold PickleJoin.after_probe.
      destruct (dumps (HashJoin.merge r0 r)) as [data|]; [|reflexivity].
      cbv zeta. now destruct (_ <=? _).
    + exact H.
    + now left.
  - pose proof (locate_absent value t ks k fuel I Hidx Hf) as H.
    destruct (locate fuel t k) as [i| |]; cbn [bind].
    + destruct H as (_ & Hfree & _). rewrite Hfree. reflexivity.
    + exact H.
    + destruct H as [H|H]; [now left|right].
      split; [exact H|]. exists k, r. split; [reflexivity|exact Hf].
Qed.

Lemma total_size_app (a b : list (list byte)) :
  PickleJoin.total_size (a ++ b)
  = PickleJoin.total_size a + PickleJoin.total_size b.
Proof.
  unfold PickleJoin.total_size.
  induction a as [|x a IH]; cbn [app fold_right]; [lia|]. rewrite IH. lia.
Qed.


Lemma pickle_emit_ok (size : Z) (o : OutState) (data : option (list byte)) :
  PickleJoin.within_buffer size o ->
  PickleJoin.within_buffer size (PickleJoin.after_probe size o data).
Proof.
  intros (Hp & Hc & Hb). unfold PickleJoin.after_probe.
  destruct data as [data|]; [|repeat split; assumption]. cbv zeta.
  destruct (Z.leb_spec (out_pos o + Z.of_nat (length data)) size)
    as [Hfit|Hno]; [|repeat split; assumption].
  repeat split; cbn [out_pos result_count written].
  - rewrite total_size_app, Hp. unfold PickleJoin.total_size. cbn. lia.
  - rewrite length_app, Hc. cbn [length]. lia.
  - lia.
Qed.

(** Whatever the table, a probe that returns keeps the bookkeeping
    sound. *)
Lemma probe_row_fits (fuel : nat) (outer_key : string) (size : Z)
    (t : list (HashEntry value)) (o o' : OutState) (page : list byte) :
  PickleJoin.within_buffer size o ->
  PickleJoin.clean_probe_page value loads as_long dumps fuel outer_key size t o page
  = Returns o' ->
  PickleJoin.within_buffer size o'.
Proof.
  intros Hok. unfold PickleJoin.clean_probe_page.
  destruct (PickleJoin.clean_unpickle_page value loads page) as [r|];
    [|intros H; injection H as <-; exact Hok].
  cbv zeta.
  destruct (_ =? -1); [intros H; injection H as <-; exact Hok|].
  destruct (locate fuel t _) as [i| |]; cbn [bind]; try discriminate.
  destruct (row (nth i t free_slot)) as [r0|];
    [|intros H; injection H as <-; exact Hok].
  pose proof (pickle_emit_ok size o (dumps (HashJoin.merge r0 r)) Hok) as He.
  unfold PickleJoin.after_probe in He.
  destruct (dumps (HashJoin.merge r0 r)) as [data|];
    [|intros H; injection H as <-; exact Hok].
  cbv zeta in He. destruct (_ <=? _); intros H; injection H as <-; exact He.
Qed.

Lemma probe_rows_fits (fuel : nat) (outer_key : string) (size : Z)
    (t : list (HashEntry value)) (outer : list (list byte)) :
  forall o o' : OutState,
    PickleJoin.within_buffer size o ->
    PickleJoin.clean_probe_pages value loads as_long dumps fuel outer_key size t
      outer o = Returns o' ->
    PickleJoin.within_buffer size o'.
Proof.
  induction outer as [|p outer IH]; intros o o' Hok H;
    cbn [PickleJoin.clean_probe_pages] in H.
  - injection H as <-. exact Hok.
  - destruct (PickleJoin.clean_probe_page value loads as_long dumps fuel outer_key
                size t o p) as [o1| |] eqn:E; cbn [bind] in H;
      try discriminate.
    eapply IH; [|exact H]. eapply probe_row_fits; eassumption.
Qed.


(** With a full table, a probe for a key that is not in it never
    returns, and neither does the phase. *)
Lemma probe_rows_runs (fuel : nat) (inner_key outer_key : string)
    (size : Z) (inner : list (list byte)) (t : list (HashEntry value)) :
  table_ok t (PickleJoin.keyed value loads as_long inner_key inner) ->
  length (keys_seen (PickleJoin.keyed value loads as_long inner_key inner))
  = HASH_TABLE_SIZE ->
  forall (outer : list (list byte)) (o : OutState),
    PickleJoin.keys_indexable value loads as_long outer_key outer = true ->
    (exists p k r,
        In p outer
        /\ PickleJoin.page_key value loads as_long outer_key p = Some (k, r)
        /\ first_with k
             (PickleJoin.keyed value loads as_long inner_key inner) = None) ->
    PickleJoin.clean_probe_pages value loads as_long dumps fuel outer_key size t
      outer o = Runs.
Proof.
  intros I Hfull.
  induction outer as [|p outer IH]; intros o Hidx (q & k & r & Hin & Hq & Hf).
  - contradiction.
  - apply keys_indexable_cons in Hidx. destruct Hidx as [Hp Hrest].
    cbn [PickleJoin.clean_probe_pages].
    pose proof (pickle_probe_row_ok fuel inner_key outer_key size inner t o p I Hp)
      as H.
    destruct (PickleJoin.clean_probe_page value loads as_long dumps fuel outer_key
                size t o p) as [o1| |] eqn:E; cbn [bind];
      [|contradiction|reflexivity].
    destruct Hin as [<-|Hin].
    + exfalso. clear H.
      unfold PickleJoin.clean_probe_page, PickleJoin.page_key in *.
      destruct (PickleJoin.clean_unpickle_page value loads p) as [r'|];
        [|discriminate].
      cbv zeta in *.
      destruct (_ =? -1); [discriminate|].
      injection Hq as Hk Hr. rewrite Hk in E.
      rewrite (locate_full value t _ k fuel I
                 (Hp k r' ltac:(now rewrite Hk)) Hf Hfull) in E.
      discriminate.
    + apply IH; [exact Hrest|]. exists q, k, r. auto.
Qed.

(** *** Pages without a key *)

Lemma build_row_no_key (fuel : nat) (field : string)
    (t : list (HashEntry value)) (p : list byte) :
  PickleJoin.page_has_key value loads as_long field p = false ->
  PickleJoin.clean_build_page value loads as_long fuel field t p = Returns t.
Proof.
  unfold PickleJoin.page_has_key, PickleJoin.page_key, PickleJoin.clean_build_page.
  destruct (PickleJoin.clean_unpickle_page value loads p) as [r|]; [|reflexivity].
  cbv zeta. destruct (_ =? -1); [reflexivity|discriminate].
Qed.

Lemma probe_row_no_key (fuel : nat) (field : string) (size : Z)
    (t : list (HashEntry value)) (o : OutState) (p : list byte) :
  PickleJoin.page_has_key value loads as_long field p = false ->
  PickleJoin.clean_probe_page value loads as_long dumps fuel field size t o p
  = Returns o.
Proof.
  unfold PickleJoin.page_has_key, PickleJoin.page_key, PickleJoin.clean_probe_page.
  destruct (PickleJoin.clean_unpickle_page value loads p) as [r|]; [|reflexivity].
  cbv zeta. destruct (_ =? -1); [reflexivity|discriminate].
Qed.

Lemma build_filter (fuel : nat) (field : string) (pages : list (list byte)) :
  forall t : list (HashEntry value),
    PickleJoin.clean_build_pages value loads as_long fuel field pages t
    = PickleJoin.clean_build_pages value loads as_long fuel field
        (filter (PickleJoin.page_has_key value loads as_long field) pages) t.
Proof.
  induction pages as [|p pages IH]; intros t; [reflexivity|].
  cbn [filter PickleJoin.clean_build_pages].
  destruct (PickleJoin.page_has_key value loads as_long field p) eqn:E.
  - cbn [PickleJoin.clean_build_pages].
    destruct (PickleJoin.clean_build_page value loads as_long fuel field t p);
      cbn [bind]; [apply IH|reflexivity|reflexivity].
  - rewrite (build_row_no_key fuel field t p E). cbn [bind]. apply IH.
Qed.

Lemma probe_rows_filter (fuel : nat) (field : string) (size : Z)
    (t : list (HashEntry value)) (pages : list (list byte)) :
  forall o : OutState,
    PickleJoin.clean_probe_pages value loads as_long dumps fuel field size t pages o
    = PickleJoin.clean_probe_pages value loads as_long dumps fuel field size t
        (filter (PickleJoin.page_has_key value loads as_long field) pages) o.
Proof.
  induction pages as [|p pages IH]; intros o; [reflexivity|].
  cbn [filter PickleJoin.clean_probe_pages].
  destruct (PickleJoin.page_has_key value loads as_long field p) eqn:E.
  - cbn [PickleJoin.clean_probe_pages].
    destruct (PickleJoin.clean_probe_page value loads as_long dumps fuel field size
                t o p); cbn [bind]; [apply IH|reflexivity|reflexivity].
  - rewrite (probe_row_no_key fuel field size t o p E). cbn [bind].
    apply IH.
Qed.

Lemma get_dict_int_range (d : HashJoin.dict value) (field : string) :
  INT64_MIN <= PickleJoin.clean_get_dict_int value as_long d field <= INT64_MAX.
Proof.
  unfold PickleJoin.clean_get_dict_int, INT64_MIN, INT64_MAX.
  destruct (HashJoin.dict_get d field) as [v|]; [|lia].
  destruct (as_long v) as [z|]; [|lia].
  destruct (Z.leb_spec (- 2 ^ 63) z), (Z.leb_spec z (2 ^ 63 - 1));
    cbn [andb]; lia.
Qed.


End WithPickle.

End PickleFacts.

(** * The hash join on pickled pages with failing calls *)

Module PickleCallFacts.

Import PickleJoin PickleFacts.

Section WithCalls.

Variable value : Type.
Variable loads : list byte -> PickleJoin.unpickled value.
Variable as_long : value -> option Z.
Variable dumps : HashJoin.dict value -> option (list byte).

(** ** Reading a row *)

Lemma read_row_poisoned (field : string) (page : list byte) :
  read_row value loads as_long field page true = (None, true).
Proof.
  unfold read_row, unpickle_page.
  destruct (Byte.eqb (nth 0 page x00) x00); reflexivity.
Qed.

Lemma get_dict_int_as_clean (d : HashJoin.dict value) (field : string) :
  fst (get_dict_int value as_long (Some d) field)
  = clean_get_dict_int value as_long d field.
Proof.
  unfold get_dict_int, clean_get_dict_int.
  destruct (HashJoin.dict_get d field) as [v|]; [|reflexivity].
  destruct (as_long v) as [z|]; [|reflexivity].
  destruct ((INT64_MIN <=? z) && (z <=? INT64_MAX)); reflexivity.
Qed.

Lemma get_dict_int_raised (r : option (HashJoin.dict value))
    (field : string) :
  snd (get_dict_int value as_long r field) = true ->
  fst (get_dict_int value as_long r field) = -1.
Proof.
  unfold get_dict_int. destruct r as [d|]; [|discriminate].
  destruct (HashJoin.dict_get d field) as [v|]; [|discriminate].
  destruct (as_long v) as [z|]; [|discriminate].
  destruct ((INT64_MIN <=? z) && (z <=? INT64_MAX)); [discriminate|].
  reflexivity.
Qed.

(** A page read with the indicator clear that leaves it clear has the
    key and the row the clean run sees. *)
Lemma read_row_clear (field : string) (page : list byte)
    (r : option (Z * HashJoin.dict value)) :
  read_row value loads as_long field page false = (r, false) ->
  page_key value (page_dict loads) as_long field page = r.
Proof.
  unfold read_row, unpickle_page, page_key, clean_unpickle_page, page_dict.
  destruct (Byte.eqb (nth 0 page x00) x00).
  { intros H. now injection H as <-. }
  destruct (loads (firstn PAGE_SIZE page)) as [| |d].
  - discriminate.
  - cbn. intros H. now injection H as <-.
  - pose proof (get_dict_int_as_clean d field) as Hk.
    destruct (get_dict_int value as_long (Some d) field) as [k raised].
    cbn [fst] in Hk. subst k. cbv zeta. cbn [orb].
    destruct (clean_get_dict_int value as_long d field =? -1);
      intros H; now injection H as <- _.
Qed.

Lemma read_row_some (field : string) (page : list byte) (err e : bool)
    (k : Z) (d : HashJoin.dict value) :
  read_row value loads as_long field page err = (Some (k, d), e) ->
  err = false /\ e = false
  /\ page_key value (page_dict loads) as_long field page = Some (k, d).
Proof.
  intros H. destruct err; [now rewrite read_row_poisoned in H|].
  split; [reflexivity|].
  assert (He : e = false).
  { unfold read_row, unpickle_page in H.
    destruct (Byte.eqb (nth 0 page x00) x00); [discriminate|].
    destruct (loads (firstn PAGE_SIZE page)) as [| |d0]; try discriminate.
    pose proof (get_dict_int_raised (Some d0) field) as Hr.
    destruct (get_dict_int value as_long (Some d0) field) as [k0 raised].
    cbn [fst snd orb] in *.
    destruct (k0 =? -1) eqn:Ek; [discriminate|].
    destruct raised.
    - rewrite Hr in Ek by reflexivity. discriminate.
    - now injection H as _ _ <-. }
  split; [exact He|]. subst e. now apply read_row_clear.
Qed.

(** A page that has a key in the clean run has it for the operator, as
    long as the indicator is clear. *)
Lemma read_row_of_page_key (field : string) (page : list byte) (k : Z)
    (d : HashJoin.dict value) :
  page_key value (page_dict loads) as_long field page = Some (k, d) ->
  read_row value loads as_long field page false = (Some (k, d), false).
Proof.
  unfold read_row, unpickle_page, page_key, clean_unpickle_page, page_dict.
  destruct (Byte.eqb (nth 0 page x00) x00); [discriminate|].
  destruct (loads (firstn PAGE_SIZE page)) as [| |d0]; try discriminate.
  cbv zeta. unfold get_dict_int, clean_get_dict_int.
  destruct (HashJoin.dict_get d0 field) as [v|]; [|discriminate].
  destruct (as_long v) as [z|]; [|discriminate].
  destruct ((INT64_MIN <=? z) && (z <=? INT64_MAX)); [|discriminate].
  destruct (z =? -1); [discriminate|].
  intros H. injection H as <- <-. reflexivity.
Qed.

Lemma get_dict_int_in_range (r : option (HashJoin.dict value))
    (field : string) :
  INT64_MIN <= fst (get_dict_int value as_long r field) <= INT64_MAX.
Proof.
  unfold get_dict_int, INT64_MIN, INT64_MAX.
  destruct r as [d|]; [|cbn; lia].
  destruct (HashJoin.dict_get d field) as [v|]; [|cbn; lia].
  destruct (as_long v) as [z|]; [|cbn; lia].
  destruct (Z.leb_spec (- 2 ^ 63) z), (Z.leb_spec z (2 ^ 63 - 1));
    cbn [andb fst]; lia.
Qed.

(** ** Once the indicator is set *)

Lemma build_page_poisoned (fuel : nat) (field : string)
    (t : list (HashEntry value)) (page : list byte) :
  build_page value loads as_long fuel field (t, true) page
  = Returns (t, true).
Proof. unfold build_page. now rewrite read_row_poisoned. Qed.

Lemma build_pages_poisoned (fuel : nat) (field : string)
    (pages : list (list byte)) (t : list (HashEntry value)) :
  build_pages value loads as_long fuel field pages (t, true)
  = Returns (t, true).
Proof.
  induction pages as [|p pages IH]; [reflexivity|].
  cbn [build_pages]. rewrite build_page_poisoned. exact IH.
Qed.

Lemma probe_page_poisoned (fuel : nat) (field : string) (size : Z)
    (t : list (HashEntry value)) (o : OutState) (page : list byte) :
  probe_page value loads as_long dumps fuel field size t (o, true) page
  = Returns (o, true).
Proof. unfold probe_page. now rewrite read_row_poisoned. Qed.

Lemma probe_pages_poisoned (fuel : nat) (field : string) (size : Z)
    (t : list (HashEntry value)) (pages : list (list byte)) (o : OutState) :
  probe_pages value loads as_long dumps fuel field size t pages (o, true)
  = Returns (o, true).
Proof.
  induction pages as [|p pages IH]; [reflexivity|].
  cbn [probe_pages]. rewrite probe_page_poisoned. exact IH.
Qed.

(** A call that raises on an inner page leaves the build, if it
    returns, with the indicator set. *)
Lemma build_pages_after_raise (fuel : nat) (field : string)
    (bad : list byte) (pages : list (list byte)) :
  forall (t : list (HashEntry value)) (e : bool)
         (t' : list (HashEntry value)) (e' : bool),
    In bad pages ->
    snd (read_row value loads as_long field bad false) = true ->
    build_pages value loads as_long fuel field pages (t, e)
    = Returns (t', e') ->
    e' = true.
Proof.
  induction pages as [|p pages IH]; intros t e t' e' Hin Hbad H;
    [destruct Hin|].
  destruct e.
  { rewrite build_pages_poisoned in H. now injection H as _ <-. }
  cbn [build_pages] in H.
  destruct Hin as [->|Hin].
  - unfold build_page in H.
    destruct (read_row value loads as_long field bad false) as [x e1].
    cbn [snd] in Hbad. subst e1.
    destruct x as [[k d]|].
    + destruct (locate fuel t k) as [i| |]; cbn [bind] in H;
        try discriminate.
      destruct (row (nth i t free_slot)); cbn [bind] in H;
        rewrite build_pages_poisoned in H; now injection H as _ <-.
    + cbn [bind] in H. rewrite build_pages_poisoned in H.
      now injection H as _ <-.
  - destruct (build_page value loads as_long fuel field (t, false) p)
      as [[t1 e1]| |]; cbn [bind] in H; try discriminate.
    exact (IH t1 e1 t' e' Hin Hbad H).
Qed.

(** ** Pages that are passed over *)

Lemma build_page_passed_over (fuel : nat) (field : string)
    (st : list (HashEntry value) * bool) (page : list byte) :
  passed_over value loads as_long field page = true ->
  build_page value loads as_long fuel field st page = Returns st.
Proof.
  intros H. destruct st as [t e]. destruct e.
  - apply build_page_poisoned.
  - unfold build_page. unfold passed_over in H.
    destruct (read_row value loads as_long field page false) as [[x|] e];
      [discriminate|].
    destruct e; [discriminate|reflexivity].
Qed.

Lemma probe_page_passed_over (fuel : nat) (field : string) (size : Z)
    (t : list (HashEntry value)) (st : OutState * bool) (page : list byte) :
  passed_over value loads as_long field page = true ->
  probe_page value loads as_long dumps fuel field size t st page
  = Returns st.
Proof.
  intros H. destruct st as [o e]. destruct e.
  - apply probe_page_poisoned.
  - unfold probe_page. unfold passed_over in H.
    destruct (read_row value loads as_long field page false) as [[x|] e];
      [discriminate|].
    destruct e; [discriminate|reflexivity].
Qed.

Lemma build_pages_filter (fuel : nat) (field : string)
    (pages : list (list byte)) :
  forall st : list (HashEntry value) * bool,
    build_pages value loads as_long fuel field pages st
    = build_pages value loads as_long fuel field
        (filter (fun p => negb (passed_over value loads as_long field p))
           pages) st.
Proof.
  induction pages as [|p pages IH]; intros st; [reflexivity|].
  cbn [build_pages filter].
  destruct (passed_over value loads as_long field p) eqn:E; cbn [negb].
  - rewrite build_page_passed_over by exact E. cbn [bind]. apply IH.
  - cbn [build_pages].
    destruct (build_page value loads as_long fuel field st p);
      cbn [bind]; auto.
Qed.

Lemma probe_pages_filter (fuel : nat) (field : string) (size : Z)
    (t : list (HashEntry value)) (pages : list (list byte)) :
  forall st : OutState * bool,
    probe_pages value loads as_long dumps fuel field size t pages st
    = probe_pages value loads as_long dumps fuel field size t
        (filter (fun p => negb (passed_over value loads as_long field p))
           pages) st.
Proof.
  induction pages as [|p pages IH]; intros st; [reflexivity|].
  cbn [probe_pages filter].
  destruct (passed_over value loads as_long field p) eqn:E; cbn [negb].
  - rewrite probe_page_passed_over by exact E. cbn [bind]. apply IH.
  - cbn [probe_pages].
    destruct (probe_page value loads as_long dumps fuel field size t st p);
      cbn [bind]; auto.
Qed.

(** ** The output bookkeeping *)



(** ** The run in which no call raises *)

Lemma build_page_as_clean (fuel : nat) (field : string)
    (t : list (HashEntry value)) (page : list byte) :
  snd (read_row value loads as_long field page false) = false ->
  build_page value loads as_long fuel field (t, false) page
  = with_clear
      (clean_build_page value (page_dict loads) as_long fuel field t page).
Proof.
  intros Hq. unfold build_page, clean_build_page, with_clear.
  destruct (read_row value loads as_long field page false) as [x e] eqn:E.
  cbn [snd] in Hq. subst e.
  pose proof (read_row_clear field page x E) as Hk.
  unfold page_key in Hk.
  destruct (clean_unpickle_page value (page_dict loads) page) as [r|].
  - cbv zeta in *.
    destruct (clean_get_dict_int value as_long r field =? -1).
    + subst x. reflexivity.
    + subst x. destruct (locate fuel t _) as [i| |]; cbn [bind];
        try reflexivity.
      destruct (row (nth i t free_slot)); reflexivity.
  - subst x. reflexivity.
Qed.

Lemma build_pages_as_clean (fuel : nat) (field : string)
    (pages : list (list byte)) :
  forall t : list (HashEntry value),
    all_quiet value loads as_long field pages = true ->
    build_pages value loads as_long fuel field pages (t, false)
    = with_clear
        (clean_build_pages value (page_dict loads) as_long fuel field
           pages t).
Proof.
  induction pages as [|p pages IH]; intros t Hq; [reflexivity|].
  unfold all_quiet in Hq. cbn [forallb] in Hq.
  apply andb_prop in Hq. destruct Hq as [Hp Hrest].
  apply negb_true_iff in Hp.
  cbn [build_pages clean_build_pages].
  rewrite (build_page_as_clean fuel field t p Hp).
  unfold with_clear at 1.
  destruct (clean_build_page value (page_dict loads) as_long fuel field t p)
    as [t1| |]; cbn [bind]; try reflexivity.
  now apply IH.
Qed.

Lemma probe_page_as_clean (fuel : nat) (field : string) (size : Z)
    (t : list (HashEntry value)) (o : OutState) (page : list byte) :
  (forall d, dumps d <> None) ->
  snd (read_row value loads as_long field page false) = false ->
  probe_page value loads as_long dumps fuel field size t (o, false) page
  = with_clear
      (clean_probe_page value (page_dict loads) as_long dumps fuel field
         size t o page).
Proof.
  intros Hd Hq. unfold probe_page, clean_probe_page, with_clear.
  destruct (read_row value loads as_long field page false) as [x e] eqn:E.
  cbn [snd] in Hq. subst e.
  pose proof (read_row_clear field page x E) as Hk.
  unfold page_key in Hk.
  destruct (clean_unpickle_page value (page_dict loads) page) as [r|].
  - cbv zeta in *.
    destruct (clean_get_dict_int value as_long r field =? -1).
    + subst x. reflexivity.
    + subst x. destruct (locate fuel t _) as [i| |]; cbn [bind];
        try reflexivity.
      destruct (row (nth i t free_slot)) as [r0|]; [|reflexivity].
      destruct (dumps (HashJoin.merge r0 r)) as [data|] eqn:Ed;
        [|now apply Hd in Ed].
      destruct (_ <=? _); reflexivity.
  - subst x. reflexivity.
Qed.

Lemma probe_pages_as_clean (fuel : nat) (field : string) (size : Z)
    (t : list (HashEntry value)) (pages : list (list byte)) :
  forall o : OutState,
    (forall d, dumps d <> None) ->
    all_quiet value loads as_long field pages = true ->
    probe_pages value loads as_long dumps fuel field size t pages (o, false)
    = with_clear
        (clean_probe_pages value (page_dict loads) as_long dumps fuel field
           size t pages o).
Proof.
  induction pages as [|p pages IH]; intros o Hd Hq; [reflexivity|].
  unfold all_quiet in Hq. cbn [forallb] in Hq.
  apply andb_prop in Hq. destruct Hq as [Hp Hrest].
  apply negb_true_iff in Hp.
  cbn [probe_pages clean_probe_pages].
  rewrite (probe_page_as_clean fuel field size t o p Hd Hp).
  unfold with_clear at 1.
  destruct (clean_probe_page value (page_dict loads) as_long dumps fuel
              field size t o p) as [o1| |]; cbn [bind]; try reflexivity.
  now apply IH.
Qed.

(** When no call raises, the operator is the clean run. *)
Lemma pickle_join_as_clean (fuel : nat) (inner outer : list (list byte))
    (inner_key outer_key : string) (size : Z) :
  all_quiet value loads as_long inner_key inner = true ->
  all_quiet value loads as_long outer_key outer = true ->
  (forall d, dumps d <> None) ->
  hash_join value loads as_long dumps fuel inner outer inner_key outer_key
    size
  = clean_pickle_join value (page_dict loads) as_long dumps fuel inner outer
      inner_key outer_key size.
Proof.
  intros Hqi Hqo Hd. unfold hash_join, clean_pickle_join.
  rewrite (build_pages_as_clean fuel inner_key inner zeroed_table Hqi).
  unfold with_clear.
  destruct (clean_build_pages value (page_dict loads) as_long fuel inner_key
              inner zeroed_table) as [t| |]; cbn [bind fst snd];
    try reflexivity.
  rewrite (probe_pages_as_clean fuel outer_key size t outer
             (mkOutState 0 0 []) Hd Hqo).
  unfold with_clear.
  destruct (clean_probe_pages value (page_dict loads) as_long dumps fuel
              outer_key size t outer (mkOutState 0 0 [])) as [o| |];
    reflexivity.
Qed.

End WithCalls.

End PickleCallFacts.

(** * The storage engine against its specification *)

Lemma no_commit_record_no_valid (t : Z) (rs : list WalRecord) :
  no_commit_record t rs -> no_valid_commit t rs.
Proof.
  intros H r Hin Hv. destruct r as [p|c]; [exact Hv|].
  destruct Hv as [Ht _]. exact (H c Hin Ht).
Qed.

Lemma only_bad_magic_no_valid (t : Z) (rs : list WalRecord) :
  only_bad_magic t rs -> no_valid_commit t rs.
Proof.
  intros H r Hin Hv. destruct r as [p|c]; [exact Hv|].
  destruct Hv as [Ht Hm]. exact (H c Hin Ht Hm).
Qed.

Lemma find_page_rejects_uncommitted (stale : nat -> nat -> byte) (rs : list WalRecord)
    (t : Z) (off : nat) (pid snap : Z) (pr : WalPageRecord) (w' : File.fd) :
  0 <= t -> Forall wf_record rs -> no_valid_commit t rs ->
  wal_find_page stale pid snap (File.mk (encode_log rs) off) = (Some pr, w') ->
  pr_tx_id pr <> t.
Proof.
  intros Ht Hwf Hno Hfind E.
  destruct (wal_find_page_sound stale rs off pid snap pr w' Hwf Hfind)
    as (_ & _ & Hc).
  rewrite E in Hc.
  rewrite forward_commits_keeps_uncommitted in Hc;
    auto using is_committed_init.
  discriminate.
Qed.

(** C1. The specification has recovery replay every page record whose
    transaction has a valid commit record anywhere in the log. Here the
    code is run on the log that one committed write of page 0 leaves,
    a page record of transaction 1 followed by its commit marker:
    [wal_recover] tests [committed] when it meets the page record, before
    it has seen the marker, so it writes nothing; the reopened engine
    has an empty data file and a reader is given an all-zero page 0.
    The same holds for whatever a single [commit_tx] appends. *)
Theorem recovery_skips_page_before_its_marker :
  File.content (wal after_commit)
  = encode_log [PageRec (mkPageRecord WAL_PAGE 1 0 (page_of x01));
                commit_marker (mkWriteTxn 1)]
  /\ db reopened = []
  /\ (let '(r, s) := begin_read reopened in fst (read_page zeroed r 0 s))
     = zero_page
  /\ (forall tx c d, replay (commit_records tx c) committed_init d = d).
Proof.
  split; [vm_compute; reflexivity|].
  split; [vm_compute; reflexivity|].
  split; [vm_compute; reflexivity|].
  intros tx c d. apply replay_commit_records.
Qed.

(** C2. The specification has a read that misses the cache return the
    newest page record for the page whose transaction committed within
    the snapshot. Here the WAL holds a page record for page 0 (bytes 0
    to 4108) and its commit marker (ending at 4120), the snapshot is
    4120 and the cache is empty: the reverse pass steps back by
    [sizeof(WalPageRecord)] from 4120, reads at offset 12 in the middle
    of the record, finds nothing, and the reader gets the data file's
    page instead of the committed one. *)
Theorem snapshot_lookup_misses_committed_page :
  File.content (wal reopened)
  = encode_log [PageRec (mkPageRecord WAL_PAGE 1 0 (page_of x01));
                commit_marker (mkWriteTxn 1)]
  /\ is_committed
       (forward_commits [PageRec (mkPageRecord WAL_PAGE 1 0 (page_of x01));
                         commit_marker (mkWriteTxn 1)]
          0 4120 committed_init) 1
     = true
  /\ find_cached_page (cache reopened) 0 = None
  /\ fst (wal_find_page zeroed 0 4120 (wal reopened)) = None
  /\ fst (read_page zeroed (Some (mkReaderTxn 4120)) 0 reopened) = zero_page
  /\ zero_page <> page_of x01.
Proof.
  split; [vm_compute; reflexivity|].
  split; [vm_compute; reflexivity|].
  split; [vm_compute; reflexivity|].
  split; [vm_compute; reflexivity|].
  split; [vm_compute; reflexivity|].
  vm_compute. discriminate.
Qed.

(** C3. The specification has a checkpoint move only pages of committed
    transactions into the data file. Here a commit was cut short after
    its page record and before its marker; the next process registers a
    reader at the end of that log and checkpoints: [checkpoint_int]
    copies every page record below the horizon without consulting any
    commit marker, so the data file receives the page of a transaction
    that never committed. *)
Theorem checkpoint_copies_uncommitted_page :
  File.content (wal after_torn_commit) = encode_log torn_log
  /\ no_commit_record 1 torn_log
  /\ (let '(_, s) := begin_read after_torn_commit in
      oldest_reader_snapshot s = 4108
      /\ db (checkpoint zeroed s) = page_of xaa).
Proof.
  split; [vm_compute; reflexivity|]. split.
  - intros c [H|[]]. discriminate.
  - vm_compute. split; reflexivity.
Qed.

(** C4, where the code departs from the specification. With no reader registered the horizon is 0, not
    the end of the WAL: after one commit the log is 4120 bytes long, and
    a checkpoint leaves the data file empty. *)
Lemma horizon_without_readers_is_not_wal_end :
  reader_snapshots after_commit = []
  /\ oldest_reader_snapshot after_commit
     <> fst (File.lseek_end (wal after_commit))
  /\ db (checkpoint zeroed after_commit) = [].
Proof.
  vm_compute. repeat split. discriminate.
Qed.

(** C4, as the code has it. The horizon [checkpoint_int] uses is the least of the
    registered reader snapshots, and it is 0 when none is registered, in
    which case the checkpoint leaves the data file as it was. *)
Theorem checkpoint_horizon (stale : nat -> nat -> byte) (s : State) :
  Forall (fun x => 0 <= x <= ULLONG_MAX) (reader_snapshots s) ->
  match reader_snapshots s with
  | [] =>
      oldest_reader_snapshot s = 0
      /\ db (checkpoint_int stale s) = db s
  | _ :: _ =>
      In (oldest_reader_snapshot s) (reader_snapshots s)
      /\ Forall (fun x => oldest_reader_snapshot s <= x) (reader_snapshots s)
  end.
Proof.
  intros Hrange. unfold checkpoint_int, oldest_reader_snapshot.
  destruct (reader_snapshots s) as [|x l] eqn:E.
  - split; [reflexivity|]. rewrite checkpoint_scan_zero. reflexivity.
  - destruct (fold_min_spec (x :: l) ULLONG_MAX) as (H1 & H2 & H3).
    split; [|exact H2].
    destruct H3 as [H3|H3]; [|exact H3].
    inversion Hrange as [|? ? Hx _]; subst.
    inversion H2 as [|? ? Hle _]; subst.
    left. lia.
Qed.

Lemma checkpoint_horizon_witness :
  In (oldest_reader_snapshot two_readers) (reader_snapshots two_readers)
  /\ Forall (fun x => oldest_reader_snapshot two_readers <= x)
       (reader_snapshots two_readers).
Proof.
  apply (checkpoint_horizon zeroed two_readers).
  replace (reader_snapshots two_readers) with [4120; 8240]
    by (vm_compute; reflexivity).
  repeat constructor; unfold ULLONG_MAX; lia.
Defined.

(** What holds of a transaction id that no commit record of the log
    carries. For a log of whole records that holds no commit record
    with the id [t]: recovery leaves the data file as it would had the
    page records with the id [t] not been in the log; whatever stretch
    of the log the snapshot lookup settles on, its transaction-id field
    is not [t]; [write_page_int] changes neither file, so a crash after
    it leaves what a crash before it leaves; and what [commit_tx] writes
    is the transaction's page records followed at once by its marker. *)
Theorem uncommitted_transaction_invisible (stale : nat -> nat -> byte)
    (rs : list WalRecord) (t : Z) (off : nat) :
  0 <= t -> Forall wf_record rs -> no_commit_record t rs ->
  (forall d,
      snd (wal_recover stale (File.mk (encode_log rs) off) d)
      = snd (wal_recover stale
               (File.mk (encode_log
                           (filter (fun r => negb (is_page_of t r)) rs)) off)
               d))
  /\ (forall pid snap pr w',
         wal_find_page stale pid snap (File.mk (encode_log rs) off)
         = (Some pr, w') ->
         pr_tx_id pr <> t)
  /\ (forall tx pid d s s',
         write_page_int tx pid d s = Some s' ->
         wal s' = wal s /\ db s' = db s /\ crash s' = crash s)
  /\ (forall tx s,
         wal (commit_tx tx s)
         = File.write (encode_log (commit_page_records tx (cache s)
                                     ++ [commit_marker tx])) (wal s)).
Proof.
  intros Ht Hwf Hno.
  pose proof (no_commit_record_no_valid t rs Hno) as Hnv.
  repeat split.
  - intros d. rewrite !wal_recover_log; cbn [snd].
    + apply replay_without_pages_of; auto using is_committed_init.
    + apply Forall_forall. intros r Hin. apply filter_In in Hin.
      rewrite Forall_forall in Hwf. apply Hwf, Hin.
    + exact Hwf.
  - intros pid snap pr w' Hfind.
    eapply find_page_rejects_uncommitted; eauto.
  - eapply write_page_int_files; eauto.
  - eapply write_page_int_files; eauto.
  - eapply write_page_int_files; eauto.
  - intros tx s. apply commit_tx_log.
Qed.

Lemma reused_id_torn_log_wf : Forall wf_record reused_id_torn_log.
Proof. repeat constructor; try discriminate; try apply repeat_length. Qed.

Lemma reused_id_bad_magic_log_wf :
  Forall wf_record reused_id_bad_magic_log.
Proof. repeat constructor; try discriminate; try apply repeat_length. Qed.

(** C5, where the code departs from the specification. A transaction
    is known to the scanners by its id alone, and [next_tx_id] starts at
    1 in every process. A first process commits page 0 as transaction 1;
    a second process on the same files stages page 5, again as
    transaction 1, and stops inside [commit_tx] before [wal_commit]: the
    log then ends in that page record, with no commit record after it.
    The next process to open the files replays the record into the data
    file on the strength of the first process's marker, the snapshot
    lookup settles on it, and a reader gets the uncommitted page. *)
Theorem crashed_commit_replayed_under_reused_id
    (stale : nat -> nat -> byte) :
  fst (stage_one 5 (page_of xaa) reopened) = Some (mkWriteTxn 1)
  /\ crash torn_second_commit = mkDisk [] (encode_log reused_id_torn_log)
  /\ File.pread (db (open_db stale (boot (crash torn_second_commit))))
       (page_offset 5) PAGE_SIZE
     = page_of xaa
  /\ fst (wal_find_page stale 5 8228
            (File.mk (encode_log reused_id_torn_log) 0))
     = Some (mkPageRecord WAL_PAGE 1 5 (page_of xaa))
  /\ (let '(rx, s) :=
        begin_read (open_db stale (boot (crash torn_second_commit))) in
      rx = Some (mkReaderTxn 8228)
      /\ fst (read_page stale rx 5 s) = page_of xaa).
Proof.
  split; [vm_compute; reflexivity|].
  split; [vm_compute; reflexivity|].
  split; [lazy; reflexivity|].
  split; [lazy; reflexivity|].
  lazy. split; reflexivity.
Qed.

(** A commit record with a wrong magic marks nothing. The test both
    scans apply leaves [committed] as it was for such a record; hence,
    for a log of whole records in which every commit record with the id
    [t] has a wrong magic, recovery leaves the data file as it would had
    no record with the id [t] been in the log, the forward pass of the
    snapshot scan never marks [t], and whatever stretch of the log the
    lookup settles on, its transaction-id field is not [t]. *)
Theorem bad_magic_commit_ignored (stale : nat -> nat -> byte) (rs : list WalRecord)
    (t : Z) (off : nat) :
  0 <= t -> Forall wf_record rs -> only_bad_magic t rs ->
  (forall c cr, cr_magic cr <> WAL_MAGIC_COMMIT -> note_commit c cr = c)
  /\ (forall d,
         snd (wal_recover stale (File.mk (encode_log rs) off) d)
         = snd (wal_recover stale
                  (File.mk (encode_log
                              (filter (fun r => negb (record_tx r =? t)) rs))
                     off) d))
  /\ (forall snap,
         is_committed (forward_commits rs 0 snap committed_init) t = false)
  /\ (forall pid snap pr w',
         wal_find_page stale pid snap (File.mk (encode_log rs) off)
         = (Some pr, w') ->
         pr_tx_id pr <> t).
Proof.
  intros Ht Hwf Hbad.
  pose proof (only_bad_magic_no_valid t rs Hbad) as Hnv.
  repeat split.
  - intros c cr. apply is_committed_note_bad_magic.
  - intros d. rewrite !wal_recover_log; cbn [snd].
    + apply replay_without_records_of; auto using is_committed_init.
    + apply Forall_forall. intros r Hin. apply filter_In in Hin.
      rewrite Forall_forall in Hwf. apply Hwf, Hin.
    + exact Hwf.
  - intros snap.
    apply forward_commits_keeps_uncommitted; auto using is_committed_init.
  - intros pid snap pr w' Hfind.
    eapply find_page_rejects_uncommitted; eauto.
Qed.

(** C6, where the code departs from the specification. The record with
    the wrong magic is itself passed over, but its transaction is told
    from others by the id alone: when an earlier process committed a
    transaction with the same id, the pages written before the bad
    marker count as committed. On the log of [torn_second_commit]
    closed by a marker of transaction 1 with magic 0xDEADBEEF, recovery
    writes page 5 to the data file and a reader gets it. *)
Theorem bad_magic_commit_replayed_under_reused_id
    (stale : nat -> nat -> byte) :
  (forall c, note_commit c (mkCommitRecord WAL_COMMIT 1 0xDEADBEEF) = c)
  /\ (forall off,
         File.pread
           (snd (wal_recover stale
                   (File.mk (encode_log reused_id_bad_magic_log) off) []))
           (page_offset 5) PAGE_SIZE
         = page_of xaa)
  /\ (let '(rx, s) :=
        begin_read
          (open_db stale
             (boot (mkDisk [] (encode_log reused_id_bad_magic_log)))) in
      rx = Some (mkReaderTxn 8240)
      /\ fst (read_page stale rx 5 s) = page_of xaa).
Proof.
  split.
  { intros c. apply is_committed_note_bad_magic. discriminate. }
  split.
  { intros off.
    rewrite wal_recover_log by apply reused_id_bad_magic_log_wf.
    vm_compute. reflexivity. }
  lazy. split; reflexivity.
Qed.

Lemma torn_record_fields (stale : nat -> nat -> byte) :
  pr_type (torn_record stale) = WAL_PAGE
  /\ pr_tx_id (torn_record stale) = 1
  /\ pr_page_id (torn_record stale)
     = decode_u32 (map (stale PAGE_REC_SIZE) (seq 8 4))
  /\ pr_data (torn_record stale)
     = map (stale PAGE_REC_SIZE) (seq 12 PAGE_SIZE).
Proof.
  unfold torn_record, decode_page_record, fill.
  cbn [pr_type pr_tx_id pr_page_id pr_data].
  change (length (encode_u32 WAL_PAGE ++ encode_u32 1)) with 8%nat.
  replace (PAGE_REC_SIZE - 8)%nat with (4 + PAGE_SIZE)%nat
    by (unfold PAGE_REC_SIZE, PAGE_SIZE; lia).
  rewrite seq_app, map_app.
  change (8 + 4)%nat with 12%nat.
  assert (Hpay : length (map (stale PAGE_REC_SIZE) (seq 12 PAGE_SIZE))
                 = PAGE_SIZE)
    by (now rewrite length_map, length_seq).
  revert Hpay.
  generalize (map (stale PAGE_REC_SIZE) (seq 12 PAGE_SIZE)) as payload.
  intros payload Hpay.
  assert (Hlen : length (map (stale PAGE_REC_SIZE) (seq 8 4)) = 4%nat)
    by reflexivity.
  revert Hlen.
  generalize (map (stale PAGE_REC_SIZE) (seq 8 4)) as pid.
  intros pid Hlen.
  destruct pid as [|b0 [|b1 [|b2 [|b3 [|b4 pid]]]]]; try discriminate.
  repeat split.
  cbn [encode_u32 app skipn]. rewrite <- Hpay. apply firstn_all.
Qed.

Lemma wal_recover_torn (stale : nat -> nat -> byte) (d : list byte) :
  wal_recover stale (File.mk torn_page_log 0) d
  = (File.mk torn_page_log 20,
     write_page_to_db d (pr_page_id (torn_record stale))
       (pr_data (torn_record stale))).
Proof.
  destruct (torn_record_fields stale) as (_ & Htx & _).
  unfold wal_recover, File.lseek_set, File.size. cbn [File.content].
  change (S (length torn_page_log)) with 21%nat.
  rewrite recover_loop_step.
  change (File.read 4 (File.mk torn_page_log 0))
    with (encode_u32 WAL_COMMIT, File.mk torn_page_log (0 + 4)).
  cbv iota zeta beta.
  unfold encode_u32 at 1. cbv iota.
  rewrite fill_full by reflexivity. rewrite lseek_back_4.
  change (decode_u32 (encode_u32 WAL_COMMIT ++ []) =? WAL_COMMIT) with true.
  cbv iota.
  change (File.read COMMIT_REC_SIZE (File.mk torn_page_log 0))
    with (encode_commit_record
            (mkCommitRecord WAL_COMMIT 1 WAL_MAGIC_COMMIT),
          File.mk torn_page_log 12).
  cbv iota zeta beta.
  rewrite fill_full by reflexivity.
  change (decode_commit_record
            (encode_commit_record
               (mkCommitRecord WAL_COMMIT 1 WAL_MAGIC_COMMIT) ++ []))
    with (mkCommitRecord WAL_COMMIT 1 WAL_MAGIC_COMMIT).
  rewrite recover_loop_step.
  change (File.read 4 (File.mk torn_page_log 12))
    with (encode_u32 WAL_PAGE, File.mk torn_page_log (12 + 4)).
  cbv iota zeta beta.
  unfold encode_u32 at 1. cbv iota.
  rewrite fill_full by reflexivity. rewrite lseek_back_4.
  change (decode_u32 (encode_u32 WAL_PAGE ++ []) =? WAL_COMMIT) with false.
  cbv iota.
  change (File.read PAGE_REC_SIZE (File.mk torn_page_log 12))
    with (encode_u32 WAL_PAGE ++ encode_u32 1, File.mk torn_page_log 20).
  cbv iota zeta beta.
  fold (torn_record stale). rewrite Htx.
  replace (is_committed
             (note_commit committed_init
                (mkCommitRecord WAL_COMMIT 1 WAL_MAGIC_COMMIT)) 1)
    with true by (vm_compute; reflexivity).
  rewrite recover_loop_step.
  change (File.read 4 (File.mk torn_page_log 20))
    with (@nil byte, File.mk torn_page_log 20).
  reflexivity.
Qed.

(** C7, where the code departs from the specification. [wal_recover]
    never looks at how many bytes a [read] returned. On a WAL that ends
    inside a page record, here a marker of transaction 1 followed by
    the type and the transaction id of a page record and nothing more,
    it takes the page id and the payload from the part of its buffer
    that the short read did not fill and writes that page to the data
    file, for any data file and whatever the buffer held: what a run
    leaves is not fixed by the WAL and the data file. A run that finds
    zero bytes there writes a zero page 0, and a following run that
    finds a payload of 0x01 bytes there overwrites it, so the second
    run changes the data file the first one left. *)
Theorem recovery_twice_differs_after_torn_record
    (stale : nat -> nat -> byte) (d : list byte) :
  snd (wal_recover stale (File.mk torn_page_log 0) d)
  = write_page_to_db d (pr_page_id (torn_record stale))
      (pr_data (torn_record stale))
  /\ pr_page_id (torn_record stale)
     = decode_u32 (map (stale PAGE_REC_SIZE) (seq 8 4))
  /\ pr_data (torn_record stale)
     = map (stale PAGE_REC_SIZE) (seq 12 PAGE_SIZE)
  /\ snd (wal_recover zeroed (File.mk torn_page_log 0) []) = zero_page
  /\ snd (wal_recover ones_behind_header
            (fst (wal_recover zeroed (File.mk torn_page_log 0) []))
            (snd (wal_recover zeroed (File.mk torn_page_log 0) [])))
     = page_of x01.
Proof.
  destruct (torn_record_fields stale) as (_ & _ & Hid & Hdata).
  split; [now rewrite wal_recover_torn|].
  split; [exact Hid|]. split; [exact Hdata|].
  split; vm_compute; reflexivity.
Qed.

(** On whole records recovery is a run of whole-page writes fixed by
    the log. *)
Lemma replay_as_writes (rs : list WalRecord) :
  Forall wf_record rs ->
  exists ws, Forall page_sized ws
             /\ forall d, replay rs committed_init d = apply_writes ws d.
Proof.
  intros Hwf.
  destruct (wal_recover_as_writes zeroed (File.mk (encode_log rs) 0))
    as (w' & ws & _ & Hws & Hall).
  exists ws. split; [exact Hws|]. intros d.
  specialize (Hall d). rewrite wal_recover_log in Hall by exact Hwf.
  now injection Hall.
Qed.

(** Where recovery is idempotent. On a WAL of whole records, for any
    data file, running [wal_recover] again on what a first run left
    gives the same data file and the same descriptor, whatever bytes
    the two runs find in their buffers; so does a second process that
    opens the files a first one recovered. On any WAL bytes at all, the
    same holds of two runs that find the same bytes behind a short
    read. *)
Lemma wal_recover_idempotent (stale1 stale2 : nat -> nat -> byte)
    (rs : list WalRecord) (off : nat) (d : list byte) :
  Forall wf_record rs ->
  (let r := wal_recover stale1 (File.mk (encode_log rs) off) d in
   wal_recover stale2 (fst r) (snd r) = r)
  /\ (let disk := mkDisk d (encode_log rs) in
      waldb_open stale2 (boot (crash (waldb_open stale1 (boot disk))))
      = waldb_open stale1 (boot disk))
  /\ (forall w0 d0,
         wal_recover stale1 (fst (wal_recover stale1 w0 d0))
           (snd (wal_recover stale1 w0 d0))
         = wal_recover stale1 w0 d0).
Proof.
  intros Hwf.
  destruct (replay_as_writes rs Hwf) as (ws & Hws & Hrep).
  assert (Htwice : forall o1 o2 d1,
             wal_recover stale2 (File.mk (encode_log rs) o2)
               (snd (wal_recover stale1 (File.mk (encode_log rs) o1) d1))
             = wal_recover stale1 (File.mk (encode_log rs) o1) d1).
  { intros o1 o2 d1. rewrite !wal_recover_log by exact Hwf. cbn [snd].
    f_equal. rewrite !Hrep. apply apply_writes_idempotent. exact Hws. }
  split; [|split].
  - cbv zeta. rewrite (wal_recover_log stale1) at 1 by exact Hwf.
    cbn [fst]. apply Htwice.
  - cbv zeta. unfold waldb_open, boot, crash.
    cbn [opened wal db File.content disk_db disk_wal next_tx_id
         reader_snapshots cache].
    rewrite (wal_recover_log stale1) by exact Hwf.
    cbn [opened wal db File.content disk_db disk_wal next_tx_id
         reader_snapshots cache].
    pose proof (Htwice 0%nat 0%nat d) as H2.
    rewrite (wal_recover_log stale1) in H2 by exact Hwf.
    cbn [snd] in H2. rewrite H2. reflexivity.
  - intros w0 d0.
    destruct (wal_recover_as_writes stale1 w0)
      as (w' & ws0 & Hk & Hws0 & Hall).
    rewrite Hall. cbn [fst snd].
    rewrite (wal_recover_same_content stale1 w' w0) by exact Hk.
    rewrite Hall. f_equal. apply apply_writes_idempotent. exact Hws0.
Qed.

(** C8, where the code departs from the specification. The counter is a [uint32_t]: the call number
    2^32 of a process returns 0, and the next one returns 1 again, the
    id of the first call. *)
Lemma tx_id_wraps_to_zero :
  kth_tx_id 4294967296 = 0
  /\ kth_tx_id 4294967297 = kth_tx_id 1.
Proof.
  rewrite !kth_tx_id_value by lia. split; vm_compute; reflexivity.
Qed.

(** C8, as the code has it. For the first 2^32 - 1 calls of a process, the [k]-th
    call of [begin_write] returns [k]: a nonzero id, larger than every
    id returned before it, so none is returned twice. *)
Theorem tx_ids_increase_until_wrap (k : N) :
  (1 <= k < 4294967296)%N ->
  kth_tx_id k = Z.of_N k
  /\ kth_tx_id k <> 0
  /\ forall j, (1 <= j < k)%N -> kth_tx_id j < kth_tx_id k.
Proof.
  intros Hk.
  assert (Hval : forall i, (1 <= i < 4294967296)%N ->
                           kth_tx_id i = Z.of_N i).
  { intros i Hi. rewrite kth_tx_id_value by lia.
    apply Z.mod_small. unfold U32_MOD. lia. }
  rewrite (Hval k Hk). repeat split; [lia|].
  intros j Hj. rewrite (Hval j) by lia. lia.
Qed.

Lemma tx_ids_increase_until_wrap_witness :
  kth_tx_id 3 = 3
  /\ kth_tx_id 3 <> 0
  /\ forall j, (1 <= j < 3)%N -> kth_tx_id j < kth_tx_id 3.
Proof.
  apply (tx_ids_increase_until_wrap 3). lia.
Defined.

(** C10. The exported [read_page] with a null handle returns an
    all-zero page of 4096 bytes and leaves the whole engine state, files
    included, as it was; the exported [write_page] with a null handle or
    null data returns with the state unchanged. *)
Theorem null_handles_are_inert (stale : nat -> nat -> byte) (pid : Z) (s : State)
    (tx : option WriteTxn) (d : option (list byte)) :
  read_page stale None pid s = (zero_page, s)
  /\ length zero_page = 4096%nat
  /\ Forall (fun b => b = x00) zero_page
  /\ write_page None pid d s = Some s
  /\ write_page tx pid None s = Some s.
Proof.
  split; [reflexivity|]. split; [apply repeat_length|].
  split; [|split; [reflexivity|destruct tx; reflexivity]].
  apply Forall_forall. intros b Hb. eapply repeat_spec. exact Hb.
Qed.

(** * The hash join against its contract *)

Lemma nodup_from_sound (l : list string) :
  forall seen : list string,
    MiniJson.nodup_from seen l = true ->
    NoDup l /\ forall x, In x l -> ~ In x seen.
Proof.
  induction l as [|x l IH]; intros seen H.
  - split; [constructor|]. intros x [].
  - cbn [MiniJson.nodup_from] in H.
    destruct (existsb (String.eqb x) seen) eqn:E; [discriminate|].
    destruct (IH (x :: seen) H) as [Hnd Hdis].
    assert (Hx : ~ In x seen).
    { intros Hin. apply (JoinFacts.existsb_eqb_In x seen) in Hin. congruence. }
    split.
    + constructor; [|exact Hnd].
      intros Hin. apply (Hdis x Hin). now left.
    + intros y [<-|Hy]; [exact Hx|].
      intros Hin. apply (Hdis y Hy). now right.
Qed.

Lemma nodupb_sound (l : list string) : MiniJson.nodupb l = true -> NoDup l.
Proof. intros H. apply (nodup_from_sound l [] H). Qed.

Lemma clean_join_skips_inner (value : Type)
    (loads : string -> option (HashJoin.dict value))
    (key_cstr : value -> option string)
    (dumps : HashJoin.dict value -> option string)
    (bad : string) (inner outer : list string) (ik ok : string) (size : Z) :
  HashJoin.row_key value loads key_cstr ik bad = None ->
  HashJoin.clean_join value loads key_cstr dumps (bad :: inner) outer ik ok size
  = HashJoin.clean_join value loads key_cstr dumps inner outer ik ok size.
Proof.
  intros H. unfold HashJoin.clean_join. cbn [HashJoin.clean_build].
  rewrite H. reflexivity.
Qed.

Lemma clean_join_skips_outer (value : Type)
    (loads : string -> option (HashJoin.dict value))
    (key_cstr : value -> option string)
    (dumps : HashJoin.dict value -> option string)
    (bad : string) (inner outer : list string) (ik ok : string) (size : Z) :
  HashJoin.row_key value loads key_cstr ok bad = None ->
  HashJoin.clean_join value loads key_cstr dumps inner (bad :: outer) ik ok size
  = HashJoin.clean_join value loads key_cstr dumps inner outer ik ok size.
Proof.
  intros H. unfold HashJoin.clean_join.
  destruct (HashJoin.clean_build value loads key_cstr ik inner HashJoin.empty_table)
    as [t|]; [|reflexivity].
  cbn [fold_left].
  replace (HashJoin.clean_probe_row value loads key_cstr dumps ok size t
             (HashJoin.mkOutput 0 0 []) bad)
    with (HashJoin.mkOutput 0 0 []); [reflexivity|].
  unfold HashJoin.clean_probe_row. unfold HashJoin.row_key in H.
  destruct (loads bad) as [d|]; [|reflexivity].
  destruct (HashJoin.dict_get d ok) as [v|]; [|reflexivity].
  rewrite H. reflexivity.
Qed.

(** The contract on the clean run. For inner rows with pairwise
    different keys, at most as many of them as the table has slots
    (4096), and a buffer with room for every result, the run in which no
    call raises returns the number of outer rows whose key, as a string,
    is the key of some inner row, and writes for each of them, in order,
    the dump of the inner row's dictionary updated with the outer row's;
    in such a merge a field of the outer row keeps the outer value and
    any other field the inner one; a row without a key is passed
    over. *)
Lemma clean_join_contract (value : Type)
    (loads : string -> option (HashJoin.dict value))
    (key_cstr : value -> option string)
    (dumps : HashJoin.dict value -> option string)
    (inner outer : list string) (ik ok : string) (size : Z) :
  NoDup (HashJoin.inner_keys value loads key_cstr ik inner) ->
  (length (HashJoin.inner_keys value loads key_cstr ik inner)
   <= HashJoin.HASH_SIZE)%nat ->
  (forall d, dumps d <> None) ->
  HashJoin.bytes_needed
    (HashJoin.expected_rows value loads key_cstr dumps ik ok inner outer)
  <= size ->
  HashJoin.clean_join value loads key_cstr dumps inner outer ik ok size
  = (Z.of_nat (length (HashJoin.matching_outer value loads key_cstr
                         ik ok inner outer)),
     HashJoin.expected_rows value loads key_cstr dumps ik ok inner outer)
  /\ (forall (i o : HashJoin.dict value) (f : string),
         NoDup (map fst o) ->
         HashJoin.dict_get (HashJoin.merge i o) f
         = match HashJoin.dict_get o f with
           | Some v => Some v
           | None => HashJoin.dict_get i f
           end)
  /\ (forall bad,
         HashJoin.row_key value loads key_cstr ik bad = None ->
         HashJoin.clean_join value loads key_cstr dumps (bad :: inner) outer
           ik ok size
         = HashJoin.clean_join value loads key_cstr dumps inner outer
             ik ok size)
  /\ (forall bad,
         HashJoin.row_key value loads key_cstr ok bad = None ->
         HashJoin.clean_join value loads key_cstr dumps inner (bad :: outer)
           ik ok size
         = HashJoin.clean_join value loads key_cstr dumps inner outer
             ik ok size).
Proof.
  intros Hnd Hcap Hdumps Hroom.
  split; [|split; [|split]].
  - unfold HashJoin.clean_join.
    destruct (JoinFacts.build_ok value loads key_cstr ik inner
                HashJoin.empty_table [] TableFacts.empty_table_inv)
      as (t & Hb & I); [exact Hnd|cbn [length]; lia|].
    rewrite Hb. cbn [app] in I.
    destruct (JoinFacts.probe_phase value loads key_cstr dumps ik ok size
                inner t I Hnd outer (HashJoin.mkOutput 0 0 []))
      as (Hw & Hc & _); try reflexivity; [exact Hroom|].
    cbn [HashJoin.written app] in Hw.
    rewrite Hc, Hw.
    rewrite (JoinFacts.expected_count value loads key_cstr dumps ik ok
               inner outer Hnd Hdumps).
    reflexivity.
  - intros i o f Ho. now apply DictFacts.dict_get_merge.
  - intros bad Hbad. now apply clean_join_skips_inner.
  - intros bad Hbad. now apply clean_join_skips_outer.
Qed.

(** Once [json.loads] has raised on an inner row, the build ends with
    a call failed, if it ends at all. *)
Lemma build_after_raise (value : Type)
    (loads : string -> HashJoin.loaded value)
    (key_cstr : value -> option string)
    (field bad : string) (rs : list string) :
  forall (st : HashJoin.status) (t t' : list HashJoin.HashEntry)
         (e : HashJoin.status),
    In bad rs -> loads bad = HashJoin.Raises ->
    HashJoin.build value loads key_cstr field rs st t = Some (t', e) ->
    HashJoin.is_clear e = false.
Proof.
  induction rs as [|r rs IH]; intros st t t' e Hin Hbad H; [destruct Hin|].
  cbn [HashJoin.build] in H.
  destruct Hin as [->|Hin].
  - assert (E : exists st1,
               HashJoin.read_key value loads key_cstr field bad st
               = (None, st1)
               /\ HashJoin.is_clear st1 = false).
    { unfold HashJoin.read_key. rewrite Hbad. destruct st; eauto. }
    destruct E as (st1 & E & H1). rewrite E in H.
    destruct (CallFacts.build_poisoned value loads key_cstr field rs st1 t
                H1) as (st2 & Hb & H2).
    rewrite Hb in H. injection H as _ Hs. now subst e.
  - destruct (HashJoin.read_key value loads key_cstr field r st)
      as [[[d k]|] e1].
    + destruct (HashJoin.probe t k) as [i|]; [|discriminate].
      exact (IH e1 _ t' e Hin Hbad H).
    + exact (IH e1 t t' e Hin Hbad H).
Qed.

(** C9, where the code departs from the contract. A row on which
    [json.loads] raises is not passed over: the operator tests the
    [NULL] it gets and goes on to the next row, but it never clears the
    error, and with the error set no later row parses. So an inner row
    that raises, wherever it stands, leaves the join without output:
    what it returns, if it returns, is 0 with nothing written, and it
    does return when every row is valid UTF-8 (first part). With the
    inner rows ["{bad"] and [{"id": 1, "n": "A"}], the outer row
    [{"id": 1, "v": 10}] and a buffer of 1000 bytes, the inner keys are
    pairwise different and the outer row has the key of an inner row,
    so the contract asks for the count 1 and the merged row; the join
    returns 0 and writes nothing, and it returns what the contract asks
    for when the malformed row is taken away (second part). The last
    part is a second departure: with one inner row more than the table
    has slots, all keys different, the build finds the table full and
    the join returns 0. *)
Theorem hash_join_stops_after_malformed_row :
  (forall (value : Type) (loads : string -> HashJoin.loaded value)
          (key_cstr : value -> option string)
          (dumps : HashJoin.dict value -> option string)
          (inner outer : list string) (ik ok : string) (size : Z)
          (bad : string),
      In bad inner -> loads bad = HashJoin.Raises ->
      (forall r,
          HashJoin.hash_join value loads key_cstr dumps inner outer ik ok
            size = Some r ->
          r = (0, []))
      /\ (forallb (HashJoin.is_text value loads) inner = true ->
          forallb (HashJoin.is_text value loads) outer = true ->
          HashJoin.hash_join value loads key_cstr dumps inner outer ik ok
            size = Some (0, [])))
  /\ (MiniJson.loads "{bad" = HashJoin.Raises
      /\ HashJoin.inner_keys MiniJson.value
           (HashJoin.row_dict MiniJson.loads) MiniJson.key_cstr "id"
           MiniJson.malformed_inner
         = ["1"%string]
      /\ HashJoin.matching_outer MiniJson.value
           (HashJoin.row_dict MiniJson.loads) MiniJson.key_cstr "id" "id"
           MiniJson.malformed_inner MiniJson.one_outer
         = MiniJson.one_outer
      /\ MiniJson.join MiniJson.malformed_inner MiniJson.one_outer
           "id" "id" 1000
         = Some (0, [])
      /\ MiniJson.join (tl MiniJson.malformed_inner) MiniJson.one_outer
           "id" "id" 1000
         = Some (1,
                 [ MiniJson.dumps_text
                     [("id"%string, MiniJson.Num "1");
                      ("n"%string, MiniJson.Str "A");
                      ("v"%string, MiniJson.Num "10")] ]))
  /\ (NoDup (HashJoin.inner_keys MiniJson.value
               (HashJoin.row_dict MiniJson.loads) MiniJson.key_cstr
               "id" MiniJson.many_inner)
      /\ HashJoin.matching_outer MiniJson.value
           (HashJoin.row_dict MiniJson.loads) MiniJson.key_cstr
           "id" "id" MiniJson.many_inner [MiniJson.id_row 0]
         = [MiniJson.id_row 0]
      /\ HashJoin.bytes_needed
           (HashJoin.expected_rows MiniJson.value
              (HashJoin.row_dict MiniJson.loads)
              MiniJson.key_cstr MiniJson.dumps "id" "id"
              MiniJson.many_inner [MiniJson.id_row 0])
         <= 1000
      /\ MiniJson.join MiniJson.many_inner [MiniJson.id_row 0] "id" "id"
           1000
         = Some (0, [])).
Proof.
  split; [|split].
  - intros value loads key_cstr dumps inner outer ik ok size bad Hin Hbad.
    assert (Hzero : forall r,
               HashJoin.hash_join value loads key_cstr dumps inner outer ik
                 ok size = Some r ->
               r = (0, [])).
    { intros r.
      destruct (HashJoin.build value loads key_cstr ik inner HashJoin.Clear
                  HashJoin.empty_table) as [[t e]|] eqn:E.
      - apply (CallFacts.hash_join_after_failure value loads key_cstr dumps
                 inner outer ik ok size t e E).
        exact (build_after_raise value loads key_cstr ik bad inner
                 HashJoin.Clear HashJoin.empty_table t e Hin Hbad E).
      - unfold HashJoin.hash_join. rewrite E.
        intros H. now injection H as <-. }
    split; [exact Hzero|].
    intros Hi Ho.
    destruct (CallFacts.hash_join_returns value loads key_cstr dumps inner
                outer ik ok size Hi Ho) as (r & Hr).
    rewrite Hr. f_equal. now apply Hzero.
  - repeat split; vm_compute; reflexivity.
  - assert (Hnd : NoDup (HashJoin.inner_keys MiniJson.value
                           (HashJoin.row_dict MiniJson.loads)
                           MiniJson.key_cstr "id" MiniJson.many_inner))
      by (apply nodupb_sound; vm_compute; reflexivity).
    split; [exact Hnd|]. split; [vm_compute; reflexivity|].
    split; [apply Z.leb_le; vm_compute; reflexivity|].
    unfold MiniJson.join.
    destruct (CallFacts.hash_join_returns MiniJson.value MiniJson.loads
                MiniJson.key_cstr MiniJson.dumps MiniJson.many_inner
                [MiniJson.id_row 0] "id" "id" 1000) as (r & Hr).
    + vm_compute. reflexivity.
    + vm_compute. reflexivity.
    + rewrite Hr. f_equal.
      apply (CallFacts.hash_join_full MiniJson.value MiniJson.loads
               MiniJson.key_cstr MiniJson.dumps MiniJson.many_inner
               [MiniJson.id_row 0] "id" "id" 1000); [|exact Hr].
      apply (JoinFacts.build_overflow MiniJson.value
               (HashJoin.row_dict MiniJson.loads)
               MiniJson.key_cstr "id" MiniJson.many_inner
               HashJoin.empty_table []).
      * apply TableFacts.empty_table_inv.
      * exact Hnd.
      * apply Nat.ltb_lt. vm_compute. reflexivity.
Qed.

Example hash_join_scenario :
  MiniJson.join MiniJson.inner_example MiniJson.outer_example "id" "id" 1000
  = Some
      (2,
       [ MiniJson.dumps_text
           [("id"%string, MiniJson.Num "1"); ("n"%string, MiniJson.Str "A");
            ("v"%string, MiniJson.Num "10")];
         MiniJson.dumps_text
           [("id"%string, MiniJson.Num "2"); ("n"%string, MiniJson.Str "B");
            ("v"%string, MiniJson.Num "20")] ]).
Proof. vm_compute. reflexivity. Qed.

(** * Further properties of the storage engine *)

(** ** The data file *)

Lemma PAGE_SIZE_pos : (0 < PAGE_SIZE)%nat.
Proof. unfold PAGE_SIZE. lia. Qed.

Lemma nth_pread (bytes : list byte) (off n i : nat) :
  nth i (File.pread bytes off n) x00
  = if (i <? n)%nat then nth (off + i) bytes x00 else x00.
Proof. unfold File.pread. rewrite nth_firstn, nth_skipn. reflexivity. Qed.

Lemma length_page_at (d : list byte) (q : nat) :
  length (page_at d q) = PAGE_SIZE.
Proof. unfold page_at. now rewrite length_map, length_seq. Qed.

Lemma nth_map_seq {A : Type} (f : nat -> A) (d : A) (n : nat) :
  forall s i, (i < n)%nat -> nth i (map f (seq s n)) d = f (s + i)%nat.
Proof.
  induction n as [|n IH]; intros s i Hi; [lia|].
  destruct i as [|i]; cbn [seq map nth].
  - f_equal. lia.
  - rewrite IH by lia. f_equal. lia.
Qed.

Lemma nth_page_at (d : list byte) (q i : nat) :
  (i < PAGE_SIZE)%nat ->
  nth i (page_at d q) x00 = nth (q * PAGE_SIZE + i) d x00.
Proof.
  intros Hi. unfold page_at. rewrite nth_map_seq by exact Hi. reflexivity.
Qed.

(** On a file of whole pages a read gives the page's bytes, zeros past
    the end. *)
Lemma read_page_from_db_aligned (d : list byte) (n : nat) (q : Z)
    (out : list byte) :
  length d = (n * PAGE_SIZE)%nat -> length out = PAGE_SIZE ->
  read_page_from_db d q out = page_at d (Z.to_nat q).
Proof.
  intros Hd Hout. pose proof PAGE_SIZE_pos as HP.
  unfold read_page_from_db, page_offset.
  set (k := Z.to_nat q).
  destruct (Nat.lt_ge_cases k n) as [Hlt|Hge].
  - assert (Hlen : length (File.pread d (k * PAGE_SIZE) PAGE_SIZE)
                   = PAGE_SIZE).
    { rewrite length_pread, Hd. nia. }
    destruct (File.pread d (k * PAGE_SIZE) PAGE_SIZE) as [|b got] eqn:E.
    { cbn in Hlen. lia. }
    rewrite <- E in *. clear E b got.
    rewrite Hlen, (skipn_all2 out) by lia. rewrite app_nil_r.
    apply bytes_ext.
    + now rewrite Hlen, length_page_at.
    + intros i. destruct (Nat.lt_ge_cases i PAGE_SIZE) as [Hi|Hi].
      * rewrite nth_pread, nth_page_at by exact Hi.
        destruct (Nat.ltb_spec i PAGE_SIZE); [reflexivity|lia].
      * rewrite !nth_overflow; auto; rewrite ?Hlen, ?length_page_at; lia.
  - assert (Hlen : length (File.pread d (k * PAGE_SIZE) PAGE_SIZE) = 0%nat).
    { rewrite length_pread, Hd. nia. }
    destruct (File.pread d (k * PAGE_SIZE) PAGE_SIZE) as [|b got];
      [|cbn in Hlen; lia].
    apply bytes_ext.
    + unfold zero_page. now rewrite repeat_length, length_page_at.
    + intros i. destruct (Nat.lt_ge_cases i PAGE_SIZE) as [Hi|Hi].
      * rewrite nth_page_at by exact Hi.
        unfold zero_page. rewrite nth_repeat.
        symmetry. apply nth_overflow. rewrite Hd. nia.
      * rewrite !nth_overflow; auto;
          unfold zero_page; rewrite ?repeat_length, ?length_page_at; lia.
Qed.

Lemma length_write_page (d : list byte) (n : nat) (p : Z) (x : list byte) :
  length d = (n * PAGE_SIZE)%nat -> length x = PAGE_SIZE ->
  length (write_page_to_db d p x)
  = (Nat.max n (S (Z.to_nat p)) * PAGE_SIZE)%nat.
Proof.
  intros Hd Hx. pose proof PAGE_SIZE_pos.
  unfold write_page_to_db, page_offset.
  rewrite length_pwrite by (destruct x; [cbn in Hx; lia|discriminate]).
  rewrite Hd, Hx. nia.
Qed.

(** X1. On a data file of whole pages, reading page [q] after writing
    [x] to page [p] gives [x] when [q] is [p] and what the file held
    before otherwise; a page at or past the end reads as zeros; the file
    stays a file of whole pages. *)
Theorem data_file_write_then_read (d : list byte) (n : nat) (p q : Z)
    (x out : list byte) :
  length d = (n * PAGE_SIZE)%nat -> 0 <= p -> 0 <= q ->
  length x = PAGE_SIZE -> length out = PAGE_SIZE ->
  read_page_from_db (write_page_to_db d p x) q out
  = (if q =? p then x else read_page_from_db d q out)
  /\ (Z.of_nat n <= q -> read_page_from_db d q out = zero_page)
  /\ exists m, length (write_page_to_db d p x) = (m * PAGE_SIZE)%nat.
Proof.
  intros Hd Hp Hq Hx Hout. pose proof PAGE_SIZE_pos as HP.
  pose proof (length_write_page d n p x Hd Hx) as Hlen.
  split; [|split].
  - rewrite (read_page_from_db_aligned _ _ q out Hlen Hout).
    assert (Hnth : forall i, (i < PAGE_SIZE)%nat ->
              nth i (page_at (write_page_to_db d p x) (Z.to_nat q)) x00
              = if q =? p then nth i x x00
                else nth i (page_at d (Z.to_nat q)) x00).
    { intros i Hi. rewrite nth_page_at by exact Hi.
      unfold write_page_to_db, page_offset. rewrite nth_pwrite, Hx.
      destruct (Z.eqb_spec q p) as [->|Hne].
      - destruct (Nat.leb_spec (Z.to_nat p * PAGE_SIZE)
                    (Z.to_nat p * PAGE_SIZE + i)),
          (Nat.ltb_spec (Z.to_nat p * PAGE_SIZE + i)
             (Z.to_nat p * PAGE_SIZE + PAGE_SIZE));
          cbn [andb]; try lia.
        f_equal. lia.
      - assert (Hk : Z.to_nat q <> Z.to_nat p) by lia.
        rewrite nth_page_at by exact Hi.
        destruct (Nat.leb_spec (Z.to_nat p * PAGE_SIZE)
                    (Z.to_nat q * PAGE_SIZE + i)),
          (Nat.ltb_spec (Z.to_nat q * PAGE_SIZE + i)
             (Z.to_nat p * PAGE_SIZE + PAGE_SIZE));
          cbn [andb]; try reflexivity.
        exfalso. nia. }
    destruct (Z.eqb_spec q p) as [->|Hne].
    + apply bytes_ext; [now rewrite length_page_at, Hx|].
      intros i. destruct (Nat.lt_ge_cases i PAGE_SIZE) as [Hi|Hi].
      * rewrite Hnth by exact Hi. rewrite ?Z.eqb_refl. reflexivity.
      * rewrite !nth_overflow; auto; rewrite ?length_page_at, ?Hx; lia.
    + rewrite (read_page_from_db_aligned d n q out Hd Hout).
      apply bytes_ext; [now rewrite !length_page_at|].
      intros i. destruct (Nat.lt_ge_cases i PAGE_SIZE) as [Hi|Hi].
      * rewrite Hnth by exact Hi.
        destruct (Z.eqb_spec q p); [contradiction|reflexivity].
      * rewrite !nth_overflow; auto; rewrite ?length_page_at; lia.
  - intros Hpast.
    rewrite (read_page_from_db_aligned d n q out Hd Hout).
    apply bytes_ext.
    + unfold zero_page. now rewrite repeat_length, length_page_at.
    + intros i. destruct (Nat.lt_ge_cases i PAGE_SIZE) as [Hi|Hi].
      * rewrite nth_page_at by exact Hi.
        unfold zero_page. rewrite nth_repeat.
        apply nth_overflow. rewrite Hd. nia.
      * rewrite !nth_overflow; auto;
          unfold zero_page; rewrite ?repeat_length, ?length_page_at; lia.
  - eexists. exact Hlen.
Qed.

Lemma data_file_write_then_read_witness :
  read_page_from_db (write_page_to_db (page_of x01) 2 (page_of x07)) 2
    zero_page
  = (if 2 =? 2 then page_of x07
     else read_page_from_db (page_of x01) 2 zero_page)
  /\ (Z.of_nat 1 <= 2 -> read_page_from_db (page_of x01) 2 zero_page
                         = zero_page)
  /\ exists m, length (write_page_to_db (page_of x01) 2 (page_of x07))
               = (m * PAGE_SIZE)%nat.
Proof.
  apply (data_file_write_then_read (page_of x01) 1 2 2 (page_of x07)
           zero_page).
  - unfold page_of. rewrite repeat_length. lia.
  - lia.
  - lia.
  - apply repeat_length.
  - apply repeat_length.
Defined.

(** ** The page cache *)

Lemma find_cached_page_some (c : list CachedPage) (pid : Z) :
  forall i,
    find_cached_page c pid = Some i ->
    (i < length c)%nat
    /\ page_id (nth i c (mkCachedPage 0 0 false [])) = pid.
Proof.
  induction c as [|cp rest IH]; intros i H; [discriminate|].
  cbn [find_cached_page] in H.
  destruct (Z.eqb_spec (page_id cp) pid) as [E|E].
  - injection H as <-. cbn. split; [lia|exact E].
  - destruct (find_cached_page rest pid) as [j|]; [|discriminate].
    injection H as <-. destruct (IH j eq_refl) as [Hj Hp].
    cbn. split; [lia|exact Hp].
Qed.

Lemma find_cached_page_none (c : list CachedPage) (pid : Z) :
  find_cached_page c pid = None <-> ~ In pid (map page_id c).
Proof.
  induction c as [|cp rest IH]; cbn [find_cached_page map In].
  - split; [intros _ []|reflexivity].
  - destruct (Z.eqb_spec (page_id cp) pid) as [E|E].
    + split; [discriminate|]. intros H. exfalso. apply H. now left.
    + destruct (find_cached_page rest pid) as [j|]; cbn [option_map].
      * split; [discriminate|]. intros H. exfalso.
        assert (Hn : ~ In pid (map page_id rest))
          by (intros Hin; apply H; now right).
        apply IH in Hn. discriminate.
      * split; [|reflexivity]. intros _ [H|H]; [contradiction|].
        revert H. apply IH. reflexivity.
Qed.

(** The lookup looks at the page ids only. *)
Lemma find_cached_page_ids (c1 : list CachedPage) :
  forall c2 pid,
    map page_id c1 = map page_id c2 ->
    find_cached_page c1 pid = find_cached_page c2 pid.
Proof.
  induction c1 as [|a c1 IH]; intros [|b c2] pid H;
    try discriminate; [reflexivity|].
  cbn [map] in H. injection H as Hab Hrest.
  cbn [find_cached_page]. rewrite Hab, (IH c2 pid Hrest). reflexivity.
Qed.

Lemma find_cached_page_appended (c : list CachedPage) (cp : CachedPage) :
  find_cached_page c (page_id cp) = None ->
  find_cached_page (c ++ [cp]) (page_id cp) = Some (length c).
Proof.
  induction c as [|a c IH]; cbn [find_cached_page app length]; intros H.
  - now rewrite Z.eqb_refl.
  - destruct (page_id a =? page_id cp); [discriminate|].
    destruct (find_cached_page c (page_id cp)); [discriminate|].
    rewrite IH by reflexivity. reflexivity.
Qed.

Lemma nth_list_set_eq {A : Type} (l : list A) (i : nat) (x d : A) :
  (i < length l)%nat -> nth i (list_set l i x) d = x.
Proof.
  intros H. rewrite nth_list_set, Nat.eqb_refl.
  destruct (Nat.ltb_spec i (length l)); [reflexivity|lia].
Qed.

Lemma list_set_length {A : Type} (l : list A) :
  forall (i : nat) (x : A), length (list_set l i x) = length l.
Proof.
  induction l as [|h t IH]; intros i x; [reflexivity|].
  destruct i; cbn [list_set length]; [reflexivity|]. now rewrite IH.
Qed.

(** What [get_or_create_cached_page] hands back: the slot of the page,
    in the cache as it was or with one fresh zeroed slot at its end. *)
Lemma get_or_create_cached_page_spec (c c' : list CachedPage)
    (pid tx : Z) (i : nat) :
  get_or_create_cached_page c pid tx = Some (i, c') ->
  (i < length c')%nat
  /\ page_id (nth i c' (mkCachedPage 0 0 false [])) = pid
  /\ find_cached_page c' pid = Some i
  /\ ((c' = c /\ find_cached_page c pid = Some i)
      \/ (c' = c ++ [mkCachedPage pid tx false zero_page]
          /\ find_cached_page c pid = None
          /\ (length c < CACHE_SIZE)%nat /\ i = length c)).
Proof.
  unfold get_or_create_cached_page.
  destruct (find_cached_page c pid) as [j|] eqn:Ef.
  - intros H. injection H as <- <-.
    destruct (find_cached_page_some c pid j Ef) as [Hj Hp].
    repeat split; auto.
  - destruct (Nat.leb_spec CACHE_SIZE (length c)) as [Hfull|Hroom];
      [discriminate|].
    intros H. injection H as <- <-.
    set (cp := mkCachedPage pid tx false zero_page).
    assert (Hfa : find_cached_page (c ++ [cp]) pid = Some (length c))
      by (apply (find_cached_page_appended c cp); exact Ef).
    split; [rewrite length_app; cbn; lia|].
    split; [rewrite app_nth2, Nat.sub_diag by lia; reflexivity|].
    split; [exact Hfa|]. right. repeat split; auto.
Qed.

(** X2. A read of a page right after [write_page_int] staged bytes for
    it returns those bytes to any reader, whatever its snapshot and
    whether or not the writer has committed, and leaves the engine
    state, both files included, as it was. *)
Theorem read_returns_staged_page (stale : nat -> nat -> byte) (tx : WriteTxn)
    (rx : ReaderTxn) (pid : Z) (d out : list byte) (s s' : State) :
  Forall (fun cp => length (data cp) = PAGE_SIZE) (cache s) ->
  length d = PAGE_SIZE -> length out = PAGE_SIZE ->
  write_page_int tx pid d s = Some s' ->
  read_page_int stale rx pid out s' = (d, s').
Proof.
  intros Hc Hd Hout Hw. unfold write_page_int in Hw.
  destruct (get_or_create_cached_page (cache s) pid (tx_id tx))
    as [[i c]|] eqn:Eg; [|discriminate].
  destruct (get_or_create_cached_page_spec _ _ _ _ _ Eg)
    as (Hi & Hp & Hf & Hshape).
  injection Hw as <-.
  set (dflt := mkCachedPage 0 0 false []) in *.
  set (cp' := mkCachedPage (page_id (nth i c dflt)) (tx_id tx) true
                (memcpy (data (nth i c dflt)) d PAGE_SIZE)).
  unfold read_page_int. cbn [with_cache cache].
  assert (Hids : map page_id (list_set c i cp') = map page_id c)
    by (apply (map_list_set page_id c i cp' dflt); [reflexivity|exact Hi]).
  rewrite (find_cached_page_ids _ c pid Hids), Hf.
  fold dflt. rewrite nth_list_set_eq by exact Hi.
  f_equal. subst cp'. cbn [data].
  assert (Hold : length (data (nth i c dflt)) = PAGE_SIZE).
  { destruct Hshape as [[-> _]|(-> & _ & _ & ->)].
    - rewrite Forall_forall in Hc. apply Hc. now apply nth_In.
    - rewrite app_nth2, Nat.sub_diag by lia. apply repeat_length. }
  unfold memcpy.
  assert (E1 : firstn PAGE_SIZE d = d) by (apply firstn_all2; lia).
  assert (E2 : skipn PAGE_SIZE (data (nth i c dflt)) = [])
    by (apply skipn_all2; lia).
  assert (E3 : skipn PAGE_SIZE out = []) by (apply skipn_all2; lia).
  rewrite E1, E2, E3, !app_nil_r. exact E1.
Qed.

Lemma read_returns_staged_page_witness :
  read_page_int zeroed (mkReaderTxn 0) 5 zero_page
    (with_cache
       (list_set (cache fresh ++ [mkCachedPage 5 1 false zero_page]) 0
          (mkCachedPage 5 1 true (memcpy zero_page (page_of x33) PAGE_SIZE)))
       fresh)
  = (page_of x33,
     with_cache
       (list_set (cache fresh ++ [mkCachedPage 5 1 false zero_page]) 0
          (mkCachedPage 5 1 true (memcpy zero_page (page_of x33) PAGE_SIZE)))
       fresh).
Proof.
  apply (read_returns_staged_page zeroed (mkWriteTxn 1) (mkReaderTxn 0) 5
           (page_of x33) zero_page fresh).
  - constructor.
  - apply repeat_length.
  - apply repeat_length.
  - reflexivity.
Defined.

(** X3. [write_page_int] keeps the cache sound: page ids stay pairwise
    different, the array is never overrun and every slot holds a whole
    page; it puts the page id behind the others when it was not cached
    and leaves the ids alone when it was; and it ends the process
    exactly when the page is not cached and all 64 slots are taken. *)
Theorem write_page_keeps_cache_ok (tx : WriteTxn) (pid : Z) (d : list byte)
    (s : State) :
  cache_ok (cache s) -> (PAGE_SIZE <= length d)%nat ->
  (write_page_int tx pid d s = None
   <-> find_cached_page (cache s) pid = None
       /\ length (cache s) = CACHE_SIZE)
  /\ forall s',
       write_page_int tx pid d s = Some s' ->
       cache_ok (cache s')
       /\ map page_id (cache s')
          = map page_id (cache s)
            ++ match find_cached_page (cache s) pid with
               | Some _ => []
               | None => [pid]
               end.
Proof.
  intros (Hnd & Hlen & Hdata) Hd. split.
  - unfold write_page_int, get_or_create_cached_page.
    destruct (find_cached_page (cache s) pid) as [j|].
    + split; [discriminate|]. intros [H _]. discriminate.
    + destruct (Nat.leb_spec CACHE_SIZE (length (cache s))).
      * split; [intros _; split; [reflexivity|lia]|reflexivity].
      * split; [discriminate|]. intros [_ H']. lia.
  - intros s' Hw. unfold write_page_int in Hw.
    destruct (get_or_create_cached_page (cache s) pid (tx_id tx))
      as [[i c]|] eqn:Eg; [|discriminate].
    destruct (get_or_create_cached_page_spec _ _ _ _ _ Eg)
      as (Hi & Hp & Hf & Hshape).
    injection Hw as <-. cbn [with_cache cache].
    set (dflt := mkCachedPage 0 0 false []) in *.
    set (cp' := mkCachedPage (page_id (nth i c dflt)) (tx_id tx) true
                  (memcpy (data (nth i c dflt)) d PAGE_SIZE)).
    assert (Hids : map page_id (list_set c i cp') = map page_id c)
      by (apply (map_list_set page_id c i cp' dflt);
          [reflexivity|exact Hi]).
    assert (Hc : NoDup (map page_id c) /\ (length c <= CACHE_SIZE)%nat
                 /\ Forall (fun cp => length (data cp) = PAGE_SIZE) c
                 /\ map page_id c
                    = map page_id (cache s)
                      ++ match find_cached_page (cache s) pid with
                         | Some _ => []
                         | None => [pid]
                         end).
    { destruct Hshape as [[-> Hsome]|(-> & Hnone & Hroom & _)].
      - rewrite Hsome, app_nil_r. auto.
      - rewrite Hnone, map_app. cbn [map page_id].
        repeat split.
        + apply NoDup_app_remove_l with (l := []). cbn.
          rewrite <- (rev_involutive (map page_id (cache s) ++ [pid])).
          apply NoDup_rev. rewrite rev_app_distr. cbn.
          constructor.
          * rewrite <- in_rev. now apply find_cached_page_none.
          * now apply NoDup_rev.
        + rewrite length_app. cbn. lia.
        + apply Forall_app. split; [exact Hdata|].
          constructor; [apply repeat_length|constructor]. }
    destruct Hc as (Hnd' & Hlen' & Hdata' & Hmap).
    split; [|rewrite Hids; exact Hmap].
    split; [rewrite Hids; exact Hnd'|].
    split; [rewrite list_set_length; exact Hlen'|].
    apply Forall_forall. intros cp Hin.
    apply (In_nth _ _ dflt) in Hin. destruct Hin as (j & Hj & <-).
    rewrite list_set_length in Hj. rewrite nth_list_set.
    destruct (Nat.eqb_spec i j) as [<-|Hne]; cbn [andb].
    + destruct (Nat.ltb_spec i (length c)); [|lia].
      subst cp'. cbn [data]. unfold memcpy.
      assert (Hold : length (data (nth i c dflt)) = PAGE_SIZE)
        by (rewrite Forall_forall in Hdata'; apply Hdata';
            now apply nth_In).
      rewrite length_app, length_firstn, length_skipn. lia.
    + rewrite Forall_forall in Hdata'. apply Hdata'. now apply nth_In.
Qed.

Lemma write_page_keeps_cache_ok_witness :
  (write_page_int (mkWriteTxn 1) 5 (page_of x33) fresh = None
   <-> find_cached_page (cache fresh) 5 = None
       /\ length (cache fresh) = CACHE_SIZE)
  /\ forall s',
       write_page_int (mkWriteTxn 1) 5 (page_of x33) fresh = Some s' ->
       cache_ok (cache s')
       /\ map page_id (cache s')
          = map page_id (cache fresh)
            ++ match find_cached_page (cache fresh) 5 with
               | Some _ => []
               | None => [5]
               end.
Proof.
  apply (write_page_keeps_cache_ok (mkWriteTxn 1) 5 (page_of x33) fresh).
  - repeat split; [constructor|cbn; lia|constructor].
  - unfold page_of. rewrite repeat_length. lia.
Defined.

(** ** Commit *)

Lemma commit_pages_cache (tx : WriteTxn) (c : list CachedPage) :
  forall w, fst (commit_pages tx c w) = map (committed_slot tx) c.
Proof.
  induction c as [|cp rest IH]; intros w; [reflexivity|].
  cbn [commit_pages map]. unfold committed_slot at 1.
  destruct (dirty cp && (owner_tx cp =? tx_id tx)).
  - specialize (IH (wal_append_page tx (page_id cp) (data cp) w)).
    destruct (commit_pages tx rest _) as [rest' w2]. cbn [fst] in *.
    now rewrite IH.
  - specialize (IH w).
    destruct (commit_pages tx rest w) as [rest' w2]. cbn [fst] in *.
    now rewrite IH.
Qed.

Lemma commit_tx_cache (tx : WriteTxn) (s : State) :
  cache (commit_tx tx s) = map (committed_slot tx) (cache s).
Proof.
  unfold commit_tx.
  pose proof (commit_pages_cache tx (cache s) (wal s)) as H.
  destruct (commit_pages tx (cache s) (wal s)) as [c w].
  cbn [fst] in H. cbn. exact H.
Qed.

Lemma committed_slot_not_pending (tx : WriteTxn) (cp : CachedPage) :
  dirty (committed_slot tx cp)
  && (owner_tx (committed_slot tx cp) =? tx_id tx) = false.
Proof.
  unfold committed_slot.
  destruct (dirty cp && (owner_tx cp =? tx_id tx)) eqn:E; [reflexivity|].
  exact E.
Qed.

Lemma commit_page_records_done (tx : WriteTxn) (c : list CachedPage) :
  commit_page_records tx (map (committed_slot tx) c) = [].
Proof.
  unfold commit_page_records.
  induction c as [|cp rest IH]; [reflexivity|].
  cbn [map filter]. rewrite committed_slot_not_pending. exact IH.
Qed.

(** X4. [commit_tx] changes nothing in the cache but the dirty flags of
    the slots the transaction owns, which it clears: page ids, owners
    and bytes stay, and the slots of other transactions stay dirty. A
    second commit of the same transaction therefore finds no page to
    log and writes its marker alone. *)
Theorem commit_clears_own_dirty_flags (tx : WriteTxn) (s : State) :
  map page_id (cache (commit_tx tx s)) = map page_id (cache s)
  /\ map owner_tx (cache (commit_tx tx s)) = map owner_tx (cache s)
  /\ map data (cache (commit_tx tx s)) = map data (cache s)
  /\ map dirty (cache (commit_tx tx s))
     = map (fun cp => dirty cp && negb (owner_tx cp =? tx_id tx)) (cache s)
  /\ commit_page_records tx (cache (commit_tx tx s)) = []
  /\ wal (commit_tx tx (commit_tx tx s))
     = File.write (encode_record (commit_marker tx)) (wal (commit_tx tx s)).
Proof.
  rewrite commit_tx_cache.
  assert (Hfield : forall (B : Type) (f : CachedPage -> B),
            (forall cp, f (committed_slot tx cp) = f cp) ->
            map f (map (committed_slot tx) (cache s)) = map f (cache s)).
  { intros B f Hf. rewrite map_map. apply map_ext. exact Hf. }
  pose proof (commit_page_records_done tx (cache s)) as Hnone.
  split; [|split; [|split; [|split; [|split]]]].
  - apply Hfield. intros cp. unfold committed_slot.
    destruct (dirty cp && _); reflexivity.
  - apply Hfield. intros cp. unfold committed_slot.
    destruct (dirty cp && _); reflexivity.
  - apply Hfield. intros cp. unfold committed_slot.
    destruct (dirty cp && _); reflexivity.
  - rewrite map_map. apply map_ext. intros cp. unfold committed_slot.
    destruct (dirty cp) eqn:Ed, (owner_tx cp =? tx_id tx) eqn:Eo;
      cbn [andb negb dirty]; rewrite ?Ed; reflexivity.
  - exact Hnone.
  - destruct (commit_tx_log tx (commit_tx tx s)) as [Hw _].
    rewrite Hw, commit_tx_cache. unfold commit_records.
    rewrite Hnone. cbn [app encode_log flat_map].
    now rewrite app_nil_r.
Qed.

Lemma pwrite_at_end (bytes x : list byte) :
  File.pwrite bytes (length bytes) x = bytes ++ x.
Proof.
  unfold File.pwrite. destruct x as [|b x]; [now rewrite app_nil_r|].
  rewrite firstn_all, Nat.sub_diag. cbn [repeat app].
  rewrite skipn_all2 by lia. now rewrite app_nil_r.
Qed.

(** X5. While the descriptor stands at the end of a log of whole
    records, [commit_tx] appends whole records and nothing else: the
    log becomes the old records followed by the transaction's page
    records and its marker, the descriptor stands at the new end, and
    the data file is not touched. *)
Theorem commit_appends_whole_records (tx : WriteTxn) (s : State)
    (rs : list WalRecord) :
  File.content (wal s) = encode_log rs ->
  File.offset (wal s) = length (encode_log rs) ->
  Forall wf_record rs ->
  Forall (fun cp => is_u32 (page_id cp) /\ length (data cp) = PAGE_SIZE)
    (cache s) ->
  is_u32 (tx_id tx) ->
  File.content (wal (commit_tx tx s))
  = encode_log (rs ++ commit_records tx (cache s))
  /\ File.offset (wal (commit_tx tx s))
     = length (encode_log (rs ++ commit_records tx (cache s)))
  /\ Forall wf_record (rs ++ commit_records tx (cache s))
  /\ db (commit_tx tx s) = db s.
Proof.
  intros Hc Ho Hwf Hcache Htx.
  destruct (commit_tx_log tx s) as [Hw Hd].
  rewrite Hw. unfold File.write. cbn [File.content File.offset].
  rewrite Hc, Ho, pwrite_at_end, encode_log_app, length_app.
  repeat split; try assumption.
  apply Forall_app. split; [exact Hwf|].
  now apply commit_records_wf.
Qed.

Lemma commit_appends_whole_records_witness :
  File.content (wal (commit_tx (mkWriteTxn 1) staged))
  = encode_log ([] ++ commit_records (mkWriteTxn 1) (cache staged))
  /\ File.offset (wal (commit_tx (mkWriteTxn 1) staged))
     = length (encode_log ([] ++ commit_records (mkWriteTxn 1) (cache staged)))
  /\ Forall wf_record ([] ++ commit_records (mkWriteTxn 1) (cache staged))
  /\ db (commit_tx (mkWriteTxn 1) staged) = db staged.
Proof.
  apply (commit_appends_whole_records (mkWriteTxn 1) staged []).
  - vm_compute. reflexivity.
  - vm_compute. reflexivity.
  - constructor.
  - replace (cache staged) with [mkCachedPage 0 1 true (page_of x01)]
      by (vm_compute; reflexivity).
    constructor; [|constructor]. split.
    + unfold is_u32, U32_MOD. cbn [page_id]. lia.
    + apply repeat_length.
  - unfold is_u32, U32_MOD. cbn [tx_id]. lia.
Defined.

(** ** Readers and the horizon *)

Lemma fold_min_app (l : list Z) (x m : Z) :
  fold_left (fun m x => if x <? m then x else m) (l ++ [x]) m
  <= fold_left (fun m x => if x <? m then x else m) l m.
Proof.
  rewrite fold_left_app. cbn [fold_left].
  destruct (Z.ltb_spec x (fold_left (fun m x => if x <? m then x else m) l m));
    lia.
Qed.

(** X6. Nothing removes a reader, so once one is registered the horizon
    of [checkpoint_int] never rises: [begin_read_txn] can only lower
    it, and the other operations leave the registry as it is. When all
    32 slots are taken a new reader is handed its snapshot but is not
    registered, and the horizon ignores it. *)
Theorem horizon_never_rises (stale : nat -> nat -> byte) (s : State) :
  reader_snapshots s <> [] ->
  oldest_reader_snapshot (snd (begin_read_txn s)) <= oldest_reader_snapshot s
  /\ (reader_count s = MAX_READERS ->
      reader_snapshots (snd (begin_read_txn s)) = reader_snapshots s)
  /\ (forall tx, reader_snapshots (commit_tx tx s) = reader_snapshots s)
  /\ (forall tx pid d s',
         write_page_int tx pid d s = Some s' ->
         reader_snapshots s' = reader_snapshots s)
  /\ (forall rx pid out,
         reader_snapshots (snd (read_page_int stale rx pid out s))
         = reader_snapshots s)
  /\ reader_snapshots (checkpoint_int stale s) = reader_snapshots s.
Proof.
  intros Hne.
  split; [|split; [|split; [|split; [|split]]]].
  - unfold begin_read_txn, oldest_reader_snapshot.
    cbn [File.lseek_end snd reader_snapshots].
    destruct (reader_count s <? MAX_READERS)%nat.
    + destruct (reader_snapshots s) as [|a l] eqn:E; [contradiction|].
      cbn [app]. rewrite app_comm_cons. apply fold_min_app.
    + lia.
  - intros Hfull. unfold begin_read_txn.
    cbn [File.lseek_end snd reader_snapshots].
    destruct (Nat.ltb_spec (reader_count s) MAX_READERS); [lia|reflexivity].
  - intros tx. unfold commit_tx.
    destruct (commit_pages tx (cache s) (wal s)). reflexivity.
  - intros tx pid d s' H. unfold write_page_int in H.
    destruct (get_or_create_cached_page _ _ _) as [[i c]|]; [|discriminate].
    injection H as <-. reflexivity.
  - intros rx pid out. unfold read_page_int.
    destruct (find_cached_page (cache s) pid); [reflexivity|].
    destruct (wal_read_page stale pid (snapshot rx) out (wal s))
      as [[found out1] w].
    destruct found; reflexivity.
  - unfold checkpoint_int.
    destruct (checkpoint_scan stale (oldest_reader_snapshot s) (wal s) (db s)).
    reflexivity.
Qed.

Lemma horizon_never_rises_witness :
  oldest_reader_snapshot (snd (begin_read_txn two_readers))
  <= oldest_reader_snapshot two_readers
  /\ (reader_count two_readers = MAX_READERS ->
      reader_snapshots (snd (begin_read_txn two_readers))
      = reader_snapshots two_readers).
Proof.
  destruct (horizon_never_rises zeroed two_readers) as (H1 & H2 & _).
  - replace (reader_snapshots two_readers) with [4120; 8240]
      by (vm_compute; reflexivity).
    discriminate.
  - split; [exact H1|exact H2].
Defined.

(** ** What the scans leave alone *)

Lemma lseek_cur_keeps_content (delta : Z) (w : File.fd) :
  File.content (File.lseek_cur delta w) = File.content w.
Proof.
  unfold File.lseek_cur.
  destruct (Z.of_nat (File.offset w) + delta <? 0); reflexivity.
Qed.

Lemma snapshot_forward_keeps (stale : nat -> nat -> byte) (fuel : nat) :
  forall pos snap c w c' w',
    snapshot_forward stale fuel pos snap c w = Some (c', w') ->
    File.content w' = File.content w.
Proof.
  induction fuel as [|fuel IH]; intros pos snap c w c' w' H; [discriminate|].
  rewrite snapshot_forward_step in H.
  destruct (pos <? to_off_t snap); [|injection H as _ <-; reflexivity].
  destruct (File.read 4 w) as [tbuf wal1] eqn:E4.
  assert (K1 : File.content wal1 = File.content w)
    by (pose proof (read_keeps_content 4 w) as K; now rewrite E4 in K).
  destruct tbuf as [|b tbuf]; [injection H as _ <-; exact K1|].
  cbv zeta in H.
  destruct (decode_u32 (fill stale 4 (b :: tbuf)) =? WAL_COMMIT).
  - destruct (File.read COMMIT_REC_SIZE (File.lseek_cur (-4) wal1))
      as [buf wal3] eqn:Er.
    assert (K3 : File.content wal3 = File.content w).
    { pose proof (read_keeps_content COMMIT_REC_SIZE
                    (File.lseek_cur (-4) wal1)) as K.
      rewrite Er in K. cbn [snd] in K.
      now rewrite K, lseek_cur_keeps_content. }
    rewrite <- K3. eapply IH. exact H.
  - destruct (File.read PAGE_REC_SIZE (File.lseek_cur (-4) wal1))
      as [buf wal3] eqn:Er.
    assert (K3 : File.content wal3 = File.content w).
    { pose proof (read_keeps_content PAGE_REC_SIZE
                    (File.lseek_cur (-4) wal1)) as K.
      rewrite Er in K. cbn [snd] in K.
      now rewrite K, lseek_cur_keeps_content. }
    rewrite <- K3. eapply IH. exact H.
Qed.

Lemma snapshot_reverse_keeps (stale : nat -> nat -> byte) (fuel : nat) :
  forall pos pid c w r w',
    snapshot_reverse stale fuel pos pid c w = Some (r, w') ->
    File.content w' = File.content w.
Proof.
  induction fuel as [|fuel IH]; intros pos pid c w r w' H; [discriminate|].
  rewrite snapshot_reverse_step in H.
  destruct (pos >? Z.of_nat PAGE_REC_SIZE);
    [|injection H as _ <-; reflexivity].
  cbv zeta in H.
  destruct (File.read PAGE_REC_SIZE _) as [buf wal2] eqn:Er.
  assert (K2 : File.content wal2 = File.content w).
  { pose proof (read_keeps_content PAGE_REC_SIZE
                  (File.lseek_set
                     (Z.to_nat (pos - Z.of_nat PAGE_REC_SIZE)) w)) as K.
    rewrite Er in K. exact K. }
  destruct buf as [|b buf]; [injection H as _ <-; exact K2|].
  destruct (_ && _).
  - injection H as _ <-. exact K2.
  - rewrite <- K2. eapply IH. exact H.
Qed.

Lemma wal_find_page_keeps (stale : nat -> nat -> byte) (pid snap : Z) (w : File.fd) :
  File.content (snd (wal_find_page stale pid snap w)) = File.content w.
Proof.
  unfold wal_find_page.
  destruct (snapshot_forward stale _ _ _ _ _) as [[c w1]|] eqn:Ef;
    [|reflexivity].
  apply snapshot_forward_keeps in Ef. cbn [File.lseek_set File.content] in Ef.
  destruct (snapshot_reverse stale _ _ _ _ _) as [[r w2]|] eqn:Er;
    cbn [snd]; [|exact Ef].
  apply snapshot_reverse_keeps in Er. congruence.
Qed.

Lemma checkpoint_loop_as_writes (stale : nat -> nat -> byte) (fuel : nat) :
  forall (pos safe : Z) (w w' : File.fd) (d d' : list byte),
    checkpoint_loop stale fuel pos safe w d = Some (w', d') ->
    File.content w' = File.content w
    /\ exists ws,
         Forall page_sized ws
         /\ forall d0, checkpoint_loop stale fuel pos safe w d0
                       = Some (w', apply_writes ws d0).
Proof.
  induction fuel as [|fuel IH]; intros pos safe w w' d d' H; [discriminate|].
  rewrite checkpoint_loop_step in H.
  destruct (pos <? to_off_t safe) eqn:Ep.
  2:{ injection H as <- <-. split; [reflexivity|].
      exists []. split; [constructor|].
      intros d0. rewrite checkpoint_loop_step, Ep. reflexivity. }
  destruct (File.read 4 w) as [tbuf wal1] eqn:E4.
  assert (K1 : File.content wal1 = File.content w)
    by (pose proof (read_keeps_content 4 w) as K; now rewrite E4 in K).
  destruct tbuf as [|b tbuf].
  { injection H as <- <-. split; [exact K1|].
    exists []. split; [constructor|].
    intros d0. rewrite checkpoint_loop_step, Ep, E4. reflexivity. }
  cbv zeta in H.
  destruct (decode_u32 (fill stale 4 (b :: tbuf)) =? WAL_PAGE) eqn:Et.
  - destruct (File.read PAGE_REC_SIZE (File.lseek_cur (-4) wal1))
      as [buf wal3] eqn:Er.
    assert (K3 : File.content wal3 = File.content w).
    { pose proof (read_keeps_content PAGE_REC_SIZE
                    (File.lseek_cur (-4) wal1)) as K.
      rewrite Er in K. cbn [snd] in K.
      now rewrite K, lseek_cur_keeps_content. }
    destruct (IH _ _ _ _ _ _ H) as (Hk & ws & Hws & Hall).
    split; [congruence|].
    set (pr := decode_page_record (fill stale PAGE_REC_SIZE buf)) in *.
    exists ((pr_page_id pr, pr_data pr) :: ws). split.
    + constructor; [apply decoded_page_sized|exact Hws].
    + intros d0. rewrite checkpoint_loop_step, Ep, E4. cbv zeta.
      rewrite Et, Er. fold pr. apply Hall.
  - destruct (File.read COMMIT_REC_SIZE (File.lseek_cur (-4) wal1))
      as [buf wal3] eqn:Er.
    assert (K3 : File.content wal3 = File.content w).
    { pose proof (read_keeps_content COMMIT_REC_SIZE
                    (File.lseek_cur (-4) wal1)) as K.
      rewrite Er in K. cbn [snd] in K.
      now rewrite K, lseek_cur_keeps_content. }
    destruct (IH _ _ _ _ _ _ H) as (Hk & ws & Hws & Hall).
    split; [congruence|].
    exists ws. split; [exact Hws|].
    intros d0. rewrite checkpoint_loop_step, Ep, E4. cbv zeta.
    rewrite Et, Er. apply Hall.
Qed.

Lemma checkpoint_scan_as_writes (stale : nat -> nat -> byte) (safe : Z) (w : File.fd) :
  exists (w' : File.fd) (ws : list (Z * list byte)),
    File.content w' = File.content w
    /\ Forall page_sized ws
    /\ forall d, checkpoint_scan stale safe w d = (w', apply_writes ws d).
Proof.
  unfold checkpoint_scan.
  destruct (checkpoint_loop_total stale (S (File.size w)) 0 safe
              (File.lseek_set 0 w) [])
    as (w' & d' & Hr).
  - cbn. lia.
  - unfold File.size. cbn. lia.
  - destruct (checkpoint_loop_as_writes stale _ _ _ _ _ _ _ Hr)
      as (Hk & ws & Hws & Hall).
    exists w', ws. repeat split; try assumption.
    intros d. now rewrite Hall.
Qed.

Lemma checkpoint_scan_same_content (stale : nat -> nat -> byte) (safe : Z)
    (w1 w2 : File.fd) (d : list byte) :
  File.content w1 = File.content w2 ->
  checkpoint_scan stale safe w1 d = checkpoint_scan stale safe w2 d.
Proof.
  intros H. unfold checkpoint_scan, File.lseek_set, File.size. rewrite H.
  destruct (checkpoint_loop stale _ _ _ _ _) as [r|] eqn:E; [reflexivity|].
  exfalso.
  destruct (checkpoint_loop_total stale (S (length (File.content w2))) 0
              safe (File.mk (File.content w2) 0) d)
    as (w' & d' & Hr).
  - cbn. lia.
  - unfold File.size. cbn. lia.
  - congruence.
Qed.

(** X7. A checkpoint right after a checkpoint changes nothing: on a
    WAL of whole records [checkpoint_int] run twice leaves the engine in
    the state one run leaves it in, whatever bytes the two runs find in
    their buffers. *)
Theorem checkpoint_idempotent (stale1 stale2 : nat -> nat -> byte)
    (s : State) (rs : list WalRecord) :
  File.content (wal s) = encode_log rs -> Forall wf_record rs ->
  checkpoint_int stale2 (checkpoint_int stale1 s) = checkpoint_int stale1 s.
Proof.
  intros Hc Hwf.
  destruct (checkpoint_scan_as_writes stale1 (oldest_reader_snapshot s)
              (wal s)) as (w' & ws & Hk & Hws & Hall).
  assert (E1 : checkpoint_int stale1 s
               = with_db (apply_writes ws (db s)) (with_wal w' s)).
  { unfold checkpoint_int. rewrite Hall. reflexivity. }
  rewrite E1. unfold checkpoint_int.
  change (oldest_reader_snapshot
            (with_db (apply_writes ws (db s)) (with_wal w' s)))
    with (oldest_reader_snapshot s).
  change (wal (with_db (apply_writes ws (db s)) (with_wal w' s))) with w'.
  change (db (with_db (apply_writes ws (db s)) (with_wal w' s)))
    with (apply_writes ws (db s)).
  assert (E : checkpoint_scan stale2 (oldest_reader_snapshot s) w'
                (apply_writes ws (db s))
              = checkpoint_scan stale1 (oldest_reader_snapshot s) w'
                  (apply_writes ws (db s))).
  { destruct w' as [c o]. cbn [File.content] in Hk. rewrite Hk, Hc.
    apply checkpoint_scan_whole_records. exact Hwf. }
  rewrite E.
  rewrite (checkpoint_scan_same_content stale1 _ w' (wal s)) by exact Hk.
  rewrite Hall. unfold with_db, with_wal.
  cbn [wal db reader_snapshots next_tx_id cache opened].
  rewrite apply_writes_idempotent by exact Hws. reflexivity.
Qed.

Lemma checkpoint_idempotent_witness :
  checkpoint_int ones_behind_header
    (checkpoint_int zeroed (snd (begin_read reopened)))
  = checkpoint_int zeroed (snd (begin_read reopened)).
Proof.
  apply (checkpoint_idempotent zeroed ones_behind_header
           (snd (begin_read reopened)) first_commit_log).
  - vm_compute. reflexivity.
  - repeat constructor; try discriminate; try apply repeat_length.
Defined.

(** X8. No scan changes the bytes of the WAL, whatever they are: a read
    leaves the log's bytes, the data file and the cache as they were (it
    moves the descriptor only), [begin_read_txn] leaves the log's bytes,
    the data file and the cache, and a checkpoint and the recovery of
    [waldb_open] leave the log's bytes and the cache. *)
Theorem scans_keep_the_log (stale : nat -> nat -> byte) (s : State) :
  (forall rx pid out,
      let s' := snd (read_page_int stale rx pid out s) in
      File.content (wal s') = File.content (wal s)
      /\ db s' = db s /\ cache s' = cache s)
  /\ (File.content (wal (snd (begin_read_txn s))) = File.content (wal s)
      /\ db (snd (begin_read_txn s)) = db s
      /\ cache (snd (begin_read_txn s)) = cache s)
  /\ (File.content (wal (checkpoint_int stale s)) = File.content (wal s)
      /\ cache (checkpoint_int stale s) = cache s)
  /\ (File.content (wal (waldb_open stale s)) = File.content (wal s)
      /\ cache (waldb_open stale s) = cache s).
Proof.
  split; [|split; [|split]].
  - intros rx pid out. unfold read_page_int.
    destruct (find_cached_page (cache s) pid); [cbn; auto|].
    unfold wal_read_page.
    pose proof (wal_find_page_keeps stale pid (snapshot rx) (wal s)) as K.
    destruct (wal_find_page stale pid (snapshot rx) (wal s)) as [[pr|] w];
      cbn [snd] in K; cbn; auto.
  - repeat split.
  - unfold checkpoint_int.
    destruct (checkpoint_scan_as_writes stale (oldest_reader_snapshot s)
                (wal s)) as (w' & ws & Hk & _ & Hall).
    rewrite Hall. cbn. auto.
  - unfold waldb_open. destruct (opened s); [auto|].
    destruct (wal_recover_as_writes stale
                (File.mk (File.content (wal s)) 0))
      as (w' & ws & Hk & _ & Hall).
    rewrite Hall. cbn. auto.
Qed.

(** ** Which page records recovery replays *)

Lemma length_note_commit (c : list bool) (cr : WalCommitRecord) :
  length (note_commit c cr) = length c.
Proof.
  unfold note_commit, committed_set.
  destruct (_ && _); [apply list_set_length|reflexivity].
Qed.

Lemma is_committed_note (c : list bool) (cr : WalCommitRecord) (t : Z) :
  length c = Z.to_nat MAX_TX -> 0 <= t -> 0 <= cr_tx_id cr ->
  is_committed (note_commit c cr) t
  = is_committed c t
    || ((t <? MAX_TX) && is_valid_commit_for t (CommitRec cr)).
Proof.
  intros Hlen Ht Hx. cbn [is_valid_commit_for].
  destruct (Z.eqb_spec (cr_tx_id cr) t) as [E|E].
  - destruct (Z.eqb_spec (cr_magic cr) WAL_MAGIC_COMMIT) as [Hm|Hm].
    + cbn [andb]. unfold is_committed, note_commit.
      apply Z.eqb_eq in Hm. rewrite Hm, E. cbn [andb].
      destruct (Z.ltb_spec t MAX_TX) as [Hlt|Hge]; cbn [andb orb];
        [|reflexivity].
      unfold committed_get, committed_set. rewrite nth_list_set.
      rewrite Nat.eqb_refl. cbn [andb].
      assert (Hb : (Z.to_nat t <? length c)%nat = true)
        by (apply Nat.ltb_lt; rewrite Hlen; lia).
      rewrite Hb. now rewrite orb_true_r.
    + cbn [andb]. rewrite andb_false_r, orb_false_r.
      rewrite is_committed_note_bad_magic by exact Hm. reflexivity.
  - cbn [andb]. rewrite andb_false_r, orb_false_r.
    apply is_committed_note_other; try assumption.
    intros [E' _]. contradiction.
Qed.

Lemma marked_in_snoc (pre : list WalRecord) (r : WalRecord) (t : Z) :
  marked_in (pre ++ [r]) t
  = marked_in pre t || ((t <? MAX_TX) && is_valid_commit_for t r).
Proof.
  unfold marked_in. rewrite existsb_app. cbn [existsb].
  rewrite orb_false_r. now destruct (t <? MAX_TX).
Qed.

Lemma replay_marked_pages (rs : list WalRecord) :
  forall (pre : list WalRecord) (c : list bool) (d : list byte),
    Forall wf_record rs ->
    length c = Z.to_nat MAX_TX ->
    (forall t, 0 <= t -> is_committed c t = marked_in pre t) ->
    replay rs c d = apply_writes (marked_pages pre rs) d.
Proof.
  induction rs as [|r rs IH]; intros pre c d Hwf Hlen Hc; [reflexivity|].
  inversion Hwf as [|? ? Hr Hrs]; subst.
  destruct r as [p|cr]; cbn [replay marked_pages].
  - destruct Hr as (_ & [Htx _] & _).
    rewrite apply_writes_app, (Hc _ Htx).
    rewrite <- (IH (pre ++ [PageRec p]) c); try assumption.
    + destruct (marked_in pre (pr_tx_id p)); reflexivity.
    + intros t Ht. rewrite marked_in_snoc, (Hc t Ht). cbn.
      now rewrite andb_false_r, orb_false_r.
  - destruct Hr as (_ & [Htx _] & _).
    apply IH; [assumption|now rewrite length_note_commit|].
    intros t Ht. rewrite marked_in_snoc, <- (Hc t Ht).
    now apply is_committed_note.
Qed.

Lemma marked_in_nil (t : Z) : marked_in [] t = false.
Proof. unfold marked_in. cbn. apply andb_false_r. Qed.

(** X9. Recovery of a log of whole records writes to the data file
    exactly the page records that come after a valid commit marker of
    their own transaction id (an id below [MAX_TX]), in log order, and
    nothing else; a marker that comes after the record does not
    count, and a marker left by an earlier user of the id does. *)
Theorem recovery_replays_pages_after_marker (stale : nat -> nat -> byte)
    (rs : list WalRecord) (off : nat) (d : list byte) :
  Forall wf_record rs ->
  snd (wal_recover stale (File.mk (encode_log rs) off) d)
  = apply_writes (marked_pages [] rs) d.
Proof.
  intros Hwf. rewrite wal_recover_log by exact Hwf. cbn [snd].
  apply replay_marked_pages; [exact Hwf|apply repeat_length|].
  intros t _. now rewrite is_committed_init, marked_in_nil.
Qed.

Lemma recovery_replays_pages_after_marker_witness :
  Forall wf_record reused_id_log
  /\ snd (wal_recover zeroed (File.mk (encode_log reused_id_log) 0) [])
     = apply_writes (marked_pages [] reused_id_log) [].
Proof.
  assert (Hwf : Forall wf_record reused_id_log)
    by (repeat constructor; try discriminate; try apply repeat_length).
  split; [exact Hwf|].
  apply (recovery_replays_pages_after_marker zeroed reused_id_log 0 [] Hwf).
Defined.

(** ** Transaction ids the [committed] array has no room for *)

Lemma is_committed_high (c : list bool) (t : Z) :
  MAX_TX <= t -> is_committed c t = false.
Proof.
  intros H. unfold is_committed.
  destruct (Z.ltb_spec t MAX_TX); [lia|reflexivity].
Qed.

Lemma note_commit_high (c : list bool) (cr : WalCommitRecord) :
  MAX_TX <= cr_tx_id cr -> note_commit c cr = c.
Proof.
  intros H. unfold note_commit.
  destruct (Z.ltb_spec (cr_tx_id cr) MAX_TX); [lia|].
  now rewrite andb_false_r.
Qed.

Lemma replay_without_high (rs : list WalRecord) :
  forall (c : list bool) (d : list byte),
    replay rs c d
    = replay (filter (fun r => record_tx r <? MAX_TX) rs) c d.
Proof.
  induction rs as [|r rs IH]; intros c d; [reflexivity|].
  destruct r as [p|cr]; cbn [replay filter record_tx].
  - destruct (Z.ltb_spec (pr_tx_id p) MAX_TX) as [Hlt|Hge].
    + cbn [replay]. apply IH.
    + rewrite is_committed_high by exact Hge. apply IH.
  - destruct (Z.ltb_spec (cr_tx_id cr) MAX_TX) as [Hlt|Hge].
    + cbn [replay]. apply IH.
    + rewrite note_commit_high by exact Hge. apply IH.
Qed.

Lemma filter_wf (f : WalRecord -> bool) (rs : list WalRecord) :
  Forall wf_record rs -> Forall wf_record (filter f rs).
Proof.
  intros H. apply Forall_forall. intros r Hr.
  apply filter_In in Hr. destruct Hr as [Hr _].
  revert r Hr. now apply Forall_forall.
Qed.

(** X10. Transactions whose id is [MAX_TX] = 1024 or more are lost to
    the log: recovery of a log of whole records leaves the data file as
    it would had none of their records been in the log, valid markers
    or not, and the snapshot lookup, on any WAL bytes, never settles on
    a page record with such an id. In a process these are the
    transactions from the 1024th call of [begin_write] on. *)
Theorem transactions_from_max_tx_are_lost (stale : nat -> nat -> byte)
    (rs : list WalRecord) (off : nat) (d : list byte) :
  Forall wf_record rs ->
  snd (wal_recover stale (File.mk (encode_log rs) off) d)
  = snd (wal_recover stale
           (File.mk (encode_log
                       (filter (fun r => record_tx r <? MAX_TX) rs)) off) d)
  /\ (forall w pid snap pr w',
         wal_find_page stale pid snap w = (Some pr, w') ->
         pr_tx_id pr < MAX_TX)
  /\ (forall k, (1024 <= k < 4294967296)%N -> MAX_TX <= kth_tx_id k).
Proof.
  intros Hwf. split; [|split].
  - rewrite !wal_recover_log by (try apply filter_wf; exact Hwf).
    cbn [snd]. apply replay_without_high.
  - intros w pid snap pr w' H. unfold wal_find_page in H.
    destruct (snapshot_forward stale _ _ _ _ _) as [[c w1]|];
      [|discriminate].
    destruct (snapshot_reverse stale _ _ _ _ _) as [[r w2]|] eqn:Er;
      [|discriminate].
    injection H as -> ->.
    apply snapshot_reverse_sound in Er. destruct Er as (_ & _ & Hc).
    unfold is_committed in Hc. apply andb_prop in Hc.
    destruct Hc as [Hc _]. now apply Z.ltb_lt.
  - intros k Hk. rewrite kth_tx_id_value by lia.
    unfold MAX_TX, U32_MOD. rewrite Z.mod_small; lia.
Qed.

Lemma transactions_from_max_tx_are_lost_witness :
  Forall wf_record high_tx_log
  /\ snd (wal_recover zeroed (File.mk (encode_log high_tx_log) 0) [])
     = snd (wal_recover zeroed
              (File.mk (encode_log
                          (filter (fun r => record_tx r <? MAX_TX)
                             high_tx_log)) 0) []).
Proof.
  assert (Hwf : Forall wf_record high_tx_log)
    by (repeat constructor; try discriminate; try apply repeat_length).
  split; [exact Hwf|].
  apply (transactions_from_max_tx_are_lost zeroed high_tx_log 0 [] Hwf).
Defined.

(** ** A snapshot and the records appended after it *)

Lemma length_encode_record (r : WalRecord) :
  wf_record r ->
  length (encode_record r)
  = match r with
    | PageRec _ => PAGE_REC_SIZE
    | CommitRec _ => COMMIT_REC_SIZE
    end.
Proof.
  destruct r as [p|c]; cbn [encode_record]; intros H.
  - apply length_encode_page_record, H.
  - apply length_encode_commit_record.
Qed.

Lemma forward_commits_stops_at_snapshot (rs more : list WalRecord) :
  forall (pos snap : Z) (c : list bool),
    Forall wf_record rs ->
    pos + Z.of_nat (length (encode_log rs)) = to_off_t snap ->
    forward_commits (rs ++ more) pos snap c = forward_commits rs pos snap c.
Proof.
  induction rs as [|r rs IH]; intros pos snap c Hwf Hpos.
  - cbn in Hpos. cbn [app forward_commits].
    destruct more as [|m more]; [reflexivity|]. cbn [forward_commits].
    destruct (Z.ltb_spec pos (to_off_t snap)); [lia|reflexivity].
  - inversion Hwf as [|? ? Hr Hrs]; subst.
    rewrite encode_log_cons, length_app in Hpos.
    rewrite (length_encode_record r Hr) in Hpos.
    cbn [app forward_commits].
    destruct (pos <? to_off_t snap); [|reflexivity].
    destruct r as [p|cr]; apply IH; try assumption; lia.
Qed.

Lemma pread_prefix (a b : list byte) (off n : nat) :
  (off + n <= length a)%nat ->
  File.pread (a ++ b) off n = File.pread a off n.
Proof.
  intros H. unfold File.pread.
  rewrite skipn_app, firstn_app, length_skipn.
  replace (n - (length a - off))%nat with 0%nat by lia.
  cbn [firstn]. apply app_nil_r.
Qed.

Lemma snapshot_reverse_prefix (stale : nat -> nat -> byte) (a b : list byte) (pid : Z)
    (c : list bool) (f1 : nat) :
  forall (f2 : nat) (pos : Z) (o1 o2 : nat) r1 w1 r2 w2,
    pos <= Z.of_nat (length a) ->
    snapshot_reverse stale f1 pos pid c (File.mk (a ++ b) o1)
    = Some (r1, w1) ->
    snapshot_reverse stale f2 pos pid c (File.mk a o2) = Some (r2, w2) ->
    r1 = r2.
Proof.
  induction f1 as [|f1 IH]; intros f2 pos o1 o2 r1 w1 r2 w2 Hpos H1 H2;
    [discriminate|].
  destruct f2 as [|f2]; [discriminate|].
  rewrite snapshot_reverse_step in H1, H2.
  destruct (Z.gtb_spec pos (Z.of_nat PAGE_REC_SIZE)) as [Hgt|Hle].
  2:{ injection H1 as <- _. injection H2 as <- _. reflexivity. }
  cbv zeta in H1, H2.
  unfold File.read, File.lseek_set in H1, H2.
  cbn [File.content File.offset] in H1, H2.
  rewrite pread_prefix in H1 by lia.
  destruct (File.pread a _ PAGE_REC_SIZE) as [|x buf] eqn:Eb.
  { injection H1 as <- _. injection H2 as <- _. reflexivity. }
  destruct (_ && _).
  - injection H1 as <- _. injection H2 as <- _. reflexivity.
  - eapply IH; [|exact H1|exact H2]. lia.
Qed.

(** X11. What the snapshot lookup finds does not depend on records
    appended to the log after the snapshot was taken: for a log of whole
    records and a snapshot at its end, [wal_read_page] gives the same
    flag and the same page on the log and on the log followed by any
    further whole records. *)
Theorem later_records_leave_lookup_unchanged (stale : nat -> nat -> byte)
    (rs more : list WalRecord) (off off' : nat) (pid : Z) (out : list byte) :
  Forall wf_record rs -> Forall wf_record more ->
  Z.of_nat (length (encode_log rs)) < 2 ^ 63 ->
  fst (wal_read_page stale pid (Z.of_nat (length (encode_log rs))) out
         (File.mk (encode_log (rs ++ more)) off))
  = fst (wal_read_page stale pid (Z.of_nat (length (encode_log rs))) out
           (File.mk (encode_log rs) off')).
Proof.
  intros Hwf Hmore Hsz.
  set (snap := Z.of_nat (length (encode_log rs))).
  assert (Hoff : to_off_t snap = snap).
  { unfold to_off_t. destruct (Z.ltb_spec snap (2 ^ 63)); [reflexivity|].
    unfold snap in *. lia. }
  assert (Hall : Forall wf_record (rs ++ more))
    by (apply Forall_app; split; assumption).
  assert (Hfind :
    fst (wal_find_page stale pid snap
           (File.mk (encode_log (rs ++ more)) off))
    = fst (wal_find_page stale pid snap (File.mk (encode_log rs) off'))).
  { unfold wal_find_page, File.lseek_set, File.size.
    cbn [File.content].
    destruct (snapshot_forward_log stale (rs ++ more) [] 0 snap
                committed_init (S (length (encode_log (rs ++ more)))) Hall)
      as (o1 & Hf1).
    { pose proof (length_encode_log_ge _ Hall). lia. }
    destruct (snapshot_forward_log stale rs [] 0 snap
                committed_init (S (length (encode_log rs))) Hwf)
      as (o2 & Hf2).
    { pose proof (length_encode_log_ge _ Hwf). lia. }
    cbn [app length] in Hf1, Hf2. rewrite Hf1, Hf2.
    rewrite forward_commits_stops_at_snapshot
      by (try exact Hwf; rewrite Hoff; unfold snap; lia).
    set (c := forward_commits rs 0 snap committed_init).
    destruct (snapshot_reverse_total stale (to_off_t snap) pid c
                (File.mk (encode_log (rs ++ more)) o1)) as ([r1 w1] & E1).
    destruct (snapshot_reverse_total stale (to_off_t snap) pid c
                (File.mk (encode_log rs) o2)) as ([r2 w2] & E2).
    unfold File.size in E1, E2. cbn [File.content] in E1, E2.
    rewrite E1, E2. cbn [fst].
    rewrite encode_log_app in E1.
    eapply snapshot_reverse_prefix; [|exact E1|exact E2].
    rewrite Hoff. unfold snap. lia. }
  unfold wal_read_page. fold snap.
  destruct (wal_find_page stale pid snap
              (File.mk (encode_log (rs ++ more)) off)) as [r1 w1].
  destruct (wal_find_page stale pid snap (File.mk (encode_log rs) off'))
    as [r2 w2].
  cbn [fst] in Hfind. subst r2. destruct r1; reflexivity.
Qed.

Lemma later_records_leave_lookup_unchanged_witness :
  (Forall wf_record first_commit_log /\ Forall wf_record second_commit_log)
  /\ fst (wal_read_page zeroed 0
            (Z.of_nat (length (encode_log first_commit_log))) zero_page
            (File.mk (encode_log (first_commit_log ++ second_commit_log))
               0))
     = fst (wal_read_page zeroed 0
              (Z.of_nat (length (encode_log first_commit_log))) zero_page
              (File.mk (encode_log first_commit_log) 0)).
Proof.
  assert (H1 : Forall wf_record first_commit_log)
    by (repeat constructor; try discriminate; try apply repeat_length).
  assert (H2 : Forall wf_record second_commit_log)
    by (repeat constructor; try discriminate; try apply repeat_length).
  split; [split; assumption|].
  apply (later_records_leave_lookup_unchanged zeroed first_commit_log
           second_commit_log 0 0 0 zero_page H1 H2).
  vm_compute. reflexivity.
Defined.

(** ** Where a commit lands in the log *)

Lemma recover_loop_ends_at_eof (stale : nat -> nat -> byte) (fuel : nat) :
  forall (c : list bool) (w w' : File.fd) (d d' : list byte),
    (File.offset w <= File.size w)%nat ->
    recover_loop stale fuel c w d = Some (w', d') ->
    File.content w' = File.content w /\ File.offset w' = File.size w.
Proof.
  induction fuel as [|fuel IH]; intros c w w' d d' Hoff H; [discriminate|].
  rewrite recover_loop_step in H.
  pose proof (scan_iteration_progress w COMMIT_REC_SIZE) as Pc.
  pose proof (scan_iteration_progress w PAGE_REC_SIZE) as Pp.
  destruct (File.read 4 w) as [tbuf wal1] eqn:E4.
  cbn [fst snd] in Pc, Pp.
  destruct tbuf as [|b tbuf].
  - injection H as <- <-.
    unfold File.read in E4. injection E4 as Eg <-.
    cbn [File.content File.offset]. split; [reflexivity|].
    assert (Hl : length (File.pread (File.content w) (File.offset w) 4)
                 = 0%nat) by now rewrite Eg.
    rewrite length_pread in Hl. rewrite Eg. cbn [length].
    unfold File.size in *. lia.
  - cbv zeta in H.
    destruct (decode_u32 (fill stale 4 (b :: tbuf)) =? WAL_COMMIT).
    + destruct Pc as [Hc Ho];
        [unfold COMMIT_REC_SIZE; lia|assumption|discriminate|].
      destruct (File.read COMMIT_REC_SIZE (File.lseek_cur (-4) wal1))
        as [buf wal3]. cbn [snd] in Hc, Ho.
      apply IH in H; [|unfold File.size; rewrite Hc; apply Ho].
      unfold File.size in *. rewrite Hc in H. exact H.
    + destruct Pp as [Hc Ho];
        [unfold PAGE_REC_SIZE; lia|assumption|discriminate|].
      destruct (File.read PAGE_REC_SIZE (File.lseek_cur (-4) wal1))
        as [buf wal3]. cbn [snd] in Hc, Ho.
      apply IH in H; [|unfold File.size; rewrite Hc; apply Ho].
      unfold File.size in *. rewrite Hc in H. exact H.
Qed.

Lemma wal_recover_ends_at_eof (stale : nat -> nat -> byte) (bytes : list byte)
    (d : list byte) :
  fst (wal_recover stale (File.mk bytes 0) d)
  = File.mk bytes (length bytes).
Proof.
  unfold wal_recover, File.lseek_set, File.size. cbn [File.content].
  destruct (recover_loop_total stale (S (length bytes)) committed_init
              (File.mk bytes 0) d) as (w' & d' & Hr & _).
  - cbn. lia.
  - unfold File.size. cbn. lia.
  - rewrite Hr. cbn [fst].
    apply recover_loop_ends_at_eof in Hr; [|cbn; lia].
    destruct Hr as [Hc Ho]. destruct w' as [c' o'].
    cbn [File.content File.offset File.size] in *. now subst.
Qed.

Lemma write_at_end (bytes x : list byte) :
  File.content (File.write x (File.mk bytes (length bytes))) = bytes ++ x.
Proof. unfold File.write. cbn [File.content File.offset]. apply pwrite_at_end. Qed.

(** X12. A commit that directly follows [begin_read_txn], or the
    recovery of [waldb_open], appends: both leave the descriptor at the
    end of the WAL, whatever its bytes, so the log after the commit is
    the log before it followed by the commit's records. *)
Theorem commit_appends_after_open_or_begin_read (stale : nat -> nat -> byte)
    (tx : WriteTxn) (s : State) :
  File.content (wal (commit_tx tx (snd (begin_read_txn s))))
  = File.content (wal s) ++ encode_log (commit_records tx (cache s))
  /\ (opened s = false ->
      File.content (wal (commit_tx tx (waldb_open stale s)))
      = File.content (wal s) ++ encode_log (commit_records tx (cache s))).
Proof.
  split.
  - destruct (commit_tx_log tx (snd (begin_read_txn s))) as [-> _].
    cbn [begin_read_txn File.lseek_end snd wal cache File.size].
    apply write_at_end.
  - intros Ho.
    destruct (commit_tx_log tx (waldb_open stale s)) as [-> _].
    unfold waldb_open. rewrite Ho.
    pose proof (wal_recover_ends_at_eof stale (File.content (wal s)) (db s))
      as He.
    destruct (wal_recover stale _ _) as [w d]. cbn [fst] in He. subst w.
    cbn [wal cache]. apply write_at_end.
Qed.

Lemma commit_appends_after_open_or_begin_read_witness :
  opened (boot (crash after_commit)) = false
  /\ File.content
       (wal (commit_tx (mkWriteTxn 1)
               (waldb_open zeroed (boot (crash after_commit)))))
     = File.content (wal (boot (crash after_commit)))
       ++ encode_log (commit_records (mkWriteTxn 1)
                        (cache (boot (crash after_commit)))).
Proof.
  split; [reflexivity|].
  apply (commit_appends_after_open_or_begin_read zeroed (mkWriteTxn 1)
           (boot (crash after_commit))).
  reflexivity.
Defined.

Lemma firstn_pwrite_zero (bytes x : list byte) :
  firstn (length x) (File.pwrite bytes 0 x) = x.
Proof.
  unfold File.pwrite. destruct x as [|b y] eqn:E; [reflexivity|].
  rewrite <- E. clear E.
  change (firstn 0 bytes) with (@nil byte).
  rewrite Nat.sub_0_l. cbn [repeat app].
  rewrite firstn_app, Nat.sub_diag, firstn_all. cbn [firstn].
  apply app_nil_r.
Qed.

(** X13. The WAL descriptor is shared by every scan and by the writer,
    and [commit_tx] writes where it stands. A checkpoint taken while no
    reader is registered, and a read through the snapshot 0 that misses
    the cache, both leave it at byte 0: the commit that follows writes
    its records over the beginning of the log instead of appending
    them. *)
Theorem commit_after_rewind_overwrites_log_start (stale : nat -> nat -> byte)
    (tx : WriteTxn) (s : State) :
  let new := encode_log (commit_records tx (cache s)) in
  (reader_snapshots s = [] ->
   wal (commit_tx tx (checkpoint_int stale s))
   = File.write new (File.mk (File.content (wal s)) 0)
   /\ firstn (length new)
        (File.content (wal (commit_tx tx (checkpoint_int stale s)))) = new)
  /\ (forall pid out,
         find_cached_page (cache s) pid = None ->
         let s' := snd (read_page_int stale (mkReaderTxn 0) pid out s) in
         wal (commit_tx tx s')
         = File.write new (File.mk (File.content (wal s)) 0)
         /\ firstn (length new) (File.content (wal (commit_tx tx s')))
            = new).
Proof.
  cbv zeta. split.
  - intros Hr.
    assert (E : checkpoint_int stale s
                = with_db (db s) (with_wal (File.lseek_set 0 (wal s)) s)).
    { unfold checkpoint_int, oldest_reader_snapshot. rewrite Hr.
      rewrite checkpoint_scan_zero. reflexivity. }
    destruct (commit_tx_log tx (checkpoint_int stale s)) as [Hw _].
    rewrite Hw, E. cbn [with_db with_wal wal cache File.lseek_set].
    split; [reflexivity|].
    unfold File.write. cbn [File.content File.offset].
    apply firstn_pwrite_zero.
  - intros pid out Hmiss.
    assert (E : snd (read_page_int stale (mkReaderTxn 0) pid out s)
                = with_wal (File.lseek_set 0 (wal s)) s).
    { unfold read_page_int. rewrite Hmiss. reflexivity. }
    rewrite E.
    destruct (commit_tx_log tx (with_wal (File.lseek_set 0 (wal s)) s))
      as [Hw _].
    rewrite Hw. cbn [with_wal wal cache File.lseek_set].
    split; [reflexivity|].
    unfold File.write. cbn [File.content File.offset].
    apply firstn_pwrite_zero.
Qed.

Lemma commit_after_rewind_overwrites_log_start_witness :
  reader_snapshots after_commit = []
  /\ firstn
       (length (encode_log (commit_records (mkWriteTxn 2)
                              (cache after_commit))))
       (File.content
          (wal (commit_tx (mkWriteTxn 2) (checkpoint_int zeroed after_commit))))
     = encode_log (commit_records (mkWriteTxn 2) (cache after_commit)).
Proof.
  assert (H : reader_snapshots after_commit = [])
    by (vm_compute; reflexivity).
  split; [exact H|].
  destruct (commit_after_rewind_overwrites_log_start zeroed (mkWriteTxn 2)
              after_commit) as [H1 _].
  apply H1. exact H.
Defined.

(** ** Records through the file and back *)

Lemma pread_pwrite_same (bytes data : list byte) (off : nat) :
  data <> [] ->
  File.pread (File.pwrite bytes off data) off (length data) = data.
Proof.
  intros Hne. apply bytes_ext.
  - rewrite length_pread, length_pwrite by exact Hne. lia.
  - intros i. rewrite nth_pread, nth_pwrite.
    destruct (Nat.ltb_spec i (length data)) as [Hlt|Hge].
    + destruct (Nat.leb_spec off (off + i)) as [_|Hbad]; [|lia].
      destruct (Nat.ltb_spec (off + i) (off + length data)) as [_|Hbad];
        [|lia].
      cbn [andb]. f_equal. lia.
    + symmetry. now apply nth_overflow.
Qed.

Lemma memcpy_whole_page (d : list byte) :
  (PAGE_SIZE <= length d)%nat ->
  memcpy zero_page d PAGE_SIZE = firstn PAGE_SIZE d
  /\ length (firstn PAGE_SIZE d) = PAGE_SIZE.
Proof.
  intros H. unfold memcpy, zero_page.
  rewrite skipn_all2 by (rewrite repeat_length; lia).
  rewrite app_nil_r, length_firstn. split; [reflexivity|lia].
Qed.

(** X19. What the writer puts in the log, a scanner reads back: at any
    descriptor position, in any file, the struct a scanner fills by
    reading at the place where [wal_append_page] or [wal_commit] just
    wrote is the record that was written, field by field (type, the
    transaction id, the page id and the first [PAGE_SIZE] bytes of the
    page, or the magic), and the write moved the descriptor by the size of
    the record. *)
Theorem written_records_read_back (stale : nat -> nat -> byte) (tx : WriteTxn) (pid : Z)
    (d : list byte) (w : File.fd) :
  is_u32 (tx_id tx) -> is_u32 pid -> (PAGE_SIZE <= length d)%nat ->
  decode_page_record
    (fill stale PAGE_REC_SIZE
       (fst (File.read PAGE_REC_SIZE
               (File.lseek_set (File.offset w) (wal_append_page tx pid d w)))))
  = mkPageRecord WAL_PAGE (tx_id tx) pid (firstn PAGE_SIZE d)
  /\ File.offset (wal_append_page tx pid d w)
     = (File.offset w + PAGE_REC_SIZE)%nat
  /\ decode_commit_record
       (fill stale COMMIT_REC_SIZE
          (fst (File.read COMMIT_REC_SIZE
                  (File.lseek_set (File.offset w) (wal_commit tx w)))))
     = mkCommitRecord WAL_COMMIT (tx_id tx) WAL_MAGIC_COMMIT
  /\ File.offset (wal_commit tx w) = (File.offset w + COMMIT_REC_SIZE)%nat.
Proof.
  intros Htx Hpid Hd.
  destruct (memcpy_whole_page d Hd) as [Em Hl].
  set (p := mkPageRecord WAL_PAGE (tx_id tx) pid (firstn PAGE_SIZE d)).
  set (c := mkCommitRecord WAL_COMMIT (tx_id tx) WAL_MAGIC_COMMIT).
  assert (Hp : length (encode_page_record p) = PAGE_REC_SIZE)
    by (apply length_encode_page_record; exact Hl).
  assert (Hc : length (encode_commit_record c) = COMMIT_REC_SIZE)
    by apply length_encode_commit_record.
  assert (Hpne : encode_page_record p <> [])
    by (intros E; rewrite E in Hp; discriminate).
  assert (Hcne : encode_commit_record c <> [])
    by (intros E; rewrite E in Hc; discriminate).
  unfold wal_append_page, wal_commit. rewrite Em. fold p c.
  unfold File.read, File.write, File.lseek_set.
  cbn [File.content File.offset fst].
  rewrite Hp, Hc. repeat split.
  - rewrite <- Hp at 2. rewrite pread_pwrite_same by exact Hpne.
    rewrite fill_full by exact Hp.
    apply decode_encode_page_record; try assumption.
    unfold p, is_u32, WAL_PAGE, U32_MOD. cbn [pr_type]. lia.
  - rewrite <- Hc at 2. rewrite pread_pwrite_same by exact Hcne.
    rewrite fill_full by exact Hc.
    apply decode_encode_commit_record; try assumption.
    + unfold c, is_u32, WAL_COMMIT, U32_MOD. cbn [cr_type]. lia.
    + unfold c, is_u32, WAL_MAGIC_COMMIT, U32_MOD. cbn [cr_magic]. lia.
Qed.

Lemma written_records_read_back_witness :
  decode_page_record
    (fill zeroed PAGE_REC_SIZE
       (fst (File.read PAGE_REC_SIZE
               (File.lseek_set 0
                  (wal_append_page (mkWriteTxn 7) 3 (page_of x2a)
                     (File.mk [] 0))))))
  = mkPageRecord WAL_PAGE 7 3 (firstn PAGE_SIZE (page_of x2a)).
Proof.
  refine (proj1 (written_records_read_back zeroed (mkWriteTxn 7) 3
                   (page_of x2a) (File.mk [] 0) _ _ _)).
  - unfold is_u32, U32_MOD. cbn. lia.
  - unfold is_u32, U32_MOD. lia.
  - unfold page_of. rewrite repeat_length. lia.
Defined.

(** ** The size of what a read returns *)

Lemma snapshot_reverse_page_sized (stale : nat -> nat -> byte) (fuel : nat) :
  forall (pos pid : Z) (c : list bool) (w w' : File.fd)
         (pr : WalPageRecord),
    snapshot_reverse stale fuel pos pid c w = Some (Some pr, w') ->
    length (pr_data pr) = PAGE_SIZE.
Proof.
  induction fuel as [|fuel IH]; intros pos pid c w w' pr H; [discriminate|].
  rewrite snapshot_reverse_step in H.
  destruct (pos >? Z.of_nat PAGE_REC_SIZE); [|discriminate].
  cbv zeta in H.
  destruct (File.read PAGE_REC_SIZE _) as [buf wal2].
  destruct buf as [|b buf]; [discriminate|].
  destruct (_ && _).
  - injection H as <- _. apply decoded_page_sized.
  - eapply IH. exact H.
Qed.

Lemma length_read_page_from_db (d : list byte) (pid : Z) (out : list byte) :
  length out = PAGE_SIZE ->
  length (read_page_from_db d pid out) = PAGE_SIZE.
Proof.
  intros Hout. unfold read_page_from_db.
  pose proof (length_pread d (page_offset pid) PAGE_SIZE) as Hl.
  destruct (File.pread d (page_offset pid) PAGE_SIZE) as [|b got];
    [apply repeat_length|].
  rewrite length_app, length_skipn. lia.
Qed.

(** X26. A read hands back exactly one page. Whatever bytes the WAL
    and the data file hold, torn or not, and whatever the snapshot,
    [read_page_int] leaves [PAGE_SIZE] bytes in a buffer of [PAGE_SIZE]
    bytes when every cache slot holds a whole page, and so does the
    exported [read_page] in its static buffer, also for a null
    handle. *)
Theorem read_yields_whole_page (stale : nat -> nat -> byte) (s : State) :
  Forall (fun cp => length (data cp) = PAGE_SIZE) (cache s) ->
  (forall rx pid out,
      length out = PAGE_SIZE ->
      length (fst (read_page_int stale rx pid out s)) = PAGE_SIZE)
  /\ (forall txn pid,
         length (fst (read_page stale txn pid s)) = PAGE_SIZE).
Proof.
  intros Hc.
  assert (Hint : forall rx pid out,
             length out = PAGE_SIZE ->
             length (fst (read_page_int stale rx pid out s)) = PAGE_SIZE).
  { intros rx pid out Hout. unfold read_page_int.
    destruct (find_cached_page (cache s) pid) as [i|] eqn:Ef.
    - cbn [fst]. apply find_cached_page_some in Ef. destruct Ef as [Hi _].
      assert (Hd : length (data (nth i (cache s)
                                   (mkCachedPage 0 0 false [])))
                   = PAGE_SIZE).
      { apply (proj1 (Forall_forall _ _) Hc). now apply nth_In. }
      unfold memcpy. rewrite length_app, length_firstn, length_skipn. lia.
    - unfold wal_read_page, wal_find_page.
      destruct (snapshot_forward stale _ _ _ _ _) as [[c w1]|].
      + destruct (snapshot_reverse stale _ _ _ _ _) as [[[pr|] w2]|] eqn:Er;
          cbn [fst].
        * eapply snapshot_reverse_page_sized. exact Er.
        * now apply length_read_page_from_db.
        * now apply length_read_page_from_db.
      + cbn [fst]. now apply length_read_page_from_db. }
  split; [exact Hint|].
  intros [rx|] pid; unfold read_page.
  - apply Hint. apply repeat_length.
  - apply repeat_length.
Qed.

Lemma read_yields_whole_page_witness :
  Forall (fun cp => length (data cp) = PAGE_SIZE) (cache reopened)
  /\ length (fst (read_page zeroed (Some (mkReaderTxn 4120)) 0 reopened))
     = PAGE_SIZE.
Proof.
  assert (H : Forall (fun cp => length (data cp) = PAGE_SIZE)
                (cache reopened)).
  { replace (cache reopened) with (@nil CachedPage)
      by (vm_compute; reflexivity).
    constructor. }
  split; [exact H|].
  apply (proj2 (read_yields_whole_page zeroed reopened H)).
Defined.

(** ** What a checkpoint copies *)

Lemma checkpoint_replay_before_horizon (pre post : list WalRecord) :
  forall (pos safe : Z) (d : list byte),
    Forall wf_record pre ->
    pos + Z.of_nat (length (encode_log pre)) = to_off_t safe ->
    checkpoint_replay (pre ++ post) pos safe d
    = apply_writes (page_writes pre) d.
Proof.
  induction pre as [|r pre IH]; intros pos safe d Hwf Hpos.
  - cbn in Hpos. cbn [app page_writes flat_map apply_writes fold_left].
    destruct post as [|q post]; [reflexivity|]. cbn [checkpoint_replay].
    destruct (Z.ltb_spec pos (to_off_t safe)); [lia|reflexivity].
  - inversion Hwf as [|? ? Hr Hrs]; subst.
    rewrite encode_log_cons, length_app in Hpos.
    rewrite (length_encode_record r Hr) in Hpos.
    cbn [app checkpoint_replay].
    destruct (Z.ltb_spec pos (to_off_t safe)) as [_|Hbad].
    2:{ destruct r; unfold PAGE_REC_SIZE, COMMIT_REC_SIZE in Hpos; lia. }
    destruct r as [p|cr]; cbn [page_writes flat_map app].
    + rewrite apply_writes_cons. apply IH; [assumption|lia].
    + apply IH; [assumption|lia].
Qed.

(** X27. A checkpoint copies every page record below the horizon,
    committed or not. For a log of whole records [pre ++ post] and
    registered readers whose oldest snapshot is the end of [pre] (the
    WAL end [begin_read_txn] saw), [checkpoint_int] writes to the data
    file the page of each page record of [pre], in log order, whatever
    commit markers the log holds, and nothing of [post]. *)
Theorem checkpoint_copies_pages_before_horizon (stale : nat -> nat -> byte) (s : State)
    (pre post : list WalRecord) :
  File.content (wal s) = encode_log (pre ++ post) ->
  Forall wf_record pre -> Forall wf_record post ->
  oldest_reader_snapshot s = Z.of_nat (length (encode_log pre)) ->
  Z.of_nat (length (encode_log pre)) < 2 ^ 63 ->
  db (checkpoint_int stale s) = apply_writes (page_writes pre) (db s).
Proof.
  intros Hw Hpre Hpost Hsafe Hsz.
  assert (Hall : Forall wf_record (pre ++ post))
    by (apply Forall_app; split; assumption).
  unfold checkpoint_int.
  pose proof (checkpoint_scan_log stale (pre ++ post) (File.offset (wal s))
                (oldest_reader_snapshot s) (db s) Hall) as H.
  rewrite <- Hw in H.
  replace (File.mk (File.content (wal s)) (File.offset (wal s)))
    with (wal s) in H by (destruct (wal s); reflexivity).
  destruct (checkpoint_scan stale (oldest_reader_snapshot s) (wal s) (db s))
    as [w d]. cbn [snd] in H. cbn [with_db db]. rewrite H.
  apply checkpoint_replay_before_horizon; [exact Hpre|].
  rewrite Hsafe. unfold to_off_t.
  destruct (Z.ltb_spec (Z.of_nat (length (encode_log pre))) (2 ^ 63)); lia.
Qed.

Lemma checkpoint_copies_pages_before_horizon_witness :
  db (checkpoint_int zeroed after_torn_reader)
  = apply_writes (page_writes torn_log) (db after_torn_reader).
Proof.
  apply (checkpoint_copies_pages_before_horizon zeroed after_torn_reader
           torn_log []).
  - vm_compute. reflexivity.
  - repeat constructor; try discriminate; try apply repeat_length.
  - constructor.
  - vm_compute. reflexivity.
  - vm_compute. reflexivity.
Defined.

(** ** From a commit to the data file *)

Lemma page_writes_app (a b : list WalRecord) :
  page_writes (a ++ b) = page_writes a ++ page_writes b.
Proof. unfold page_writes. apply flat_map_app. Qed.

(** X28. The way committed pages reach the data file. In a process
    with no reader registered and the descriptor at the end of a log of
    whole records, a commit followed by [begin_read_txn] and a
    checkpoint leaves in the data file every page the log's page
    records carry, those of the transaction just committed last: the
    data file is the old one with the pages of the old records, then
    the pages the transaction staged, written in log order. *)
Theorem commit_then_checkpoint_reaches_data_file (stale : nat -> nat -> byte)
    (tx : WriteTxn) (s : State) (rs : list WalRecord) :
  File.content (wal s) = encode_log rs ->
  File.offset (wal s) = length (encode_log rs) ->
  Forall wf_record rs ->
  Forall (fun cp => is_u32 (page_id cp) /\ length (data cp) = PAGE_SIZE)
    (cache s) ->
  is_u32 (tx_id tx) ->
  reader_snapshots s = [] ->
  Z.of_nat (length (encode_log (rs ++ commit_records tx (cache s))))
  < 2 ^ 63 ->
  db (checkpoint_int stale (snd (begin_read_txn (commit_tx tx s))))
  = apply_writes
      (page_writes rs ++ page_writes (commit_page_records tx (cache s)))
      (db s).
Proof.
  intros Hc Ho Hwf Hcache Htx Hnone Hsz.
  set (new := commit_records tx (cache s)) in *.
  assert (Hnew : Forall wf_record new) by now apply commit_records_wf.
  assert (Hall : Forall wf_record (rs ++ new))
    by (apply Forall_app; split; assumption).
  destruct (commit_tx_log tx s) as [Hw Hdb]. fold new in Hw.
  assert (Hcontent : File.content (wal (commit_tx tx s))
                     = encode_log (rs ++ new)).
  { rewrite Hw. destruct (wal s) as [bytes off].
    cbn [File.content File.offset] in Hc, Ho. subst bytes off.
    rewrite write_at_end. symmetry. apply encode_log_app. }
  assert (Hreaders : reader_snapshots (commit_tx tx s) = []).
  { unfold commit_tx. destruct (commit_pages tx (cache s) (wal s)).
    exact Hnone. }
  set (s1 := commit_tx tx s) in *.
  set (s2 := snd (begin_read_txn s1)).
  assert (Hs2w : File.content (wal s2) = encode_log (rs ++ new ++ []))
    by (rewrite app_nil_r; exact Hcontent).
  assert (Hs2r : oldest_reader_snapshot s2
                 = Z.of_nat (length (encode_log (rs ++ new)))).
  { unfold s2, begin_read_txn, oldest_reader_snapshot, reader_count.
    rewrite Hreaders.
    cbn [File.lseek_end snd reader_snapshots length Nat.ltb Nat.leb
         MAX_READERS app fold_left].
    unfold File.size. rewrite Hcontent.
    destruct (Z.ltb_spec (Z.of_nat (length (encode_log (rs ++ new))))
                ULLONG_MAX) as [_|Hbad]; [reflexivity|].
    unfold ULLONG_MAX in Hbad. lia. }
  assert (Hs2d : db s2 = db s) by (unfold s2; cbn; exact Hdb).
  unfold checkpoint_int.
  pose proof (checkpoint_scan_log stale (rs ++ new) (File.offset (wal s2))
                (oldest_reader_snapshot s2) (db s2) Hall) as H.
  rewrite app_nil_r in Hs2w. rewrite <- Hs2w in H.
  replace (File.mk (File.content (wal s2)) (File.offset (wal s2)))
    with (wal s2) in H by (destruct (wal s2); reflexivity).
  destruct (checkpoint_scan stale (oldest_reader_snapshot s2) (wal s2)
              (db s2)) as [w d].
  cbn [snd] in H. cbn [with_db db]. rewrite H, Hs2d.
  rewrite <- (app_nil_r (rs ++ new)) at 1.
  rewrite checkpoint_replay_before_horizon.
  - rewrite page_writes_app. f_equal. f_equal.
    unfold new, commit_records. rewrite page_writes_app.
    cbn [page_writes flat_map commit_marker app]. apply app_nil_r.
  - exact Hall.
  - rewrite Hs2r. unfold to_off_t.
    destruct (Z.ltb_spec (Z.of_nat (length (encode_log (rs ++ new))))
                (2 ^ 63)); lia.
Qed.

Lemma commit_then_checkpoint_reaches_data_file_witness :
  db (checkpoint_int zeroed
        (snd (begin_read_txn (commit_tx (mkWriteTxn 1) staged))))
  = apply_writes
      (page_writes []
       ++ page_writes (commit_page_records (mkWriteTxn 1) (cache staged)))
      (db staged).
Proof.
  apply (commit_then_checkpoint_reaches_data_file zeroed (mkWriteTxn 1)
           staged []).
  - vm_compute. reflexivity.
  - vm_compute. reflexivity.
  - constructor.
  - replace (cache staged)
      with [mkCachedPage 0 1 true (page_of x01)]
      by (vm_compute; reflexivity).
    repeat constructor; try discriminate; try apply repeat_length.
  - repeat constructor; discriminate.
  - vm_compute. reflexivity.
  - replace (cache staged)
      with [mkCachedPage 0 1 true (page_of x01)]
      by (vm_compute; reflexivity).
    vm_compute. reflexivity.
Defined.
(** The clean run pairs every outer row with every inner row of the
    same key, inner keys repeated or not. *)
Lemma clean_join_pairs_every_match (value : Type)
    (loads : string -> option (HashJoin.dict value))
    (key_cstr : value -> option string)
    (dumps : HashJoin.dict value -> option string)
    (inner outer : list string) (inner_key outer_key : string) (size : Z) :
  (length (nodup string_dec
             (HashJoin.inner_keys value loads key_cstr inner_key inner))
   <= HashJoin.HASH_SIZE)%nat ->
  let r := HashJoin.clean_join value loads key_cstr dumps inner outer
             inner_key outer_key size in
  let want := JoinPairs.full_join value loads key_cstr dumps
                inner_key outer_key inner outer in
  JoinPairs.subseq (snd r) want
  /\ (HashJoin.bytes_needed want <= size ->
      r = (Z.of_nat (length want), want)).
Proof.
  intros Hkeys. cbv zeta. unfold HashJoin.clean_join.
  pose proof (JoinPairsFacts.build_multi value loads key_cstr inner_key
                inner HashJoin.empty_table []
                JoinPairsFacts.multi_inv_empty) as Hb.
  cbn [app] in Hb.
  destruct (HashJoin.clean_build value loads key_cstr inner_key inner
              HashJoin.empty_table) as [t|].
  2:{ rewrite JoinPairsFacts.firsts_count in Hb.
      rewrite <- JoinFacts.inner_keys_keyed in Hb. lia. }
  pose proof (JoinPairsFacts.output_ok_start size) as Hok0.
  destruct (JoinPairsFacts.probe_rows_multi value loads key_cstr dumps
              inner_key outer_key size inner t Hb outer _ Hok0)
    as (l & Hw & Hs & Hf).
  pose proof (JoinPairsFacts.probe_rows_ok value loads key_cstr dumps
                outer_key size t outer _ Hok0) as (_ & Hc & _).
  cbn [HashJoin.written HashJoin.out_pos app] in Hw, Hf.
  cbn [snd]. rewrite Hw. split; [exact Hs|].
  intros Hroom. rewrite Hc, Hw, (Hf ltac:(lia)). reflexivity.
Qed.

(** With more different keys than slots the clean build finds the table
    full. *)
Lemma clean_build_beyond_table_size (value : Type)
    (loads : string -> option (HashJoin.dict value))
    (key_cstr : value -> option string)
    (inner : list string) (inner_key : string) :
  (HashJoin.HASH_SIZE
   < length (nodup string_dec
               (HashJoin.inner_keys value loads key_cstr inner_key inner)))%nat ->
  HashJoin.clean_build value loads key_cstr inner_key inner
    HashJoin.empty_table
  = None.
Proof.
  intros Hkeys.
  pose proof (JoinPairsFacts.build_multi value loads key_cstr inner_key
                inner HashJoin.empty_table []
                JoinPairsFacts.multi_inv_empty) as Hb.
  cbn [app] in Hb.
  destruct (HashJoin.clean_build value loads key_cstr inner_key inner
              HashJoin.empty_table) as [t|]; [|reflexivity].
  apply JoinPairsFacts.multi_inv_room in Hb.
  rewrite JoinPairsFacts.firsts_count in Hb.
  rewrite <- JoinFacts.inner_keys_keyed in Hb. lia.
Qed.

(** The merges of the example rows are far below the range of
    [int]. *)
Lemma example_rows_fit (inner : list string) :
  inner = MiniJson.inner_example \/ inner = repeated_inner ->
  HashJoin.fits_int MiniJson.value MiniJson.loads MiniJson.dumps 1000
    inner MiniJson.outer_example.
Proof.
  intros Hinner ri ro di od out Hi Ho Hdi Hdo Hout.
  assert (Hi' : In ri (MiniJson.inner_example ++ repeated_inner)).
  { destruct Hinner; subst inner; apply in_or_app; auto. }
  clear Hi Hinner.
  unfold MiniJson.inner_example, repeated_inner in Hi'.
  cbn [app In] in Hi'.
  unfold MiniJson.outer_example in Ho. cbn [In] in Ho.
  repeat (destruct Hi' as [Hi'|Hi']); try (destruct Hi');
    repeat (destruct Ho as [Ho|Ho]); try (destruct Ho);
    vm_compute in Hdi; injection Hdi as <-;
    vm_compute in Hdo; injection Hdo as <-;
    vm_compute in Hout; injection Hout as <-;
    vm_compute; discriminate.
Qed.

(** X14. [hash_join] pairs every outer row with every inner row of the
    same key, inner keys repeated or not, as long as no Python call
    fails and the sizes stay within [int]. With at most [HASH_SIZE]
    different inner keys it returns, and the rows written are, for any
    buffer size, the full join with some rows left out (the ones that
    did not fit when their turn came), in the order outer row by outer
    row and inner rows in input order; with room for the full join they
    are the full join, and the count returned is its length. *)
Theorem hash_join_pairs_every_match (value : Type)
    (loads : string -> HashJoin.loaded value)
    (key_cstr : value -> option string)
    (dumps : HashJoin.dict value -> option string)
    (inner outer : list string) (inner_key outer_key : string) (size : Z) :
  Forall (HashJoin.quiet value loads key_cstr inner_key) inner ->
  Forall (HashJoin.quiet value loads key_cstr outer_key) outer ->
  (forall d, dumps d <> None) ->
  HashJoin.fits_int value loads dumps size inner outer ->
  (length (nodup string_dec
             (HashJoin.inner_keys value (HashJoin.row_dict loads) key_cstr
                inner_key inner))
   <= HashJoin.HASH_SIZE)%nat ->
  let want := JoinPairs.full_join value (HashJoin.row_dict loads) key_cstr
                dumps inner_key outer_key inner outer in
  exists r,
    HashJoin.hash_join value loads key_cstr dumps inner outer
      inner_key outer_key size = Some r
    /\ JoinPairs.subseq (snd r) want
    /\ (HashJoin.bytes_needed want <= size ->
        r = (Z.of_nat (length want), want)).
Proof.
  intros Hqi Hqo Hd Hfit Hkeys. cbv zeta.
  rewrite (CallFacts.hash_join_as_clean value loads key_cstr dumps inner
             outer inner_key outer_key size Hqi Hqo Hd Hfit).
  eexists. split; [reflexivity|].
  now apply clean_join_pairs_every_match.
Qed.

Lemma hash_join_pairs_every_match_witness :
  MiniJson.join repeated_inner MiniJson.outer_example "id" "id" 1000
  = Some
      (Z.of_nat
         (length (JoinPairs.full_join MiniJson.value
                    (HashJoin.row_dict MiniJson.loads)
                    MiniJson.key_cstr MiniJson.dumps "id" "id"
                    repeated_inner MiniJson.outer_example)),
       JoinPairs.full_join MiniJson.value (HashJoin.row_dict MiniJson.loads)
         MiniJson.key_cstr MiniJson.dumps "id" "id" repeated_inner
         MiniJson.outer_example).
Proof.
  unfold MiniJson.join.
  destruct (hash_join_pairs_every_match MiniJson.value MiniJson.loads
              MiniJson.key_cstr MiniJson.dumps repeated_inner
              MiniJson.outer_example "id" "id" 1000)
    as (r & H1 & _ & H3).
  - repeat constructor.
  - repeat constructor.
  - intros d. discriminate.
  - apply example_rows_fit. now right.
  - apply Nat.leb_le. vm_compute. reflexivity.
  - rewrite H1. f_equal. apply H3.
    apply Z.leb_le. vm_compute. reflexivity.
Defined.

(** X15. With more than [HASH_SIZE] different inner keys, however many
    rows carry them and whatever the outer rows and the buffer,
    [hash_join] returns 0 and writes nothing (its build finds the table
    full, unless a call has failed before, after which no outer row
    parses): that is what it returns if it returns, and it returns
    whenever every row is valid UTF-8. *)
Theorem hash_join_gives_nothing_beyond_table_size (value : Type)
    (loads : string -> HashJoin.loaded value)
    (key_cstr : value -> option string)
    (dumps : HashJoin.dict value -> option string)
    (inner outer : list string) (inner_key outer_key : string) (size : Z) :
  (HashJoin.HASH_SIZE
   < length (nodup string_dec
               (HashJoin.inner_keys value (HashJoin.row_dict loads)
                  key_cstr inner_key inner)))%nat ->
  (forall r,
      HashJoin.hash_join value loads key_cstr dumps inner outer
        inner_key outer_key size = Some r ->
      r = (0, []))
  /\ (forallb (HashJoin.is_text value loads) inner = true ->
      forallb (HashJoin.is_text value loads) outer = true ->
      HashJoin.hash_join value loads key_cstr dumps inner outer
        inner_key outer_key size
      = Some (0, [])).
Proof.
  intros Hkeys.
  assert (Hzero : forall r,
             HashJoin.hash_join value loads key_cstr dumps inner outer
               inner_key outer_key size = Some r ->
             r = (0, [])).
  { apply CallFacts.hash_join_full.
    now apply clean_build_beyond_table_size. }
  split; [exact Hzero|].
  intros Hi Ho.
  destruct (CallFacts.hash_join_returns value loads key_cstr dumps inner
              outer inner_key outer_key size Hi Ho) as (r & Hr).
  rewrite Hr. f_equal. now apply Hzero.
Qed.

Lemma hash_join_gives_nothing_beyond_table_size_witness :
  MiniJson.join MiniJson.many_inner MiniJson.outer_example "id" "id" 1000
  = Some (0, []).
Proof.
  unfold MiniJson.join.
  refine (proj2 (hash_join_gives_nothing_beyond_table_size MiniJson.value
                   MiniJson.loads MiniJson.key_cstr MiniJson.dumps
                   MiniJson.many_inner MiniJson.outer_example "id" "id"
                   1000 _) _ _).
  - rewrite nodup_fixed_point
      by (apply nodupb_sound; vm_compute; reflexivity).
    apply Nat.ltb_lt. vm_compute. reflexivity.
  - vm_compute. reflexivity.
  - vm_compute. reflexivity.
Defined.

(** X16. [hash_join] does not write past the end of its buffer and does
    not miscount, as long as the tests of the emit loop stay within
    [int]: when the buffer size and the dump of any inner row merged
    with any outer row, with its terminating zero, add up to [INT_MAX]
    at most, the count returned is the number of rows written, and the
    bytes of these rows, each with its terminating zero, fit in
    [output_buf_size] (no row is written when the size is negative).
    This holds whether or not a call fails on the way. *)
Theorem hash_join_stays_within_buffer (value : Type)
    (loads : string -> HashJoin.loaded value)
    (key_cstr : value -> option string)
    (dumps : HashJoin.dict value -> option string)
    (inner outer : list string) (inner_key outer_key : string) (size : Z)
    (r : Z * list string) :
  HashJoin.fits_int value loads dumps size inner outer ->
  HashJoin.hash_join value loads key_cstr dumps inner outer
    inner_key outer_key size = Some r ->
  fst r = Z.of_nat (length (snd r))
  /\ HashJoin.bytes_needed (snd r) <= Z.max 0 size
  /\ (size < 0 -> snd r = []).
Proof.
  intros Hfit. unfold HashJoin.hash_join.
  destruct (HashJoin.build value loads key_cstr inner_key inner
              HashJoin.Clear HashJoin.empty_table) as [[t e]|] eqn:E.
  2:{ intros H. injection H as <-. cbn. repeat split; lia. }
  pose proof (CallFacts.build_stored_from value loads key_cstr inner
                inner_key inner HashJoin.Clear HashJoin.empty_table t e
                (fun r H => H)
                (CallFacts.stored_from_empty value loads inner) E) as Hst.
  pose proof (CallFacts.probe_rows_output_ok value loads key_cstr dumps
                inner outer outer_key size t outer
                (HashJoin.mkOutput 0 0 []) e Hfit Hst (fun r H => H)
                (JoinPairsFacts.output_ok_start size)) as (Hp & Hc & Hb).
  destruct (fold_left _ outer _) as [o st'].
  cbn [fst] in Hp, Hc, Hb.
  destruct (HashJoin.has_crashed st'); [discriminate|].
  intros H. injection H as <-.
  cbn [fst snd]. split; [exact Hc|]. split; [now rewrite <- Hp|].
  intros Hneg. rewrite Hp in Hb.
  destruct (HashJoin.written o) as [|x l]; [reflexivity|].
  exfalso. unfold HashJoin.bytes_needed in Hb. cbn [fold_right] in Hb.
  pose proof (JoinFacts.bytes_needed_nonneg l) as Hn.
  unfold HashJoin.bytes_needed in Hn.
  pose proof (Nat2Z.is_nonneg (String.length x)) as Hx.
  unfold HashJoin.strlen in Hb at 1. lia.
Qed.

Lemma hash_join_stays_within_buffer_witness :
  2 = Z.of_nat (length (JoinPairs.full_join MiniJson.value
                          (HashJoin.row_dict MiniJson.loads)
                          MiniJson.key_cstr MiniJson.dumps "id" "id"
                          MiniJson.inner_example MiniJson.outer_example))
  /\ HashJoin.bytes_needed
       (JoinPairs.full_join MiniJson.value
          (HashJoin.row_dict MiniJson.loads) MiniJson.key_cstr
          MiniJson.dumps "id" "id" MiniJson.inner_example
          MiniJson.outer_example)
     <= Z.max 0 1000.
Proof.
  destruct (hash_join_stays_within_buffer MiniJson.value MiniJson.loads
              MiniJson.key_cstr MiniJson.dumps MiniJson.inner_example
              MiniJson.outer_example "id" "id" 1000
              (2, JoinPairs.full_join MiniJson.value
                    (HashJoin.row_dict MiniJson.loads) MiniJson.key_cstr
                    MiniJson.dumps "id" "id" MiniJson.inner_example
                    MiniJson.outer_example)) as (H1 & H2 & _).
  - apply example_rows_fit. now left.
  - vm_compute. reflexivity.
  - split; [exact H1|exact H2].
Defined.

(** X17. The [rows] array of a slot never overflows its allocation.
    In a table whose slots all satisfy [entry_ok] (free slots hold no
    row; a filled slot holds between 1 and [cap] rows, [cap] being
    [INIT_CAP] doubled some number of times), storing one more row at
    any index leaves every slot so, and so does a whole build that does
    not abort, which also keeps the number of slots. *)
Theorem rows_arrays_have_room (value : Type)
    (loads : string -> HashJoin.loaded value)
    (key_cstr : value -> option string)
    (t : list HashJoin.HashEntry) :
  Forall JoinPairs.entry_ok t ->
  (forall i k row,
      Forall JoinPairs.entry_ok (HashJoin.store_row t i k row))
  /\ (forall field rs st t' st',
         HashJoin.build value loads key_cstr field rs st t
         = Some (t', st') ->
         Forall JoinPairs.entry_ok t' /\ length t' = length t).
Proof.
  intros H. split.
  - intros i k row. now apply JoinPairsFacts.store_row_entry_ok.
  - intros field rs st t' st'.
    now apply (CallFacts.build_entries value loads key_cstr).
Qed.

Lemma rows_arrays_have_room_witness :
  Forall JoinPairs.entry_ok HashJoin.empty_table
  /\ (forall i k row,
         Forall JoinPairs.entry_ok
           (HashJoin.store_row HashJoin.empty_table i k row)).
Proof.
  assert (H : Forall JoinPairs.entry_ok HashJoin.empty_table).
  { apply Forall_forall. intros e He. apply repeat_spec in He.
    subst e. reflexivity. }
  split; [exact H|].
  apply (rows_arrays_have_room MiniJson.value MiniJson.loads
           MiniJson.key_cstr HashJoin.empty_table H).
Defined.

(** X18. Linear probing stays inside the table and ends. On any
    table, the loop started at the key's slot returns within
    [HASH_SIZE] steps; it answers with a slot below [HASH_SIZE] that
    is free or holds the key, the first such slot on the way from the
    key's own slot, every slot before it holding another key; and it
    reports a full table only when each of the [HASH_SIZE] slots holds
    another key. *)
Theorem probing_ends_inside_the_table (t : list HashJoin.HashEntry)
    (k : string) :
  HashJoin.probe_loop HashJoin.HASH_SIZE t k (HashJoin.slot_of k)
    (HashJoin.slot_of k)
  = Some (HashJoin.probe t k)
  /\ match HashJoin.probe t k with
     | HashJoin.Stop i =>
         (i < HashJoin.HASH_SIZE)%nat
         /\ HashJoin.ends_probe t k i
         /\ exists n,
              (n < HashJoin.HASH_SIZE)%nat
              /\ i = HashJoin.probe_pos (HashJoin.slot_of k) n
              /\ forall j, (j < n)%nat ->
                   HashJoin.held_by_other t k
                     (HashJoin.probe_pos (HashJoin.slot_of k) j)
     | HashJoin.Full =>
         forall i, (i < HashJoin.HASH_SIZE)%nat ->
                   HashJoin.held_by_other t k i
     end.
Proof.
  split.
  - pose proof (ProbeFacts.slot_of_lt k) as Hs.
    destruct (ProbeFacts.probe_loop_result t k (HashJoin.slot_of k) Hs
                HashJoin.HASH_SIZE 0 ltac:(lia) ProbeFacts.HASH_SIZE_pos)
      as (r & Hr & _).
    rewrite ProbeFacts.probe_pos_0 in Hr by exact Hs.
    unfold HashJoin.probe. now rewrite Hr.
  - pose proof (ProbeFacts.probe_result t k) as H.
    destruct (HashJoin.probe t k) as [i|]; [|exact H].
    destruct H as (n & Hn & Hi & He & Hpre).
    split; [subst i; apply ProbeFacts.probe_pos_lt|].
    split; [exact He|]. exists n. auto.
Qed.

(** ** The hash function *)

Lemma hash_from_djb2 (s : string) :
  forall h h' : Z,
    h = h' mod U64_MOD ->
    HashJoin.hash_from h s = djb2 h' s mod U64_MOD.
Proof.
  induction s as [|c s IH]; intros h h' Hh; [exact Hh|].
  cbn [HashJoin.hash_from djb2]. apply IH.
  unfold HashJoin.wrap64. rewrite Z.shiftl_mul_pow2 by lia.
  assert (HU : U64_MOD <> 0) by (unfold U64_MOD; lia).
  rewrite Z.add_mod_idemp_l by exact HU.
  rewrite <- Z.add_assoc, Z.add_mod_idemp_l by exact HU.
  subst h. rewrite (Z.mod_eq h' U64_MOD) by exact HU.
  replace ((h' - U64_MOD * (h' / U64_MOD)) * 2 ^ 5
           + (h' - U64_MOD * (h' / U64_MOD) + HashJoin.int_of_char c))
    with (h' * 33 + HashJoin.int_of_char c
          + (-33 * (h' / U64_MOD)) * U64_MOD)
    by (change (2 ^ 5) with 32; ring).
  apply Z_mod_plus_full.
Qed.

(** X20. [hash_str] is djb2 on 64 bits: the wrap-arounds of the loop
    amount to one reduction modulo 2^64 of the exact value
    [(...((5381 * 33 + c1) * 33 + c2)...) * 33 + cn], a character
    counting as a signed [char] (128 to 255 as -128 to -1); so the
    hash is below 2^64, one more character [c] takes a hash [h] to
    [(33 * h + c) mod 2^64], and the slot it selects lies in the
    table. *)
Theorem hash_str_is_djb2 (s : string) (c : ascii) :
  HashJoin.hash_str s = djb2 5381 s mod U64_MOD
  /\ 0 <= HashJoin.hash_str s < U64_MOD
  /\ HashJoin.hash_str (s ++ String c EmptyString)
     = (33 * HashJoin.hash_str s + HashJoin.int_of_char c) mod U64_MOD
  /\ -128 <= HashJoin.int_of_char c <= 127
  /\ (HashJoin.slot_of s < HashJoin.HASH_SIZE)%nat.
Proof.
  assert (HU : 0 < U64_MOD) by (unfold U64_MOD; lia).
  assert (H0 : forall x, HashJoin.hash_str x = djb2 5381 x mod U64_MOD).
  { intros x. unfold HashJoin.hash_str. apply hash_from_djb2. reflexivity. }
  assert (Happ : forall x h,
             djb2 h (x ++ String c EmptyString)
             = djb2 h x * 33 + HashJoin.int_of_char c).
  { induction x as [|a x IH]; intros h; [reflexivity|].
    cbn [append djb2]. apply IH. }
  split; [apply H0|]. split; [rewrite H0; now apply Z.mod_pos_bound|].
  split.
  - rewrite !H0, Happ.
    rewrite <- (Z.add_mod_idemp_l (djb2 5381 s * 33)) by lia.
    rewrite <- (Z.add_mod_idemp_l (33 * _)) by lia.
    f_equal. f_equal. rewrite Z.mul_mod_idemp_r by lia.
    f_equal. lia.
  - split; [|apply ProbeFacts.slot_of_lt].
    unfold HashJoin.int_of_char.
    pose proof (Nat2Z.is_nonneg (nat_of_ascii c)).
    pose proof (nat_ascii_bounded c).
    destruct (Z.ltb_spec (Z.of_nat (nat_of_ascii c)) 128); lia.
Qed.

(** The loops of the clean run have no exit for a full table. *)
Lemma clean_pickle_join_never_returns_on_full_table (value : Type)
    (loads : list byte -> option (HashJoin.dict value))
    (as_long : value -> option Z)
    (dumps : HashJoin.dict value -> option (list byte))
    (fuel : nat) (inner outer : list (list byte))
    (inner_key outer_key : string) (size : Z) :
  PickleJoin.keys_indexable value loads as_long inner_key inner = true ->
  PickleJoin.keys_indexable value loads as_long outer_key outer = true ->
  ((PickleJoin.HASH_TABLE_SIZE
    < length (nodup Z.eq_dec
                (map fst (PickleJoin.keyed value loads as_long inner_key
                            inner))))%nat ->
   PickleJoin.clean_pickle_join value loads as_long dumps fuel inner outer
     inner_key outer_key size = PickleJoin.Runs)
  /\ (length (nodup Z.eq_dec
                (map fst (PickleJoin.keyed value loads as_long inner_key
                            inner)))
      = PickleJoin.HASH_TABLE_SIZE ->
      (exists p k r,
          In p outer
          /\ PickleJoin.page_key value loads as_long outer_key p
             = Some (k, r)
          /\ PickleJoin.first_with k
               (PickleJoin.keyed value loads as_long inner_key inner)
             = None) ->
      PickleJoin.clean_pickle_join value loads as_long dumps fuel inner outer
        inner_key outer_key size = PickleJoin.Runs).
Proof.
  intros Hin Hout. unfold PickleJoin.clean_pickle_join.
  rewrite <- PickleFacts.keys_seen_count.
  pose proof (PickleFacts.pickle_build_ok value loads as_long fuel inner_key inner
                PickleJoin.zeroed_table [] (PickleFacts.empty_table_ok value)
                Hin) as Hb.
  cbn [app] in Hb.
  destruct (PickleJoin.clean_build_pages value loads as_long fuel inner_key inner
              PickleJoin.zeroed_table) as [t| |]; cbn [PickleJoin.bind].
  - split.
    + intros Hmany. apply PickleFacts.table_ok_room in Hb. lia.
    + intros Hfull Hex.
      rewrite (PickleFacts.probe_rows_runs value loads as_long dumps fuel
                 inner_key outer_key size inner t Hb Hfull outer _ Hout Hex).
      reflexivity.
  - contradiction.
  - split; reflexivity.
Qed.



(** X22. The loops of the hash join on pickled pages have no exit for
    a full table. When no call raises on any page and every key selects
    a slot, then, whatever number of iterations the loops are given:
    with more than 1024 different inner keys the build never returns;
    and with exactly 1024, the probe of an outer row whose key no inner
    row carries never returns. *)
Theorem pickle_join_never_returns_on_full_table (value : Type)
    (loads : list byte -> PickleJoin.unpickled value)
    (as_long : value -> option Z)
    (dumps : HashJoin.dict value -> option (list byte))
    (fuel : nat) (inner outer : list (list byte))
    (inner_key outer_key : string) (size : Z) :
  PickleJoin.all_quiet value loads as_long inner_key inner = true ->
  PickleJoin.all_quiet value loads as_long outer_key outer = true ->
  (forall d, dumps d <> None) ->
  PickleJoin.keys_indexable value (PickleJoin.page_dict loads) as_long
    inner_key inner = true ->
  PickleJoin.keys_indexable value (PickleJoin.page_dict loads) as_long
    outer_key outer = true ->
  ((PickleJoin.HASH_TABLE_SIZE
    < length (nodup Z.eq_dec
                (map fst (PickleJoin.keyed value
                            (PickleJoin.page_dict loads) as_long inner_key
                            inner))))%nat ->
   PickleJoin.hash_join value loads as_long dumps fuel inner outer
     inner_key outer_key size = PickleJoin.Runs)
  /\ (length (nodup Z.eq_dec
                (map fst (PickleJoin.keyed value
                            (PickleJoin.page_dict loads) as_long inner_key
                            inner)))
      = PickleJoin.HASH_TABLE_SIZE ->
      (exists p k r,
          In p outer
          /\ PickleJoin.page_key value (PickleJoin.page_dict loads) as_long
               outer_key p
             = Some (k, r)
          /\ PickleJoin.first_with k
               (PickleJoin.keyed value (PickleJoin.page_dict loads) as_long
                  inner_key inner)
             = None) ->
      PickleJoin.hash_join value loads as_long dumps fuel inner outer
        inner_key outer_key size = PickleJoin.Runs).
Proof.
  intros Hqi Hqo Hd Hin Hout.
  rewrite (PickleCallFacts.pickle_join_as_clean value loads as_long dumps
             fuel inner outer inner_key outer_key size Hqi Hqo Hd).
  now apply clean_pickle_join_never_returns_on_full_table.
Qed.

Lemma pickle_join_never_returns_on_full_table_witness :
  ToyPickle.toy_join (PickleJoin.HASH_TABLE_SIZE * PickleJoin.HASH_TABLE_SIZE)
    ToyPickle.toy_many_inner ToyPickle.toy_outer "id" "id" 100
  = PickleJoin.Runs.
Proof.
  unfold ToyPickle.toy_join.
  refine (proj1 (pickle_join_never_returns_on_full_table ToyPickle.toy_value
                   ToyPickle.toy_loads ToyPickle.toy_as_long ToyPickle.toy_dumps
                   (PickleJoin.HASH_TABLE_SIZE * PickleJoin.HASH_TABLE_SIZE)
                   ToyPickle.toy_many_inner ToyPickle.toy_outer "id" "id"
                   100 _ _ _ _ _) _).
  - vm_compute. reflexivity.
  - vm_compute. reflexivity.
  - intros d. discriminate.
  - vm_compute. reflexivity.
  - vm_compute. reflexivity.
  - apply Nat.ltb_lt. vm_compute. reflexivity.
Defined.

(** X23. Which pages the hash join on pickled pages passes over, and
    which stop it. A page is passed over, the join going on as if it
    were not there, when its first byte is zero, when [pickle.loads]
    returns something that is no dictionary, and when the field is
    missing, holds no integer or holds -1: [hash_join] gives the same
    outcome with these pages taken out. A page on which [pickle.loads]
    raises, or whose field holds an integer outside the range of
    [int64_t] (for which [PyLong_AsLongLong] raises), is skipped with
    the error left set; no later page yields a row then, so a join with
    such an inner page, if it returns, returns 0 and has written
    nothing. The result of [get_dict_int] always lies in the range of
    [int64_t]. *)
Theorem pickle_join_skips_rows_without_key (value : Type)
    (loads : list byte -> PickleJoin.unpickled value)
    (as_long : value -> option Z)
    (dumps : HashJoin.dict value -> option (list byte))
    (fuel : nat) (inner outer : list (list byte))
    (inner_key outer_key : string) (size : Z) :
  PickleJoin.hash_join value loads as_long dumps fuel inner outer
    inner_key outer_key size
  = PickleJoin.hash_join value loads as_long dumps fuel
      (filter (fun p => negb (PickleJoin.passed_over value loads as_long
                                inner_key p)) inner)
      (filter (fun p => negb (PickleJoin.passed_over value loads as_long
                                outer_key p)) outer)
      inner_key outer_key size
  /\ (forall field page,
         nth 0 page x00 = x00 ->
         PickleJoin.passed_over value loads as_long field page = true)
  /\ (forall field page,
         loads (firstn PAGE_SIZE page) = PickleJoin.Other ->
         PickleJoin.passed_over value loads as_long field page = true)
  /\ (forall field page d,
         loads (firstn PAGE_SIZE page) = PickleJoin.Row d ->
         match HashJoin.dict_get d field with
         | None => True
         | Some v =>
           match as_long v with
           | None => True
           | Some z => z = -1
           end
         end ->
         PickleJoin.passed_over value loads as_long field page = true)
  /\ (forall field page,
         nth 0 page x00 <> x00 ->
         loads (firstn PAGE_SIZE page) = PickleJoin.Fails
         \/ (exists d v z,
                loads (firstn PAGE_SIZE page) = PickleJoin.Row d
                /\ HashJoin.dict_get d field = Some v
                /\ as_long v = Some z
                /\ (z < PickleJoin.INT64_MIN \/ PickleJoin.INT64_MAX < z)) ->
         PickleJoin.read_row value loads as_long field page false
         = (None, true))
  /\ (forall bad r,
         In bad inner ->
         snd (PickleJoin.read_row value loads as_long inner_key bad false)
         = true ->
         PickleJoin.hash_join value loads as_long dumps fuel inner outer
           inner_key outer_key size
         = PickleJoin.Returns r ->
         r = (0, []))
  /\ (forall r field,
         PickleJoin.INT64_MIN
         <= fst (PickleJoin.get_dict_int value as_long r field)
         <= PickleJoin.INT64_MAX).
Proof.
  split; [|split; [|split; [|split; [|split; [|split]]]]].
  - unfold PickleJoin.hash_join.
    rewrite (PickleCallFacts.build_pages_filter value loads as_long fuel
               inner_key inner).
    destruct (PickleJoin.build_pages value loads as_long fuel inner_key _ _)
      as [[t e]| |]; cbn [PickleJoin.bind fst snd]; try reflexivity.
    now rewrite (PickleCallFacts.probe_pages_filter value loads as_long
                   dumps fuel outer_key size t outer).
  - intros field page H.
    unfold PickleJoin.passed_over, PickleJoin.read_row,
      PickleJoin.unpickle_page.
    rewrite H. reflexivity.
  - intros field page H.
    unfold PickleJoin.passed_over, PickleJoin.read_row,
      PickleJoin.unpickle_page.
    rewrite H. destruct (Byte.eqb (nth 0 page x00) x00); reflexivity.
  - intros field page d Hd H.
    unfold PickleJoin.passed_over, PickleJoin.read_row,
      PickleJoin.unpickle_page.
    rewrite Hd. destruct (Byte.eqb (nth 0 page x00) x00); [reflexivity|].
    unfold PickleJoin.get_dict_int.
    destruct (HashJoin.dict_get d field) as [v|]; [|reflexivity].
    destruct (as_long v) as [z|]; [|reflexivity].
    subst z. reflexivity.
  - intros field page Hb H.
    unfold PickleJoin.read_row, PickleJoin.unpickle_page.
    destruct (Byte.eqb (nth 0 page x00) x00) eqn:E;
      [now apply Byte.byte_dec_bl in E|].
    destruct H as [H|(d & v & z & Hd & Hv & Hz & Hr)].
    + rewrite H. reflexivity.
    + rewrite Hd. unfold PickleJoin.get_dict_int. rewrite Hv, Hz.
      unfold PickleJoin.INT64_MIN, PickleJoin.INT64_MAX in *.
      destruct (Z.leb_spec (- 2 ^ 63) z), (Z.leb_spec z (2 ^ 63 - 1));
        cbn [andb]; try reflexivity; lia.
  - intros bad r Hin Hbad. unfold PickleJoin.hash_join.
    destruct (PickleJoin.build_pages value loads as_long fuel inner_key
                inner (PickleJoin.zeroed_table, false))
      as [[t e]| |] eqn:E; cbn [PickleJoin.bind fst snd];
      try discriminate.
    rewrite (PickleCallFacts.build_pages_after_raise value loads as_long
               fuel inner_key bad inner _ _ t e Hin Hbad E).
    rewrite PickleCallFacts.probe_pages_poisoned. cbn [PickleJoin.bind].
    intros H. now injection H as <-.
  - intros r field. apply PickleCallFacts.get_dict_int_in_range.
Qed.



(** X25. A negative key indexes past the table. For a key in the
    range of [int64_t], the start index [key % HASH_TABLE_SIZE] taken
    as a [size_t] is a slot of the table exactly when the key is not
    negative or is a multiple of 1024; for any other key it lies in the
    last 1023 values below 2^64, the first access of the loop is past
    the end of the table, and so is that of a join whose first inner
    page carries such a key. *)
Theorem negative_keys_index_past_the_table (value : Type)
    (loads : list byte -> PickleJoin.unpickled value)
    (as_long : value -> option Z)
    (dumps : HashJoin.dict value -> option (list byte)) (k : Z) :
  PickleJoin.INT64_MIN <= k <= PickleJoin.INT64_MAX ->
  (PickleJoin.indexable k = true <-> 0 <= k \/ Z.rem k 1024 = 0)
  /\ (PickleJoin.indexable k = false ->
      U64_MOD - 1024 < PickleJoin.start_index k < U64_MOD
      /\ (forall fuel (t : list (PickleJoin.HashEntry value)),
             PickleJoin.locate fuel t k = PickleJoin.OutOfBounds)
      /\ (forall fuel page rest outer inner_key outer_key size r,
             PickleJoin.page_key value (PickleJoin.page_dict loads) as_long
               inner_key page
             = Some (k, r) ->
             PickleJoin.hash_join value loads as_long dumps fuel
               (page :: rest) outer inner_key outer_key size
             = PickleJoin.OutOfBounds)).
Proof.
  intros Hk. destruct (PickleFacts.indexable_spec k Hk) as [H1 H2].
  split; [exact H1|]. intros Hno. split; [now apply H2|].
  assert (Hloc : forall fuel (t : list (PickleJoin.HashEntry value)),
             PickleJoin.locate fuel t k = PickleJoin.OutOfBounds).
  { intros fuel t. unfold PickleJoin.locate. now rewrite Hno. }
  split; [exact Hloc|].
  intros fuel page rest outer inner_key outer_key size r Hp.
  unfold PickleJoin.hash_join. cbn [PickleJoin.build_pages].
  unfold PickleJoin.build_page.
  rewrite (PickleCallFacts.read_row_of_page_key value loads as_long
             inner_key page k r Hp).
  rewrite Hloc. reflexivity.
Qed.

Lemma negative_keys_index_past_the_table_witness :
  (PickleJoin.indexable (-5) = true <-> 0 <= -5 \/ Z.rem (-5) 1024 = 0)
  /\ (PickleJoin.indexable (-5) = false ->
      U64_MOD - 1024 < PickleJoin.start_index (-5) < U64_MOD).
Proof.
  destruct (negative_keys_index_past_the_table ToyPickle.toy_value
              ToyPickle.toy_loads ToyPickle.toy_as_long ToyPickle.toy_dumps (-5))
    as [H1 H2].
  - unfold PickleJoin.INT64_MIN, PickleJoin.INT64_MAX. lia.
  - split; [exact H1|]. intros H. now apply H2.
Defined.
